(** * torch/_inductor/codegen/cpp.py: scalar and vector kernels, the
      vectorization checker, loop splitting and work sharing

    A shallow embedding of the C++ code generator.  The generator builds
    text; the functions below build the same text as [string]s.  Where a
    property speaks about what the generated statements compute, the
    statement is also given as a small syntax tree whose printer yields
    the generated text, and the tree is given a meaning over C++ values. *)

From Stdlib Require Import ZArith List String Ascii Bool Lia.
From Stdlib Require Import Numbers.DecimalString Floats.SpecFloat.
From Stdlib Require DecimalZ FinFun.
Import ListNotations.

Set Warnings "-register-all".

Local Open Scope string_scope.
Local Open Scope list_scope.
Local Open Scope Z_scope.

(** ** Python values and exceptions *)

Inductive exn : Type :=
| AssertionError
| NotImplementedError
| ZeroDivisionError
| IndexError
| KeyError
| TypeError
| OverflowError.

(** A call either returns or raises. *)
Definition result (A : Type) : Type := (A + exn)%type.

Definition ret {A} (a : A) : result A := inl a.
Definition raise {A} (e : exn) : result A := inr e.

Definition bind {A B} (m : result A) (k : A -> result B) : result B :=
  match m with
  | inl a => k a
  | inr e => inr e
  end.

Notation "x <- m ;; k" := (bind m (fun x => k))
  (at level 61, m at next level, right associativity).

Definition assert (b : bool) : result unit :=
  if b then ret tt else raise AssertionError.

(** f-strings are concatenations of their pieces. *)
Definition fstr (pieces : list string) : string := String.concat "" pieces.

(** [str(n)] for a Python int. *)
Definition str_int (n : Z) : string := NilEmpty.string_of_int (Z.to_int n).

(** [sub in s] for strings. *)
Fixpoint contains (sub s : string) : bool :=
  if String.prefix sub s then true
  else match s with
       | EmptyString => false
       | String _ rest => contains sub rest
       end.

(** [x in xs] for a tuple, list or set of strings. *)
Definition str_in (x : string) (xs : list string) : bool :=
  existsb (String.eqb x) xs.

(** The value [reduction_init] hands back: the int [0] or a piece of text. *)
Inductive pyobj : Type :=
| PyInt (n : Z)
| PyStr (s : string).

Definition py_str (v : pyobj) : string :=
  match v with
  | PyInt n => str_int n
  | PyStr s => s
  end.

(** ** Python numbers

    A Python [int] is an integer without bound.  A Python [float] is an
    IEEE 754 binary64 number: 53 bits of precision, exponents below
    1024, with signed zeros, infinities and NaN.  The operations are
    those of CPython on the two types, as far as [decide_parallel_depth]
    uses them: true division, floor division and comparison with an
    [int]. *)

Module float.

Definition prec : Z := 53.
Definition emax : Z := 1024.

Definition t : Type := spec_float.

Definition zero : t := S754_zero false.
Definition one : t := S754_finite false 4503599627370496 (-52).
Definition half : t := S754_finite false 4503599627370496 (-53).

Definition add : t -> t -> t := SFadd prec emax.
Definition sub : t -> t -> t := SFsub prec emax.
Definition div : t -> t -> t := SFdiv prec emax.
Definition eqb : t -> t -> bool := SFeqb.
Definition ltb : t -> t -> bool := SFltb.

(** The float nearest to the integer [z], ties to even; an infinity
    when [z] is beyond the largest float. *)
Definition of_Z (z : Z) (szero : bool) : t :=
  binary_normalize prec emax z 0 szero.

Definition is_infinite (f : t) : bool :=
  match f with
  | S754_infinity _ => true
  | _ => false
  end.

Definition signbit (f : t) : bool :=
  match f with
  | S754_zero s | S754_infinity s | S754_finite s _ _ => s
  | S754_nan => false
  end.

(** C's [fmod(x, y)]: [x - n * y] for [n] the quotient rounded towards
    zero; the result is exact and has the sign of [x]. *)
Definition fmod (x y : t) : t :=
  match x, y with
  | S754_nan, _ | _, S754_nan => S754_nan
  | S754_infinity _, _ => S754_nan
  | _, S754_zero _ => S754_nan
  | S754_zero _, _ => x
  | S754_finite _ _ _, S754_infinity _ => x
  | S754_finite sx mx ex, S754_finite _ my ey =>
      let e := Z.min ex ey in
      let r := (Zpos mx * 2 ^ (ex - e)) mod (Zpos my * 2 ^ (ey - e)) in
      binary_normalize prec emax (if sx then - r else r) e sx
  end.

(** C's [floor(x)]. *)
Definition floor (x : t) : t :=
  match x with
  | S754_finite s m e =>
      if 0 <=? e then x
      else of_Z ((if s then Zneg m else Zpos m) / 2 ^ (- e)) s
  | _ => x
  end.

(** [f < z] for a float and an int, which Python decides on the exact
    values. *)
Definition lt_int (f : t) (z : Z) : bool :=
  match f with
  | S754_nan => false
  | S754_infinity s => s
  | S754_zero _ => 0 <? z
  | S754_finite s m e =>
      let v := if s then Zneg m else Zpos m in
      if 0 <=? e then v * 2 ^ e <? z else v <? z * 2 ^ (- e)
  end.

End float.

Inductive number : Type :=
| Int (z : Z)
| Float (f : float.t).

(** [float(z)] as the arithmetic operators convert an [int] operand:
    rounded to nearest, ties to even; an [int] beyond the floats
    raises. *)
Definition int_to_float (z : Z) : result float.t :=
  let f := float.of_Z z false in
  if float.is_infinite f then raise OverflowError else ret f.

(** An integer as significand with exponent 0, not rounded. *)
Definition int_significand (z : Z) : float.t :=
  match z with
  | Z0 => S754_zero false
  | Zpos p => S754_finite false p 0
  | Zneg p => S754_finite true p 0
  end.

(** [a / b] for two ints: the quotient of the exact values, rounded
    once. *)
Definition int_true_divide (a b : Z) : result float.t :=
  if b =? 0 then raise ZeroDivisionError
  else
    let f := float.div (int_significand a) (int_significand b) in
    if float.is_infinite f then raise OverflowError else ret f.

(** [vx / wx] for two floats; an overflow gives an infinity and does
    not raise. *)
Definition float_div (vx wx : float.t) : result float.t :=
  if float.eqb wx float.zero then raise ZeroDivisionError
  else ret (float.div vx wx).

(** The quotient and remainder behind [//] and [%] on floats, for
    [wx] other than zero. *)
Definition float_div_mod (vx wx : float.t) : float.t * float.t :=
  let mod0 := float.fmod vx wx in
  let div0 := float.div (float.sub vx mod0) wx in
  let '(mod1, div1) :=
    if negb (float.eqb mod0 float.zero) then
      (* ensure the remainder has the same sign as the denominator *)
      if xorb (float.ltb wx float.zero) (float.ltb mod0 float.zero)
      then (float.add mod0 wx, float.sub div0 float.one)
      else (mod0, div0)
    else (S754_zero (float.signbit wx), div0) in
  let floordiv :=
    if negb (float.eqb div1 float.zero) then
      (* snap quotient to nearest integral value *)
      let fl := float.floor div1 in
      if float.ltb float.half (float.sub div1 fl)
      then float.add fl float.one else fl
    else S754_zero (float.signbit (float.div vx wx)) in
  (floordiv, mod1).

Definition float_floor_div (vx wx : float.t) : result float.t :=
  if float.eqb wx float.zero then raise ZeroDivisionError
  else ret (fst (float_div_mod vx wx)).

(** [a // b], [a / b] and [a < b] for a number [a] and an int [b]. *)
Definition py_floordiv (a : number) (b : Z) : result number :=
  match a with
  | Int x => if b =? 0 then raise ZeroDivisionError else ret (Int (x / b))
  | Float f =>
      w <- int_to_float b ;;
      q <- float_floor_div f w ;;
      ret (Float q)
  end.

Definition py_truediv (a : number) (b : Z) : result number :=
  match a with
  | Int x => q <- int_true_divide x b ;; ret (Float q)
  | Float f =>
      w <- int_to_float b ;;
      q <- float_div f w ;;
      ret (Float q)
  end.

Definition py_lt (a : number) (b : Z) : bool :=
  match a with
  | Int x => x <? b
  | Float f => float.lt_int f b
  end.

(** ** Element types *)

Module torch.

Inductive dtype : Type :=
| float32 | float64 | float16
| int64 | int32 | int16 | int8 | uint8
| bool | bfloat16.

(** [torch.float] is an alias of [torch.float32]. *)
Definition float : dtype := float32.

Definition dtype_eqb (a b : dtype) : Datatypes.bool :=
  match a, b with
  | float32, float32 | float64, float64 | float16, float16
  | int64, int64 | int32, int32 | int16, int16 | int8, int8
  | uint8, uint8 | bool, bool | bfloat16, bfloat16 => true
  | _, _ => false
  end.

End torch.

Definition dtype_in (d : torch.dtype) (ds : list torch.dtype) : bool :=
  existsb (torch.dtype_eqb d) ds.

(** Modelled from the spec: [is_float_dtype] of [torch._prims_common],
    which is not among the sources.  The spec sets the float element
    types, which take an infinity as start value, against the integer
    ones, which take a limit of the type. *)
Definition is_float_dtype (d : torch.dtype) : bool :=
  match d with
  | torch.float32 | torch.float64 | torch.float16 | torch.bfloat16 => true
  | _ => false
  end.

Definition DTYPE_TO_CPP (d : torch.dtype) : string :=
  match d with
  | torch.float32 => "float"
  | torch.float64 => "double"
  | torch.float16 => "half"
  | torch.int64 => "long"
  | torch.int32 => "int"
  | torch.int16 => "short"
  | torch.int8 => "signed char"
  | torch.uint8 => "unsigned char"
  | torch.bool => "bool"
  | torch.bfloat16 => "bfloat16"
  end.

Definition INDEX_TYPE : string := "long".

(** [RTYPE_TO_CPP[rtype]]; a missing key has no entry. *)
Definition RTYPE_TO_CPP (rtype : string) : option string :=
  (if String.eqb rtype "sum" then Some "+"
   else if String.eqb rtype "min" then Some "min"
   else if String.eqb rtype "max" then Some "max"
   else if String.eqb rtype "argmin" then Some "argmin"
   else if String.eqb rtype "argmax" then Some "argmax"
   else if String.eqb rtype "any" then Some "||"
   else None).

(** The six reduction kinds the generator knows. *)
Definition reduction_kinds : list string :=
  ["sum"; "min"; "max"; "argmin"; "argmax"; "any"].

(** ** Reduction start values and combination *)

Definition reduction_init (reduction_type : string) (dtype : torch.dtype)
  : result pyobj :=
  if str_in reduction_type ["sum"; "any"] then ret (PyInt 0)
  else if str_in reduction_type ["max"; "argmax"] then
    ret (PyStr
      (if is_float_dtype dtype
       then fstr ["-std::numeric_limits<"; DTYPE_TO_CPP dtype; ">::infinity()"]
       else fstr ["std::numeric_limits<"; DTYPE_TO_CPP dtype; ">::min()"]))
  else if str_in reduction_type ["min"; "argmin"] then
    ret (PyStr
      (if is_float_dtype dtype
       then fstr ["std::numeric_limits<"; DTYPE_TO_CPP dtype; ">::infinity()"]
       else fstr ["std::numeric_limits<"; DTYPE_TO_CPP dtype; ">::max()"]))
  else raise AssertionError.

Definition reduction_combine (reduction_type var next_value : string) : string :=
  if (String.eqb reduction_type "sum") then fstr [var; " += "; next_value]
  else if (String.eqb reduction_type "any") then
    fstr [var; " = "; var; " || "; next_value]
  else fstr [var; " = std::"; reduction_type; "("; var; ", "; next_value; ")"].

Definition reduction_combine_vec (reduction_type var next_value : string)
  : result string :=
  if (String.eqb reduction_type "max") then
    ret (fstr [var; " = at::vec::maximum("; var; ", "; next_value; ")"])
  else if (String.eqb reduction_type "min") then
    ret (fstr [var; " = at::vec::minimum("; var; ", "; next_value; ")"])
  else if (String.eqb reduction_type "sum") then
    ret (fstr [var; " += "; next_value])
  else raise NotImplementedError.

(** ** Index expressions

    Sizes and indices are sympy expressions.  The constructors are the
    ones this file builds or inspects; [IndexingDiv] is floor division. *)

Inductive expr : Type :=
| Integer (n : Z)
| Symbol (x : string)
| Add (a b : expr)
| Mul (a b : expr)
| IndexingDiv (a b : expr).

Fixpoint expr_eqb (a b : expr) : bool :=
  match a, b with
  | Integer m, Integer n => m =? n
  | Symbol x, Symbol y => String.eqb x y
  | Add a1 a2, Add b1 b2 => expr_eqb a1 b1 && expr_eqb a2 b2
  | Mul a1 a2, Mul b1 b2 => expr_eqb a1 b1 && expr_eqb a2 b2
  | IndexingDiv a1 a2, IndexingDiv b1 b2 => expr_eqb a1 b1 && expr_eqb a2 b2
  | _, _ => false
  end.

(** Equality of two tuples of expressions. *)
Fixpoint tuple_eqb (xs ys : list expr) : bool :=
  match xs, ys with
  | [], [] => true
  | x :: xs', y :: ys' => expr_eqb x y && tuple_eqb xs' ys'
  | _, _ => false
  end.

(** The integer an expression stands for once its symbols have values. *)
Fixpoint eval (env : string -> Z) (e : expr) : Z :=
  match e with
  | Integer n => n
  | Symbol x => env x
  | Add a b => eval env a + eval env b
  | Mul a b => eval env a * eval env b
  | IndexingDiv a b => eval env a / eval env b
  end.

(** [sympy_subs(e, {Symbol x: by})]. *)
Fixpoint sympy_subs (e : expr) (x : string) (by_ : expr) : expr :=
  match e with
  | Integer n => Integer n
  | Symbol y => if String.eqb x y then by_ else Symbol y
  | Add a b => Add (sympy_subs a x by_) (sympy_subs b x by_)
  | Mul a b => Mul (sympy_subs a x by_) (sympy_subs b x by_)
  | IndexingDiv a b => IndexingDiv (sympy_subs a x by_) (sympy_subs b x by_)
  end.

(** [sympy_product(xs)]. *)
Definition sympy_product (xs : list expr) : expr :=
  fold_left Mul xs (Integer 1).

(** [sympy_symbol(f"i{n}")]. *)
Definition itervar_name (n : nat) : string := fstr ["i"; str_int (Z.of_nat n)].

(** The sympy library itself is not part of this repository: its
    simplifier is taken as given. *)
Record sympy_lib : Type := {
  expand : expr -> expr;
  simplify : expr -> expr;
  (** [e.has(Symbol x)] *)
  has : expr -> string -> bool;
  (** [a - b] *)
  minus : expr -> expr -> expr
}.

(** ** The surroundings of a kernel *)

(** [config.cpp]. *)
Record Config : Type := {
  threads : Z;
  dynamic_threads : bool;
  min_chunk_size : Z
}.

(** [V.graph]: element types of buffers, buffers removed as dead, and
    the values [sizevars.size_hint] gives the size symbols. *)
Record Graph : Type := {
  get_dtype : string -> torch.dtype;
  removed_buffers : list string;
  var_hint : string -> Z
}.

Definition sizevars_size_hint (g : Graph) (e : expr) : Z := eval (var_hint g) e.

(** What [common.Kernel] and [common.KernelArgs] supply: the C++ name
    of a buffer argument, the renaming of size symbols in an index, and
    the printer [cexpr] of an index. *)
Record Common : Type := {
  args_input : string -> string;
  args_output : string -> string;
  rename_indexing : expr -> expr;
  cexpr : expr -> string
}.

(** ** The generated C++ fragment, as syntax *)

Inductive cexp : Type :=
| CInt (n : Z)
| CVar (x : string)
| CNegInfinity (d : torch.dtype)
| CInfinity (d : torch.dtype)
| CLimitsMin (d : torch.dtype)
| CLimitsMax (d : torch.dtype)
| COr (a b : cexp)
| CCmp (op : string) (a b : cexp)
| CStd (f : string) (a b : cexp)
| CCond (c a b : cexp).

Inductive cstmt : Type :=
| SAssign (lhs : string) (e : cexp)
| SAddAssign (lhs : string) (e : cexp)
| SIf (c : cexp) (body : list cstmt).

Fixpoint cexp_str (e : cexp) : string :=
  match e with
  | CInt n => str_int n
  | CVar x => x
  | CNegInfinity d => fstr ["-std::numeric_limits<"; DTYPE_TO_CPP d; ">::infinity()"]
  | CInfinity d => fstr ["std::numeric_limits<"; DTYPE_TO_CPP d; ">::infinity()"]
  | CLimitsMin d => fstr ["std::numeric_limits<"; DTYPE_TO_CPP d; ">::min()"]
  | CLimitsMax d => fstr ["std::numeric_limits<"; DTYPE_TO_CPP d; ">::max()"]
  | COr a b => fstr [cexp_str a; " || "; cexp_str b]
  | CCmp op a b => fstr [cexp_str a; " "; op; " "; cexp_str b]
  | CStd f a b => fstr ["std::"; f; "("; cexp_str a; ", "; cexp_str b; ")"]
  | CCond c a b => fstr [cexp_str c; " ? "; cexp_str a; " : "; cexp_str b]
  end.

(** A statement without its closing semicolon. *)
Definition simple_stmt_str (s : cstmt) : string :=
  match s with
  | SAssign x e => fstr [x; " = "; cexp_str e]
  | SAddAssign x e => fstr [x; " += "; cexp_str e]
  | SIf _ _ => ""
  end.

(** The lines of a statement as the kernels lay them out: an [if] takes
    three lines, with its body on the middle one. *)
Definition cstmt_lines (s : cstmt) : list string :=
  match s with
  | SIf c body =>
      [ fstr ["if ("; cexp_str c; ") {"];
        fstr ["    "; String.concat " " (map (fun b => fstr [simple_stmt_str b; ";"]) body)];
        "}" ]
  | _ => [ fstr [simple_stmt_str s; ";"] ]
  end.

(** ** The generated C++ fragment, as computation

    Integer element types hold integers of their width.  The values of
    the floating types are kept abstract: the two infinities, NaN, and
    finite values written as integers; rounding and signed zeros are not
    represented. *)

Inductive cval : Type :=
| VNaN
| VNegInf
| VNum (z : Z)
| VPosInf.

(** [a < b]; every comparison with NaN is false. *)
Definition cval_ltb (a b : cval) : bool :=
  match a, b with
  | VNaN, _ | _, VNaN => false
  | VNegInf, VNegInf => false
  | VNegInf, _ => true
  | _, VNegInf => false
  | VPosInf, _ => false
  | VNum _, VPosInf => true
  | VNum x, VNum y => x <? y
  end.

Definition cval_add (a b : cval) : cval :=
  match a, b with
  | VNaN, _ | _, VNaN => VNaN
  | VNegInf, VPosInf | VPosInf, VNegInf => VNaN
  | VNegInf, _ | _, VNegInf => VNegInf
  | VPosInf, _ | _, VPosInf => VPosInf
  | VNum x, VNum y => VNum (x + y)
  end.

(** Contextual conversion to [bool]: everything but zero is true. *)
Definition truthy (a : cval) : bool :=
  match a with
  | VNum z => negb (z =? 0)
  | _ => true
  end.

Definition of_bool (b : bool) : cval := VNum (if b then 1 else 0).

(** Width and signedness of the integer element types. *)
Definition int_bits (d : torch.dtype) : option (Z * bool) :=
  match d with
  | torch.int64 => Some (64, true)
  | torch.int32 => Some (32, true)
  | torch.int16 => Some (16, true)
  | torch.int8 => Some (8, true)
  | torch.uint8 => Some (8, false)
  | _ => None
  end.

(** [std::numeric_limits<T>::min()] and [::max()] of the integer types
    and of [bool]. For a floating type [min()] is the least positive
    normal value, which the abstract values do not contain. *)
Definition limits_min (d : torch.dtype) : option Z :=
  match d with
  | torch.bool => Some 0
  | _ => match int_bits d with
         | Some (w, true) => Some (- 2 ^ (w - 1))
         | Some (w, false) => Some 0
         | None => None
         end
  end.

Definition limits_max (d : torch.dtype) : option Z :=
  match d with
  | torch.bool => Some 1
  | _ => match int_bits d with
         | Some (w, true) => Some (2 ^ (w - 1) - 1)
         | Some (w, false) => Some (2 ^ w - 1)
         | None => None
         end
  end.

(** Two's complement wrap-around to [w] bits. *)
Definition wrap (w : Z) (signed : bool) (z : Z) : Z :=
  if signed
  then (z + 2 ^ (w - 1)) mod 2 ^ w - 2 ^ (w - 1)
  else z mod 2 ^ w.

(** Conversion of a value on assignment to an object of type [d].
    Converting an infinity or NaN to an integer type has no defined
    result. *)
Definition convert (d : torch.dtype) (v : cval) : option cval :=
  match d with
  | torch.bool => Some (of_bool (truthy v))
  | _ => match int_bits d with
         | Some (w, signed) =>
             match v with
             | VNum z => Some (VNum (wrap w signed z))
             | _ => None
             end
         | None => Some v
         end
  end.

(** The values an object of type [d] can hold. *)
Definition in_range (d : torch.dtype) (v : cval) : Prop :=
  match limits_min d, limits_max d with
  | Some lo, Some hi => exists z, v = VNum z /\ lo <= z <= hi
  | _, _ => True
  end.

(** A store gives each l-value its current value; [decl] gives its
    declared element type ([None] for [auto] and index-typed objects,
    which are assigned without conversion). *)
Definition cstore : Type := string -> cval.

Definition upd (st : cstore) (x : string) (v : cval) : cstore :=
  fun y => if String.eqb x y then v else st y.

Arguments upd st x v y /.

Fixpoint eval_cexp (st : cstore) (e : cexp) : option cval :=
  match e with
  | CInt n => Some (VNum n)
  | CVar x => Some (st x)
  | CNegInfinity _ => Some VNegInf
  | CInfinity _ => Some VPosInf
  | CLimitsMin d => option_map VNum (limits_min d)
  | CLimitsMax d => option_map VNum (limits_max d)
  | COr a b =>
      match eval_cexp st a, eval_cexp st b with
      | Some x, Some y => Some (of_bool (truthy x || truthy y))
      | _, _ => None
      end
  | CCmp op a b =>
      match eval_cexp st a, eval_cexp st b with
      | Some x, Some y =>
          if String.eqb op "<" then Some (of_bool (cval_ltb x y))
          else if String.eqb op ">" then Some (of_bool (cval_ltb y x))
          else None
      | _, _ => None
      end
  | CStd f a b =>
      match eval_cexp st a, eval_cexp st b with
      | Some x, Some y =>
          (* std::max(a, b) is (a < b) ? b : a; std::min(a, b) is (b < a) ? b : a *)
          if String.eqb f "max" then Some (if cval_ltb x y then y else x)
          else if String.eqb f "min" then Some (if cval_ltb y x then y else x)
          else None
      | _, _ => None
      end
  | CCond c a b =>
      match eval_cexp st c with
      | Some v => if truthy v then eval_cexp st a else eval_cexp st b
      | None => None
      end
  end.

Definition assign (decl : string -> option torch.dtype) (st : cstore)
    (x : string) (v : cval) : option cstore :=
  match decl x with
  | Some d => option_map (upd st x) (convert d v)
  | None => Some (upd st x v)
  end.

Fixpoint exec (decl : string -> option torch.dtype) (s : cstmt) (st : cstore)
  : option cstore :=
  match s with
  | SAssign x e =>
      match eval_cexp st e with
      | Some v => assign decl st x v
      | None => None
      end
  | SAddAssign x e =>
      match eval_cexp st e with
      | Some v => assign decl st x (cval_add (st x) v)
      | None => None
      end
  | SIf c body =>
      match eval_cexp st c with
      | Some b =>
          if truthy b
          then (fix exec_all (ss : list cstmt) (st : cstore) : option cstore :=
                  match ss with
                  | [] => Some st
                  | s' :: rest =>
                      match exec decl s' st with
                      | Some st' => exec_all rest st'
                      | None => None
                      end
                  end) body st
          else Some st
      | None => None
      end
  end.

Fixpoint exec_all (decl : string -> option torch.dtype) (ss : list cstmt)
    (st : cstore) : option cstore :=
  match ss with
  | [] => Some st
  | s :: rest =>
      match exec decl s st with
      | Some st' => exec_all decl rest st'
      | None => None
      end
  end.

(** ** Start value and combination, as syntax *)

Definition reduction_init_expr (reduction_type : string) (dtype : torch.dtype)
  : result cexp :=
  if str_in reduction_type ["sum"; "any"] then ret (CInt 0)
  else if str_in reduction_type ["max"; "argmax"] then
    ret (if is_float_dtype dtype then CNegInfinity dtype else CLimitsMin dtype)
  else if str_in reduction_type ["min"; "argmin"] then
    ret (if is_float_dtype dtype then CInfinity dtype else CLimitsMax dtype)
  else raise AssertionError.

Definition reduction_combine_stmt (reduction_type var next_value : string)
  : cstmt :=
  if String.eqb reduction_type "sum" then SAddAssign var (CVar next_value)
  else if String.eqb reduction_type "any" then
    SAssign var (COr (CVar var) (CVar next_value))
  else SAssign var (CStd reduction_type (CVar var) (CVar next_value)).

(** ** Objects with state

    A method takes the object as it is before the call and gives the
    object as it is after the call, with what the call returned or
    raised.  After a raise the object keeps whatever was written to it
    before the raise. *)

Definition M (S A : Type) : Type := S -> S * result A.

Definition retM {S A} (a : A) : M S A := fun s => (s, ret a).
Definition raiseM {S A} (e : exn) : M S A := fun s => (s, raise e).
Definition bindM {S A B} (m : M S A) (k : A -> M S B) : M S B :=
  fun s => match m s with
           | (s', inl a) => k a s'
           | (s', inr e) => (s', inr e)
           end.
Definition getM {S} : M S S := fun s => (s, ret s).
Definition modifyM {S} (f : S -> S) : M S unit := fun s => (f s, ret tt).
Definition liftM {S A} (r : result A) : M S A := fun s => (s, r).
Definition assertM {S} (b : bool) : M S unit := liftM (assert b).

Notation "x <~ m ;; k" := (bindM m (fun x => k))
  (at level 61, m at next level, right associativity).
Notation "m ;;; k" := (bindM m (fun _ => k))
  (at level 61, right associativity).

(** [xs[-1]]. *)
Definition last_item {A} (xs : option (list A)) : result A :=
  match xs with
  | None => raise TypeError
  | Some l => match rev l with
              | [] => raise IndexError
              | x :: _ => ret x
              end
  end.

(** ** Common-subexpression cache *)

(** Modelled from the spec: the class [CSE] of [codegen/common.py],
    which is not among the sources.  The spec has it as a cache keyed
    by operation text, where asking again for an equal text gives back
    the temporary assigned before and writes nothing. *)
Record CSE : Type := {
  cache : list (string * string);
  store_cache : list (string * string);
  counter : nat
}.

Definition cse_empty : CSE := {| cache := []; store_cache := []; counter := 0 |}.

Fixpoint lookup (k : string) (m : list (string * string)) : option string :=
  match m with
  | [] => None
  | (k', v) :: rest => if String.eqb k k' then Some v else lookup k rest
  end.

(** [m[k] = v] on a dict: an existing key keeps its place. *)
Fixpoint dict_set (k v : string) (m : list (string * string))
  : list (string * string) :=
  match m with
  | [] => [(k, v)]
  | (k', v') :: rest =>
      if String.eqb k k' then (k, v) :: rest else (k', v') :: dict_set k v rest
  end.

Definition cse_newvar (c : CSE) : string * CSE :=
  (fstr ["tmp"; str_int (Z.of_nat (counter c))],
   {| cache := cache c; store_cache := store_cache c; counter := S (counter c) |}).

(** [cse.generate(buffer, text, write)]: the temporary for [text], the
    cache after the call, and the line to add to [buffer], if any. *)
Definition cse_generate (c : CSE) (text : string) (write : bool)
  : string * CSE * list string :=
  match lookup text (cache c) with
  | Some v => (v, c, [])
  | None =>
      let (v, c') := cse_newvar c in
      (v,
       {| cache := (text, v) :: cache c'; store_cache := store_cache c';
          counter := counter c' |},
       if write then [fstr ["auto "; v; " = "; text; ";"]] else [])
  end.

Definition cse_set_store_cache (c : CSE) (name tmpvar : string) : CSE :=
  {| cache := cache c; store_cache := dict_set name tmpvar (store_cache c);
     counter := counter c |}.

(** ** CppKernel *)

Record Context : Type := {
  config_cpp : Config;
  graph : Graph;
  common : Common;
  sympy : sympy_lib
}.

Record CppKernel : Type := {
  call_ranges : option (list expr);
  ranges : option (list expr);
  itervars : option (list string);
  reduction_depth : option nat;
  reduction_prefix : list string;
  (** deferred lines carry the name of the buffer they write *)
  reduction_suffix : list (option string * string);
  reduction_var_map : list (string * string);
  num_threads : Z;
  loads : list string;
  compute : list string;
  stores : list (option string * string);
  cse : CSE;
  (** the module-level counter naming the index/value structs, kept
      with the kernel whose reductions advance it *)
  index_value_name_counter : nat
}.

(** [CppKernel(args, num_threads)]. *)
Definition CppKernel_init (num_threads : Z) : CppKernel :=
  {| call_ranges := None; ranges := None; itervars := None;
     reduction_depth := None; reduction_prefix := []; reduction_suffix := [];
     reduction_var_map := []; num_threads := num_threads;
     loads := []; compute := []; stores := []; cse := cse_empty;
     index_value_name_counter := 1 |}.

Definition bind_ranges (k : CppKernel) (cr rs : list expr) (iv : list string)
    (rd : nat) : CppKernel :=
  {| call_ranges := Some cr; ranges := Some rs; itervars := Some iv;
     reduction_depth := Some rd; reduction_prefix := reduction_prefix k;
     reduction_suffix := reduction_suffix k;
     reduction_var_map := reduction_var_map k; num_threads := num_threads k;
     loads := loads k; compute := compute k; stores := stores k; cse := cse k;
     index_value_name_counter := index_value_name_counter k |}.

Definition write_loads (ls : list string) (k : CppKernel) : CppKernel :=
  {| call_ranges := call_ranges k; ranges := ranges k; itervars := itervars k;
     reduction_depth := reduction_depth k; reduction_prefix := reduction_prefix k;
     reduction_suffix := reduction_suffix k;
     reduction_var_map := reduction_var_map k; num_threads := num_threads k;
     loads := loads k ++ ls; compute := compute k; stores := stores k;
     cse := cse k; index_value_name_counter := index_value_name_counter k |}.

Definition write_stores (name : option string) (ls : list string)
    (k : CppKernel) : CppKernel :=
  {| call_ranges := call_ranges k; ranges := ranges k; itervars := itervars k;
     reduction_depth := reduction_depth k; reduction_prefix := reduction_prefix k;
     reduction_suffix := reduction_suffix k;
     reduction_var_map := reduction_var_map k; num_threads := num_threads k;
     loads := loads k; compute := compute k;
     stores := stores k ++ map (pair name) ls;
     cse := cse k; index_value_name_counter := index_value_name_counter k |}.

Definition write_prefix (ls : list string) (k : CppKernel) : CppKernel :=
  {| call_ranges := call_ranges k; ranges := ranges k; itervars := itervars k;
     reduction_depth := reduction_depth k;
     reduction_prefix := reduction_prefix k ++ ls;
     reduction_suffix := reduction_suffix k;
     reduction_var_map := reduction_var_map k; num_threads := num_threads k;
     loads := loads k; compute := compute k; stores := stores k;
     cse := cse k; index_value_name_counter := index_value_name_counter k |}.

Definition write_suffix (name : string) (line : string) (k : CppKernel)
  : CppKernel :=
  {| call_ranges := call_ranges k; ranges := ranges k; itervars := itervars k;
     reduction_depth := reduction_depth k; reduction_prefix := reduction_prefix k;
     reduction_suffix := reduction_suffix k ++ [(Some name, line)];
     reduction_var_map := reduction_var_map k; num_threads := num_threads k;
     loads := loads k; compute := compute k; stores := stores k;
     cse := cse k; index_value_name_counter := index_value_name_counter k |}.

Definition set_cse (c : CSE) (k : CppKernel) : CppKernel :=
  {| call_ranges := call_ranges k; ranges := ranges k; itervars := itervars k;
     reduction_depth := reduction_depth k; reduction_prefix := reduction_prefix k;
     reduction_suffix := reduction_suffix k;
     reduction_var_map := reduction_var_map k; num_threads := num_threads k;
     loads := loads k; compute := compute k; stores := stores k;
     cse := c; index_value_name_counter := index_value_name_counter k |}.

Definition set_reduction_var (tmpvar rtype : string) (k : CppKernel)
  : CppKernel :=
  {| call_ranges := call_ranges k; ranges := ranges k; itervars := itervars k;
     reduction_depth := reduction_depth k; reduction_prefix := reduction_prefix k;
     reduction_suffix := reduction_suffix k;
     reduction_var_map := dict_set tmpvar rtype (reduction_var_map k);
     num_threads := num_threads k;
     loads := loads k; compute := compute k; stores := stores k;
     cse := cse k; index_value_name_counter := index_value_name_counter k |}.

Definition bump_struct_counter (k : CppKernel) : CppKernel :=
  {| call_ranges := call_ranges k; ranges := ranges k; itervars := itervars k;
     reduction_depth := reduction_depth k; reduction_prefix := reduction_prefix k;
     reduction_suffix := reduction_suffix k;
     reduction_var_map := reduction_var_map k; num_threads := num_threads k;
     loads := loads k; compute := compute k; stores := stores k;
     cse := cse k;
     index_value_name_counter := S (index_value_name_counter k) |}.

(** [self.cse.generate(self.loads, text, write=...)]. *)
Definition generate_in_loads (text : string) (write : bool)
  : M CppKernel string :=
  fun k =>
    let '(v, c, ls) := cse_generate (cse k) text write in
    (write_loads ls (set_cse c k), ret v).

Definition tab : string := String (ascii_of_nat 9) EmptyString.
Definition backslash : string := String (ascii_of_nat 92) EmptyString.

Definition argmax_argmin_prefix (reduction_type : string)
    (src_dtype : torch.dtype) (tmpvar : string) : M CppKernel (list string) :=
  n <~ (fun k => (bump_struct_counter k, ret (index_value_name_counter k))) ;;
  let struct_name := fstr ["IndexValue_"; str_int (Z.of_nat n)] in
  init1 <~ liftM (reduction_init reduction_type src_dtype) ;;
  let prefix :=
    [ fstr ["struct "; struct_name; " {size_t index; ";
            DTYPE_TO_CPP src_dtype; " value;};"];
      fstr [struct_name; " "; tmpvar; "{0, "; py_str init1; "};"] ] in
  if String.eqb reduction_type "argmax" then
    init2 <~ liftM (reduction_init reduction_type src_dtype) ;;
    retM (prefix ++
      [ fstr ["#pragma omp declare reduction(argmax : struct "; struct_name;
              " :"; backslash];
        fstr ["    omp_out.value = omp_in.value < omp_out.value ? omp_out.value : omp_in.value,";
              backslash];
        fstr ["    omp_out.index = omp_in.value < omp_out.value ? omp_out.index : omp_in.index)";
              backslash];
        fstr [tab; "initializer(omp_priv = {0, "; py_str init2; "})"] ])
  else if String.eqb reduction_type "argmin" then
    init2 <~ liftM (reduction_init reduction_type src_dtype) ;;
    retM (prefix ++
      [ fstr ["#pragma omp declare reduction(argmin : struct "; struct_name;
              " :"; backslash];
        fstr ["    omp_out.value = omp_in.value > omp_out.value ? omp_out.value : omp_in.value,";
              backslash];
        fstr ["    omp_out.index = omp_in.value > omp_out.value ? omp_out.index : omp_in.index)";
              backslash];
        fstr [tab; "initializer(omp_priv = {0, "; py_str init2; "})"] ])
  else retM prefix.

Definition float16_reduction_prefix (rtype : string) : result (list string) :=
  _ <- assert (str_in rtype ["sum"; "any"]) ;;
  match RTYPE_TO_CPP rtype with
  | Some op =>
      ret [ fstr ["#pragma omp declare reduction("; op; ":";
                  DTYPE_TO_CPP torch.float16; ":";
                  "omp_out = omp_out "; op; " omp_in)"] ]
  | None => raise KeyError
  end.

(** [parallel_num_threads()], with [torch.get_num_threads()] given. *)
Definition parallel_num_threads (cfg : Config) (torch_num_threads : Z) : Z :=
  if threads cfg <? 1 then torch_num_threads else threads cfg.

Section Kernels.

Variable ctx : Context.

Let cfg := config_cpp ctx.
Let g := graph ctx.
Let cm := common ctx.

Definition CppKernel_load (name : string) (index : expr)
  : M CppKernel string :=
  let var := args_input cm name in
  let index := rename_indexing cm index in
  let line := fstr [var; "["; cexpr cm index; "]"] in
  let line :=
    if dtype_in (get_dtype g name) [torch.float16; torch.bfloat16]
    then fstr ["static_cast<float>("; line; ")"] else line in
  generate_in_loads line true.

Definition CppKernel_store (name : string) (index : expr) (value : string)
    (mode : option string) : M CppKernel unit :=
  assertM (contains "buf" name) ;;;
  let var := args_output cm name in
  let index := rename_indexing cm index in
  k <~ getM ;;
  line <~ match mode with
          | None => retM (fstr [var; "["; cexpr cm index; "] = "; value; ";"])
          | Some m =>
              if String.eqb m "atomic_add" then
                if negb (dynamic_threads cfg) && (num_threads k =? 1)
                then retM (fstr [var; "["; cexpr cm index; "] += "; value; ";"])
                else retM (fstr ["atomic_add(&"; var; "["; cexpr cm index;
                                 "], "; value; ");"])
              else raiseM NotImplementedError
          end ;;
  modifyM (write_stores (Some name) [line]).

(** The statement the scalar kernel writes for one step of an
    [argmax] or [argmin] reduction, as syntax. *)
Definition index_reduction_stmt (tmpvar compare_op value itervar : string)
  : cstmt :=
  SIf (CCmp compare_op (CVar (fstr [tmpvar; ".value"])) (CVar value))
      [ SAssign (fstr [tmpvar; ".index"]) (CVar itervar);
        SAssign (fstr [tmpvar; ".value"]) (CVar value) ].

Definition CppKernel_reduction (name : string) (dtype src_dtype : torch.dtype)
    (reduction_type : string) (index : expr) (value : string)
  : M CppKernel unit :=
  let argmax_or_argmin := str_in reduction_type ["argmax"; "argmin"] in
  tmpvar <~ generate_in_loads
              (fstr ["reduction "; name; " "; cexpr cm index]) false ;;
  let index := rename_indexing cm index in
  modifyM (set_reduction_var tmpvar reduction_type) ;;;
  (if argmax_or_argmin then
     ls <~ argmax_argmin_prefix reduction_type src_dtype tmpvar ;;
     modifyM (write_prefix ls) ;;;
     let compare_op := if String.eqb reduction_type "argmax" then "<" else ">" in
     k <~ getM ;;
     iv <~ liftM (last_item (itervars k)) ;;
     modifyM (write_stores None
       [ fstr ["if ("; tmpvar; ".value "; compare_op; " "; value; ") {"];
         fstr ["    "; tmpvar; ".index = "; iv; "; "; tmpvar; ".value = ";
               value; ";"];
         "}" ])
   else
     (if torch.dtype_eqb dtype torch.float16 then
        ls <~ liftM (float16_reduction_prefix reduction_type) ;;
        modifyM (write_prefix ls)
      else retM tt) ;;;
     init <~ liftM (reduction_init reduction_type dtype) ;;
     modifyM (write_prefix
       [ fstr [DTYPE_TO_CPP dtype; " "; tmpvar; " = "; py_str init; ";"] ]) ;;;
     modifyM (write_stores None
       [ fstr [reduction_combine reduction_type tmpvar value; ";"] ])) ;;;
  (if negb (str_in name (removed_buffers g)) then
     let var := args_output cm name in
     let member_name := if argmax_or_argmin then ".index" else "" in
     modifyM (write_suffix name
       (fstr [var; "["; cexpr cm index; "] = "; tmpvar; member_name; ";"]))
   else retM tt) ;;;
  modifyM (fun k => set_cse (cse_set_store_cache (cse k) name tmpvar) k).

(** A tuple is true when it is there and not empty. *)
Definition tuple_truth (t : option (list expr)) : bool :=
  match t with
  | Some (_ :: _) => true
  | _ => false
  end.

(** [xs[:n]] and [xs[n:]] of the iteration variables. *)
Definition split_itervars (k : CppKernel)
  : result (list string * list string) :=
  match itervars k, reduction_depth k with
  | Some iv, Some d => ret (firstn d iv, skipn d iv)
  | _, _ => raise TypeError
  end.

Definition set_ranges (lengths reduction_lengths : list expr)
  : M CppKernel (list string * list string) :=
  k <~ getM ;;
  (if tuple_truth (call_ranges k) then
     assertM (match call_ranges k with
              | Some cr => tuple_eqb cr (lengths ++ reduction_lengths)
              | None => false
              end) ;;;
     assertM (match reduction_depth k with
              | Some d => Nat.eqb d (List.length lengths)
              | None => false
              end)
   else
     let cr := lengths ++ reduction_lengths in
     let rs := map (rename_indexing cm) cr in
     modifyM (fun k => bind_ranges k cr rs
                         (map itervar_name (List.seq 0 (List.length rs)))
                         (List.length lengths))) ;;;
  k' <~ getM ;;
  liftM (split_itervars k').

Definition size_hint (k : CppKernel) : result Z :=
  match call_ranges k with
  | Some cr => ret (sizevars_size_hint g (sympy_product cr))
  | None => raise TypeError
  end.

(** The loop of [decide_parallel_depth].  [seq] starts as the int
    [size_hint] hands back and is a float from the first [seq /= hint]
    on; [par], [depth] and the hints are ints. *)
Fixpoint parallel_depth_loop (threads : Z) (ranges : list expr)
    (seq : number) (par : Z) (depth : Z) : result Z :=
  match ranges with
  | [] => ret depth
  | e :: rest =>
      let hint := sizevars_size_hint g e in
      if (par >=? 2 * threads) || (par =? threads) then ret depth
      else
        q <- py_floordiv seq threads ;;
        if py_lt q (min_chunk_size cfg) then
          (* not enough work *)
          ret depth
        else
          seq' <- py_truediv seq hint ;;
          parallel_depth_loop threads rest seq' (par * hint) (depth + 1)
  end.

Definition decide_parallel_depth (k : CppKernel) (ranges : list expr)
    (threads : Z) : result Z :=
  seq <- size_hint k ;;
  depth <- parallel_depth_loop threads ranges (Int seq) 1 0 ;;
  if dynamic_threads cfg && (depth =? 0) && (0 <? Z.of_nat (List.length ranges))
  then ret 1
  else ret depth.

End Kernels.

(** ** CppVecKernel: index transformation *)

Section VecKernel.

Variable ctx : Context.

Let sp := sympy ctx.

Definition is_single_step_var (var : string) (index : expr) : bool :=
  let new_index := sympy_subs index var (Add (Symbol var) (Integer 1)) in
  let delta := simplify sp (minus sp new_index index) in
  expr_eqb delta (Integer 1).

Definition is_var_irrevelant (var : string) (index : expr) : bool :=
  let expanded_index := expand sp index in
  negb (has sp expanded_index var).

Definition transform_index (k : CppKernel) (simd_nelements : Z)
    (index : expr) : result expr :=
  let expanded_index := expand sp index in
  _ <- assert (negb (simd_nelements =? 0)) ;;
  _ <- assert (1 <=? simd_nelements) ;;
  most_inner_var <- last_item (itervars k) ;;
  ret (sympy_subs expanded_index most_inner_var
         (Mul (Symbol most_inner_var) (Integer simd_nelements))).

End VecKernel.

(** ** CppVecKernelChecker and its proxy *)

(** The names of the static methods of [CppVecOverrides], in the order
    of the class body. *)
Definition CppVecOverrides_names : list string :=
  [ "add"; "sub"; "mul"; "div"; "abs"; "sin"; "cos"; "exp"; "erf"; "sqrt";
    "rsqrt"; "pow"; "log"; "round"; "floor"; "ceil"; "trunc"; "fmod";
    "lgamma"; "logical_and"; "logical_or"; "tanh"; "reciprocal"; "constant";
    "relu"; "sigmoid"; "neg"; "floordiv"; "truncdiv"; "minimum"; "maximum";
    "square"; "where"; "sign"; "to_dtype"; "expm1"; "log1p" ].

Record CppVecKernelChecker : Type := {
  kernel : CppKernel;
  simd_nelements : Z;
  simd_vec : bool;
  fast_vec_list : list string
}.

(** [CppVecKernelChecker(args, num_threads)], with the width of the
    picked vector instruction set given. *)
Definition CppVecKernelChecker_init (num_threads nelements : Z)
  : CppVecKernelChecker :=
  {| kernel := CppKernel_init num_threads; simd_nelements := nelements;
     simd_vec := true; fast_vec_list := CppVecOverrides_names |}.

Definition set_simd_vec (b : bool) (c : CppVecKernelChecker)
  : CppVecKernelChecker :=
  {| kernel := kernel c; simd_nelements := simd_nelements c;
     simd_vec := b; fast_vec_list := fast_vec_list c |}.

Definition set_kernel (k : CppKernel) (c : CppVecKernelChecker)
  : CppVecKernelChecker :=
  {| kernel := k; simd_nelements := simd_nelements c;
     simd_vec := simd_vec c; fast_vec_list := fast_vec_list c |}.

(** A method of the kernel the checker extends, run on the checker. *)
Definition on_kernel {A} (m : M CppKernel A) : M CppVecKernelChecker A :=
  fun c => let (k', r) := m (kernel c) in (set_kernel k' c, r).

(** A request made of the operation handler during a run of the nodes.
    The body of [masked] is the callable it is handed: the requests that
    calling it would make. *)
Inductive op : Type :=
| OpLoad (name : string) (index : expr)
| OpStore (name : string) (index : expr) (value : string) (mode : option string)
| OpReduction (name : string) (dtype src_dtype : torch.dtype)
              (reduction_type : string) (index : expr) (value : string)
| OpConstant (val : Z) (dtype : torch.dtype)
| OpIndexExpr (e : expr) (dtype : torch.dtype)
| OpIndirectIndexing (index_var : string)
| OpMasked (mask : string) (body : list op) (other : Z)
| OpToDtype (x : string) (dtype : torch.dtype)
(** any other attribute of the proxy, found through [__getattr__] *)
| OpOther (name : string) (args : list string).

(** What a request gives back. *)
Inductive retval : Type :=
| RBool (b : bool)
| RVar (name : string)
| RSymbol (name : string).

Section Checker.

Variable ctx : Context.

Let g := graph ctx.
Let cm := common ctx.

Definition is_legal_data_access (var : string) (index : expr) : bool :=
  is_var_irrevelant ctx var index || is_single_step_var ctx var index.

Definition could_vec (name : string) (index : expr)
  : M CppVecKernelChecker bool :=
  c <~ getM ;;
  match itervars (kernel c) with
  | None => raiseM AssertionError
  | Some iv =>
      (* Not a loop *)
      if Nat.eqb (List.length iv) 0 then retM false
      else
        most_inner_var <~ liftM (last_item (Some iv)) ;;
        retM (is_legal_data_access most_inner_var index)
  end.

(** [self.simd_vec = self.simd_vec and self.could_vec(name, index)]:
    [could_vec] is only asked while the verdict is still true. *)
Definition and_could_vec (name : string) (index : expr)
  : M CppVecKernelChecker unit :=
  c <~ getM ;;
  if simd_vec c then
    b <~ could_vec name index ;;
    modifyM (set_simd_vec b)
  else modifyM (set_simd_vec false).

Definition checker_load (name : string) (index : expr)
  : M CppVecKernelChecker bool :=
  if negb (dtype_in (get_dtype g name)
             [torch.float; torch.float32; torch.bool; torch.uint8]) then
    modifyM (set_simd_vec false) ;;;
    c <~ getM ;; retM (simd_vec c)
  else
    let index := rename_indexing cm index in
    and_could_vec name index ;;;
    c <~ getM ;; retM (simd_vec c).

(** [if mode:] holds for a mode that is neither [None] nor empty. *)
Definition mode_truth (mode : option string) : bool :=
  match mode with
  | None => false
  | Some m => negb (String.eqb m "")
  end.

Definition checker_store (name : string) (index : expr) (value : string)
    (mode : option string) : M CppVecKernelChecker bool :=
  if negb (dtype_in (get_dtype g name) [torch.float; torch.float32]) then
    modifyM (set_simd_vec false) ;;;
    c <~ getM ;; retM (simd_vec c)
  else
    assertM (contains "buf" name) ;;;
    let index := rename_indexing cm index in
    if mode_truth mode then
      modifyM (set_simd_vec false) ;;;
      retM false
    else
      and_could_vec name index ;;;
      c <~ getM ;; retM (simd_vec c).

Definition checker_reduction (name : string) (dtype src_dtype : torch.dtype)
    (reduction_type : string) (index : expr) (value : string)
  : M CppVecKernelChecker bool :=
  (if torch.dtype_eqb dtype torch.float
      && torch.dtype_eqb src_dtype torch.float
      && str_in reduction_type ["max"; "min"; "sum"]
   then retM tt
   else modifyM (set_simd_vec false)) ;;;
  c <~ getM ;; retM (simd_vec c).

Definition checker_newvar : M CppVecKernelChecker string :=
  on_kernel (fun k => let (v, c) := cse_newvar (cse k) in (set_cse c k, ret v)).

(** The methods of [VecCheckerProxy]. *)
Definition proxy (o : op) : M CppVecKernelChecker retval :=
  match o with
  | OpLoad name index =>
      b <~ checker_load name index ;; retM (RBool b)
  | OpStore name index value mode =>
      b <~ checker_store name index value mode ;; retM (RBool b)
  | OpReduction name dtype src_dtype reduction_type index value =>
      b <~ checker_reduction name dtype src_dtype reduction_type index value ;;
      retM (RBool b)
  | OpConstant val dtype =>
      let is_supported_dtype := dtype_in dtype [torch.float32; torch.int32] in
      (if negb is_supported_dtype then modifyM (set_simd_vec false)
       else retM tt) ;;;
      retM (RBool is_supported_dtype)
  | OpIndexExpr e dtype =>
      modifyM (set_simd_vec false) ;;;
      tmp_var <~ checker_newvar ;;
      retM (RVar tmp_var)
  | OpIndirectIndexing index_var =>
      modifyM (set_simd_vec false) ;;;
      retM (RSymbol index_var)
  | OpMasked mask body other =>
      tmp_var <~ checker_newvar ;;
      retM (RVar tmp_var)
  | OpToDtype x dtype =>
      (if negb (torch.dtype_eqb dtype torch.bool)
       then modifyM (set_simd_vec false) else retM tt) ;;;
      retM (RVar x)
  | OpOther name args =>
      c <~ getM ;;
      (if negb (str_in name (fast_vec_list c))
       then modifyM (set_simd_vec false) else retM tt) ;;;
      c' <~ getM ;; retM (RBool (simd_vec c'))
  end.

(** A run of the nodes makes its requests one after another; a raise
    ends the run. *)
Fixpoint run_requests (os : list op) : M CppVecKernelChecker unit :=
  match os with
  | [] => retM tt
  | o :: rest => proxy o ;;; run_requests rest
  end.

(** [kernel_checker.set_ranges(group, reduction_group)]. *)
Definition checker_set_ranges (lengths reduction_lengths : list expr)
  : M CppVecKernelChecker (list string * list string) :=
  on_kernel (set_ranges ctx lengths reduction_lengths).

End Checker.

(** ** WorkSharing *)

(** What is written to the code buffer.  [BracesBuffer] is not among the
    sources; only the order of its calls is kept: a line written, an
    indented block entered, an indented block left. *)
Inductive code_event : Type :=
| Line (s : string)
| EnterIndent
| ExitIndent.

Module WorkSharing.

Record t : Type := {
  code : list code_event;
  in_parallel : bool;
  num_threads : option Z;
  (** the [ExitStack]: how many indented blocks it has entered and
      will leave when closed *)
  stack : nat
}.

Definition init (code : list code_event) : t :=
  {| code := code; in_parallel := false; num_threads := None; stack := 0 |}.

Definition close (ws : t) : t :=
  {| code := code ws ++ repeat ExitIndent (stack ws);
     in_parallel := false;
     num_threads := num_threads ws;
     stack := 0 |}.

(** [threads != self.num_threads]. *)
Definition differs (threads : Z) (n : option Z) : bool :=
  match n with
  | Some m => negb (threads =? m)
  | None => true
  end.

Definition parallel (cfg : Config) (threads : Z) (ws : t) : t :=
  let ws :=
    if in_parallel ws && differs threads (num_threads ws)
    then (* wrong number of threads *) close ws
    else ws in
  if negb (in_parallel ws) then
    {| code := code ws ++
         [ Line (if dynamic_threads cfg then "#pragma omp parallel"
                 else fstr ["#pragma omp parallel num_threads(";
                            str_int threads; ")"]);
           EnterIndent ];
       in_parallel := true;
       num_threads := Some threads;
       stack := S (stack ws) |}
  else ws.

Definition single (ws : t) : t * bool :=
  (if in_parallel ws
   then {| code := code ws ++ [Line "#pragma omp single"];
           in_parallel := in_parallel ws;
           num_threads := num_threads ws;
           stack := stack ws |}
   else ws,
   in_parallel ws).

(** The calls made of a coordinator. *)
Inductive call : Type :=
| Parallel (threads : Z)
| Single
| Close.

Definition step (cfg : Config) (ws : t) (c : call) : t :=
  match c with
  | Parallel threads => parallel cfg threads ws
  | Single => fst (single ws)
  | Close => close ws
  end.

Definition run (cfg : Config) (cs : list call) (ws : t) : t :=
  fold_left (step cfg) cs ws.

(** The thread count of the latest [parallel] among the calls. *)
Fixpoint last_request (cs : list call) (acc : option Z) : option Z :=
  match cs with
  | [] => acc
  | Parallel threads :: rest => last_request rest (Some threads)
  | _ :: rest => last_request rest acc
  end.

(** How many indented blocks of a buffer are entered and not left. *)
Fixpoint open_blocks (evs : list code_event) (depth : Z) : Z :=
  match evs with
  | [] => depth
  | EnterIndent :: rest => open_blocks rest (depth + 1)
  | ExitIndent :: rest => open_blocks rest (depth - 1)
  | Line _ :: rest => open_blocks rest depth
  end.

End WorkSharing.

(** ** LoopLevel *)

Module LoopLevel.

(** The back-reference [parent] is not kept: a level is reached from
    its parent, and a method that rewrites [parent.inner] hands back
    what stands in the parent's list afterwards. *)
Inductive t : Type := Build {
  var : string;
  size : expr;
  offset : expr;
  steps : expr;
  parallel : Z;
  simd_omp : bool;
  simd_vec : bool;
  collapsed : bool;
  reduction_var_map : option (list (string * string));
  inner : list t;
  kernel : option CppKernel
}.

(** [LoopLevel(var, size)]. *)
Definition make (var : string) (size : expr) : t :=
  {| var := var; size := size; offset := Integer 0; steps := Integer 1;
     parallel := 0; simd_omp := false; simd_vec := false; collapsed := false;
     reduction_var_map := None; inner := []; kernel := None |}.

Definition with_inner (l : t) (inner' : list t) : t :=
  {| var := var l; size := size l; offset := offset l; steps := steps l;
     parallel := parallel l; simd_omp := simd_omp l; simd_vec := simd_vec l;
     collapsed := collapsed l; reduction_var_map := reduction_var_map l;
     inner := inner'; kernel := kernel l |}.

(** [clone]: a copy of the level with copies of everything below it.
    Values are not shared here, so the copy is the level itself. *)
Definition clone (l : t) : t := l.

Definition clone_inner (self : t) : list t := map clone (inner self).

Definition is_reduction (l : t) : bool :=
  match reduction_var_map l with
  | Some (_ :: _) => true
  | _ => false
  end.

Definition do_split_with_tiling (self : t) (factor : Z) : t * t :=
  let sympy_factor := Integer factor in
  let main_loop_range := IndexingDiv (size self) sympy_factor in
  let main_loop :=
    {| var := var self; size := main_loop_range;
       offset := Integer 0; steps := Integer 1;
       parallel := parallel self; simd_omp := false; simd_vec := false;
       collapsed := false; reduction_var_map := reduction_var_map self;
       inner := clone_inner self; kernel := None |} in
  let offset := Mul main_loop_range sympy_factor in
  let tail_loop :=
    {| var := var self; size := size self;
       offset := offset; steps := Integer 1;
       parallel := parallel self; simd_omp := false; simd_vec := false;
       collapsed := false; reduction_var_map := reduction_var_map self;
       inner := clone_inner self; kernel := None |} in
  (main_loop, tail_loop).

(** [self.split_with_tiling(depth, factor)]: the main and the tail
    loop, and the levels that stand in the place of [self] in its
    parent afterwards. *)
Fixpoint split_with_tiling (depth : nat) (factor : Z) (self : t)
  : result (t * t * list t) :=
  match depth with
  | O =>
      let (main_loop, tail_loop) := do_split_with_tiling self factor in
      ret (main_loop, tail_loop, [main_loop; tail_loop])
  | S depth' =>
      match inner self with
      | [l] =>
          r <- split_with_tiling depth' factor l ;;
          let '(main_loop, tail_loop, put) := r in
          ret (main_loop, tail_loop, [with_inner self put])
      | _ => raise AssertionError
      end
  end.

Fixpoint get_loops_at (depth : nat) (self : t) : list t :=
  match depth with
  | O => [self]
  | S depth' => flat_map (get_loops_at depth') (inner self)
  end.

(** The loop header [lines] writes last. *)
Definition for_header (cexpr : expr -> string) (l : t) : string :=
  fstr ["for("; INDEX_TYPE; " "; var l; "="; cexpr (offset l); "; ";
        var l; "<"; cexpr (size l); "; "; var l; "+="; cexpr (steps l); ")"].

(** The values the loop variable takes in
    [for (var = offset; var < size; var += steps)], for a positive
    step. *)
Definition iterations (env : string -> Z) (l : t) : list Z :=
  let lo := eval env (offset l) in
  let hi := eval env (size l) in
  let st := eval env (steps l) in
  map (fun k => lo + Z.of_nat k * st)
      (List.seq 0 (Z.to_nat ((hi - lo + st - 1) / st))).

End LoopLevel.

(** The elements one step of the vector kernel touches: [transform_index]
    sends the innermost variable [i] to [i * W], and a vector load or
    store moves [W] consecutive elements from there. *)
Definition vector_lanes (W i : Z) : list Z :=
  map (fun j => i * W + Z.of_nat j) (List.seq 0 (Z.to_nat W)).

(** The elements covered by a main loop that carries the vector kernel
    and by a tail loop that carries the scalar kernel. *)
Definition main_elements (env : string -> Z) (W : Z) (main_loop : LoopLevel.t)
  : list Z :=
  flat_map (vector_lanes W) (LoopLevel.iterations env main_loop).

Definition tail_elements (env : string -> Z) (tail_loop : LoopLevel.t)
  : list Z :=
  LoopLevel.iterations env tail_loop.

(** [0, 1, ..., n-1]. *)
Definition index_range (n : Z) : list Z :=
  map Z.of_nat (List.seq 0 (Z.to_nat n)).

(** ** One step of a generated reduction

    The scalar kernel writes, for a reduction, a declaration with the
    start value into the prefix and one statement into the loop body.
    [init_then_combine] runs the statement once from the start
    value. *)

(** The statement [CppKernel.reduction] adds to the loop body. *)
Definition reduction_stmt (reduction_type tmpvar value itervar : string)
  : cstmt :=
  if str_in reduction_type ["argmax"; "argmin"] then
    index_reduction_stmt tmpvar
      (if String.eqb reduction_type "argmax" then "<" else ">") value itervar
  else reduction_combine_stmt reduction_type tmpvar value.

(** Declared types: [T tmp0 = init;], or the struct
    [{size_t index; T value;}] for [argmax] and [argmin]. *)
Definition reduction_decl (reduction_type : string)
    (dtype src_dtype : torch.dtype) (x : string) : option torch.dtype :=
  if str_in reduction_type ["argmax"; "argmin"] then
    if String.eqb x "tmp0.value" then Some src_dtype else None
  else
    if String.eqb x "tmp0" then Some dtype else None.

(** The store after the prefix has run. *)
Definition reduction_start (reduction_type : string)
    (dtype src_dtype : torch.dtype) : option cstore :=
  let decl := reduction_decl reduction_type dtype src_dtype in
  let st0 : cstore := fun _ => VNum 0 in
  if str_in reduction_type ["argmax"; "argmin"] then
    match reduction_init_expr reduction_type src_dtype with
    | inl e =>
        match eval_cexp st0 e with
        | Some v =>
            match assign decl st0 "tmp0.index" (VNum 0) with
            | Some st1 => assign decl st1 "tmp0.value" v
            | None => None
            end
        | None => None
        end
    | inr _ => None
    end
  else
    match reduction_init_expr reduction_type dtype with
    | inl e =>
        match eval_cexp st0 e with
        | Some v => assign decl st0 "tmp0" v
        | None => None
        end
    | inr _ => None
    end.

(** The loop body at step [i] of the innermost loop, where the reduced
    value is [x]. *)
Definition reduction_step (reduction_type : string)
    (dtype src_dtype : torch.dtype) (st : cstore) (i : Z) (x : cval)
  : option cstore :=
  exec (reduction_decl reduction_type dtype src_dtype)
       (reduction_stmt reduction_type "tmp0" "tmp1" "i0")
       (upd (upd st "i0" (VNum i)) "tmp1" x).

(** The accumulated value after the start value has been combined with
    a single [x]. *)
Definition init_then_combine (reduction_type : string) (dtype : torch.dtype)
    (x : cval) : option cval :=
  match reduction_start reduction_type dtype dtype with
  | Some st0 =>
      match reduction_step reduction_type dtype dtype st0 0 x with
      | Some st =>
          Some (st (if str_in reduction_type ["argmax"; "argmin"]
                    then "tmp0.value" else "tmp0"))
      | None => None
      end
  | None => None
  end.

(** The meaning of the start value of a reduction. *)
Definition reduction_init_value (reduction_type : string)
    (dtype : torch.dtype) : option cval :=
  match reduction_init_expr reduction_type dtype with
  | inl e => eval_cexp (fun _ => VNum 0) e
  | inr _ => None
  end.

(** The accumulator of an [argmax] as a pair (index, value), taken over
    the values [xs] met at steps [i], [i+1], ... *)
Fixpoint argmax_fold (i : Z) (acc : cval * cval) (xs : list Z)
  : cval * cval :=
  match xs with
  | [] => acc
  | x :: rest =>
      argmax_fold (i + 1)
        (if cval_ltb (snd acc) (VNum x) then (VNum i, VNum x) else acc) rest
  end.

(** [k] is the first position of a greatest element of [xs]. *)
Definition first_max (xs : list Z) (k : nat) : Prop :=
  exists m,
    nth_error xs k = Some m
    /\ (forall j y, nth_error xs j = Some y -> y <= m)
    /\ (forall j y, (j < k)%nat -> nth_error xs j = Some y -> y < m).

(** ** The index reduction as a program

    For [argmax] and [argmin] the scalar kernel writes into the prefix
    the declaration of a struct with the members [index] and [value],
    the accumulator with its start value, and an OpenMP
    [declare reduction] with a combiner and an initializer; into the
    loop body the [if] that moves the accumulator; into the suffix the
    assignment of the [index] member to the output.  [LoopLevel.lines]
    puts the clause [reduction(argmax:tmp)] on the loop when the loop
    is parallel.  The pieces are given here as syntax, with the text
    they print to, and are run over the values the loop meets. *)

Module IndexReduction.

Record t : Type := {
  tmpvar : string;
  value : string;
  itervar : string;
  (** the element of the output buffer the suffix assigns to *)
  out : string;
  compare_op : string;
  init : cexp;
  src_dtype : torch.dtype
}.

(** [T x{0, init}], member by member. *)
Definition struct_init (var : string) (init : cexp) : list cstmt :=
  [ SAssign (fstr [var; ".index"]) (CInt 0);
    SAssign (fstr [var; ".value"]) init ].

Definition body (r : t) : cstmt :=
  index_reduction_stmt (tmpvar r) (compare_op r) (value r) (itervar r).

(** The combiner of the declared reduction: two assignments joined by
    the comma operator, run from left to right. *)
Definition combiner (compare_op : string) : list cstmt :=
  let keep := CCmp compare_op (CVar "omp_in.value") (CVar "omp_out.value") in
  [ SAssign "omp_out.value"
      (CCond keep (CVar "omp_out.value") (CVar "omp_in.value"));
    SAssign "omp_out.index"
      (CCond keep (CVar "omp_out.index") (CVar "omp_in.index")) ].

Definition suffix (r : t) : cstmt :=
  SAssign (out r) (CVar (fstr [tmpvar r; ".index"])).

(** The program of a reduction of kind [argmax] or [argmin] over the
    element type [src_dtype], on the names [CppKernel.reduction] has at
    hand. *)
Definition of_reduction (reduction_type : string) (src_dtype : torch.dtype)
    (tmpvar value itervar out : string) : result t :=
  init <- reduction_init_expr reduction_type src_dtype ;;
  ret {| tmpvar := tmpvar; value := value; itervar := itervar; out := out;
         compare_op := if String.eqb reduction_type "argmax" then "<" else ">";
         init := init; src_dtype := src_dtype |}.

(** *** The text *)

Definition rhs_str (s : cstmt) : string :=
  match s with
  | SAssign _ e | SAddAssign _ e => cexp_str e
  | SIf _ _ => ""
  end.

(** A brace initializer, from the member assignments it stands for. *)
Definition braces (ss : list cstmt) : string :=
  fstr ["{"; String.concat ", " (map rhs_str ss); "}"].

(** The combiner inside the directive: a comma after each assignment
    but the last, which closes the parenthesis; every line is
    continued. *)
Fixpoint combiner_lines (ss : list cstmt) : list string :=
  match ss with
  | [] => []
  | [s] => [ fstr ["    "; simple_stmt_str s; ")"; backslash] ]
  | s :: rest =>
      fstr ["    "; simple_stmt_str s; ","; backslash] :: combiner_lines rest
  end.

Definition prefix_lines (reduction_type struct_name : string) (r : t)
  : list string :=
  [ fstr ["struct "; struct_name; " {size_t index; ";
          DTYPE_TO_CPP (src_dtype r); " value;};"];
    fstr [struct_name; " "; tmpvar r;
          braces (struct_init (tmpvar r) (init r)); ";"];
    fstr ["#pragma omp declare reduction("; reduction_type; " : struct ";
          struct_name; " :"; backslash] ]
  ++ combiner_lines (combiner (compare_op r))
  ++ [ fstr [tab; "initializer(omp_priv = ";
             braces (struct_init "omp_priv" (init r)); ")"] ].

Definition body_lines (r : t) : list string := cstmt_lines (body r).

Definition suffix_line (r : t) : string :=
  fstr [simple_stmt_str (suffix r); ";"].

(** *** The computation *)

(** The [value] member of the accumulator and of the variables of the
    directive has the element type reduced over; the [index] member is
    a [size_t] and is assigned without conversion. *)
Definition decl (r : t) (x : string) : option torch.dtype :=
  if str_in x (map (fun v => fstr [v; ".value"])
                 [tmpvar r; "omp_out"; "omp_in"; "omp_priv"])
  then Some (src_dtype r) else None.

(** One step of the loop: the loop variable is [i], the value loaded
    is [x]. *)
Definition step (r : t) (st : cstore) (i : Z) (x : cval) : option cstore :=
  exec (decl r) (body r) (upd (upd st (itervar r) (VNum i)) (value r) x).

(** The steps [i], [i+1], ... over the values [xs]. *)
Fixpoint loop (r : t) (i : Z) (xs : list cval) (st : cstore)
  : option cstore :=
  match xs with
  | [] => Some st
  | x :: rest =>
      match step r st i x with
      | Some st' => loop r (i + 1) rest st'
      | None => None
      end
  end.

(** The store before the prefix: nothing is set. *)
Definition empty : cstore := fun _ => VNum 0.

(** The program run by one thread, without the directive: prefix, loop
    from 0, suffix.  The result is what the output element holds. *)
Definition run_sequential (r : t) (xs : list cval) : option cval :=
  match exec_all (decl r) (struct_init (tmpvar r) (init r)) empty with
  | Some st1 =>
      match loop r 0 xs st1 with
      | Some st2 =>
          match exec (decl r) (suffix r) st2 with
          | Some st3 => Some (st3 (out r))
          | None => None
          end
      | None => None
      end
  | None => None
  end.

(** Both members of one struct variable, copied to another. *)
Definition copy_struct (from to : string) (src dst : cstore) : cstore :=
  upd (upd dst (fstr [to; ".index"]) (src (fstr [from; ".index"])))
      (fstr [to; ".value"]) (src (fstr [from; ".value"])).

(** The loop under [#pragma omp for reduction(id : tmp)].  Each thread
    has a private copy of the accumulator, set by the initializer
    clause, in which [omp_priv] names the copy, and runs its share of
    the steps on it: a share is the first step and the values of a run
    of consecutive steps. *)
Definition run_thread (r : t) (st : cstore) (share : Z * list cval)
  : option cstore :=
  match exec_all (decl r) (struct_init "omp_priv" (init r)) st with
  | Some p =>
      loop r (fst share) (snd share) (copy_struct "omp_priv" (tmpvar r) p p)
  | None => None
  end.

(** At the end of the loop the original accumulator is combined with
    each private copy by the combiner, in which [omp_out] names the
    accumulator that takes the result and [omp_in] the copy. *)
Definition combine (r : t) (orig priv : cstore) : option cstore :=
  let st := copy_struct (tmpvar r) "omp_in" priv
              (copy_struct (tmpvar r) "omp_out" orig orig) in
  match exec_all (decl r) (combiner (compare_op r)) st with
  | Some st' => Some (copy_struct "omp_out" (tmpvar r) st' st')
  | None => None
  end.

Fixpoint combine_all (r : t) (privs : list cstore) (orig : cstore)
  : option cstore :=
  match privs with
  | [] => Some orig
  | p :: rest =>
      match combine r orig p with
      | Some orig' => combine_all r rest orig'
      | None => None
      end
  end.

Fixpoint run_threads (r : t) (st : cstore) (shares : list (Z * list cval))
  : option (list cstore) :=
  match shares with
  | [] => Some []
  | s :: rest =>
      match run_thread r st s, run_threads r st rest with
      | Some p, Some ps => Some (p :: ps)
      | _, _ => None
      end
  end.

(** The program run by several threads: prefix, the loop under the
    directive, suffix.  OpenMP leaves to the implementation which steps
    a thread runs and in which order the copies are combined; here the
    shares are given, one per thread, and the copies are combined in
    the order of the list. *)
Definition run_parallel (r : t) (shares : list (Z * list cval))
  : option cval :=
  match exec_all (decl r) (struct_init (tmpvar r) (init r)) empty with
  | Some st1 =>
      match run_threads r st1 shares with
      | Some privs =>
          match combine_all r privs st1 with
          | Some st2 =>
              match exec (decl r) (suffix r) st2 with
              | Some st3 => Some (st3 (out r))
              | None => None
              end
          | None => None
          end
      | None => None
      end
  | None => None
  end.

End IndexReduction.

(** A context for examples: one thread or more, float32 buffers unless
    named otherwise, identity renaming. *)
Definition example_sympy : sympy_lib :=
  {| expand := fun e => e; simplify := fun e => e;
     has := fun _ _ => false; minus := fun a _ => a |}.

Definition example_context (nthreads : Z) (dynamic : bool)
    (dtype_of : string -> torch.dtype) : Context :=
  {| config_cpp := {| threads := nthreads; dynamic_threads := dynamic;
                      min_chunk_size := 16 |};
     graph := {| get_dtype := dtype_of; removed_buffers := [];
                 var_hint := fun _ => 0 |};
     common := {| args_input := fun n => fstr ["in_ptr_"; n];
                  args_output := fun n => fstr ["out_ptr_"; n];
                  rename_indexing := fun e => e;
                  cexpr := fun e => match e with
                                    | Symbol x => x
                                    | Integer n => str_int n
                                    | _ => "expr"
                                    end |};
     sympy := example_sympy |}.

(** ** The greedy rule of the parallel depth, stated on its own

    After [n] levels have been added, the parallel factor is the product
    of their extents and the remaining work is the total divided by each
    of them in turn. *)

Definition par_at (hints : list Z) (n : nat) : Z :=
  fold_left Z.mul (firstn n hints) 1.

Definition seq_at (seq0 : Z) (hints : list Z) (n : nat) : result number :=
  fold_left (fun s h => x <- s ;; py_truediv x h) (firstn n hints)
    (ret (Int seq0)).

(** The rule stops before adding level [n]: the factor has reached
    twice the thread count or is the thread count, or [seq // threads]
    is below the minimum chunk size. *)
Definition stops_at (cfg : Config) (threads : Z) (seq0 : Z) (hints : list Z)
    (n : nat) : Prop :=
  par_at hints n >= 2 * threads
  \/ par_at hints n = threads
  \/ exists seq q,
       seq_at seq0 hints n = inl seq
       /\ py_floordiv seq threads = inl q
       /\ py_lt q (min_chunk_size cfg) = true.

(** What holds of a coordinator between calls: its stack holds one
    block exactly when it is inside a parallel region, and none
    otherwise; the blocks open in the code it wrote are those of its
    stack; and inside a region the recorded thread count is that of the
    latest [parallel]. *)
Definition ws_inv (code0 : list code_event) (cs : list WorkSharing.call)
    (ws : WorkSharing.t) : Prop :=
  WorkSharing.stack ws = (if WorkSharing.in_parallel ws then 1 else 0)%nat
  /\ WorkSharing.open_blocks (WorkSharing.code ws) 0
     = WorkSharing.open_blocks code0 0 + Z.of_nat (WorkSharing.stack ws)
  /\ (WorkSharing.in_parallel ws = true ->
      exists t, WorkSharing.num_threads ws = Some t
                /\ WorkSharing.last_request cs None = Some t).

(** [lo, lo+1, ..., lo+n-1]. *)
Definition zrange (lo : Z) (n : nat) : list Z :=
  map (fun k => lo + Z.of_nat k) (List.seq 0 n).

(** ** The rules of the checker, request by request *)

(** Whether the innermost of the iteration variables [iv] steps through
    [index] legally; there is no innermost variable when there is no
    loop. *)
Definition innermost_legal (ctx : Context) (iv : list string) (index : expr)
  : bool :=
  match rev iv with
  | [] => false
  | v :: _ => is_legal_data_access ctx v (rename_indexing (common ctx) index)
  end.

(** A request the checker lets pass: loads of [float32], [bool] and
    [uint8] buffers and stores to [float32] buffers without a mode, both
    with a legal access; [float32] reductions of kind sum, min or max;
    [float32] and [int32] constants; casts to [bool]; [masked]; and the
    operations of the allow-list. *)
Definition admissible (ctx : Context) (iv : list string) (allow : list string)
    (o : op) : bool :=
  match o with
  | OpLoad name index =>
      dtype_in (get_dtype (graph ctx) name)
        [torch.float32; torch.bool; torch.uint8]
      && innermost_legal ctx iv index
  | OpStore name index _ mode =>
      dtype_in (get_dtype (graph ctx) name) [torch.float32]
      && negb (mode_truth mode)
      && innermost_legal ctx iv index
  | OpReduction _ dtype src_dtype reduction_type _ _ =>
      torch.dtype_eqb dtype torch.float32
      && torch.dtype_eqb src_dtype torch.float32
      && str_in reduction_type ["sum"; "min"; "max"]
  | OpConstant _ dtype => dtype_in dtype [torch.float32; torch.int32]
  | OpIndexExpr _ _ => false
  | OpIndirectIndexing _ => false
  | OpMasked _ _ _ => true
  | OpToDtype _ dtype => torch.dtype_eqb dtype torch.bool
  | OpOther name _ => str_in name allow
  end.

(** A store passes the assertion of [store] on the buffer name, or does
    not get to it. *)
Definition well_named (ctx : Context) (o : op) : bool :=
  match o with
  | OpStore name _ _ _ =>
      negb (dtype_in (get_dtype (graph ctx) name) [torch.float; torch.float32])
      || contains "buf" name
  | _ => true
  end.

(** ** CppScheduling.can_vec *)

(** A scheduler node as [can_vec] uses it: its group (pointwise and
    reduction ranges), whether it is a reduction, and the requests its
    [run] makes of the operation handler for given variables. *)
Record SchedulerNode : Type := {
  node_group : list expr * list expr;
  node_is_reduction : bool;
  node_run : list string -> list string -> list op
}.

(** [max(nodes, key=lambda x: int(x.is_reduction()))]: the first
    reduction node, or the first node when there is none. *)
Definition max_by_reduction (nodes : list SchedulerNode)
  : option SchedulerNode :=
  match find node_is_reduction nodes with
  | Some n => Some n
  | None => hd_error nodes
  end.

Definition group_eqb (a b : list expr * list expr) : bool :=
  tuple_eqb (fst a) (fst b) && tuple_eqb (snd a) (snd b).

Inductive can_vec_outcome : Type :=
| Returned (verdict : bool)
(** [max()] of an empty list *)
| ValueError
| Raised (e : exn).

(** The loop of [can_vec] over the nodes. *)
Fixpoint can_vec_nodes (ctx : Context) (group reduction_group : list expr)
    (vars reduction_vars : list string) (nodes : list SchedulerNode)
  : M CppVecKernelChecker unit :=
  match nodes with
  | [] => retM tt
  | node :: rest =>
      (if group_eqb (node_group node) (group, reduction_group)
          || group_eqb (node_group node) (group ++ reduction_group, [])
       then run_requests ctx (node_run node vars reduction_vars)
       else
         assertM (group_eqb (node_group node) (group, [])) ;;;
         run_requests ctx (node_run node vars [])) ;;;
      can_vec_nodes ctx group reduction_group vars reduction_vars rest
  end.

(** [can_vec(nodes)], with what [codecache.pick_vec_isa()] gives (the
    vector width, or nothing) and the thread count. *)
Definition can_vec (ctx : Context) (vec_isa : option Z) (num_threads : Z)
    (nodes : list SchedulerNode) : can_vec_outcome :=
  match vec_isa with
  | None => Returned false
  | Some nelements =>
      match max_by_reduction nodes with
      | None => ValueError
      | Some n =>
          let (group, reduction_group) := node_group n in
          let checker := CppVecKernelChecker_init num_threads nelements in
          match checker_set_ranges ctx group reduction_group checker with
          | (c1, inl (vars, reduction_vars)) =>
              match can_vec_nodes ctx group reduction_group vars
                      reduction_vars nodes c1 with
              | (c2, inl _) => Returned (simd_vec c2)
              | (_, inr e) => Raised e
              end
          | (_, inr e) => Raised e
          end
      end
  end.

(** The requests a node makes in [can_vec], for the group of the kernel
    and its variables. *)
Definition node_requests (group reduction_group : list expr)
    (vars reduction_vars : list string) (node : SchedulerNode) : list op :=
  if group_eqb (node_group node) (group, reduction_group)
     || group_eqb (node_group node) (group ++ reduction_group, [])
  then node_run node vars reduction_vars
  else node_run node vars [].

(** A node whose group fits the group of the kernel. *)
Definition fits_group (group reduction_group : list expr)
    (node : SchedulerNode) : bool :=
  group_eqb (node_group node) (group, reduction_group)
  || group_eqb (node_group node) (group ++ reduction_group, [])
  || group_eqb (node_group node) (group, []).

(** ** CppVecKernel *)

Module CppVecKernel.

(** The kernel it extends, the vector width, and its two dicts. *)
Record t : Type := {
  base : CppKernel;
  simd_nelements : Z;
  reduction_omp_dec : list (string * string);
  var_vec_buf_map : list (string * string)
}.

(** [CppVecKernel(args, num_threads)], with what
    [codecache.pick_vec_isa()] gives: the constructor asserts that there
    is a vector instruction set and takes its width. *)
Definition init (num_threads : Z) (vec_isa : option Z) : result t :=
  match vec_isa with
  | None => raise AssertionError
  | Some nelements =>
      ret {| base := CppKernel_init num_threads; simd_nelements := nelements;
             reduction_omp_dec := []; var_vec_buf_map := [] |}
  end.

Definition set_base (k : CppKernel) (v : t) : t :=
  {| base := k; simd_nelements := simd_nelements v;
     reduction_omp_dec := reduction_omp_dec v;
     var_vec_buf_map := var_vec_buf_map v |}.

Definition set_omp_dec (rtype op : string) (v : t) : t :=
  {| base := base v; simd_nelements := simd_nelements v;
     reduction_omp_dec := dict_set rtype op (reduction_omp_dec v);
     var_vec_buf_map := var_vec_buf_map v |}.

Definition set_vec_buf (var buf : string) (v : t) : t :=
  {| base := base v; simd_nelements := simd_nelements v;
     reduction_omp_dec := reduction_omp_dec v;
     var_vec_buf_map := dict_set var buf (var_vec_buf_map v) |}.

(** A method of the kernel it extends, run on the vector kernel. *)
Definition on_base {A} (m : M CppKernel A) : M t A :=
  fun v => let (k', r) := m (base v) in (set_base k' v, r).

Definition in_dict (k : string) (m : list (string * string)) : bool :=
  match lookup k m with
  | Some _ => true
  | None => false
  end.

Section Methods.

Variable ctx : Context.

Let g := graph ctx.
Let cm := common ctx.
Let sp := sympy ctx.

(** [self.transform_index(index)]. *)
Definition transform (index : expr) : M t expr :=
  v <~ getM ;;
  liftM (transform_index ctx (base v) (simd_nelements v) index).

Definition load (name : string) (index : expr) : M t string :=
  let var := args_input cm name in
  let index := rename_indexing cm index in
  let expanded_index := expand sp index in
  new_index <~ transform index ;;
  line <~
    (if expr_eqb expanded_index new_index then
       retM (fstr ["at::vec::Vectorized<float>("; var; "["; cexpr cm index; "])"])
     else if dtype_in (get_dtype g name) [torch.bool; torch.uint8] then
       v <~ getM ;;
       (* the width of the picked instruction set, as at construction *)
       let nelements := str_int (simd_nelements v) in
       (if negb (in_dict var (var_vec_buf_map v)) then
          let buf := fstr ["g_tmp_buffer_"; var] in
          modifyM (set_vec_buf var buf) ;;;
          on_base (modifyM (write_loads
            [fstr ["float "; buf; "["; nelements; "] = {0};"]]))
        else retM tt) ;;;
       v' <~ getM ;;
       match lookup var (var_vec_buf_map v') with
       | None => raiseM KeyError
       | Some buf =>
           on_base (modifyM (write_loads
             [fstr ["flag_to_float("; var; " + "; cexpr cm new_index; ", ";
                    buf; ", "; nelements; ");"]])) ;;;
           retM (fstr ["at::vec::Vectorized<float>::loadu("; buf; ")"])
       end
     else
       retM (fstr ["at::vec::Vectorized<float>::loadu("; var; " + ";
                   cexpr cm new_index; ")"])) ;;
  on_base (generate_in_loads line true).

Definition store (name : string) (index : expr) (value : string)
    (mode : option string) : M t unit :=
  assertM (contains "buf" name) ;;;
  let var := args_output cm name in
  let index := rename_indexing cm index in
  assertM (match mode with None => true | Some _ => false end) ;;;
  let expanded_index := expand sp index in
  new_index <~ transform index ;;
  assertM (negb (expr_eqb new_index expanded_index)) ;;;
  let line := fstr [value; ".store("; var; " + "; cexpr cm new_index; ");"] in
  on_base (modifyM (write_stores (Some name) [line])).

(** [reduce_map[reduction_type]]. *)
Definition reduce_map (reduction_type : string) : result string :=
  if String.eqb reduction_type "max" then ret "maximum"
  else if String.eqb reduction_type "min" then ret "minimum"
  else raise KeyError.

Definition reduction (name : string) (dtype src_dtype : torch.dtype)
    (reduction_type : string) (index : expr) (value : string) : M t unit :=
  assertM (str_in reduction_type ["max"; "min"; "sum"]) ;;;
  assertM (torch.dtype_eqb dtype torch.float) ;;;
  assertM (torch.dtype_eqb src_dtype torch.float) ;;;
  let vec_ns := "at::vec" in
  let vec := fstr [vec_ns; "::Vectorized<"; DTYPE_TO_CPP dtype; ">"] in
  v <~ getM ;;
  (if negb (in_dict reduction_type (reduction_omp_dec v)) then
     rop <~ liftM (match RTYPE_TO_CPP reduction_type with
                   | Some s => ret s
                   | None => raise KeyError
                   end) ;;
     body <~ (if String.eqb reduction_type "sum" then retM "omp_out += omp_in"
              else
                rm <~ liftM (reduce_map reduction_type) ;;
                retM (fstr ["omp_out = "; vec_ns; "::"; rm; "(omp_out, omp_in)"])) ;;
     init <~ liftM (reduction_init reduction_type dtype) ;;
     let vec_reduc_prefix :=
       fstr ["#pragma omp declare reduction("; rop; ":"; vec; ":"; body; ")";
             " initializer("; "omp_priv={{"; py_str init; "}})"] in
     modifyM (set_omp_dec reduction_type rop) ;;;
     on_base (modifyM (write_prefix [vec_reduc_prefix]))
   else retM tt) ;;;
  tmpvar <~ on_base (generate_in_loads
                       (fstr ["reduction "; name; " "; cexpr cm index]) false) ;;
  let tmpvar_vec := fstr [tmpvar; "_vec"] in
  let index := rename_indexing cm index in
  on_base (modifyM (set_reduction_var tmpvar_vec reduction_type)) ;;;
  init <~ liftM (reduction_init reduction_type dtype) ;;
  on_base (modifyM (write_prefix
    [fstr [DTYPE_TO_CPP dtype; " "; tmpvar; " = "; py_str init; ";"]])) ;;;
  on_base (modifyM (write_prefix
    [fstr ["auto "; tmpvar_vec; " = at::vec::Vectorized<"; DTYPE_TO_CPP dtype;
           ">("; tmpvar; ");"]])) ;;;
  combine <~ liftM (reduction_combine_vec reduction_type tmpvar_vec value) ;;
  on_base (modifyM (write_stores None [fstr [combine; ";"]])) ;;;
  reduce_all_body <~
    (if String.eqb reduction_type "sum" then retM "{return x + y;}"
     else
       rm <~ liftM (reduce_map reduction_type) ;;
       retM (fstr ["{"; "return "; vec_ns; "::"; rm; "(x, y);"; "}"])) ;;
  let vec_reduce_all_func :=
    fstr [vec_ns; "::vec_reduce_all<"; DTYPE_TO_CPP dtype; ">"] in
  let next_value :=
    fstr [vec_reduce_all_func; "([]("; vec; "& x, "; vec; "&y) ";
          reduce_all_body; ", "; tmpvar_vec; ")"] in
  on_base (modifyM (write_suffix name
    (fstr [reduction_combine reduction_type tmpvar next_value; ";"]))) ;;;
  (* the real stores are left to the scalar kernel of the loop tail *)
  on_base (modifyM (fun k => set_cse (cse_set_store_cache (cse k) name tmpvar) k)).

End Methods.

End CppVecKernel.

(** Whether the symbol [x] occurs in [e]. *)
Fixpoint mentions (e : expr) (x : string) : bool :=
  match e with
  | Integer _ => false
  | Symbol y => String.eqb x y
  | Add a b => mentions a x || mentions b x
  | Mul a b => mentions a x || mentions b x
  | IndexingDiv a b => mentions a x || mentions b x
  end.

(** ** LoopLevel: the kernels below a level and the lines of a level *)

(** [loop.get_kernels()]; a kernel object counts as true. *)
Fixpoint get_kernels (l : LoopLevel.t) : list CppKernel :=
  match l with
  | LoopLevel.Build _ _ _ _ _ _ _ _ _ inner kernel =>
      match kernel with
      | Some k => [k]
      | None => flat_map get_kernels inner
      end
  end.

(** [s.replace(old, new)] for a non-empty [old]: the occurrences are
    replaced from the left and do not overlap.  [skip] counts the
    characters of an occurrence still to be dropped. *)
Fixpoint str_replace_from (old new : string) (skip : nat) (s : string)
  : string :=
  match s with
  | EmptyString => EmptyString
  | String c rest =>
      match skip with
      | S n => str_replace_from old new n rest
      | O =>
          if String.prefix old s
          then new ++ str_replace_from old new (String.length old - 1) rest
          else String c (str_replace_from old new 0 rest)
      end
  end.

Definition str_replace (old new s : string) : string :=
  str_replace_from old new 0 s.

(** The clauses [reduction(op:var)] of a level, one per reduction
    variable, in the order of the dict. *)
Fixpoint reduction_clauses (m : list (string * string))
  : result (list string) :=
  match m with
  | [] => ret []
  | (var, rtype) :: rest =>
      match RTYPE_TO_CPP rtype with
      | Some op =>
          cs <- reduction_clauses rest ;;
          ret (fstr ["reduction("; op; ":"; var; ")"] :: cs)
      | None => raise KeyError
      end
  end.

(** The text [lines] puts after [for] or [simd]: a space and the
    clauses, or nothing for a level without reduction variables. *)
Definition reduction_text (self : LoopLevel.t) : result string :=
  if LoopLevel.is_reduction self then
    match LoopLevel.reduction_var_map self with
    | Some m =>
        cs <- reduction_clauses m ;;
        ret (" " ++ String.concat " " cs)%string
    | None => ret ""
    end
  else ret "".

(** [loop.lines()], with the width of the picked vector instruction set
    ([0] without one) and [codecache.is_gcc()] given. *)
Definition lines (cexpr : expr -> string) (simd_nelements : Z)
    (is_gcc : bool) (self : LoopLevel.t) : result (list string) :=
  reduction <- reduction_text self ;;
  let simd :=
    if LoopLevel.simd_omp self && (1 <? simd_nelements)
    then fstr ["simd simdlen("; str_int simd_nelements; ") "]
    else "" in
  let line1 :=
    if negb (LoopLevel.parallel self =? 0) then
      let line1 := fstr ["#pragma omp for"; reduction; " "] in
      let line1 :=
        if 1 <? LoopLevel.parallel self
        then (line1
              ++ fstr [" collapse("; str_int (LoopLevel.parallel self); ")"])%string
        else line1 in
      if LoopLevel.simd_omp self
      then str_replace " for " (fstr [" for "; simd]) line1
      else line1
    else if LoopLevel.simd_vec self then ""
    else if LoopLevel.simd_omp self then fstr ["#pragma omp "; simd; reduction]
    else if negb (LoopLevel.is_reduction self) && is_gcc
    then "#pragma GCC ivdep"
    else "" in
  let line2 := LoopLevel.for_header cexpr self in
  if LoopLevel.collapsed self || String.eqb line1 ""
  then ret [line2]
  else ret [line1; line2].

(** ** LoopNestWithSplit *)

Module LoopNestWithSplit.

(** The field [kernel] holds what the constructor is given, the number
    of loop variables, unless there is no loop: then [build] puts the
    kernel there. *)
Inductive nest_kernel : Type :=
| Count (n : nat)
| Kernel (k : CppKernel).

(** [max_parallel_depth] is decorated with [cache_on_self]: its first
    result is kept on the nest and handed back by every later call. *)
Record t : Type := {
  root : list LoopLevel.t;
  kernel : nest_kernel;
  max_parallel_depth_cache : option nat
}.

Definition set_root (r : list LoopLevel.t) (n : t) : t :=
  {| root := r; kernel := kernel n;
     max_parallel_depth_cache := max_parallel_depth_cache n |}.

Definition set_cache (d : nat) (n : t) : t :=
  {| root := root n; kernel := kernel n;
     max_parallel_depth_cache := Some d |}.

(** The levels [build] appends for the loop variables from [depth] on:
    each level is the only inner level of the one before it, and the
    last one carries the kernel. *)
Fixpoint build_levels (k : CppKernel) (reduction_depth depth : nat)
    (vs : list (string * expr)) : list LoopLevel.t :=
  match vs with
  | [] => []
  | (var, size) :: rest =>
      [ {| LoopLevel.var := var; LoopLevel.size := size;
           LoopLevel.offset := Integer 0; LoopLevel.steps := Integer 1;
           LoopLevel.parallel := 0; LoopLevel.simd_omp := false;
           LoopLevel.simd_vec := false; LoopLevel.collapsed := false;
           LoopLevel.reduction_var_map :=
             if (reduction_depth <=? depth)%nat
             then Some (reduction_var_map k) else None;
           LoopLevel.inner := build_levels k reduction_depth (S depth) rest;
           LoopLevel.kernel :=
             match rest with [] => Some k | _ => None end |} ]
  end.

(** [LoopNestWithSplit.build(kernel)].  On an unbound kernel [zip]
    raises; the comparison with the reduction depth is made only when
    there is a loop. *)
Definition build (k : CppKernel) : result t :=
  match itervars k, ranges k with
  | Some iv, Some rs =>
      let vs := combine iv rs in
      match vs, reduction_depth k with
      | [], _ =>
          ret {| root := []; kernel := Kernel k;
                 max_parallel_depth_cache := None |}
      | _ :: _, None => raise TypeError
      | _ :: _, Some rd =>
          ret {| root := build_levels k rd 0 vs;
                 kernel := Count (List.length iv);
                 max_parallel_depth_cache := None |}
      end
  | _, _ => raise TypeError
  end.

(** [bool(loop_nest)]. *)
Definition truth (n : t) : bool :=
  match root n with
  | [] => false
  | _ :: _ => true
  end.

Definition get_loops_at (depth : nat) (n : t) : list LoopLevel.t :=
  flat_map (LoopLevel.get_loops_at depth) (root n).

(** The rounds of the loop of [max_parallel_depth] once [loops] is the
    one level [l]. *)
Fixpoint chain_depth (is_reduction : bool) (l : LoopLevel.t) : nat :=
  match l with
  | LoopLevel.Build _ _ _ _ _ _ _ _ _ inner _ =>
      if Bool.eqb (LoopLevel.is_reduction l) is_reduction then
        S (match inner with
           | [l'] => chain_depth is_reduction l'
           | _ => 0%nat
           end)
      else 0%nat
  end.

(** The rounds of that loop from any [loops]: it stops at once unless
    there is exactly one level. *)
Definition rounds (is_reduction : bool) (loops : list LoopLevel.t) : nat :=
  match loops with
  | [l] => chain_depth is_reduction l
  | _ => 0%nat
  end.

Definition parallel_depth_of (loops : list LoopLevel.t) : nat :=
  let is_reduction :=
    match loops with
    | l :: _ => LoopLevel.is_reduction l
    | [] => false
    end in
  rounds is_reduction loops.

Definition max_parallel_depth : M t nat :=
  n <~ getM ;;
  match max_parallel_depth_cache n with
  | Some d => retM d
  | None =>
      let d := parallel_depth_of (root n) in
      modifyM (set_cache d) ;;; retM d
  end.

(** The truth of [self.root and self.root[0].is_reduction()]. *)
Definition is_reduction_only (n : t) : bool :=
  match root n with
  | [] => false
  | l :: _ => LoopLevel.is_reduction l
  end.

Definition set_parallel (p : Z) (l : LoopLevel.t) : LoopLevel.t :=
  {| LoopLevel.var := LoopLevel.var l; LoopLevel.size := LoopLevel.size l;
     LoopLevel.offset := LoopLevel.offset l;
     LoopLevel.steps := LoopLevel.steps l;
     LoopLevel.parallel := p; LoopLevel.simd_omp := LoopLevel.simd_omp l;
     LoopLevel.simd_vec := LoopLevel.simd_vec l;
     LoopLevel.collapsed := LoopLevel.collapsed l;
     LoopLevel.reduction_var_map := LoopLevel.reduction_var_map l;
     LoopLevel.inner := LoopLevel.inner l;
     LoopLevel.kernel := LoopLevel.kernel l |}.

Definition set_collapsed (l : LoopLevel.t) : LoopLevel.t :=
  {| LoopLevel.var := LoopLevel.var l; LoopLevel.size := LoopLevel.size l;
     LoopLevel.offset := LoopLevel.offset l;
     LoopLevel.steps := LoopLevel.steps l;
     LoopLevel.parallel := LoopLevel.parallel l;
     LoopLevel.simd_omp := LoopLevel.simd_omp l;
     LoopLevel.simd_vec := LoopLevel.simd_vec l;
     LoopLevel.collapsed := true;
     LoopLevel.reduction_var_map := LoopLevel.reduction_var_map l;
     LoopLevel.inner := LoopLevel.inner l;
     LoopLevel.kernel := LoopLevel.kernel l |}.

(** An assignment to a field of [loops[0]], where [loops] is reached
    from the given list by [i] steps of [loops = loops[0].inner];
    [None] where [loops] is empty there. *)
Fixpoint update_first (i : nat) (f : LoopLevel.t -> LoopLevel.t)
    (loops : list LoopLevel.t) : option (list LoopLevel.t) :=
  match loops with
  | [] => None
  | l :: rest =>
      match i with
      | O => Some (f l :: rest)
      | S j =>
          match update_first j f (LoopLevel.inner l) with
          | Some inner' => Some (LoopLevel.with_inner l inner' :: rest)
          | None => None
          end
      end
  end.

Definition assign_first (i : nat) (f : LoopLevel.t -> LoopLevel.t)
  : M t unit :=
  n <~ getM ;;
  match update_first i f (root n) with
  | Some r => modifyM (set_root r)
  | None => raiseM IndexError
  end.

Fixpoint collapse_levels (depths : list nat) : M t unit :=
  match depths with
  | [] => retM tt
  | i :: rest => assign_first i set_collapsed ;;; collapse_levels rest
  end.

Definition mark_parallel (par_depth : Z) : M t unit :=
  m <~ max_parallel_depth ;;
  assertM (par_depth <=? Z.of_nat m) ;;;
  assign_first 0 (set_parallel par_depth) ;;;
  collapse_levels (List.seq 1 (Z.to_nat par_depth - 1)).

(** The levels after the levels at [depth] have each been replaced, in
    the list that holds them, by their main and tail loops. *)
Fixpoint split_in (depth : nat) (factor : Z) (loops : list LoopLevel.t)
  : list LoopLevel.t :=
  match depth with
  | O =>
      flat_map (fun l =>
                  let (main_loop, tail_loop) :=
                    LoopLevel.do_split_with_tiling l factor in
                  [main_loop; tail_loop]) loops
  | S depth' =>
      map (fun l =>
             LoopLevel.with_inner l
               (split_in depth' factor (LoopLevel.inner l))) loops
  end.

(** [loop_nest.split_with_tiling(depth, factor)].  The one level at
    [depth] is the only inner level of its parent, whose list becomes
    the main and the tail loop; at depth 0 the root does. *)
Definition split_with_tiling (depth : nat) (factor : Z)
  : M t (LoopLevel.t * LoopLevel.t) :=
  n <~ getM ;;
  let loops := get_loops_at depth n in
  assertM (Nat.eqb (List.length loops) 1) ;;;
  match loops with
  | [] => raiseM IndexError
  | l :: _ =>
      let split_loops := LoopLevel.do_split_with_tiling l factor in
      modifyM (set_root (split_in depth factor (root n))) ;;;
      retM split_loops
  end.

End LoopNestWithSplit.

(** [bool(kernel.reduction_var_map)]: the kernel has written a
    reduction. *)
Definition has_reduction_vars (k : CppKernel) : bool :=
  match reduction_var_map k with
  | [] => false
  | _ :: _ => true
  end.

(** ** The start of [codegen_loops_impl] *)

Section CodegenLoops.

Variable ctx : Context.

Let cfg := config_cpp ctx.

(** The loop nest and the work-sharing coordinator [codegen_loops_impl]
    is given. *)
Definition loops_state : Type := (LoopNestWithSplit.t * WorkSharing.t)%type.

Definition on_nest {A} (m : M LoopNestWithSplit.t A) : M loops_state A :=
  fun s => let (n', r) := m (fst s) in ((n', snd s), r).

Definition on_worksharing (f : WorkSharing.t -> WorkSharing.t)
  : M loops_state unit :=
  modifyM (fun s => (fst s, f (snd s))).

(** [stack.enter_context(code.indent())] on the buffer the coordinator
    writes to. *)
Definition code_indent (ws : WorkSharing.t) : WorkSharing.t :=
  {| WorkSharing.code := WorkSharing.code ws ++ [EnterIndent];
     WorkSharing.in_parallel := WorkSharing.in_parallel ws;
     WorkSharing.num_threads := WorkSharing.num_threads ws;
     WorkSharing.stack := WorkSharing.stack ws |}.

(** [codegen_loops_impl] up to the point where the loops are written:
    the parallel depth is decided and the nest is marked.  It hands
    back the depth and how many indented blocks the [ExitStack] of the
    function has entered. *)
Definition codegen_loops_impl_parallel (k : CppKernel)
    (torch_num_threads : Z) : M loops_state (Z * nat) :=
  let threads := parallel_num_threads cfg torch_num_threads in
  m <~ on_nest LoopNestWithSplit.max_parallel_depth ;;
  cr <~ liftM (match call_ranges k with
               | Some cr => ret cr
               | None => raise TypeError
               end) ;;
  par_depth <~ liftM (decide_parallel_depth ctx k (firstn m cr) threads) ;;
  stack <~
    (if negb (par_depth =? 0) then
       s <~ getM ;;
       (if LoopNestWithSplit.is_reduction_only (fst s)
        then
          (* need to close the worksharing scope to define reduction vars
             outside it *)
          on_worksharing WorkSharing.close
        else on_worksharing (WorkSharing.parallel cfg threads)) ;;;
       on_nest (LoopNestWithSplit.mark_parallel par_depth) ;;;
       retM 0%nat
     else if 1 <? threads then
       s <~ getM ;;
       let (ws', in_parallel) := WorkSharing.single (snd s) in
       modifyM (fun s => (fst s, ws')) ;;;
       (if in_parallel then on_worksharing code_indent ;;; retM 1%nat
        else retM 0%nat)
     else retM 0%nat) ;;
  retM (par_depth, stack).

End CodegenLoops.
(** ** The matmul template

    The index computations of the Triton template of [ops/mm.py]:
    which tile of the output a program computes and which elements of
    it it stores, as in the kernel of [triton_ops/matmul.py], and which
    columns of [A] (rows of [B]) its loop over [K] loads. *)

Module mm.

(** [triton.cdiv(x, y)], which is [(x + y - 1) // y]. *)
Definition cdiv (x y : Z) : Z := (x + y - 1) / y.

(** [mm_grid(m, n, meta)]. *)
Definition mm_grid (m n BLOCK_M BLOCK_N : Z) : Z * Z * Z :=
  (cdiv m BLOCK_M * cdiv n BLOCK_N, 1, 1).

(** The options the index computations read. *)
Record meta : Type := {
  BLOCK_M : Z;
  BLOCK_N : Z;
  BLOCK_K : Z;
  GROUP_M : Z;
  EVEN_K : bool
}.

(** [mm_options(config, sym_k, layout)] for a [K] that is a number: the
    block sizes of the config, [GROUP_M=8], and [EVEN_K]. *)
Definition mm_options (block_m block_n block_k : Z) (k : Z) : meta :=
  {| BLOCK_M := block_m; BLOCK_N := block_n; BLOCK_K := block_k;
     GROUP_M := 8;
     EVEN_K := Z.gcd k block_k =? block_k |}.

(** "re-order program ID for better L2 performance": [pid_m] and
    [pid_n] from [pid]. *)
Definition reorder (grid_m grid_n GROUP_M pid : Z) : Z * Z :=
  let width := GROUP_M * grid_n in
  let group_id := pid / width in
  let group_size := Z.min (grid_m - group_id * GROUP_M) GROUP_M in
  let pid_m := group_id * GROUP_M + (pid mod group_size) in
  let pid_n := (pid mod width) / group_size in
  (pid_m, pid_n).

Definition program_tile (M N : Z) (mt : meta) (pid : Z) : Z * Z :=
  let grid_m := (M + BLOCK_M mt - 1) / BLOCK_M mt in
  let grid_n := (N + BLOCK_N mt - 1) / BLOCK_N mt in
  reorder grid_m grid_n (GROUP_M mt) pid.

(** The elements of the output a program stores: [idx_m] and [idx_n]
    under [mask]. *)
Definition stored (M N : Z) (mt : meta) (pid : Z) : list (Z * Z) :=
  let (pid_m, pid_n) := program_tile M N mt pid in
  let rm := map (fun i => pid_m * BLOCK_M mt + i) (index_range (BLOCK_M mt)) in
  let rn := map (fun j => pid_n * BLOCK_N mt + j) (index_range (BLOCK_N mt)) in
  filter (fun idx => (fst idx <? M) && (snd idx <? N)) (list_prod rm rn).

(** [range(start, 0, -step)] for a positive [step]. *)
Definition range_down (start step : Z) : list Z :=
  map (fun t => start - Z.of_nat t * step)
      (List.seq 0 (Z.to_nat ((start + step - 1) / step))).

(** One round of the loop over [K]: the columns of [A] loaded, [rk]
    from where the pointer stands, all of them or those under the mask
    [rk < k]; then the pointer moves on by [BLOCK_K]. *)
Definition k_step (mt : meta) (st : Z * list Z) (k : Z) : Z * list Z :=
  let (off, loaded) := st in
  let rk := index_range (BLOCK_K mt) in
  let cols := if EVEN_K mt then rk else filter (fun x => x <? k) rk in
  (off + BLOCK_K mt, loaded ++ map (fun x => off + x) cols).

(** The columns of [A] the loop [for k in range(K, 0, -BLOCK_K)] loads,
    in order. *)
Definition k_columns (K : Z) (mt : meta) : list Z :=
  snd (fold_left (k_step mt) (range_down K (BLOCK_K mt)) (0, [])).

(** The program that computes the tile [(i, j)]. *)
Definition program_of (grid_m grid_n GROUP_M i j : Z) : Z :=
  let width := GROUP_M * grid_n in
  let group_id := i / GROUP_M in
  let group_size := Z.min (grid_m - group_id * GROUP_M) GROUP_M in
  width * group_id + group_size * j
  + (i - group_id * GROUP_M - width * group_id) mod group_size.

End mm.
(** ** CppOverrides: integer division

    [floordiv] and [truncdiv] write C++ over two operands of integer
    type.  The text is read back as an expression, whose value is that
    of C++: [/] and [%] truncate, a comparison is 0 or 1, and a value
    outside the type, or a division by zero, is no value. *)

Definition floordiv (a b : string) : string :=
  (* a and b are integer type *)
  let quot := fstr [a; " / "; b] in
  let rem := fstr [a; " % "; b] in
  fstr ["(("; a; " < 0) != ("; b; " < 0) ? ("; rem; " != 0 ? "; quot;
        " - 1 : "; quot; ") : "; quot; ")"].

Definition truncdiv (a b : string) : string :=
  (* a and b are integer type *)
  fstr [a; " / "; b].

(** C++ expressions of integer type, with the parentheses as written. *)
Inductive iexp : Type :=
| IVar (x : string)
| ILit (n : Z)
| IParen (e : iexp)
| IBin (op : string) (a b : iexp)
| ICond (c a b : iexp).

Fixpoint iexp_str (e : iexp) : string :=
  match e with
  | IVar x => x
  | ILit n => str_int n
  | IParen e => fstr ["("; iexp_str e; ")"]
  | IBin op a b => fstr [iexp_str a; " "; op; " "; iexp_str b]
  | ICond c a b => fstr [iexp_str c; " ? "; iexp_str a; " : "; iexp_str b]
  end.

(** The precedence level of C++ of an expression as written: the
    smaller, the tighter. *)
Definition iexp_level (e : iexp) : nat :=
  match e with
  | IVar _ | ILit _ | IParen _ => 0
  | IBin op _ _ =>
      if str_in op ["*"; "/"; "%"] then 5
      else if str_in op ["+"; "-"] then 6
      else if str_in op ["<"; "<="; ">"; ">="] then 9
      else if str_in op ["=="; "!="] then 10
      else 17
  | ICond _ _ _ => 16
  end%nat.

(** Whether C++ reads the text of an expression as the expression: a
    left operand binds at least as tightly as its operator, a right
    operand more tightly; the condition of [?:] binds more tightly than
    [?:], whose last operand may be another [?:]. *)
Fixpoint reads_as_written (e : iexp) : bool :=
  match e with
  | IVar _ | ILit _ => true
  | IParen e => reads_as_written e
  | IBin op a b =>
      (iexp_level e <? 17)%nat
      && (iexp_level a <=? iexp_level e)%nat
      && (iexp_level b <? iexp_level e)%nat
      && reads_as_written a && reads_as_written b
  | ICond c a b =>
      (iexp_level c <? 16)%nat && (iexp_level b <=? 16)%nat
      && reads_as_written c && reads_as_written a && reads_as_written b
  end.

(** The values of a signed integer type of [bits] bits. *)
Definition int_in_range (bits : Z) (x : Z) : bool :=
  (- 2 ^ (bits - 1) <=? x) && (x <? 2 ^ (bits - 1)).

Definition int_value (bits : Z) (x : Z) : option Z :=
  if int_in_range bits x then Some x else None.

Definition eval_ibin (bits : Z) (op : string) (x y : Z) : option Z :=
  if String.eqb op "/" then
    if y =? 0 then None else int_value bits (Z.quot x y)
  else if String.eqb op "%" then
    if (y =? 0) || negb (int_in_range bits (Z.quot x y)) then None
    else Some (Z.rem x y)
  else if String.eqb op "-" then int_value bits (x - y)
  else if String.eqb op "<" then Some (if x <? y then 1 else 0)
  else if String.eqb op "!=" then Some (if x =? y then 0 else 1)
  else None.

Fixpoint eval_iexp (bits : Z) (env : string -> Z) (e : iexp) : option Z :=
  match e with
  | IVar x => int_value bits (env x)
  | ILit n => int_value bits n
  | IParen e => eval_iexp bits env e
  | IBin op a b =>
      match eval_iexp bits env a, eval_iexp bits env b with
      | Some x, Some y => eval_ibin bits op x y
      | _, _ => None
      end
  | ICond c a b =>
      match eval_iexp bits env c with
      | Some v => if v =? 0 then eval_iexp bits env b
                  else eval_iexp bits env a
      | None => None
      end
  end.

(** The expression [floordiv] writes. *)
Definition floordiv_exp (a b : iexp) : iexp :=
  let quot := IBin "/" a b in
  let rem := IBin "%" a b in
  IParen
    (ICond (IBin "!=" (IParen (IBin "<" a (ILit 0)))
                      (IParen (IBin "<" b (ILit 0))))
           (IParen (ICond (IBin "!=" rem (ILit 0))
                          (IBin "-" quot (ILit 1))
                          quot))
           quot).

(** ** CppScheduling: which nodes may be fused *)

Definition can_fuse_horizontal (node1 node2 : SchedulerNode) : bool :=
  let (vars1, reduce1) := node_group node1 in
  let (vars2, reduce2) := node_group node2 in
  if tuple_eqb vars1 vars2 && tuple_eqb reduce1 reduce2 then true
  else if tuple_eqb reduce1 [] && tuple_eqb vars1 (vars2 ++ reduce2) then true
  else false.

Definition can_fuse_vertical (node1 node2 : SchedulerNode) : bool :=
  can_fuse_horizontal node1 node2 && negb (node_is_reduction node1).
(** ** [codegen_loops_impl]: writing the loops *)

(** How [codegen_loops_impl] ends: it returns or it raises.  The
    kernel of a nest with loops is a count, which has no buffers to
    write. *)
Inductive codegen_outcome : Type :=
| Done
| Raises (e : exn)
| AttributeError.

Definition code_write (evs : list code_event) (ws : WorkSharing.t)
  : WorkSharing.t :=
  {| WorkSharing.code := WorkSharing.code ws ++ evs;
     WorkSharing.in_parallel := WorkSharing.in_parallel ws;
     WorkSharing.num_threads := WorkSharing.num_threads ws;
     WorkSharing.stack := WorkSharing.stack ws |}.

(** An [ExitStack] that has entered [code.indent()] and after that
    nothing else: the block is left when the body is done, also when
    the body raises. *)
Definition with_indent {A} (body : M WorkSharing.t A) : M WorkSharing.t A :=
  fun ws =>
    let (ws', r) := body (code_indent ws) in
    (code_write [ExitIndent] ws', r).

Fixpoint for_each {S A} (f : A -> M S unit) (xs : list A) : M S unit :=
  match xs with
  | [] => retM tt
  | x :: rest => f x ;;; for_each f rest
  end.

(** [code.splice(buffer)]: the lines of the buffer, a deferred line as
    its text. *)
Definition splice (ls : list string) : M WorkSharing.t unit :=
  modifyM (code_write (map Line ls)).

(** The blocks of the code that are open beyond those the coordinator
    will leave when it is closed. *)
Definition blocks_beyond (ws : WorkSharing.t) : Z :=
  WorkSharing.open_blocks (WorkSharing.code ws) 0
  - Z.of_nat (WorkSharing.stack ws).

Section GenLoops.

Variable ctx : Context.

Let cfg := config_cpp ctx.

(** The class attribute [LoopLevel.simd_nelements] and
    [codecache.is_gcc()]. *)
Variable simd_nelements : Z.
Variable is_gcc : bool.

Variable threads : Z.
Variable loop_nest : LoopNestWithSplit.t.

Definition gen_kernel (kernel : CppKernel) : M WorkSharing.t unit :=
  (* assert kernel: a kernel object counts as true *)
  splice (loads kernel) ;;;
  splice (compute kernel) ;;;
  splice (map snd (stores kernel)).

(** [gen_loops(loops, in_reduction)], given [gen_loop].  A buffer with
    lines counts as true; after the loop over [loops], [loop] is the
    last of them. *)
Definition gen_loops_with
    (gen_loop : LoopLevel.t -> bool -> M WorkSharing.t unit)
    (loops : list LoopLevel.t) (in_reduction : bool) : M WorkSharing.t unit :=
  match loops with
  | [] => retM tt
  | loop :: _ =>
      let rest :=
        (if LoopNestWithSplit.is_reduction_only loop_nest
            && negb (LoopLevel.parallel loop =? 0)
         then modifyM (WorkSharing.parallel cfg threads)
         else retM tt) ;;;
        for_each (fun loop => gen_loop loop in_reduction) loops ;;;
        (if LoopNestWithSplit.is_reduction_only loop_nest
            && negb (LoopLevel.parallel (last loops loop) =? 0)
         then modifyM WorkSharing.close
         else retM tt) ;;;
        for_each
          (fun loop =>
             if LoopLevel.is_reduction loop && negb in_reduction then
               for_each (fun kernel =>
                           splice (map snd (reduction_suffix kernel)))
                 (get_kernels loop)
             else retM tt)
          loops in
      if LoopLevel.is_reduction loop && negb in_reduction then
        match get_kernels loop with
        | [] => (* assert kernels *) raiseM AssertionError
        | kernel0 :: _ =>
            (* TODO(jgong5): should gen prefix for all kernels.
               currently, Vec kernel generates prefix for both
               vector and scalar kernels. *)
            if match reduction_prefix kernel0 with [] => false | _ => true end
            then with_indent (splice (reduction_prefix kernel0) ;;; rest)
            else splice (reduction_prefix kernel0) ;;; rest
        end
      else rest
  end.

Fixpoint gen_loop (loop : LoopLevel.t) (in_reduction : bool)
  : M WorkSharing.t unit :=
  match loop with
  | LoopLevel.Build _ _ _ _ _ _ _ _ _ inner _ =>
      ls <~ liftM (lines (cexpr (common ctx)) simd_nelements is_gcc loop) ;;
      modifyM (code_write (map Line ls)) ;;;
      with_indent
        (* generate inner loops or loop body *)
        (match inner with
         | _ :: _ => gen_loops_with gen_loop inner (LoopLevel.is_reduction loop)
         | [] =>
             match get_kernels loop with
             | [kernel] => gen_kernel kernel
             | _ => (* assert len(kernels) == 1 *) raiseM AssertionError
             end
         end)
  end.

Definition gen_loops : list LoopLevel.t -> bool -> M WorkSharing.t unit :=
  gen_loops_with gen_loop.

End GenLoops.

Section CodegenLoopsImpl.

Variable ctx : Context.
Variable simd_nelements : Z.
Variable is_gcc : bool.

(** [codegen_loops_impl(loop_nest, code, worksharing)], where [code] is
    the buffer the coordinator writes to.  When it is left, the
    [ExitStack] of the function leaves the blocks it has entered. *)
Definition codegen_loops_impl (k : CppKernel) (torch_num_threads : Z)
    (s : loops_state) : loops_state * codegen_outcome :=
  let threads := parallel_num_threads (config_cpp ctx) torch_num_threads in
  match codegen_loops_impl_parallel ctx k torch_num_threads s with
  | (s1, inr e) => (s1, Raises e)
  | ((loop_nest, ws1), inl (par_depth, stack)) =>
      let ws2 := code_indent ws1 in
      let (ws3, outcome) :=
        match LoopNestWithSplit.root loop_nest with
        | _ :: _ =>
            match gen_loops ctx simd_nelements is_gcc threads loop_nest
                    (LoopNestWithSplit.root loop_nest) false ws2 with
            | (ws3, inl _) => (ws3, Done)
            | (ws3, inr e) => (ws3, Raises e)
            end
        | [] =>
            match LoopNestWithSplit.kernel loop_nest with
            | LoopNestWithSplit.Kernel kernel =>
                (fst (gen_kernel kernel ws2), Done)
            | LoopNestWithSplit.Count O => (ws2, Raises AssertionError)
            | LoopNestWithSplit.Count (S _) => (ws2, AttributeError)
            end
        end in
      ((loop_nest, code_write (repeat ExitIndent (S stack)) ws3), outcome)
  end.

(** [CppKernel.codegen_loops(code, worksharing)]. *)
Definition codegen_loops (k : CppKernel) (torch_num_threads : Z)
    (ws : WorkSharing.t) : WorkSharing.t * codegen_outcome :=
  match LoopNestWithSplit.build k with
  | inr e => (ws, Raises e)
  | inl loop_nest =>
      let (s, outcome) :=
        codegen_loops_impl k torch_num_threads (loop_nest, ws) in
      (snd s, outcome)
  end.

End CodegenLoopsImpl.

(** An action on the coordinator and its buffer that leaves open no
    block of its own, whatever its result. *)
Definition keeps_blocks {A} (m : M WorkSharing.t A) : Prop :=
  forall ws, blocks_beyond (fst (m ws)) = blocks_beyond ws.

(** A level that can be written: the kinds of its reduction variables
    are known, an innermost level has a kernel, and a level with levels
    inside has none and the levels inside can be written. *)
Fixpoint writable (l : LoopLevel.t) : bool :=
  match l with
  | LoopLevel.Build _ _ _ _ _ _ _ _ _ inner kernel =>
      match reduction_text l with inl _ => true | inr _ => false end
      && match inner, kernel with
         | [], Some _ => true
         | [], None => false
         | _ :: _, Some _ => false
         | _ :: _, None => forallb writable inner
         end
  end.

(** The lines of the body of a kernel. *)
Definition kernel_lines (k : CppKernel) : list string :=
  loads k ++ compute k ++ map snd (stores k).

(** An action on the coordinator and its buffer that returns, takes
    nothing back of the code and writes the given lines. *)
Definition writes {A} (m : M WorkSharing.t A) (ls : list string) : Prop :=
  forall ws,
    exists ws' a evs,
      m ws = (ws', inl a)
      /\ WorkSharing.code ws' = WorkSharing.code ws ++ evs
      /\ forall x, In x ls -> In (Line x) evs.

(** An action on the nest and the coordinator after which the blocks
    open beyond the coordinator's are [more a] more than before when it
    returns [a], and as many as before when it raises. *)
Definition opens_blocks {A} (m : M loops_state A) (more : A -> Z) : Prop :=
  forall s,
    match m s with
    | (s1, inl a) => blocks_beyond (snd s1) = blocks_beyond (snd s) + more a
    | (s1, inr _) => blocks_beyond (snd s1) = blocks_beyond (snd s)
    end.
(* ================================================================= *)
(** * Properties *)

(** ** Helper facts *)

Lemma wrap_in_range (w : Z) (signed : bool) (z lo hi : Z) :
  0 < w ->
  (if signed then lo = - 2 ^ (w - 1) /\ hi = 2 ^ (w - 1) - 1
   else lo = 0 /\ hi = 2 ^ w - 1) ->
  lo <= z <= hi ->
  wrap w signed z = z.
Proof.
  intros Hw Hb Hz. unfold wrap.
  assert (Hp : 2 ^ w = 2 * 2 ^ (w - 1)).
  { rewrite <- Z.pow_succ_r by lia. f_equal. lia. }
  assert (0 < 2 ^ (w - 1)) by (apply Z.pow_pos_nonneg; lia).
  destruct signed; destruct Hb as [-> ->].
  - rewrite Z.mod_small by lia. lia.
  - apply Z.mod_small. lia.
Qed.

Lemma convert_in_range (d : torch.dtype) (x : cval) :
  in_range d x -> convert d x = Some x.
Proof.
  unfold in_range.
  destruct d; cbn -[Z.pow wrap]; intros H;
    try reflexivity;
    destruct H as (z & -> & Hz);
    try (f_equal; f_equal; eapply wrap_in_range; [ | | exact Hz]; cbn; lia).
  cbn. assert (z = 0 \/ z = 1) as [-> | ->] by lia; reflexivity.
Qed.

Lemma in_kinds_cases (rt : string) (P : string -> Prop) :
  In rt reduction_kinds ->
  P "sum" -> P "min" -> P "max" -> P "argmin" -> P "argmax" -> P "any" ->
  P rt.
Proof.
  unfold reduction_kinds. cbn.
  intros [<- | [<- | [<- | [<- | [<- | [<- | []]]]]]]; auto.
Qed.

(** The text of the start value is the printed form of its syntax. *)
Lemma reduction_init_text (rt : string) (dtype : torch.dtype) :
  match reduction_init rt dtype, reduction_init_expr rt dtype with
  | inl v, inl e => py_str v = cexp_str e
  | inr a, inr b => a = b
  | _, _ => False
  end.
Proof.
  unfold reduction_init, reduction_init_expr.
  destruct (str_in rt ["sum"; "any"]); [reflexivity|].
  destruct (str_in rt ["max"; "argmax"]); [destruct dtype; reflexivity|].
  destruct (str_in rt ["min"; "argmin"]); [destruct dtype; reflexivity|].
  reflexivity.
Qed.

(** The text of the combination is the printed form of its syntax. *)
Lemma reduction_combine_text (rt var next_value : string) :
  reduction_combine rt var next_value
  = simple_stmt_str (reduction_combine_stmt rt var next_value).
Proof.
  unfold reduction_combine, reduction_combine_stmt.
  destruct (String.eqb rt "sum"); [reflexivity|].
  destruct (String.eqb rt "any"); reflexivity.
Qed.

Lemma wrap_small (w : Z) (signed : bool) (z : Z) :
  0 < w ->
  (if signed then - 2 ^ (w - 1) <= z <= 2 ^ (w - 1) - 1
   else 0 <= z <= 2 ^ w - 1) ->
  wrap w signed z = z.
Proof.
  intros Hw Hz.
  apply (wrap_in_range w signed z
           (if signed then - 2 ^ (w - 1) else 0)
           (if signed then 2 ^ (w - 1) - 1 else 2 ^ w - 1)); auto;
    destruct signed; auto.
Qed.

Ltac unfold_reduction_run :=
  unfold init_then_combine, reduction_init_value, reduction_start,
    reduction_step, reduction_stmt, reduction_decl, index_reduction_stmt,
    assign;
  cbn -[Z.pow wrap Z.ltb Z.add Z.eqb].

Ltac split_ltb :=
  repeat match goal with
    | |- context [Z.ltb ?a ?b] => destruct (Z.ltb_spec a b)
    | |- context [Z.eqb ?a ?b] => destruct (Z.eqb_spec a b)
    end.

Ltac unwrap := rewrite ?wrap_small by (cbn; lia).







Lemma init_then_combine_law (rt : string) (dtype : torch.dtype) (x : cval) :
  In rt reduction_kinds -> in_range dtype x -> x <> VNaN ->
  init_then_combine rt dtype x
  = Some (if String.eqb rt "any" then of_bool (truthy x) else x).
Proof.
  intros Hrt Hx Hnan. revert Hx.
  apply (in_kinds_cases rt
           (fun rt => in_range dtype x ->
                      init_then_combine rt dtype x
                      = Some (if String.eqb rt "any"
                              then of_bool (truthy x) else x))); auto;
  destruct dtype; intros Hx; unfold in_range in Hx; cbn in Hx;
  (* floating types: the three values that are not NaN *)
  try (destruct x; try congruence; reflexivity);
  destruct Hx as (z & -> & Hz);
  (* bool *)
  try (assert (z = 0 \/ z = 1) as [-> | ->] by lia; reflexivity);
  (* integer types *)
  unfold_reduction_run; unwrap; split_ltb; unwrap; cbn;
  try reflexivity;
  try (destruct (Z.eqb_spec z 0); cbn; unwrap; (reflexivity || lia));
  try (exfalso;
       match goal with
       | n : wrap _ _ 0 <> 0 |- _ => apply n; apply wrap_small; cbn; lia
       end);
  repeat f_equal; lia.
Qed.

(** ** The index reduction, step by step *)

Lemma truthy_of_bool (b : bool) : truthy (of_bool b) = b.
Proof. destruct b; reflexivity. Qed.

Lemma last_item_snoc {A} (l : list A) (x : A) :
  last_item (Some (l ++ [x])) = ret x.
Proof. unfold last_item. rewrite rev_app_distr. reflexivity. Qed.

Lemma append_assoc (a b c : string) :
  String.append (String.append a b) c = String.append a (String.append b c).
Proof. induction a as [|ch a IH]; cbn; [reflexivity | now rewrite IH]. Qed.

Lemma append_empty_r (a : string) : String.append a "" = a.
Proof. induction a as [|ch a IH]; cbn; [reflexivity | now rewrite IH]. Qed.

(** Brings two concatenations of text to the same shape. *)
Ltac same_text :=
  unfold fstr; cbn [String.concat map];
  repeat (rewrite ?append_assoc, ?append_empty_r; cbn [String.append]);
  reflexivity.

(** Two lists of lines, entry by entry. *)
Ltac text_lists :=
  repeat match goal with
    | |- (_ :: _) = (_ :: _) => f_equal
    | |- (_, _) = (_, _) => f_equal
    | |- _ ++ _ = _ ++ _ => f_equal
    | |- @eq string _ _ => same_text
    | |- _ => reflexivity
    end.

(** The three lines [CppKernel.reduction] writes for an index reduction
    are the printed form of [index_reduction_stmt]. *)
Lemma index_reduction_text (tmpvar compare_op value itervar : string) :
  cstmt_lines (index_reduction_stmt tmpvar compare_op value itervar)
  = [ fstr ["if ("; tmpvar; ".value "; compare_op; " "; value; ") {"];
      fstr ["    "; tmpvar; ".index = "; itervar; "; "; tmpvar; ".value = ";
            value; ";"];
      "}" ].
Proof.
  unfold cstmt_lines, index_reduction_stmt.
  cbn [map cexp_str simple_stmt_str].
  f_equal; [same_text|]. f_equal. same_text.
Qed.

(** The text of the start value of [argmax] and its syntax. *)
Lemma argmax_init_text (src_dtype : torch.dtype) :
  exists v e,
    reduction_init "argmax" src_dtype = inl v
    /\ reduction_init_expr "argmax" src_dtype = inl e
    /\ py_str v = cexp_str e.
Proof.
  pose proof (reduction_init_text "argmax" src_dtype) as H.
  destruct (reduction_init "argmax" src_dtype) as [v | a] eqn:Hv,
           (reduction_init_expr "argmax" src_dtype) as [e | b] eqn:He;
    try contradiction.
  - exists v, e. auto.
  - exfalso. unfold reduction_init_expr in He. cbn in He. discriminate.
Qed.

(** What [CppKernel.reduction] writes for [argmax] is the printed form
    of the program: the prefix with the start value, the combiner and
    the initializer, the loop body on the innermost loop variable, and
    the suffix on the output element. *)
Lemma reduction_argmax_program (ctx : Context) (name : string)
    (dtype src_dtype : torch.dtype) (index : expr) (value : string)
    (k : CppKernel) (ivs : list string) (iv : string) :
  itervars k = Some (ivs ++ [iv]) ->
  str_in name (removed_buffers (graph ctx)) = false ->
  exists tmpvar k' r,
    CppKernel_reduction ctx name dtype src_dtype "argmax" index value k
    = (k', inl tt)
    /\ IndexReduction.of_reduction "argmax" src_dtype tmpvar value iv
         (fstr [args_output (common ctx) name; "[";
                cexpr (common ctx) (rename_indexing (common ctx) index); "]"])
       = inl r
    /\ reduction_prefix k'
       = reduction_prefix k
         ++ IndexReduction.prefix_lines "argmax"
              (fstr ["IndexValue_";
                     str_int (Z.of_nat (index_value_name_counter k))]) r
    /\ stores k'
       = stores k ++ map (pair None) (IndexReduction.body_lines r)
    /\ reduction_suffix k'
       = reduction_suffix k ++ [(Some name, IndexReduction.suffix_line r)]
    /\ loads k' = loads k.
Proof.
  intros Hiv Hrm.
  destruct (argmax_init_text src_dtype) as (v & e & Hv & He & Htxt).
  unfold CppKernel_reduction, generate_in_loads, cse_generate, bindM.
  cbn [str_in existsb String.eqb Ascii.eqb Bool.eqb orb].
  unfold IndexReduction.of_reduction, bind. rewrite He.
  destruct (lookup _ (cache (cse k))) as [t|] eqn:Hl.
  - exists t.
    unfold argmax_argmin_prefix, bindM, modifyM, liftM, getM, retM.
    cbn -[fstr last_item reduction_init].
    rewrite Hv. cbn -[fstr last_item reduction_init].
    rewrite Hiv, last_item_snoc. cbn -[fstr].
    rewrite Hrm. cbn -[fstr].
    eexists. eexists. split; [reflexivity|]. split; [reflexivity|].
    cbn -[fstr]. rewrite Htxt.
    unfold IndexReduction.prefix_lines, IndexReduction.body_lines,
      IndexReduction.suffix_line, IndexReduction.braces,
      IndexReduction.body, IndexReduction.suffix, IndexReduction.combiner.
    cbn -[fstr]. repeat split; rewrite ?app_nil_r; text_lists.
  - exists (fst (cse_newvar (cse k))).
    unfold argmax_argmin_prefix, bindM, modifyM, liftM, getM, retM.
    cbn -[fstr last_item reduction_init].
    rewrite Hv. cbn -[fstr last_item reduction_init].
    rewrite Hiv, last_item_snoc. cbn -[fstr].
    rewrite Hrm. cbn -[fstr].
    eexists. eexists. split; [reflexivity|]. split; [reflexivity|].
    cbn -[fstr]. rewrite Htxt.
    unfold IndexReduction.prefix_lines, IndexReduction.body_lines,
      IndexReduction.suffix_line, IndexReduction.braces,
      IndexReduction.body, IndexReduction.suffix, IndexReduction.combiner.
    cbn -[fstr]. repeat split; rewrite ?app_nil_r; text_lists.
Qed.
Lemma argmax_fold_first_max (xs p : list Z) (k : nat) (m : Z) :
  nth_error p k = Some m ->
  (forall j y, nth_error p j = Some y -> y <= m) ->
  (forall j y, (j < k)%nat -> nth_error p j = Some y -> y < m) ->
  exists k', fst (argmax_fold (Z.of_nat (List.length p))
                    (VNum (Z.of_nat k), VNum m) xs) = VNum (Z.of_nat k')
             /\ first_max (p ++ xs) k'.
Proof.
  revert p k m. induction xs as [|x xs IH]; intros p k m Hk Hle Hlt.
  - exists k. split; [reflexivity|]. rewrite app_nil_r.
    exists m. auto.
  - cbn [argmax_fold cval_ltb snd].
    replace (Z.of_nat (List.length p) + 1) with (Z.of_nat (List.length (p ++ [x])))
      by (rewrite length_app; cbn; lia).
    replace (p ++ x :: xs) with ((p ++ [x]) ++ xs)
      by (rewrite <- app_assoc; reflexivity).
    destruct (Z.ltb_spec m x) as [Hmx | Hmx].
    + apply IH.
      * rewrite nth_error_app2 by lia. rewrite Nat.sub_diag. reflexivity.
      * intros j y Hj.
        destruct (Nat.lt_ge_cases j (List.length p)) as [Hjp | Hjp].
        -- rewrite nth_error_app1 in Hj by assumption.
           specialize (Hle j y Hj). lia.
        -- rewrite nth_error_app2 in Hj by assumption.
           destruct (j - List.length p)%nat as [|[|n]]; cbn in Hj;
             try discriminate. injection Hj as <-. lia.
      * intros j y Hjk Hj. rewrite nth_error_app1 in Hj by assumption.
        specialize (Hle j y Hj). lia.
    + assert (Hkp : (k < List.length p)%nat)
        by (apply nth_error_Some; congruence).
      apply IH.
      * rewrite nth_error_app1 by assumption. exact Hk.
      * intros j y Hj.
        destruct (Nat.lt_ge_cases j (List.length p)) as [Hjp | Hjp].
        -- rewrite nth_error_app1 in Hj by assumption. eauto.
        -- rewrite nth_error_app2 in Hj by assumption.
           destruct (j - List.length p)%nat as [|[|n]]; cbn in Hj;
             try discriminate. injection Hj as <-. lia.
      * intros j y Hjk Hj. rewrite nth_error_app1 in Hj by lia. eauto.
Qed.


(** *** The program run by one thread *)

Section ArgmaxSequential.

Variable src_dtype : torch.dtype.
Variable r : IndexReduction.t.

Hypothesis program :
  IndexReduction.of_reduction "argmax" src_dtype "tmp1" "tmp0" "i0"
    "out_ptr_buf0[0]" = inl r.

Lemma argmax_program_fields :
  exists e,
    reduction_init_expr "argmax" src_dtype = inl e
    /\ r = {| IndexReduction.tmpvar := "tmp1"; IndexReduction.value := "tmp0";
              IndexReduction.itervar := "i0";
              IndexReduction.out := "out_ptr_buf0[0]";
              IndexReduction.compare_op := "<";
              IndexReduction.init := e;
              IndexReduction.src_dtype := src_dtype |}.
Proof.
  unfold IndexReduction.of_reduction, bind in program.
  destruct (reduction_init_expr "argmax" src_dtype) as [e|]; [|discriminate].
  injection program as <-. exists e. split; reflexivity.
Qed.

(** One step of the generated [argmax] body: both members of the
    accumulator are overwritten when its value is below the candidate,
    and neither is touched otherwise. *)
Lemma step_argmax (st : cstore) (i : Z) (x : cval) :
  in_range src_dtype x ->
  exists st',
    IndexReduction.step r st i x = Some st'
    /\ st' "tmp1.index"
       = (if cval_ltb (st "tmp1.value") x then VNum i else st "tmp1.index")
    /\ st' "tmp1.value"
       = (if cval_ltb (st "tmp1.value") x then x else st "tmp1.value").
Proof.
  intros Hx. pose proof (convert_in_range _ _ Hx) as Hc.
  destruct argmax_program_fields as (e & _ & ->).
  unfold IndexReduction.step, IndexReduction.body, IndexReduction.decl,
    index_reduction_stmt, assign.
  cbn -[convert cval_ltb].
  destruct (cval_ltb (st "tmp1.value") x); cbn -[convert].
  - rewrite Hc. cbn. eexists; split; [reflexivity|]. split; reflexivity.
  - eexists; split; [reflexivity|]. split; reflexivity.
Qed.

Lemma loop_argmax (xs : list Z) :
  Forall (fun x => in_range src_dtype (VNum x)) xs ->
  forall (i : Z) (st : cstore),
  exists st',
    IndexReduction.loop r i (map VNum xs) st = Some st'
    /\ (st' "tmp1.index", st' "tmp1.value")
       = argmax_fold i (st "tmp1.index", st "tmp1.value") xs.
Proof.
  induction 1 as [|x xs Hx _ IH]; intros i st.
  - exists st. split; reflexivity.
  - destruct (step_argmax st i (VNum x) Hx) as (st1 & Hstep & Hidx & Hval).
    destruct (IH (i + 1) st1) as (st' & Hloop & Hacc).
    exists st'. split.
    + cbn [map IndexReduction.loop]. rewrite Hstep. exact Hloop.
    + rewrite Hacc, Hidx, Hval. cbn [argmax_fold snd].
      destruct (cval_ltb (st "tmp1.value") (VNum x)); reflexivity.
Qed.

(** The prefix sets the accumulator to index 0 and a value that is
    below or equal to every value of the element type. *)
Lemma prefix_argmax :
  exists st1 v0,
    exec_all (IndexReduction.decl r)
      (IndexReduction.struct_init (IndexReduction.tmpvar r)
         (IndexReduction.init r)) IndexReduction.empty = Some st1
    /\ st1 "tmp1.index" = VNum 0 /\ st1 "tmp1.value" = v0
    /\ forall x, in_range src_dtype (VNum x) ->
                 cval_ltb v0 (VNum x) = true \/ v0 = VNum x.
Proof.
  destruct argmax_program_fields as (e & He & ->).
  unfold reduction_init_expr in He. cbn in He. injection He as <-.
  destruct src_dtype;
    (eexists; eexists; split; [reflexivity|]; split; [reflexivity|];
     split; [reflexivity|]);
    intros x Hx; unfold in_range in Hx; cbn in Hx |- *;
    try (left; reflexivity);
    destruct Hx as (z & [= <-] & Hz);
    match goal with
    | |- (?lo <? ?y) = true \/ _ =>
        destruct (Z.ltb_spec lo y);
        [left; reflexivity | right; unfold of_bool; f_equal; lia]
    end.
Qed.

(** The suffix hands the [index] member to the output element. *)
Lemma suffix_argmax (st : cstore) :
  exists st',
    exec (IndexReduction.decl r) (IndexReduction.suffix r) st = Some st'
    /\ st' (IndexReduction.out r) = st "tmp1.index".
Proof.
  destruct argmax_program_fields as (e & _ & ->).
  eexists. split; reflexivity.
Qed.

End ArgmaxSequential.

(** A thread alone keeps the first greatest element: over any
    non-empty run of values of the element type, the program without
    the directive hands the first position of a greatest value to the
    output. *)
Lemma argmax_sequential_first_maximum (src_dtype : torch.dtype)
    (r : IndexReduction.t) (xs : list Z) :
  IndexReduction.of_reduction "argmax" src_dtype "tmp1" "tmp0" "i0"
    "out_ptr_buf0[0]" = inl r ->
  xs <> [] ->
  Forall (fun x => in_range src_dtype (VNum x)) xs ->
  exists k,
    IndexReduction.run_sequential r (map VNum xs) = Some (VNum (Z.of_nat k))
    /\ first_max xs k.
Proof.
  intros Hr Hne Hall.
  destruct xs as [|x0 xs]; [congruence|].
  destruct (prefix_argmax src_dtype r Hr)
    as (st1 & v0 & Hst1 & Hi0 & Hv0 & Hlow).
  destruct (loop_argmax src_dtype r Hr (x0 :: xs) Hall 0 st1)
    as (st2 & Hloop & Hacc).
  destruct (suffix_argmax src_dtype r Hr st2) as (st3 & Hsuf & Hout).
  rewrite Hi0, Hv0 in Hacc. cbn [argmax_fold snd] in Hacc.
  assert (Hfirst : (if cval_ltb v0 (VNum x0) then (VNum 0, VNum x0)
                    else (VNum 0, v0)) = (VNum (Z.of_nat 0), VNum x0)).
  { inversion Hall as [|? ? Hx0 _]; subst.
    destruct (Hlow x0 Hx0) as [Hlt | Heq].
    - rewrite Hlt. reflexivity.
    - rewrite Heq. cbn. rewrite Z.ltb_irrefl. reflexivity. }
  rewrite Hfirst in Hacc.
  destruct (argmax_fold_first_max xs [x0] 0 x0) as (k' & Hk' & Hmax).
  - reflexivity.
  - intros [|[|j]] y Hj; cbn in Hj; try discriminate.
    injection Hj as <-. lia.
  - intros j y Hj. lia.
  - exists k'. split; [|exact Hmax].
    unfold IndexReduction.run_sequential. rewrite Hst1, Hloop, Hsuf, Hout.
    change (Z.of_nat (List.length [x0])) with (0 + 1) in Hk'.
    rewrite <- Hacc in Hk'. cbn [fst] in Hk'. now rewrite Hk'.
Qed.

Lemma cval_ltb_irrefl (x : cval) : cval_ltb x x = false.
Proof. destruct x; cbn; [reflexivity | reflexivity | apply Z.ltb_irrefl | reflexivity]. Qed.

(** The combiner: the accumulator keeps both members when the copy's
    value is strictly below its own, and takes both members of the copy
    otherwise, also when the two values are equal. *)
Lemma combine_argmax (src_dtype : torch.dtype) (r : IndexReduction.t)
    (orig priv : cstore) :
  IndexReduction.of_reduction "argmax" src_dtype "tmp1" "tmp0" "i0"
    "out_ptr_buf0[0]" = inl r ->
  in_range src_dtype (orig "tmp1.value") ->
  in_range src_dtype (priv "tmp1.value") ->
  exists st',
    IndexReduction.combine r orig priv = Some st'
    /\ st' "tmp1.index"
       = (if cval_ltb (priv "tmp1.value") (orig "tmp1.value")
          then orig "tmp1.index" else priv "tmp1.index")
    /\ st' "tmp1.value"
       = (if cval_ltb (priv "tmp1.value") (orig "tmp1.value")
          then orig "tmp1.value" else priv "tmp1.value").
Proof.
  intros Hr Ho Hp.
  pose proof (convert_in_range _ _ Ho) as Hco.
  pose proof (convert_in_range _ _ Hp) as Hcp.
  destruct (argmax_program_fields src_dtype r Hr) as (e & _ & ->).
  unfold IndexReduction.combine, IndexReduction.combiner,
    IndexReduction.copy_struct, IndexReduction.decl, assign.
  cbn -[convert cval_ltb].
  destruct (cval_ltb (priv "tmp1.value") (orig "tmp1.value")) eqn:Hlt;
    cbn -[convert cval_ltb].
  - rewrite Hco. cbn -[convert cval_ltb]. rewrite Hlt.
    cbn -[convert cval_ltb].
    eexists. split; [reflexivity|]. split; reflexivity.
  - rewrite Hcp. cbn -[convert cval_ltb]. rewrite cval_ltb_irrefl.
    cbn -[convert cval_ltb].
    eexists. split; [reflexivity|]. split; reflexivity.
Qed.

(** ** Reductions of the scalar kernel *)

(** C4, at the input where the code departs from it.  An [argmax] over
    the four values [3, 5, 5, 2] of a float32 buffer, generated for two
    threads with a minimum chunk size of 1.  What [CppKernel.reduction]
    leaves in the kernel is the printed program; [codegen_loops] writes
    the loop under [#pragma omp for reduction(argmax:tmp1)], between
    the prefix that declares the combiner and the suffix that stores
    the index.  Run by one thread the program stores 1, the first
    position of the greatest value.  Run by two threads that take the
    steps 0, 1 and 2, 3, with the copies combined in the order of the
    threads, it stores 2: both copies hold the value 5, and the
    combiner takes the index of the copy that comes in when the values
    are equal.  Combined in the other order it stores 1. *)
Theorem argmax_tie_between_threads :
  let base := example_context 2 false (fun _ => torch.float32) in
  let ctx := {| config_cpp := {| threads := 2; dynamic_threads := false;
                                 min_chunk_size := 1 |};
                graph := graph base; common := common base;
                sympy := sympy base |} in
  let k0 := fst (set_ranges ctx [] [Integer 4] (CppKernel_init 2)) in
  let k1 := fst (CppKernel_load ctx "in0" (Symbol "i0") k0) in
  let k := fst (CppKernel_reduction ctx "buf0" torch.int64 torch.float32
                  "argmax" (Integer 0) "tmp0" k1) in
  exists r,
    IndexReduction.of_reduction "argmax" torch.float32 "tmp1" "tmp0" "i0"
      "out_ptr_buf0[0]" = inl r
    /\ reduction_prefix k = IndexReduction.prefix_lines "argmax" "IndexValue_1" r
    /\ loads k = ["auto tmp0 = in_ptr_in0[i0];"]
    /\ stores k = map (pair None) (IndexReduction.body_lines r)
    /\ reduction_suffix k = [(Some "buf0", IndexReduction.suffix_line r)]
    /\ codegen_loops ctx 16 true k 1 (WorkSharing.init [])
       = ({| WorkSharing.code :=
               [EnterIndent; EnterIndent]
               ++ map Line (IndexReduction.prefix_lines "argmax"
                              "IndexValue_1" r)
               ++ [Line "#pragma omp parallel num_threads(2)"; EnterIndent;
                   Line "#pragma omp for reduction(argmax:tmp1) ";
                   Line "for(long i0=0; i0<4; i0+=1)"; EnterIndent;
                   Line "auto tmp0 = in_ptr_in0[i0];"]
               ++ map Line (IndexReduction.body_lines r)
               ++ [ExitIndent; ExitIndent;
                   Line (IndexReduction.suffix_line r);
                   ExitIndent; ExitIndent];
             WorkSharing.in_parallel := false;
             WorkSharing.num_threads := Some 2;
             WorkSharing.stack := 0 |},
          Done)
    /\ IndexReduction.prefix_lines "argmax" "IndexValue_1" r
       = [ "struct IndexValue_1 {size_t index; float value;};";
           "IndexValue_1 tmp1{0, -std::numeric_limits<float>::infinity()};";
           fstr ["#pragma omp declare reduction(argmax : struct IndexValue_1 :";
                 backslash];
           fstr ["    omp_out.value = omp_in.value < omp_out.value ? omp_out.value : omp_in.value,";
                 backslash];
           fstr ["    omp_out.index = omp_in.value < omp_out.value ? omp_out.index : omp_in.index)";
                 backslash];
           fstr [tab; "initializer(omp_priv = {0, -std::numeric_limits<float>::infinity()})"] ]
    /\ IndexReduction.body_lines r
       = [ "if (tmp1.value < tmp0) {";
           "    tmp1.index = i0; tmp1.value = tmp0;";
           "}" ]
    /\ IndexReduction.suffix_line r = "out_ptr_buf0[0] = tmp1.index;"
    /\ IndexReduction.run_sequential r (map VNum [3; 5; 5; 2])
       = Some (VNum 1)
    /\ IndexReduction.run_parallel r
         [(0, map VNum [3; 5]); (2, map VNum [5; 2])]
       = Some (VNum 2)
    /\ IndexReduction.run_parallel r
         [(2, map VNum [5; 2]); (0, map VNum [3; 5])]
       = Some (VNum 1).
Proof.
  cbv zeta. eexists. split; [reflexivity|].
  repeat split; vm_compute; reflexivity.
Qed.


(** A single NaN is not restored by [max]: [std::max(-inf, NaN)] is
    [-inf]. *)
Lemma init_then_combine_max_nan :
  init_then_combine "max" torch.float32 VNaN = Some VNegInf.
Proof. reflexivity. Qed.

(** C5, as stated, fails: for [any] over [int32] the start value 0
    combined with 5 gives 1, the truth value of 5, not 5. *)
Lemma reduction_identity_any_counterexample :
  In "any" reduction_kinds
  /\ in_range torch.int32 (VNum 5)
  /\ reduction_combine "any" "tmp0" "tmp1" = "tmp0 = tmp0 || tmp1"
  /\ init_then_combine "any" torch.int32 (VNum 5) = Some (VNum 1)
  /\ init_then_combine "any" torch.int32 (VNum 5) <> Some (VNum 5).
Proof.
  split; [cbn; tauto|]. split; [exists 5; split; [reflexivity | cbn; lia]|].
  split; [reflexivity|]. split; [reflexivity|]. discriminate.
Qed.

(** C5, amended.  The start value of a reduction is 0 for [sum] and
    [any]; for [max] and [argmax] it is minus infinity on a floating
    type and the least value of the type otherwise; for [min] and
    [argmin] it is plus infinity on a floating type and the greatest
    value of the type otherwise.  Combining the start value with a
    value [x] of the element type other than NaN gives [x] for [sum],
    [max], [min], and leaves [x] as the value held by an [argmax] or
    [argmin] accumulator; for [any] it gives the truth value of [x],
    which is [x] when [x] is 0 or 1. *)
Theorem reduction_init_identity (rt : string) (dtype : torch.dtype) (x : cval) :
  In rt reduction_kinds -> in_range dtype x -> x <> VNaN ->
  (In rt ["sum"; "any"] ->
     reduction_init rt dtype = inl (PyInt 0)
     /\ reduction_init_value rt dtype = Some (VNum 0))
  /\ (In rt ["max"; "argmax"] ->
      if is_float_dtype dtype then
        reduction_init rt dtype
        = inl (PyStr (fstr ["-std::numeric_limits<"; DTYPE_TO_CPP dtype;
                            ">::infinity()"]))
        /\ reduction_init_value rt dtype = Some VNegInf
      else
        reduction_init rt dtype
        = inl (PyStr (fstr ["std::numeric_limits<"; DTYPE_TO_CPP dtype;
                            ">::min()"]))
        /\ exists lo,
             reduction_init_value rt dtype = Some (VNum lo)
             /\ in_range dtype (VNum lo)
             /\ forall y, in_range dtype y -> cval_ltb y (VNum lo) = false)
  /\ (In rt ["min"; "argmin"] ->
      if is_float_dtype dtype then
        reduction_init rt dtype
        = inl (PyStr (fstr ["std::numeric_limits<"; DTYPE_TO_CPP dtype;
                            ">::infinity()"]))
        /\ reduction_init_value rt dtype = Some VPosInf
      else
        reduction_init rt dtype
        = inl (PyStr (fstr ["std::numeric_limits<"; DTYPE_TO_CPP dtype;
                            ">::max()"]))
        /\ exists hi,
             reduction_init_value rt dtype = Some (VNum hi)
             /\ in_range dtype (VNum hi)
             /\ forall y, in_range dtype y -> cval_ltb (VNum hi) y = false)
  /\ init_then_combine rt dtype x
     = Some (if String.eqb rt "any" then of_bool (truthy x) else x).
Proof.
  intros Hrt Hx Hnan.
  split; [|split; [|split]].
  - cbn. intros [<- | [<- | []]]; split; reflexivity.
  - cbn. intros [<- | [<- | []]]; destruct dtype; cbn -[fstr];
      try (split; reflexivity);
      (split; [reflexivity|]; eexists; split; [reflexivity|];
       split; [eexists; split; [reflexivity | cbn; lia]|];
       intros y (z & -> & Hz); cbn in Hz |- *; apply Z.ltb_ge; lia).
  - cbn. intros [<- | [<- | []]]; destruct dtype; cbn -[fstr];
      try (split; reflexivity);
      (split; [reflexivity|]; eexists; split; [reflexivity|];
       split; [eexists; split; [reflexivity | cbn; lia]|];
       intros y (z & -> & Hz); cbn in Hz |- *; apply Z.ltb_ge; lia).
  - apply init_then_combine_law; assumption.
Qed.

(** The theorem at [max] over [int32] and the value 7. *)
Lemma reduction_init_identity_witness :
  init_then_combine "max" torch.int32 (VNum 7) = Some (VNum 7).
Proof.
  refine (proj2 (proj2 (proj2
            (reduction_init_identity "max" torch.int32 (VNum 7) _ _ _)))).
  - cbn. tauto.
  - exists 7. split; [reflexivity | cbn; lia].
  - discriminate.
Defined.

(** ** Stores of the scalar kernel *)

(** C6. A store in mode [atomic_add] writes a plain [+=] when the
    dynamic-threads flag is unset and the kernel was made for one
    thread, and the [atomic_add] call in every other case (more than
    one thread, or dynamic threads); a store without a mode writes a
    plain assignment.  Writing means: the call returns, the statement
    is the line added at the end of the kernel's stores, under the name
    of the buffer, and the loads and the compute buffer are as they
    were.  The buffer name has to contain "buf", which the method
    asserts first. *)
Theorem atomic_store_selection (ctx : Context) (k : CppKernel)
    (name : string) (index : expr) (value : string) :
  contains "buf" name = true ->
  let var := args_output (common ctx) name in
  let idx := cexpr (common ctx) (rename_indexing (common ctx) index) in
  let emits (mode : option string) (line : string) :=
    exists k',
      CppKernel_store ctx name index value mode k = (k', inl tt)
      /\ stores k' = stores k ++ [(Some name, line)]
      /\ loads k' = loads k
      /\ compute k' = compute k in
  (dynamic_threads (config_cpp ctx) = false -> num_threads k = 1 ->
     emits (Some "atomic_add") (fstr [var; "["; idx; "] += "; value; ";"]))
  /\ (dynamic_threads (config_cpp ctx) = true \/ num_threads k <> 1 ->
      emits (Some "atomic_add")
        (fstr ["atomic_add(&"; var; "["; idx; "], "; value; ");"]))
  /\ emits None (fstr [var; "["; idx; "] = "; value; ";"]).
Proof.
  intros Hbuf var idx emits. unfold emits.
  unfold CppKernel_store, bindM, assertM, liftM, assert, getM, modifyM, retM.
  rewrite Hbuf. cbn -[fstr].
  split; [|split].
  - intros Hdyn Hone. rewrite Hdyn, Hone. cbn -[fstr].
    eexists. split; [reflexivity|]. repeat split.
  - intros [Hdyn | Hmany].
    + rewrite Hdyn. cbn -[fstr].
      eexists. split; [reflexivity|]. repeat split.
    + destruct (Z.eqb_spec (num_threads k) 1) as [Heq | _]; [contradiction|].
      rewrite andb_false_r. cbn -[fstr].
      eexists. split; [reflexivity|]. repeat split.
  - eexists. split; [reflexivity|]. repeat split.
Qed.

(** The theorem on a kernel made for one thread, storing to [buf0]. *)
Lemma atomic_store_selection_witness :
  exists k',
    CppKernel_store (example_context 1 false (fun _ => torch.float32))
      "buf0" (Symbol "i0") "tmp1" (Some "atomic_add") (CppKernel_init 1)
    = (k', inl tt)
    /\ stores k' = [(Some "buf0", "out_ptr_buf0[i0] += tmp1;")].
Proof.
  destruct (proj1 (atomic_store_selection
                     (example_context 1 false (fun _ => torch.float32))
                     (CppKernel_init 1) "buf0" (Symbol "i0") "tmp1" eq_refl)
              eq_refl eq_refl) as (k' & Hrun & Hstores & _).
  exists k'. split; [exact Hrun | exact Hstores].
Defined.

(** ** Binding a kernel to its ranges *)

Lemma expr_eqb_eq (a b : expr) : expr_eqb a b = true <-> a = b.
Proof.
  revert b. induction a as [m|x|a1 IH1 a2 IH2|a1 IH1 a2 IH2|a1 IH1 a2 IH2];
    intros [n|y|b1 b2|b1 b2|b1 b2]; cbn; try (split; [discriminate | congruence]).
  - rewrite Z.eqb_eq. split; congruence.
  - rewrite String.eqb_eq. split; congruence.
  - rewrite andb_true_iff, IH1, IH2. split; [intros [-> ->] | intros [= -> ->]]; auto.
  - rewrite andb_true_iff, IH1, IH2. split; [intros [-> ->] | intros [= -> ->]]; auto.
  - rewrite andb_true_iff, IH1, IH2. split; [intros [-> ->] | intros [= -> ->]]; auto.
Qed.

Lemma tuple_eqb_eq (xs ys : list expr) : tuple_eqb xs ys = true <-> xs = ys.
Proof.
  revert ys. induction xs as [|x xs IH]; intros [|y ys]; cbn;
    try (split; [discriminate | congruence]).
  - tauto.
  - rewrite andb_true_iff, expr_eqb_eq, IH.
    split; [intros [-> ->] | intros [= -> ->]]; auto.
Qed.

(** A first binding of a fresh kernel. *)
Lemma set_ranges_first (ctx : Context) (n : Z) (lengths rl : list expr) :
  let cr := lengths ++ rl in
  let iv := map itervar_name (List.seq 0 (List.length cr)) in
  set_ranges ctx lengths rl (CppKernel_init n)
  = (bind_ranges (CppKernel_init n) cr (map (rename_indexing (common ctx)) cr)
       iv (List.length lengths),
     inl (firstn (List.length lengths) iv, skipn (List.length lengths) iv)).
Proof.
  unfold set_ranges, bindM, getM, modifyM, liftM, split_itervars.
  cbn. rewrite length_map. reflexivity.
Qed.

(** On a kernel bound to at least one range, a second [set_ranges]
    returns the same split and changes nothing when the ranges and the
    reduction depth are those of the binding, and raises an assertion
    failure, again changing nothing, when they are not. *)
Lemma set_ranges_again (ctx : Context) (k : CppKernel) (cr : list expr)
    (iv : list string) (d : nat) (lengths rl : list expr) :
  call_ranges k = Some cr -> cr <> [] ->
  itervars k = Some iv -> reduction_depth k = Some d ->
  (cr = lengths ++ rl /\ d = List.length lengths ->
     set_ranges ctx lengths rl k = (k, inl (firstn d iv, skipn d iv)))
  /\ (~ (cr = lengths ++ rl /\ d = List.length lengths) ->
      set_ranges ctx lengths rl k = (k, inr AssertionError)).
Proof.
  intros Hcr Hne Hiv Hd.
  unfold set_ranges, bindM, getM, modifyM, assertM, assert, liftM,
    split_itervars, tuple_truth, retM, ret, raise.
  cbv beta iota. rewrite Hcr, Hd. destruct cr as [|c cr]; [congruence|].
  split.
  - intros [Heq ->]. rewrite <- Heq.
    rewrite (proj2 (tuple_eqb_eq _ _) eq_refl), Nat.eqb_refl.
    cbv beta iota. rewrite ?Hiv, ?Hd. reflexivity.
  - intros Hno.
    destruct (tuple_eqb (c :: cr) (lengths ++ rl)) eqn:Ht; [|reflexivity].
    apply tuple_eqb_eq in Ht.
    destruct (Nat.eqb_spec d (List.length lengths)) as [He | He]; [|reflexivity].
    exfalso. auto.
Qed.

(** C7, at the input where the code departs from it.  A kernel bound to
    the empty iteration space counts as unbound, because [set_ranges]
    tests the truth of [self.call_ranges] and the empty tuple is false:
    a second call with the ranges [(4,)] raises nothing and binds the
    kernel anew. *)
Theorem set_ranges_rebinds_empty_binding :
  let ctx := example_context 1 false (fun _ => torch.float32) in
  let k1 := fst (set_ranges ctx [] [] (CppKernel_init 1)) in
  set_ranges ctx [] [] (CppKernel_init 1) = (k1, inl ([], []))
  /\ call_ranges k1 = Some []
  /\ itervars k1 = Some []
  /\ reduction_depth k1 = Some 0%nat
  /\ exists k2,
       set_ranges ctx [Integer 4] [] k1 = (k2, inl (["i0"], []))
       /\ call_ranges k2 = Some [Integer 4]
       /\ itervars k2 = Some ["i0"]
       /\ reduction_depth k2 = Some 1%nat.
Proof.
  cbn zeta. repeat split. eexists. repeat split.
Qed.


(** ** Python floats: when a rounding stays finite *)

Lemma digits2_size (p : positive) : digits2_pos p = Pos.size p.
Proof. induction p as [p IH | p IH |]; cbn; congruence. Qed.

(** The number of binary digits, by bounds. *)
Lemma Zdigits2_bounds (m : Z) :
  0 < m -> 2 ^ (Zdigits2 m - 1) <= m < 2 ^ Zdigits2 m.
Proof.
  destruct m as [|p|p]; try lia. intros _.
  cbn [Zdigits2]. rewrite digits2_size.
  pose proof (Pos.size_gt p) as Hgt. pose proof (Pos.size_le p) as Hle.
  split.
  - assert (H2 : 2 ^ Z.pos (Pos.size p) <= 2 * Z.pos p).
    { change (2 * Z.pos p) with (Z.pos p~0).
      rewrite <- Pos2Z.inj_pow. apply Pos2Z.pos_le_pos. exact Hle. }
    replace (Z.pos (Pos.size p)) with (Z.pos (Pos.size p) - 1 + 1) in H2 by lia.
    rewrite Z.pow_add_r in H2 by lia. lia.
  - rewrite <- Pos2Z.inj_pow. apply Pos2Z.pos_lt_pos. exact Hgt.
Qed.

Lemma Zdigits2_nonneg (m : Z) : 0 <= Zdigits2 m.
Proof. destruct m; cbn; lia. Qed.

Lemma Zdigits2_le (m k : Z) : 0 <= m -> 0 <= k -> m < 2 ^ k -> Zdigits2 m <= k.
Proof.
  intros Hm Hk Hlt.
  destruct (Z.eq_dec m 0) as [-> | Hne]; [cbn; lia|].
  pose proof (Zdigits2_bounds m ltac:(lia)) as [Hlo _].
  destruct (Z.le_gt_cases (Zdigits2 m) k) as [? | Hgt]; [assumption|].
  exfalso.
  assert (2 ^ k <= 2 ^ (Zdigits2 m - 1)) by (apply Z.pow_le_mono_r; lia).
  lia.
Qed.

Lemma Zdigits2_lt_pow (m : Z) : 0 <= m -> m < 2 ^ Zdigits2 m.
Proof.
  intros Hm. destruct (Z.eq_dec m 0) as [-> | Hne]; [cbn; lia|].
  apply Zdigits2_bounds. lia.
Qed.

Lemma Zdigits2_ge (m k : Z) : 2 ^ k <= m -> 0 <= k -> k + 1 <= Zdigits2 m.
Proof.
  intros Hle Hk.
  assert (Hm : 0 < m) by (pose proof (Z.pow_pos_nonneg 2 k); lia).
  pose proof (Zdigits2_bounds m Hm) as [_ Hhi].
  destruct (Z.le_gt_cases (k + 1) (Zdigits2 m)) as [? | Hgt]; [assumption|].
  exfalso.
  assert (2 ^ Zdigits2 m <= 2 ^ k)
    by (apply Z.pow_le_mono_r; [lia | pose proof (Zdigits2_nonneg m); lia]).
  lia.
Qed.

(** Shifting right divides the significand. *)
Lemma shr_1_m (r : shr_record) : 0 <= shr_m r -> shr_m (shr_1 r) = shr_m r / 2.
Proof.
  destruct r as [m b s]. cbn [shr_m]. intros Hm.
  destruct m as [|[p|p|]|p]; cbn [shr_1 shr_m]; try lia.
  - reflexivity.
  - apply (Z.div_unique _ _ _ 1); [lia | rewrite Pos2Z.inj_xI; lia].
  - apply (Z.div_unique _ _ _ 0); [lia | rewrite Pos2Z.inj_xO; lia].
  - reflexivity.
Qed.

Lemma iter_shr_1_m (n : positive) :
  forall r, 0 <= shr_m r ->
            shr_m (iter_pos shr_1 n r) = shr_m r / 2 ^ Z.pos n.
Proof.
  induction n as [n IH | n IH |]; intros r Hr; cbn [iter_pos].
  - assert (H1 : 0 <= shr_m (shr_1 r))
      by (rewrite shr_1_m by assumption; apply Z.div_pos; lia).
    assert (H2 : 0 <= shr_m (iter_pos shr_1 n (shr_1 r)))
      by (rewrite IH by assumption; apply Z.div_pos; lia).
    rewrite IH, IH, shr_1_m by assumption.
    rewrite !Z.div_div by lia. f_equal.
    rewrite Pos2Z.inj_xI, Z.pow_add_r, Z.pow_mul_r by lia.
    change (2 ^ 2) with 4. change (2 ^ 1) with 2.
    replace (4 ^ Z.pos n) with (2 ^ Z.pos n * 2 ^ Z.pos n)
      by (rewrite <- Z.pow_add_r by lia; change 4 with (2 ^ 2);
          rewrite <- Z.pow_mul_r by lia; f_equal; lia).
    ring.
  - assert (H2 : 0 <= shr_m (iter_pos shr_1 n r))
      by (rewrite IH by assumption; apply Z.div_pos; lia).
    rewrite IH, IH by assumption.
    rewrite Z.div_div by lia. f_equal.
    rewrite Pos2Z.inj_xO. rewrite <- Z.pow_add_r by lia. f_equal. lia.
  - rewrite shr_1_m by assumption. reflexivity.
Qed.

Lemma shr_record_of_loc_m (m : Z) (l : location) :
  shr_m (shr_record_of_loc m l) = m.
Proof. destruct l as [|[| |]]; reflexivity. Qed.

(** [shr_fexp]: the significand is divided by a power of two and the
    exponent raised by as much. *)
Lemma shr_fexp_spec (m e : Z) (l : location) :
  0 <= m ->
  let n := Z.max 0 (fexp float.prec float.emax (Zdigits2 m + e) - e) in
  shr_m (fst (shr_fexp float.prec float.emax m e l)) = m / 2 ^ n
  /\ snd (shr_fexp float.prec float.emax m e l) = e + n.
Proof.
  intros Hm n. unfold shr_fexp, shr. subst n.
  destruct (fexp float.prec float.emax (Zdigits2 m + e) - e) as [|p|p] eqn:Hn;
    cbn [fst snd].
  - rewrite shr_record_of_loc_m, Z.div_1_r. split; [reflexivity | lia].
  - rewrite iter_shr_1_m by (rewrite shr_record_of_loc_m; assumption).
    rewrite shr_record_of_loc_m.
    replace (Z.max 0 (Z.pos p)) with (Z.pos p) by lia. split; reflexivity.
  - rewrite shr_record_of_loc_m.
    replace (Z.max 0 (Z.neg p)) with 0 by lia.
    rewrite Z.div_1_r. split; [reflexivity | lia].
Qed.

Lemma round_nearest_even_bounds (m : Z) (l : location) :
  m <= round_nearest_even m l <= m + 1.
Proof.
  unfold round_nearest_even.
  destruct l as [|[| |]]; try lia. destruct (Z.even m); lia.
Qed.

Lemma div_pow2_digits (m n : Z) :
  0 <= m -> 0 <= n ->
  Zdigits2 (m / 2 ^ n) <= Z.max 0 (Zdigits2 m - n).
Proof.
  intros Hm Hn.
  assert (H2 : 0 < 2 ^ n) by (apply Z.pow_pos_nonneg; lia).
  pose proof (Zdigits2_lt_pow m Hm) as Hlt.
  pose proof (Zdigits2_nonneg m) as Hd.
  apply Zdigits2_le; [apply Z.div_pos; lia | lia |].
  apply Z.div_lt_upper_bound; [lia|].
  rewrite <- Z.pow_add_r by lia.
  eapply Z.lt_le_trans; [exact Hlt|].
  apply Z.pow_le_mono_r; lia.
Qed.

Lemma div_pow2_positive (m n : Z) :
  0 < m -> 0 <= n -> n < Zdigits2 m -> 0 < m / 2 ^ n.
Proof.
  intros Hm Hn Hlt.
  pose proof (Zdigits2_bounds m Hm) as [Hlo _].
  apply Z.div_str_pos. split; [apply Z.pow_pos_nonneg; lia|].
  eapply Z.le_trans; [|exact Hlo]. apply Z.pow_le_mono_r; lia.
Qed.

Lemma Zdigits2_mono (a b : Z) : 0 <= a <= b -> Zdigits2 a <= Zdigits2 b.
Proof.
  intros [Ha Hab].
  apply Zdigits2_le; [assumption | apply Zdigits2_nonneg |].
  pose proof (Zdigits2_lt_pow b ltac:(lia)). lia.
Qed.

Lemma Zdigits2_succ (a b : Z) : 0 <= a -> a <= b <= a + 1 ->
  Zdigits2 b <= Zdigits2 a + 1.
Proof.
  intros Ha Hb. pose proof (Zdigits2_nonneg a) as Hd.
  apply Zdigits2_le; [lia | lia |].
  pose proof (Zdigits2_lt_pow a Ha).
  rewrite Z.pow_add_r by lia. lia.
Qed.

Lemma Zdigits2_pos (a : Z) : 0 < a -> 1 <= Zdigits2 a.
Proof. destruct a; cbn; lia. Qed.

(** A rounding whose input lies below 2^1023 gives a zero or a finite
    float, and a finite float when the input is above the least
    subnormal. *)
Lemma binary_round_aux_finite (sx : bool) (mx ex : Z) (lx : location) :
  0 <= mx -> Zdigits2 mx + ex <= 1023 -> ex <= 971 ->
  match binary_round_aux float.prec float.emax sx mx ex lx with
  | S754_zero _ => True
  | S754_finite _ _ _ => True
  | _ => False
  end
  /\ (0 < mx -> -1074 < Zdigits2 mx + ex ->
      exists m e,
        binary_round_aux float.prec float.emax sx mx ex lx
        = S754_finite sx m e).
Proof.
  intros Hmx Hmag Hex.
  unfold binary_round_aux.
  destruct (shr_fexp float.prec float.emax mx ex lx) as [mrs1 e1] eqn:H1.
  pose proof (shr_fexp_spec mx ex lx Hmx) as [Hm1 He1].
  rewrite H1 in Hm1, He1. cbn [fst snd] in Hm1, He1.
  set (n1 := Z.max 0 (fexp float.prec float.emax (Zdigits2 mx + ex) - ex))
    in *.
  set (m1 := shr_m mrs1) in *.
  set (r := round_nearest_even m1 (loc_of_shr_record mrs1)).
  pose proof (round_nearest_even_bounds m1 (loc_of_shr_record mrs1)) as Hr.
  fold r in Hr.
  assert (Hn1 : 0 <= n1) by (unfold n1; lia).
  assert (Hm1' : 0 <= m1)
    by (rewrite Hm1; apply Z.div_pos; [lia | apply Z.pow_pos_nonneg; lia]).
  assert (Hr0 : 0 <= r) by lia.
  destruct (shr_fexp float.prec float.emax r e1 loc_Exact) as [mrs2 e2] eqn:H2.
  pose proof (shr_fexp_spec r e1 loc_Exact Hr0) as [Hm2 He2].
  rewrite H2 in Hm2, He2. cbn [fst snd] in Hm2, He2.
  set (n2 := Z.max 0 (fexp float.prec float.emax (Zdigits2 r + e1) - e1)) in *.
  assert (Hn2 : 0 <= n2) by (unfold n2; lia).
  pose proof (div_pow2_digits mx n1 Hmx Hn1) as Hd1. rewrite <- Hm1 in Hd1.
  pose proof (Zdigits2_succ m1 r Hm1' Hr) as Hdr.
  pose proof (Zdigits2_nonneg mx) as Hdx.
  pose proof (Zdigits2_nonneg m1) as Hdm1.
  assert (He2' : e2 <= 971).
  { rewrite He2, He1. unfold n2, n1, fexp, emin, float.prec, float.emax in *.
    lia. }
  assert (Hm2' : 0 <= shr_m mrs2)
    by (rewrite Hm2; apply Z.div_pos; [lia | apply Z.pow_pos_nonneg; lia]).
  split.
  - destruct (shr_m mrs2) as [|p|p]; [exact I | | lia].
    change (float.emax - float.prec) with 971.
    destruct (Z.leb_spec e2 971); [exact I | lia].
  - intros Hpos Hlow.
    assert (Hm1pos : 0 < m1).
    { rewrite Hm1. apply div_pow2_positive; [assumption | assumption |].
      pose proof (Zdigits2_pos mx Hpos).
      unfold n1, fexp, emin, float.prec, float.emax. lia. }
    assert (Hrpos : 0 < r) by lia.
    assert (Hdr' : Zdigits2 m1 <= Zdigits2 r)
      by (apply Zdigits2_mono; lia).
    assert (Hm2pos : 0 < shr_m mrs2).
    { rewrite Hm2. apply div_pow2_positive; [assumption | assumption |].
      pose proof (Zdigits2_pos r Hrpos).
      pose proof (Zdigits2_pos m1 Hm1pos).
      assert (Hcase : n1 = 0 \/ 0 < n1) by lia.
      destruct Hcase as [Hz | Hnz].
      - assert (m1 = mx) by (rewrite Hm1, Hz, Z.div_1_r; reflexivity).
        subst m1. rewrite He1, Hz in *.
        unfold n2, fexp, emin, float.prec, float.emax in *. lia.
      - rewrite He1 in *.
        unfold n2, n1, fexp, emin, float.prec, float.emax in *. lia. }
    destruct (shr_m mrs2) as [|p|p]; [lia | | lia].
    change (float.emax - float.prec) with 971.
    destruct (Z.leb_spec e2 971); [|lia].
    exists p, e2. reflexivity.
Qed.

Lemma Zdigits2_mul_pow2 (m k : Z) :
  0 < m -> 0 <= k -> Zdigits2 (m * 2 ^ k) = Zdigits2 m + k.
Proof.
  intros Hm Hk.
  pose proof (Zdigits2_bounds m Hm) as [Hlo Hhi].
  pose proof (Zdigits2_pos m Hm) as Hd.
  assert (H2 : 0 < 2 ^ k) by (apply Z.pow_pos_nonneg; lia).
  apply Z.le_antisymm.
  - apply Zdigits2_le; [nia | lia |].
    rewrite Z.pow_add_r by lia. nia.
  - replace (Zdigits2 m + k) with (Zdigits2 m - 1 + k + 1) by lia.
    apply Zdigits2_ge; [|lia].
    rewrite Z.pow_add_r by lia. nia.
Qed.

Lemma iter_xO (m d : positive) :
  Z.pos (Pos.iter xO m d) = Z.pos m * 2 ^ Z.pos d.
Proof.
  induction d as [|d IH] using Pos.peano_ind.
  - cbn [Pos.iter]. rewrite Pos2Z.inj_xO. change (2 ^ 1) with 2. lia.
  - rewrite Pos.iter_succ, Pos2Z.inj_xO, IH, Pos2Z.inj_succ, Z.pow_succ_r by lia.
    ring.
Qed.

Lemma shl_align_spec (mx : positive) (ex ex' : Z) :
  snd (shl_align mx ex ex') = Z.min ex ex'
  /\ Z.pos (fst (shl_align mx ex ex'))
     = Z.pos mx * 2 ^ (ex - Z.min ex ex').
Proof.
  unfold shl_align.
  destruct (ex' - ex) as [|p|p] eqn:Hd; cbn [fst snd].
  - replace (Z.min ex ex') with ex by lia.
    rewrite Z.sub_diag, Z.mul_1_r. split; reflexivity.
  - replace (Z.min ex ex') with ex by lia.
    rewrite Z.sub_diag, Z.mul_1_r. split; reflexivity.
  - replace (Z.min ex ex') with ex' by lia.
    rewrite iter_xO. replace (ex - ex') with (Z.pos p) by lia.
    split; reflexivity.
Qed.

(** [float(z)] is a finite float other than zero for an int other than
    zero below 2^1023 in size. *)
Lemma int_to_float_finite (z : Z) :
  z <> 0 -> Z.abs z < 2 ^ 1023 ->
  exists s m e, int_to_float z = inl (S754_finite s m e).
Proof.
  intros Hz Hbound.
  assert (Hround : forall (s : bool) (p : positive),
            Z.pos p < 2 ^ 1023 ->
            exists m e,
              binary_round float.prec float.emax s p 0 = S754_finite s m e).
  { intros s p Hp. unfold binary_round.
    destruct (shl_align p 0
                (fexp float.prec float.emax (Z.pos (digits2_pos p) + 0)))
      as [mz ez] eqn:Hal.
    pose proof (shl_align_spec p 0
                  (fexp float.prec float.emax (Z.pos (digits2_pos p) + 0)))
      as [He Hm].
    rewrite Hal in He, Hm. cbn [fst snd] in He, Hm.
    assert (Hdig : Zdigits2 (Z.pos mz) + ez = Zdigits2 (Z.pos p)).
    { rewrite Hm, Zdigits2_mul_pow2 by lia. lia. }
    assert (Hd : Zdigits2 (Z.pos p) <= 1023)
      by (apply Zdigits2_le; lia).
    pose proof (Zdigits2_pos (Z.pos p) ltac:(lia)) as Hd1.
    apply (proj2 (binary_round_aux_finite s (Z.pos mz) ez loc_Exact
                    ltac:(lia) ltac:(lia) ltac:(lia)));
      lia. }
  unfold int_to_float, float.of_Z, binary_normalize.
  destruct z as [|p|p]; [congruence | |].
  - destruct (Hround false p ltac:(lia)) as (m & e & ->).
    exists false, m, e. reflexivity.
  - destruct (Hround true p ltac:(lia)) as (m & e & ->).
    exists true, m, e. reflexivity.
Qed.

Lemma div_eucl_div (a b : Z) : Z.div_eucl a b = (a / b, a mod b).
Proof.
  unfold Z.div, Z.modulo. destruct (Z.div_eucl a b). reflexivity.
Qed.

(** [a / b] on ints returns when [a] is below 2^1023 in size and [b]
    is not zero. *)
Lemma int_true_divide_finite (a b : Z) :
  b <> 0 -> Z.abs a < 2 ^ 1023 ->
  exists f, int_true_divide a b = inl f.
Proof.
  intros Hb Ha.
  unfold int_true_divide.
  destruct (Z.eqb_spec b 0) as [? | _]; [contradiction|].
  assert (Hcore : forall (s sb : bool) (ma mb : positive),
            Z.pos ma < 2 ^ 1023 ->
            float.is_infinite
              (float.div (S754_finite s ma 0) (S754_finite sb mb 0))
            = false).
  { intros s sb ma mb Hma. unfold float.div, SFdiv, SFdiv_core_binary.
    rewrite div_eucl_div.
    set (d1 := Zdigits2 (Z.pos ma)).
    set (d2 := Zdigits2 (Z.pos mb)).
    set (e' := Z.min (fexp float.prec float.emax (d1 + 0 - (d2 + 0)))
                 (0 - 0)).
    set (s' := 0 - 0 - e').
    set (m' := match s' with
               | 0 => Z.pos ma
               | Z.pos _ => Z.shiftl (Z.pos ma) s'
               | Z.neg _ => 0
               end).
    assert (Hs' : 0 <= s') by (unfold s', e'; lia).
    assert (Hm' : m' = Z.pos ma * 2 ^ s').
    { unfold m'. destruct s' as [|p|p] eqn:Hs; [lia | | lia].
      rewrite Z.shiftl_mul_pow2 by lia. reflexivity. }
    assert (Hd1 : d1 <= 1023) by (apply Zdigits2_le; lia).
    assert (Hq0 : 0 <= m' / Z.pos mb)
      by (apply Z.div_pos; [rewrite Hm' | ];
          [pose proof (Z.pow_pos_nonneg 2 s'); nia | lia]).
    assert (Hqd : Zdigits2 (m' / Z.pos mb) <= d1 + s').
    { replace (d1 + s') with (Zdigits2 m')
        by (rewrite Hm'; apply Zdigits2_mul_pow2; lia).
      apply Zdigits2_mono. split; [assumption|].
      apply Z.div_le_upper_bound; [lia|].
      assert (0 <= m') by (rewrite Hm'; pose proof (Z.pow_pos_nonneg 2 s'); nia).
      nia. }
    pose proof (proj1 (binary_round_aux_finite (xorb s sb)
                         (m' / Z.pos mb) e'
                         (new_location (Z.pos mb) (m' mod Z.pos mb))
                         Hq0 ltac:(unfold s' in *; lia)
                         ltac:(unfold e'; lia))) as Hfin.
    destruct (binary_round_aux float.prec float.emax (xorb s sb)
                (m' / Z.pos mb) e'
                (new_location (Z.pos mb) (m' mod Z.pos mb)));
      (reflexivity || contradiction). }
  destruct a as [|ma|ma], b as [|mb|mb]; try congruence;
    cbn [int_significand]; try (eexists; reflexivity);
    rewrite Hcore by lia; eexists; reflexivity.
Qed.

Lemma finite_is_not_zero (s : bool) (m : positive) (e : Z) :
  float.eqb (S754_finite s m e) float.zero = false.
Proof. destruct s; reflexivity. Qed.

(** [seq // threads] and [seq /= hint] return for operands other than
    zero and below 2^1023 in size. *)
Lemma py_floordiv_returns (seq : number) (b : Z) :
  b <> 0 -> Z.abs b < 2 ^ 1023 ->
  exists q, py_floordiv seq b = inl q.
Proof.
  intros Hb Hbound. destruct seq as [x | f]; cbn [py_floordiv].
  - destruct (Z.eqb_spec b 0); [contradiction|]. eexists; reflexivity.
  - destruct (int_to_float_finite b Hb Hbound) as (s & m & e & ->).
    unfold bind, float_floor_div. rewrite finite_is_not_zero.
    eexists; reflexivity.
Qed.

Lemma py_truediv_returns (seq : number) (b : Z) :
  b <> 0 -> Z.abs b < 2 ^ 1023 ->
  match seq with Int x => Z.abs x < 2 ^ 1023 | Float _ => True end ->
  exists f, py_truediv seq b = inl (Float f).
Proof.
  intros Hb Hbound Hseq. destruct seq as [x | f]; cbn [py_truediv].
  - destruct (int_true_divide_finite x b Hb Hseq) as (q & ->).
    eexists; reflexivity.
  - destruct (int_to_float_finite b Hb Hbound) as (s & m & e & ->).
    unfold bind, float_div. rewrite finite_is_not_zero.
    eexists; reflexivity.
Qed.

(** ** The parallel depth *)

(** The loop from any state: it adds [n] levels, none of which met a
    stop test, and stops at level [n] unless the ranges ran out.  No
    operand is zero or as large as 2^1023, so that no division
    raises. *)
Lemma parallel_depth_loop_spec (ctx : Context) (T : Z) (ranges : list expr) :
  T <> 0 -> Z.abs T < 2 ^ 1023 ->
  Forall (fun e => sizevars_size_hint (graph ctx) e <> 0
                   /\ Z.abs (sizevars_size_hint (graph ctx) e) < 2 ^ 1023)
    ranges ->
  forall (seq : number) (par depth : Z),
  match seq with Int x => Z.abs x < 2 ^ 1023 | Float _ => True end ->
  let hints := map (sizevars_size_hint (graph ctx)) ranges in
  let par_n n := fold_left Z.mul (firstn n hints) par in
  let seq_n n :=
    fold_left (fun s h => x <- s ;; py_truediv x h) (firstn n hints)
      (ret seq) in
  let stop n :=
    par_n n >= 2 * T \/ par_n n = T
    \/ exists s q,
         seq_n n = inl s
         /\ py_floordiv s T = inl q
         /\ py_lt q (min_chunk_size (config_cpp ctx)) = true in
  exists n : nat,
    parallel_depth_loop ctx T ranges seq par depth = inl (depth + Z.of_nat n)
    /\ (n <= List.length ranges)%nat
    /\ (forall j, (j < n)%nat -> ~ stop j)
    /\ ((n < List.length ranges)%nat -> stop n).
Proof.
  intros HT HTb Hall.
  induction Hall as [|e rest [He Heb] _ IH]; intros seq par depth Hseq.
  - exists 0%nat. cbn. unfold ret. repeat split; try lia. f_equal. lia.
  - cbn zeta. cbn [parallel_depth_loop map].
    destruct ((par >=? 2 * T) || (par =? T)) eqn:Hpar.
    { exists 0%nat. split; [unfold ret; f_equal; lia|]. split; [cbn; lia|].
      split; [intros j Hj; lia|]. intros _. cbn [firstn fold_left].
      apply orb_true_iff in Hpar. destruct Hpar as [H | H].
      - left. apply Z.geb_le in H. lia.
      - right; left. apply Z.eqb_eq in H. exact H. }
    apply orb_false_iff in Hpar. destruct Hpar as [Hge Heq].
    destruct (py_floordiv_returns seq T HT HTb) as (q & Hq).
    rewrite Hq. unfold bind at 1.
    destruct (py_lt q (min_chunk_size (config_cpp ctx))) eqn:Hwork.
    { exists 0%nat. split; [unfold ret; f_equal; lia|]. split; [cbn; lia|].
      split; [intros j Hj; lia|]. intros _. cbn [firstn fold_left].
      right; right. exists seq, q. repeat split; assumption. }
    destruct (py_truediv_returns seq (sizevars_size_hint (graph ctx) e)
                He Heb Hseq) as (f & Hf).
    rewrite Hf. unfold bind at 1.
    destruct (IH (Float f) (par * sizevars_size_hint (graph ctx) e)
                (depth + 1) I)
      as (n & Hrun & Hlen & Hbefore & Hat).
    assert (Hstep : (x <- ret seq ;;
                     py_truediv x (sizevars_size_hint (graph ctx) e))
                    = ret (Float f)) by exact Hf.
    exists (S n). split; [rewrite Hrun; f_equal; lia|].
    split; [cbn; lia|]. split.
    + intros [|j] Hj.
      * cbn [firstn fold_left]. intros [H | [H | (s & q' & Hs & Hq' & Hlt)]].
        -- rewrite Z.geb_leb in Hge. apply Z.leb_gt in Hge. lia.
        -- apply Z.eqb_neq in Heq. contradiction.
        -- injection Hs as <-. rewrite Hq in Hq'. injection Hq' as <-.
           congruence.
      * cbn [firstn fold_left]. rewrite Hstep. apply Hbefore. lia.
    + intros Hlt. cbn [firstn fold_left]. rewrite Hstep. apply Hat.
      cbn in Hlt. lia.
Qed.

(** The quotient [4000 / 1000] of the ranges [1000, 4] is the float
    4.0. *)
Lemma four_thousand_by_thousand :
  py_truediv (Int 4000) 1000
  = inl (Float (S754_finite false 4503599627370496 (-50))).
Proof. vm_compute. reflexivity. Qed.

(** C8. [decide_parallel_depth] follows the greedy rule.  Starting from
    factor 1 and the total work of the kernel, it adds levels one by one
    and stops before the first level at which the factor is at least
    twice the thread count, or equals the thread count, or the work left
    floor-divided by the thread count is below the minimum chunk size;
    each level added multiplies the factor by its extent and divides the
    work by it.  The work is a Python number: the int of the size hint
    at first, and a float, rounded as Python rounds, from the first
    division on.  No division raises when no extent and no thread count
    is zero and the total work, the extents and the thread count are
    below 2^1023 in size.  With the dynamic-threads flag set the depth
    is at least 1 when there is a range.  For a kernel over the ranges
    [1000, 4] and a minimum chunk size of 16 the depth is at most 1,
    whatever the thread count. *)
Theorem decide_parallel_depth_greedy :
  (forall (ctx : Context) (k : CppKernel) (cr ranges : list expr) (T : Z),
      call_ranges k = Some cr ->
      T <> 0 -> Z.abs T < 2 ^ 1023 ->
      Forall (fun e => sizevars_size_hint (graph ctx) e <> 0
                       /\ Z.abs (sizevars_size_hint (graph ctx) e) < 2 ^ 1023)
        ranges ->
      let cfg := config_cpp ctx in
      let hints := map (sizevars_size_hint (graph ctx)) ranges in
      let seq0 := sizevars_size_hint (graph ctx) (sympy_product cr) in
      Z.abs seq0 < 2 ^ 1023 ->
      exists n : nat,
        (n <= List.length ranges)%nat
        /\ (forall j, (j < n)%nat -> ~ stops_at cfg T seq0 hints j)
        /\ ((n < List.length ranges)%nat -> stops_at cfg T seq0 hints n)
        /\ decide_parallel_depth ctx k ranges T
           = inl (if dynamic_threads cfg && (Z.of_nat n =? 0)
                     && (0 <? Z.of_nat (List.length ranges))
                  then 1 else Z.of_nat n)
        /\ (dynamic_threads cfg = true -> ranges <> [] ->
            exists d, decide_parallel_depth ctx k ranges T = inl d /\ 1 <= d))
  /\ (forall (ctx : Context) (k : CppKernel) (T : Z),
         min_chunk_size (config_cpp ctx) = 16 ->
         call_ranges k = Some [Integer 1000; Integer 4] ->
         exists d,
           decide_parallel_depth ctx k [Integer 1000; Integer 4] T = inl d
           /\ 0 <= d <= 1).
Proof.
  split.
  - intros ctx k cr ranges T Hcr HT HTb Hall cfg hints seq0 Hseq0.
    destruct (parallel_depth_loop_spec ctx T ranges HT HTb Hall (Int seq0) 1 0
                Hseq0)
      as (n & Hrun & Hlen & Hbefore & Hat).
    exists n. split; [exact Hlen|]. split; [exact Hbefore|]. split; [exact Hat|].
    assert (Hdec : decide_parallel_depth ctx k ranges T
                   = inl (if dynamic_threads cfg && (Z.of_nat n =? 0)
                             && (0 <? Z.of_nat (List.length ranges))
                          then 1 else Z.of_nat n)).
    { unfold decide_parallel_depth, size_hint, bind. rewrite Hcr.
      unfold ret at 1. fold seq0. rewrite Hrun.
      change (0 + Z.of_nat n) with (Z.of_nat n). unfold cfg.
      destruct (dynamic_threads (config_cpp ctx) && (Z.of_nat n =? 0)
                && (0 <? Z.of_nat (List.length ranges))); reflexivity. }
    split; [exact Hdec|].
    intros Hdyn Hne. rewrite Hdec. fold cfg in Hdyn. rewrite Hdyn.
    eexists. split; [reflexivity|].
    destruct ranges as [|e rest]; [congruence|].
    cbn [List.length andb].
    destruct (Z.eqb_spec (Z.of_nat n) 0);
      destruct (Z.ltb_spec 0 (Z.of_nat (S (List.length rest)))); cbn; lia.
  - intros ctx k T Hmin Hcr.
    unfold decide_parallel_depth, size_hint, bind. rewrite Hcr.
    unfold ret at 1.
    change (sizevars_size_hint (graph ctx)
              (sympy_product [Integer 1000; Integer 4])) with 4000.
    cbn [parallel_depth_loop].
    change (sizevars_size_hint (graph ctx) (Integer 1000)) with 1000.
    change (sizevars_size_hint (graph ctx) (Integer 4)) with 4.
    rewrite Hmin.
    assert (Hfin : forall d, 0 <= d <= 1 ->
              exists d',
                (if dynamic_threads (config_cpp ctx) && (d =? 0)
                    && (0 <? Z.of_nat (List.length [Integer 1000; Integer 4]))
                 then ret 1 else ret d) = inl d' /\ 0 <= d' <= 1).
    { intros d Hd.
      destruct (dynamic_threads (config_cpp ctx) && (d =? 0)
                && (0 <? Z.of_nat (List.length [Integer 1000; Integer 4])));
        eexists; (split; [reflexivity | lia]). }
    destruct ((1 >=? 2 * T) || (1 =? T)) eqn:Hpar; [apply Hfin; lia|].
    apply orb_false_iff in Hpar. destruct Hpar as [Hge Hne].
    rewrite Z.geb_leb in Hge. apply Z.leb_gt in Hge. apply Z.eqb_neq in Hne.
    cbn [py_floordiv].
    destruct (Z.eqb_spec T 0) as [? | _]; [lia|].
    unfold bind at 1, ret at 1. cbv beta iota. cbn [py_lt].
    destruct (Z.ltb_spec (4000 / T) 16) as [_ | Hwork]; [apply Hfin; lia|].
    rewrite four_thousand_by_thousand. unfold bind at 1. cbv beta iota.
    assert (HT : T <= 250).
    { pose proof (Z.mul_div_le 4000 T ltac:(lia)). nia. }
    destruct ((1 * 1000 >=? 2 * T) || (1 * 1000 =? T)) eqn:Hpar.
    + apply Hfin. lia.
    + apply orb_false_iff in Hpar. destruct Hpar as [Hge' _].
      rewrite Z.geb_leb in Hge'. apply Z.leb_gt in Hge'. lia.
Qed.

(** The first part of the theorem on the ranges [1000, 4], eight
    threads and the default chunk size of the example context. *)
Lemma decide_parallel_depth_greedy_witness :
  exists n : nat,
    decide_parallel_depth (example_context 8 false (fun _ => torch.float32))
      (fst (set_ranges (example_context 8 false (fun _ => torch.float32))
              [Integer 1000; Integer 4] [] (CppKernel_init 8)))
      [Integer 1000; Integer 4] 8
    = inl (Z.of_nat n).
Proof.
  destruct (proj1 decide_parallel_depth_greedy
              (example_context 8 false (fun _ => torch.float32))
              (fst (set_ranges (example_context 8 false (fun _ => torch.float32))
                      [Integer 1000; Integer 4] [] (CppKernel_init 8)))
              [Integer 1000; Integer 4] [Integer 1000; Integer 4] 8)
    as (n & _ & _ & _ & Hdec & _).
  - reflexivity.
  - discriminate.
  - cbn. lia.
  - repeat constructor; (discriminate || (cbn; lia)).
  - cbn. lia.
  - exists n. exact Hdec.
Defined.

(** With up to 500 threads the depth over the ranges [1000, 4] is at
    most 1 whatever the kernel's total work below 2^1023: once the
    first level is added the factor is 1000, at least twice the thread
    count. *)
Lemma parallel_depth_two_levels_up_to_500 (ctx : Context) (k : CppKernel)
    (cr : list expr) (T : Z) :
  call_ranges k = Some cr -> T <= 500 ->
  Z.abs (sizevars_size_hint (graph ctx) (sympy_product cr)) < 2 ^ 1023 ->
  exists d,
    decide_parallel_depth ctx k [Integer 1000; Integer 4] T = inl d
    /\ 0 <= d <= 1.
Proof.
  intros Hcr HT Hseq.
  unfold decide_parallel_depth, size_hint, bind. rewrite Hcr.
  unfold ret at 1. cbn [parallel_depth_loop].
  change (sizevars_size_hint (graph ctx) (Integer 1000)) with 1000.
  change (sizevars_size_hint (graph ctx) (Integer 4)) with 4.
  assert (Hfin : forall d, 0 <= d <= 1 ->
            exists d',
              (if dynamic_threads (config_cpp ctx) && (d =? 0)
                  && (0 <? Z.of_nat (List.length [Integer 1000; Integer 4]))
               then ret 1 else ret d) = inl d' /\ 0 <= d' <= 1).
  { intros d Hd.
    destruct (dynamic_threads (config_cpp ctx) && (d =? 0)
              && (0 <? Z.of_nat (List.length [Integer 1000; Integer 4])));
      eexists; (split; [reflexivity | lia]). }
  destruct ((1 >=? 2 * T) || (1 =? T)) eqn:Hpar; [apply Hfin; lia|].
  apply orb_false_iff in Hpar. destruct Hpar as [Hge _].
  rewrite Z.geb_leb in Hge. apply Z.leb_gt in Hge.
  cbn [py_floordiv].
  destruct (Z.eqb_spec T 0) as [? | _]; [lia|].
  unfold bind at 1, ret at 1. cbv beta iota.
  destruct (py_lt _ _); [apply Hfin; lia|].
  destruct (py_truediv_returns
              (Int (sizevars_size_hint (graph ctx) (sympy_product cr))) 1000
              ltac:(lia) ltac:(cbn; lia) Hseq) as (f & ->).
  unfold bind at 1. cbv beta iota.
  destruct ((1 * 1000 >=? 2 * T) || (1 * 1000 =? T)) eqn:Hpar.
  - apply Hfin. lia.
  - apply orb_false_iff in Hpar. destruct Hpar as [Hge' _].
    rewrite Z.geb_leb in Hge'. apply Z.leb_gt in Hge'. lia.
Qed.

(** The bound rests on the total work or on the thread count: a kernel
    whose ranges go on past [1000, 4], run for 501 threads, gets both
    levels. *)
Lemma parallel_depth_two_levels_more_work :
  let ctx := example_context 501 false (fun _ => torch.float32) in
  let k := fst (set_ranges ctx [Integer 1000; Integer 4] [Integer 1000000]
                  (CppKernel_init 501)) in
  decide_parallel_depth ctx k [Integer 1000; Integer 4] 501 = inl 2.
Proof. vm_compute. reflexivity. Qed.

(** The work is rounded from the first division on.  Over the ranges
    [1, 1, 2^53 + 1], three threads and a minimum chunk size of
    (2^53 + 1) / 3, the first division gives the float 2^53, whose
    third is below the chunk size: the depth is 1, where the exact
    quotient would allow a second level. *)
Lemma parallel_depth_rounds_the_work :
  let ctx := example_context 3 false (fun _ => torch.float32) in
  let ctx' := {| config_cpp := {| threads := 3; dynamic_threads := false;
                                  min_chunk_size := 3002399751580331 |};
                 graph := graph ctx; common := common ctx;
                 sympy := sympy ctx |} in
  let cr := [Integer 1; Integer 1; Integer 9007199254740993] in
  let k := fst (set_ranges ctx' cr [] (CppKernel_init 3)) in
  9007199254740993 / 3 = 3002399751580331
  /\ decide_parallel_depth ctx' k cr 3 = inl 1.
Proof. vm_compute. split; reflexivity. Qed.

(** A first division whose quotient is beyond the floats raises. *)
Lemma parallel_depth_overflow :
  let ctx := example_context 2 false (fun _ => torch.float32) in
  let cr := [Integer 10; Integer (10 ^ 400)] in
  let k := fst (set_ranges ctx cr [] (CppKernel_init 2)) in
  decide_parallel_depth ctx k cr 2 = inr OverflowError.
Proof. vm_compute. reflexivity. Qed.

(** ** The vectorization checker *)

Ltac run_monad :=
  unfold bindM, getM, modifyM, retM, raiseM, assertM, liftM, assert, ret, raise;
  cbv beta iota.

(** Asking [could_vec] changes nothing in the checker. *)
Lemma could_vec_state (ctx : Context) (name : string) (index : expr)
    (c : CppVecKernelChecker) :
  fst (could_vec ctx name index c) = c.
Proof.
  unfold could_vec. run_monad.
  destruct (itervars (kernel c)) as [iv|]; [|reflexivity].
  destruct (Nat.eqb (List.length iv) 0); [reflexivity|].
  destruct (last_item (Some iv)); reflexivity.
Qed.

(** No request turns a false verdict into a true one, whether the
    request returns or raises. *)
Lemma proxy_keeps_false (ctx : Context) (o : op) (c : CppVecKernelChecker) :
  simd_vec c = false -> simd_vec (fst (proxy ctx o c)) = false.
Proof.
  intros Hc.
  destruct o; unfold proxy, checker_load, checker_store, checker_reduction,
    checker_newvar, and_could_vec, on_kernel; run_monad.
  - destruct (negb _); cbn; [reflexivity|]. rewrite Hc. reflexivity.
  - destruct (negb _); cbn; [reflexivity|].
    destruct (contains "buf" name); cbn; [|exact Hc].
    destruct (mode_truth mode); cbn; [reflexivity|]. rewrite Hc. reflexivity.
  - destruct (_ && _ && _); cbn; [exact Hc | reflexivity].
  - destruct (negb _); cbn; [reflexivity | exact Hc].
  - reflexivity.
  - reflexivity.
  - cbn. exact Hc.
  - destruct (negb _); cbn; [reflexivity | exact Hc].
  - destruct (negb _); cbn; [reflexivity | exact Hc].
Qed.

Lemma run_requests_keeps_false (ctx : Context) (os : list op) :
  forall c, simd_vec c = false ->
            simd_vec (fst (run_requests ctx os c)) = false.
Proof.
  induction os as [|o os IH]; intros c Hc; [exact Hc|].
  cbn [run_requests]. unfold bindM.
  pose proof (proxy_keeps_false ctx o c Hc) as Hstep.
  destruct (proxy ctx o c) as [c' [r | e]]; cbn [fst] in *.
  - apply IH. exact Hstep.
  - exact Hstep.
Qed.

(** C2. The verdict of the checker only ever goes from true to false:
    if it is false before a request, it is false after it, for each
    kind of request the proxy takes (load, store, reduction, constant,
    index_expr, indirect_indexing, masked, to_dtype, and any other name
    looked up through [__getattr__]), whether the request returns or
    raises; and so it is false after any run of requests. *)
Theorem verdict_never_returns_to_true (ctx : Context) (os : list op)
    (c : CppVecKernelChecker) :
  simd_vec c = false ->
  (forall o, simd_vec (fst (proxy ctx o c)) = false)
  /\ simd_vec (fst (run_requests ctx os c)) = false.
Proof.
  intros Hc. split.
  - intros o. apply proxy_keeps_false. exact Hc.
  - apply run_requests_keeps_false. exact Hc.
Qed.

(** The theorem on a checker whose verdict an [index_expr] has made
    false, followed by requests that are all admissible by
    themselves. *)
Lemma verdict_never_returns_to_true_witness :
  let ctx := example_context 8 false (fun _ => torch.float32) in
  let c := fst (proxy ctx (OpIndexExpr (Symbol "i0") torch.int64)
                  (fst (checker_set_ranges ctx [Integer 64] []
                          (CppVecKernelChecker_init 8 8)))) in
  simd_vec (fst (run_requests ctx
                   [ OpLoad "arg0" (Symbol "i0");
                     OpConstant 1 torch.float32;
                     OpOther "add" ["tmp0"; "tmp1"];
                     OpMasked "tmp2" [OpLoad "arg0" (Symbol "i0")] 0;
                     OpToDtype "tmp3" torch.bool;
                     OpReduction "buf1" torch.float torch.float "sum"
                       (Integer 0) "tmp3";
                     OpStore "buf0" (Symbol "i0") "tmp3" None ] c))
  = false.
Proof.
  intros ctx c.
  apply (verdict_never_returns_to_true ctx).
  reflexivity.
Defined.

(** C3, as stated, fails.  On a checker bound to one range of 8 whose
    verdict is still true, a store to an [int64] buffer sets the verdict
    to false when requested by itself, and leaves it true when it stands
    in the body of a [masked] request; and no [masked] request at all,
    whatever its body, takes a true verdict to false. *)
Lemma masked_body_counterexample :
  let ctx := example_context 8 false (fun _ => torch.int64) in
  let c := fst (checker_set_ranges ctx [Integer 8] []
                  (CppVecKernelChecker_init 8 8)) in
  let disallowed := OpStore "buf0" (Symbol "i0") "tmp1" None in
  simd_vec c = true
  /\ simd_vec (fst (proxy ctx disallowed c)) = false
  /\ simd_vec (fst (proxy ctx (OpMasked "tmp0" [disallowed] 0) c)) = true
  /\ ~ (exists ctx' c' mask body other,
          simd_vec c' = true
          /\ simd_vec (fst (proxy ctx' (OpMasked mask body other) c')) = false).
Proof.
  cbn zeta. split; [reflexivity|]. split; [reflexivity|]. split; [reflexivity|].
  intros (ctx' & c' & mask & body & other & Htrue & Hfalse).
  cbn in Hfalse. congruence.
Qed.

(** C3, amended.  A [masked] request leaves the verdict as it was and
    does not run its body: it takes a fresh temporary from the kernel's
    cache and returns it, so the outcome is the same whatever requests
    the body holds, and nothing inside the body is checked. *)
Theorem masked_is_accepted_unchecked (ctx : Context) (c : CppVecKernelChecker)
    (mask : string) (body : list op) (other : Z) :
  simd_vec (fst (proxy ctx (OpMasked mask body other) c)) = simd_vec c
  /\ proxy ctx (OpMasked mask body other) c
     = (set_kernel (set_cse (snd (cse_newvar (cse (kernel c)))) (kernel c)) c,
        inl (RVar (fst (cse_newvar (cse (kernel c))))))
  /\ (forall body' : list op,
         proxy ctx (OpMasked mask body' other) c
         = proxy ctx (OpMasked mask body other) c).
Proof.
  split; [reflexivity|]. split; reflexivity.
Qed.

(** A store to a [float32] buffer whose name lacks "buf" does not
    return: it fails the assertion of [store], and the verdict stays. *)
Lemma checker_store_asserts_name (ctx : Context) (c : CppVecKernelChecker)
    (name : string) (index : expr) (value : string) (mode : option string) :
  dtype_in (get_dtype (graph ctx) name) [torch.float; torch.float32] = true ->
  contains "buf" name = false ->
  checker_store ctx name index value mode c = (c, inr AssertionError).
Proof.
  intros Hd Hn. unfold checker_store. rewrite Hd. run_monad.
  rewrite Hn. reflexivity.
Qed.

(** C10. On a checker whose kernel is bound to the empty iteration
    space, every load returns false and leaves the verdict false, and
    so does every store that returns at all, that is, every store to a
    buffer that is not [float32] or whose name contains "buf" as the
    method asserts.  Binding a fresh checker to no ranges gives such a
    checker. *)
Theorem empty_iteration_space_never_vectorizes (ctx : Context)
    (c : CppVecKernelChecker) (name : string) (index : expr)
    (value : string) (mode : option string) :
  itervars (kernel c) = Some [] ->
  checker_load ctx name index c = (set_simd_vec false c, inl false)
  /\ (dtype_in (get_dtype (graph ctx) name) [torch.float; torch.float32] = false
      \/ contains "buf" name = true ->
      checker_store ctx name index value mode c
      = (set_simd_vec false c, inl false))
  /\ (forall n w,
         itervars (kernel (fst (checker_set_ranges ctx [] []
                                  (CppVecKernelChecker_init n w))))
         = Some []).
Proof.
  intros Hiv. split; [|split].
  - unfold checker_load, and_could_vec, could_vec. run_monad.
    destruct (negb _); [reflexivity|].
    destruct (simd_vec c); cbv beta iota; [rewrite Hiv|]; reflexivity.
  - intros Hok. unfold checker_store, and_could_vec, could_vec. run_monad.
    destruct (dtype_in _ _) eqn:Hd; cbn [negb]; [|reflexivity].
    destruct Hok as [? | Hn]; [congruence|]. rewrite Hn.
    destruct (mode_truth mode); [reflexivity|].
    destruct (simd_vec c); cbv beta iota; [rewrite Hiv|]; reflexivity.
  - reflexivity.
Qed.

(** The theorem on a fresh checker bound to no ranges, loading a
    [float32] buffer. *)
Lemma empty_iteration_space_never_vectorizes_witness :
  let ctx := example_context 8 false (fun _ => torch.float32) in
  let c := fst (checker_set_ranges ctx [] [] (CppVecKernelChecker_init 8 8)) in
  simd_vec c = true
  /\ checker_load ctx "arg0" (Integer 0) c = (set_simd_vec false c, inl false).
Proof.
  intros ctx c. split; [reflexivity|].
  apply (empty_iteration_space_never_vectorizes ctx c "arg0" (Integer 0)
           "tmp0" None).
  reflexivity.
Defined.

(** ** The work-sharing coordinator *)

Lemma open_blocks_app (a b : list code_event) (d : Z) :
  WorkSharing.open_blocks (a ++ b) d
  = WorkSharing.open_blocks b (WorkSharing.open_blocks a d).
Proof.
  revert d. induction a as [|[s| |] a IH]; intros d; cbn; auto.
Qed.

Lemma open_blocks_exits (n : nat) (d : Z) :
  WorkSharing.open_blocks (repeat ExitIndent n) d = d - Z.of_nat n.
Proof.
  revert d. induction n as [|n IH]; intros d; cbn [repeat WorkSharing.open_blocks].
  - lia.
  - rewrite IH. lia.
Qed.

Lemma last_request_app (a b : list WorkSharing.call) (acc : option Z) :
  WorkSharing.last_request (a ++ b) acc
  = WorkSharing.last_request b (WorkSharing.last_request a acc).
Proof.
  revert acc. induction a as [|[t| |] a IH]; intros acc; cbn; auto.
Qed.

Lemma ws_inv_step (cfg : Config) (code0 : list code_event)
    (cs : list WorkSharing.call) (c : WorkSharing.call) (ws : WorkSharing.t) :
  ws_inv code0 cs ws -> ws_inv code0 (cs ++ [c]) (WorkSharing.step cfg ws c).
Proof.
  destruct ws as [code inp nt st].
  unfold ws_inv. cbn [WorkSharing.stack WorkSharing.in_parallel
                      WorkSharing.code WorkSharing.num_threads].
  intros (Hst & Hcode & Hthr). rewrite last_request_app.
  destruct c as [t| |]; cbn [WorkSharing.step WorkSharing.last_request].
  - unfold WorkSharing.parallel, WorkSharing.close.
    cbn [WorkSharing.stack WorkSharing.in_parallel WorkSharing.code
         WorkSharing.num_threads].
    destruct inp.
    + destruct (Hthr eq_refl) as (t0 & -> & Hlast).
      cbn [WorkSharing.differs andb].
      destruct (Z.eqb_spec t t0) as [-> | Hne]; cbn [negb];
        cbn [WorkSharing.stack WorkSharing.in_parallel WorkSharing.code
             WorkSharing.num_threads negb].
      * split; [exact Hst|]. split; [exact Hcode|].
        intros _. exists t0. auto.
      * rewrite !open_blocks_app, open_blocks_exits, Hcode.
        cbn [WorkSharing.open_blocks].
        split; [reflexivity|]. split; [lia|].
        intros _. exists t. auto.
    + cbn [andb negb WorkSharing.stack WorkSharing.in_parallel
           WorkSharing.code WorkSharing.num_threads].
      rewrite open_blocks_app, Hcode, Hst. cbn [WorkSharing.open_blocks].
      split; [reflexivity|]. split; [lia|]. intros _. exists t. auto.
  - unfold WorkSharing.single.
    cbn [fst WorkSharing.stack WorkSharing.in_parallel WorkSharing.code
         WorkSharing.num_threads].
    destruct inp;
      cbn [WorkSharing.stack WorkSharing.in_parallel WorkSharing.code
           WorkSharing.num_threads].
    + rewrite open_blocks_app. cbn [WorkSharing.open_blocks].
      split; [exact Hst|]. split; [exact Hcode|]. exact Hthr.
    + split; [exact Hst|]. split; [exact Hcode|]. discriminate.
  - unfold WorkSharing.close.
    cbn [WorkSharing.stack WorkSharing.in_parallel WorkSharing.code
         WorkSharing.num_threads].
    rewrite open_blocks_app, open_blocks_exits, Hcode.
    split; [reflexivity|]. split; [lia|]. discriminate.
Qed.

Lemma ws_inv_run (cfg : Config) (code0 : list code_event)
    (cs : list WorkSharing.call) :
  forall done ws,
    ws_inv code0 done ws ->
    ws_inv code0 (done ++ cs) (WorkSharing.run cfg cs ws).
Proof.
  induction cs as [|c cs IH]; intros done ws Hinv.
  - rewrite app_nil_r. exact Hinv.
  - cbn [WorkSharing.run fold_left].
    replace (done ++ c :: cs) with ((done ++ [c]) ++ cs)
      by (rewrite <- app_assoc; reflexivity).
    apply IH. apply ws_inv_step. exact Hinv.
Qed.

(** C9. The coordinator never nests parallel regions.  After any
    sequence of calls on a fresh coordinator at most one region is
    open, the code written has as many blocks open as the stack holds,
    and an open region carries the thread count of the latest
    [parallel].  A [parallel] with another thread count, made inside a
    region, first closes that region (its block is left before the new
    directive is written) and then opens one with the new count. *)
Theorem worksharing_never_nests (cfg : Config) (code0 : list code_event) :
  (forall cs : list WorkSharing.call,
      let ws := WorkSharing.run cfg cs (WorkSharing.init code0) in
      (WorkSharing.stack ws <= 1)%nat
      /\ WorkSharing.stack ws
         = (if WorkSharing.in_parallel ws then 1 else 0)%nat
      /\ WorkSharing.open_blocks (WorkSharing.code ws) 0
         = WorkSharing.open_blocks code0 0 + Z.of_nat (WorkSharing.stack ws)
      /\ (WorkSharing.in_parallel ws = true ->
          exists t, WorkSharing.num_threads ws = Some t
                    /\ WorkSharing.last_request cs None = Some t))
  /\ (forall (ws : WorkSharing.t) (t0 t : Z),
         WorkSharing.in_parallel ws = true ->
         WorkSharing.num_threads ws = Some t0 ->
         t <> t0 ->
         WorkSharing.parallel cfg t ws
         = WorkSharing.parallel cfg t (WorkSharing.close ws)
         /\ WorkSharing.stack (WorkSharing.parallel cfg t ws) = 1%nat
         /\ WorkSharing.num_threads (WorkSharing.parallel cfg t ws) = Some t
         /\ WorkSharing.in_parallel (WorkSharing.parallel cfg t ws) = true
         /\ exists line,
              WorkSharing.code (WorkSharing.parallel cfg t ws)
              = WorkSharing.code ws
                ++ repeat ExitIndent (WorkSharing.stack ws)
                ++ [Line line; EnterIndent]).
Proof.
  split.
  - intros cs ws.
    destruct (ws_inv_run cfg code0 cs [] (WorkSharing.init code0))
      as (Hst & Hcode & Hthr).
    { unfold ws_inv. cbn. split; [reflexivity|]. split; [lia|]. discriminate. }
    fold ws in Hst, Hcode, Hthr. cbn [app] in Hthr.
    split; [|split; [exact Hst | split; [exact Hcode | exact Hthr]]].
    rewrite Hst. destruct (WorkSharing.in_parallel ws); lia.
  - intros ws t0 t Hin Hn Hne.
    unfold WorkSharing.parallel. rewrite Hin, Hn.
    cbn [WorkSharing.differs andb].
    destruct (Z.eqb_spec t t0) as [? | _]; [contradiction|].
    cbn. rewrite <- app_assoc.
    split; [reflexivity|]. split; [reflexivity|]. split; [reflexivity|].
    split; [reflexivity|]. eexists. reflexivity.
Qed.

(** The second part of the theorem on a region opened for 4 threads and
    a request for 8. *)
Lemma worksharing_never_nests_witness :
  let cfg := {| threads := 8; dynamic_threads := false; min_chunk_size := 16 |} in
  WorkSharing.code
    (WorkSharing.parallel cfg 8 (WorkSharing.parallel cfg 4 (WorkSharing.init [])))
  = [ Line "#pragma omp parallel num_threads(4)"; EnterIndent; ExitIndent;
      Line "#pragma omp parallel num_threads(8)"; EnterIndent ]
  /\ WorkSharing.stack
       (WorkSharing.parallel cfg 8
          (WorkSharing.parallel cfg 4 (WorkSharing.init [])))
     = 1%nat.
Proof.
  intros cfg. split; [reflexivity|].
  apply (proj2 (worksharing_never_nests cfg [])
           (WorkSharing.parallel cfg 4 (WorkSharing.init [])) 4 8).
  - reflexivity.
  - reflexivity.
  - discriminate.
Defined.

(** ** Splitting a loop level *)

Lemma zrange_cons (lo : Z) (n : nat) :
  zrange lo (S n) = lo :: zrange (lo + 1) n.
Proof.
  unfold zrange. cbn [List.seq map]. f_equal; [lia|].
  rewrite <- seq_shift, map_map. apply map_ext. intros k. lia.
Qed.

Lemma zrange_app (lo : Z) (a b : nat) :
  zrange lo (a + b) = zrange lo a ++ zrange (lo + Z.of_nat a) b.
Proof.
  revert lo. induction a as [|a IH]; intros lo.
  - cbn [Nat.add app]. unfold zrange at 2. cbn. f_equal. lia.
  - cbn [Nat.add]. rewrite !zrange_cons, IH. cbn [app]. do 3 f_equal. lia.
Qed.

Lemma index_range_zrange (n : Z) : index_range n = zrange 0 (Z.to_nat n).
Proof. unfold index_range, zrange. apply map_ext. intros k. lia. Qed.

Lemma vector_lanes_zrange (W i : Z) :
  vector_lanes W i = zrange (i * W) (Z.to_nat W).
Proof. reflexivity. Qed.

(** Consecutive vector steps touch consecutive blocks. *)
Lemma flat_map_vector_lanes (W : Z) (n : nat) :
  0 <= W ->
  forall lo, flat_map (vector_lanes W) (zrange lo n)
             = zrange (lo * W) (n * Z.to_nat W).
Proof.
  intros HW. induction n as [|n IH]; intros lo.
  - reflexivity.
  - rewrite zrange_cons. cbn [flat_map Nat.mul].
    rewrite IH, vector_lanes_zrange, zrange_app. do 2 f_equal. lia.
Qed.

Lemma zrange_NoDup (lo : Z) (n : nat) : NoDup (zrange lo n).
Proof.
  revert lo. induction n as [|n IH]; intros lo.
  - constructor.
  - rewrite zrange_cons. constructor; [|apply IH].
    unfold zrange. rewrite in_map_iff. intros (k & Hk & _). lia.
Qed.

Lemma zrange_In (lo : Z) (n : nat) (x : Z) :
  In x (zrange lo n) <-> lo <= x < lo + Z.of_nat n.
Proof.
  unfold zrange. rewrite in_map_iff. split.
  - intros (k & <- & Hk). apply in_seq in Hk. lia.
  - intros Hx. exists (Z.to_nat (x - lo)). split; [lia|].
    apply in_seq. lia.
Qed.

(** What the main and the tail loop of a split go through. *)
Lemma split_iterations (env : string -> Z) (self : LoopLevel.t) (W : Z) :
  0 <= eval env (LoopLevel.size self) -> 1 <= W ->
  let N := eval env (LoopLevel.size self) in
  let main_loop := fst (LoopLevel.do_split_with_tiling self W) in
  let tail_loop := snd (LoopLevel.do_split_with_tiling self W) in
  LoopLevel.iterations env main_loop = zrange 0 (Z.to_nat (N / W))
  /\ LoopLevel.iterations env tail_loop
     = zrange (N / W * W) (Z.to_nat (N - N / W * W)).
Proof.
  intros HN HW N main_loop tail_loop.
  unfold LoopLevel.iterations, main_loop, tail_loop.
  cbn [LoopLevel.do_split_with_tiling fst snd LoopLevel.offset LoopLevel.size
       LoopLevel.steps eval]. fold N.
  split.
  - replace ((N / W - 0 + 1 - 1) / 1) with (N / W)
      by (rewrite Z.div_1_r; lia).
    apply map_ext. intros k. lia.
  - replace ((N - N / W * W + 1 - 1) / 1) with (N - N / W * W)
      by (rewrite Z.div_1_r; lia).
    apply map_ext. intros k. lia.
Qed.

Lemma split_covers (env : string -> Z) (self : LoopLevel.t) (W : Z) :
  0 <= eval env (LoopLevel.size self) -> 1 <= W ->
  let N := eval env (LoopLevel.size self) in
  let main_loop := fst (LoopLevel.do_split_with_tiling self W) in
  let tail_loop := snd (LoopLevel.do_split_with_tiling self W) in
  main_elements env W main_loop ++ tail_elements env tail_loop = index_range N.
Proof.
  intros HN HW N main_loop tail_loop.
  destruct (split_iterations env self W HN HW) as (Hmain & Htail).
  fold N main_loop tail_loop in Hmain, Htail.
  unfold main_elements, tail_elements. rewrite Hmain, Htail.
  rewrite flat_map_vector_lanes by lia.
  assert (Hq : 0 <= N / W) by (apply Z.div_pos; lia).
  assert (Hr : N / W * W <= N) by (pose proof (Z.mul_div_le N W); lia).
  replace (N / W * W) with (0 * W + Z.of_nat (Z.to_nat (N / W) * Z.to_nat W))
    by (rewrite Nat2Z.inj_mul, !Z2Nat.id by lia; lia).
  rewrite <- zrange_app, index_range_zrange. f_equal.
  rewrite Nat2Z.inj_mul, !Z2Nat.id by lia.
  apply Nat2Z.inj. rewrite Nat2Z.inj_add, Nat2Z.inj_mul, !Z2Nat.id by lia.
  lia.
Qed.

Lemma split_at_depth (depth : nat) (W : Z) :
  forall self main_loop tail_loop put,
    LoopLevel.split_with_tiling depth W self = inl (main_loop, tail_loop, put) ->
    exists l, In l (LoopLevel.get_loops_at depth self)
              /\ LoopLevel.do_split_with_tiling l W = (main_loop, tail_loop).
Proof.
  induction depth as [|depth IH]; intros self main_loop tail_loop put Hs.
  - cbn in Hs. injection Hs as <- <- _.
    exists self. split; [left; reflexivity | reflexivity].
  - cbn [LoopLevel.split_with_tiling] in Hs.
    destruct (LoopLevel.inner self) as [|l [|l' rest]] eqn:Hin;
      try discriminate.
    unfold bind in Hs.
    destruct (LoopLevel.split_with_tiling depth W l)
      as [[[m t] p] | e] eqn:Hrec; [|discriminate].
    injection Hs as <- <- _.
    destruct (IH l m t p Hrec) as (l0 & Hl0 & Hsplit).
    exists l0. split; [|exact Hsplit].
    cbn [LoopLevel.get_loops_at]. rewrite Hin. cbn [flat_map].
    rewrite app_nil_r. exact Hl0.
Qed.

(** C1. A loop level of size [N] split with tiling factor [W >= 1] gives
    a main loop with offset 0, range [floor(N/W)] and step 1, each step
    of which stands for one block of [W] elements starting at a multiple
    of [W], and a tail loop with offset [floor(N/W)*W], range [N] and
    step 1.  The elements of the main loop's blocks followed by those of
    the tail loop are exactly [0, 1, ..., N-1], each once.  This holds
    for the level the split reaches at any depth; at depth 0 the split
    always succeeds. *)
Theorem split_with_tiling_covers (depth : nat) (W : Z)
    (self main_loop tail_loop : LoopLevel.t) (put : list LoopLevel.t)
    (env : string -> Z) :
  LoopLevel.split_with_tiling depth W self = inl (main_loop, tail_loop, put) ->
  1 <= W ->
  (forall l, exists m t,
        LoopLevel.split_with_tiling 0 W l = inl (m, t, [m; t]))
  /\ exists l,
       In l (LoopLevel.get_loops_at depth self)
       /\ LoopLevel.offset main_loop = Integer 0
       /\ LoopLevel.size main_loop
          = IndexingDiv (LoopLevel.size l) (Integer W)
       /\ LoopLevel.steps main_loop = Integer 1
       /\ LoopLevel.offset tail_loop
          = Mul (IndexingDiv (LoopLevel.size l) (Integer W)) (Integer W)
       /\ LoopLevel.size tail_loop = LoopLevel.size l
       /\ LoopLevel.steps tail_loop = Integer 1
       /\ (0 <= eval env (LoopLevel.size l) ->
           let N := eval env (LoopLevel.size l) in
           eval env (LoopLevel.size main_loop) = N / W
           /\ eval env (LoopLevel.offset tail_loop) = N / W * W
           /\ LoopLevel.iterations env main_loop = index_range (N / W)
           /\ tail_elements env tail_loop
              = zrange (N / W * W) (Z.to_nat (N - N / W * W))
           /\ main_elements env W main_loop ++ tail_elements env tail_loop
              = index_range N
           /\ NoDup (main_elements env W main_loop
                     ++ tail_elements env tail_loop)
           /\ (forall x,
                  In x (main_elements env W main_loop
                        ++ tail_elements env tail_loop)
                  <-> 0 <= x < N)).
Proof.
  intros Hsplit HW. split.
  - intros l. eexists. eexists. reflexivity.
  - destruct (split_at_depth depth W self main_loop tail_loop put Hsplit)
      as (l & Hl & Hdo).
    exists l. split; [exact Hl|].
    assert (Hm : main_loop = fst (LoopLevel.do_split_with_tiling l W))
      by (rewrite Hdo; reflexivity).
    assert (Ht : tail_loop = snd (LoopLevel.do_split_with_tiling l W))
      by (rewrite Hdo; reflexivity).
    clear Hsplit Hdo. subst main_loop tail_loop.
    do 6 (split; [reflexivity|]).
    intros HN N.
    destruct (split_iterations env l W HN HW) as (Hmain & Htail).
    pose proof (split_covers env l W HN HW) as Hcov.
    cbv zeta in Hmain, Htail, Hcov. fold N in Hmain, Htail, Hcov.
    split; [reflexivity|]. split; [reflexivity|].
    split; [rewrite index_range_zrange; exact Hmain|].
    split; [exact Htail|]. split; [exact Hcov|].
    rewrite Hcov, index_range_zrange. split; [apply zrange_NoDup|].
    intros x. rewrite zrange_In. rewrite Z2Nat.id by exact HN. lia.
Qed.

(** The theorem on a level of 1033 iterations split by 8: the main loop
    has 129 steps and the tail starts at 1032. *)
Lemma split_with_tiling_covers_witness :
  let self := LoopLevel.make "i0" (Integer 1033) in
  let main_loop := fst (LoopLevel.do_split_with_tiling self 8) in
  let tail_loop := snd (LoopLevel.do_split_with_tiling self 8) in
  exists l,
    In l (LoopLevel.get_loops_at 0 self)
    /\ LoopLevel.offset main_loop = Integer 0
    /\ LoopLevel.size main_loop = IndexingDiv (LoopLevel.size l) (Integer 8)
    /\ LoopLevel.steps main_loop = Integer 1
    /\ LoopLevel.offset tail_loop
       = Mul (IndexingDiv (LoopLevel.size l) (Integer 8)) (Integer 8)
    /\ LoopLevel.size tail_loop = LoopLevel.size l
    /\ LoopLevel.steps tail_loop = Integer 1
    /\ (0 <= eval (fun _ => 0) (LoopLevel.size l) ->
        let N := eval (fun _ => 0) (LoopLevel.size l) in
        eval (fun _ => 0) (LoopLevel.size main_loop) = N / 8
        /\ eval (fun _ => 0) (LoopLevel.offset tail_loop) = N / 8 * 8
        /\ LoopLevel.iterations (fun _ => 0) main_loop = index_range (N / 8)
        /\ tail_elements (fun _ => 0) tail_loop
           = zrange (N / 8 * 8) (Z.to_nat (N - N / 8 * 8))
        /\ main_elements (fun _ => 0) 8 main_loop
           ++ tail_elements (fun _ => 0) tail_loop
           = index_range N
        /\ NoDup (main_elements (fun _ => 0) 8 main_loop
                  ++ tail_elements (fun _ => 0) tail_loop)
        /\ (forall x,
               In x (main_elements (fun _ => 0) 8 main_loop
                     ++ tail_elements (fun _ => 0) tail_loop)
               <-> 0 <= x < N)).
Proof.
  intros self main_loop tail_loop.
  apply (proj2 (split_with_tiling_covers 0 8 self main_loop tail_loop
                  [main_loop; tail_loop] (fun _ => 0) eq_refl
                  ltac:(lia))).
Defined.

(** * Further properties of the code

    ** Iteration variables of a binding *)

Lemma str_int_inj (m n : Z) : str_int m = str_int n -> m = n.
Proof.
  unfold str_int. intros H.
  assert (Hi : Z.to_int m = Z.to_int n).
  { pose proof (NilEmpty.isi (Z.to_int m)) as Hm.
    pose proof (NilEmpty.isi (Z.to_int n)) as Hn.
    rewrite H in Hm. congruence. }
  rewrite <- (DecimalZ.of_to m), <- (DecimalZ.of_to n). now rewrite Hi.
Qed.

Lemma itervar_name_inj (m n : nat) : itervar_name m = itervar_name n -> m = n.
Proof.
  unfold itervar_name, fstr. cbn [String.concat].
  intros H. injection H as H.
  rewrite ?append_empty_r in H.
  apply str_int_inj in H. lia.
Qed.

Lemma itervar_names_NoDup (n : nat) :
  NoDup (map itervar_name (List.seq 0 n)).
Proof.
  apply Finite.Injective_map_NoDup.
  - intros a b. apply itervar_name_inj.
  - apply seq_NoDup.
Qed.

(** X1. A first [set_ranges] (on a kernel not yet bound, or bound to the
    empty iteration space) hands back the pointwise and the reduction
    variables: as many as there are pointwise and reduction ranges,
    named [i0], [i1], ... in order, all different, and together they are
    the kernel's iteration variables. *)
Theorem set_ranges_splits_itervars (ctx : Context) (k : CppKernel)
    (lengths rl : list expr) :
  tuple_truth (call_ranges k) = false ->
  exists k' vars rvars,
    set_ranges ctx lengths rl k = (k', inl (vars, rvars))
    /\ List.length vars = List.length lengths
    /\ List.length rvars = List.length rl
    /\ vars ++ rvars
       = map itervar_name (List.seq 0 (List.length (lengths ++ rl)))
    /\ NoDup (vars ++ rvars)
    /\ itervars k' = Some (vars ++ rvars)
    /\ call_ranges k' = Some (lengths ++ rl)
    /\ ranges k' = Some (map (rename_indexing (common ctx)) (lengths ++ rl))
    /\ reduction_depth k' = Some (List.length lengths).
Proof.
  intros Hun.
  unfold set_ranges, bindM, getM, modifyM, assertM, assert, liftM,
    split_itervars, retM, ret, raise.
  cbv beta iota. rewrite Hun. cbn [itervars reduction_depth bind_ranges].
  rewrite length_map.
  set (iv := map itervar_name (List.seq 0 (List.length (lengths ++ rl)))).
  assert (Hlen : List.length iv = (List.length lengths + List.length rl)%nat).
  { unfold iv. rewrite length_map, length_seq, length_app. reflexivity. }
  eexists. exists (firstn (List.length lengths) iv), (skipn (List.length lengths) iv).
  split; [reflexivity|].
  rewrite firstn_skipn.
  split; [rewrite length_firstn; lia|].
  split; [rewrite length_skipn; lia|].
  split; [reflexivity|].
  split; [apply itervar_names_NoDup|].
  cbn. repeat split; reflexivity.
Qed.

(** The theorem on a fresh kernel with two pointwise ranges and one
    reduction range. *)
Lemma set_ranges_splits_itervars_witness :
  exists k' vars rvars,
    set_ranges (example_context 1 false (fun _ => torch.float32))
      [Integer 8; Integer 16] [Integer 32] (CppKernel_init 1)
    = (k', inl (vars, rvars))
    /\ List.length vars = 2%nat /\ List.length rvars = 1%nat.
Proof.
  destruct (set_ranges_splits_itervars
              (example_context 1 false (fun _ => torch.float32))
              (CppKernel_init 1) [Integer 8; Integer 16] [Integer 32] eq_refl)
    as (k' & vars & rvars & Hrun & Hv & Hr & _).
  exists k', vars, rvars. split; [exact Hrun|]. split; assumption.
Defined.

(** X2. On a kernel bound to at least one range, a second [set_ranges]
    with the ranges and the reduction depth of the binding returns the
    split it returned before and leaves the kernel as it is; with any
    other ranges or depth it raises an assertion failure and still
    leaves the kernel as it is. *)
Theorem set_ranges_bound_kernel (ctx : Context) (k : CppKernel)
    (cr : list expr) (iv : list string) (d : nat) (lengths rl : list expr) :
  call_ranges k = Some cr -> cr <> [] ->
  itervars k = Some iv -> reduction_depth k = Some d ->
  set_ranges ctx lengths rl k
  = (k, if tuple_eqb cr (lengths ++ rl) && Nat.eqb d (List.length lengths)
        then inl (firstn d iv, skipn d iv)
        else inr AssertionError)
  /\ (tuple_eqb cr (lengths ++ rl) && Nat.eqb d (List.length lengths) = true
      <-> cr = lengths ++ rl /\ d = List.length lengths).
Proof.
  intros Hcr Hne Hiv Hd.
  destruct (set_ranges_again ctx k cr iv d lengths rl Hcr Hne Hiv Hd)
    as (Hsame & Hother).
  assert (Hiff : tuple_eqb cr (lengths ++ rl) && Nat.eqb d (List.length lengths)
                 = true
                 <-> cr = lengths ++ rl /\ d = List.length lengths).
  { rewrite andb_true_iff, tuple_eqb_eq, Nat.eqb_eq. tauto. }
  split; [|exact Hiff].
  destruct (tuple_eqb cr (lengths ++ rl) && Nat.eqb d (List.length lengths)).
  - apply Hsame. apply Hiff. reflexivity.
  - apply Hother. intros H. apply Hiff in H. discriminate.
Qed.

(** The theorem on a kernel bound to [(8, 16)] and bound again to the
    same ranges. *)
Lemma set_ranges_bound_kernel_witness :
  let ctx := example_context 1 false (fun _ => torch.float32) in
  let k := fst (set_ranges ctx [Integer 8] [Integer 16] (CppKernel_init 1)) in
  set_ranges ctx [Integer 8] [Integer 16] k = (k, inl (["i0"], ["i1"]))
  /\ set_ranges ctx [Integer 8; Integer 16] [] k = (k, inr AssertionError).
Proof.
  intros ctx k. split.
  - apply (proj1 (set_ranges_bound_kernel ctx k [Integer 8; Integer 16]
                    ["i0"; "i1"] 1 [Integer 8] [Integer 16]
                    eq_refl ltac:(discriminate) eq_refl eq_refl)).
  - apply (proj1 (set_ranges_bound_kernel ctx k [Integer 8; Integer 16]
                    ["i0"; "i1"] 1 [Integer 8; Integer 16] []
                    eq_refl ltac:(discriminate) eq_refl eq_refl)).
Defined.

(** ** More on the parallel depth *)

Lemma fold_mul_acc (l : list Z) (a : Z) :
  fold_left Z.mul l a = a * fold_left Z.mul l 1.
Proof.
  revert a. induction l as [|y l IH]; intros a; cbn [fold_left]; [lia|].
  rewrite (IH (a * y)), (IH (1 * y)). lia.
Qed.

Lemma eval_sympy_product_from (env : string -> Z) (xs : list expr) (acc : expr) :
  eval env (fold_left Mul xs acc)
  = eval env acc * fold_left Z.mul (map (eval env) xs) 1.
Proof.
  revert acc. induction xs as [|x xs IH]; intros acc; cbn [fold_left map].
  - lia.
  - rewrite IH. cbn [eval].
    rewrite (fold_mul_acc (map (eval env) xs) (1 * eval env x)). lia.
Qed.

(** The total work is zero as soon as one extent is. *)
Lemma sympy_product_zero (env : string -> Z) (xs : list expr) :
  Exists (fun e => eval env e = 0) xs -> eval env (sympy_product xs) = 0.
Proof.
  unfold sympy_product. rewrite eval_sympy_product_from. cbn [eval].
  intros H. induction H as [x xs Hx | x xs _ IH]; cbn [map fold_left];
    rewrite (fold_mul_acc _ (1 * eval env x)); nia.
Qed.

(** Every factor of a product other than zero is other than zero and
    no larger than the product. *)
Lemma fold_mul_factor (l : list Z) (h : Z) :
  In h l -> fold_left Z.mul l 1 <> 0 ->
  h <> 0 /\ Z.abs h <= Z.abs (fold_left Z.mul l 1).
Proof.
  induction l as [|y l IH]; intros Hin Hne; [contradiction|].
  cbn [fold_left] in *. rewrite (fold_mul_acc l (1 * y)) in *.
  assert (Hy : y <> 0) by nia.
  assert (Hl : fold_left Z.mul l 1 <> 0) by nia.
  rewrite Z.abs_mul.
  destruct Hin as [<- | Hin].
  - split; [exact Hy | nia].
  - destruct (IH Hin Hl) as [Hh Hle]. split; [exact Hh | nia].
Qed.

(** When the total work is not zero, every extent of the kernel is
    other than zero and no larger than the total. *)
Lemma extent_below_total (env : string -> Z) (xs : list expr) (e : expr) :
  In e xs -> eval env (sympy_product xs) <> 0 ->
  eval env e <> 0
  /\ Z.abs (eval env e) <= Z.abs (eval env (sympy_product xs)).
Proof.
  unfold sympy_product. rewrite eval_sympy_product_from. cbn [eval].
  rewrite Z.mul_1_l. intros Hin Hne.
  apply fold_mul_factor; [|exact Hne].
  apply in_map. exact Hin.
Qed.

(** The depth [decide_parallel_depth] returns lies within the ranges
    given, which are leading ranges of the kernel's. *)
Lemma decide_parallel_depth_bounds (ctx : Context) (k : CppKernel)
    (cr : list expr) (m : nat) (T : Z) :
  call_ranges k = Some cr ->
  1 <= T < 2 ^ 1023 ->
  1 <= min_chunk_size (config_cpp ctx) ->
  Z.abs (sizevars_size_hint (graph ctx) (sympy_product cr)) < 2 ^ 1023 ->
  exists d,
    decide_parallel_depth ctx k (firstn m cr) T = inl d
    /\ 0 <= d <= Z.of_nat (List.length (firstn m cr))
    /\ d <= Z.of_nat m.
Proof.
  intros Hcr HT Hmin Hwork.
  set (ranges := firstn m cr).
  assert (Hfin : forall n : nat,
            (n <= List.length ranges)%nat ->
            exists d,
              (if dynamic_threads (config_cpp ctx) && (Z.of_nat n =? 0)
                  && (0 <? Z.of_nat (List.length ranges))
               then ret 1 else ret (Z.of_nat n)) = inl d
              /\ 0 <= d <= Z.of_nat (List.length ranges)
              /\ d <= Z.of_nat m).
  { intros n Hn.
    assert (Hm : (List.length ranges <= m)%nat)
      by (unfold ranges; rewrite length_firstn; lia).
    destruct (dynamic_threads (config_cpp ctx) && (Z.of_nat n =? 0)
              && (0 <? Z.of_nat (List.length ranges))) eqn:Hdyn.
    - apply andb_true_iff in Hdyn. destruct Hdyn as [_ Hpos].
      apply Z.ltb_lt in Hpos. eexists. split; [reflexivity|]. lia.
    - eexists. split; [reflexivity|]. lia. }
  destruct (Z.eq_dec (sizevars_size_hint (graph ctx) (sympy_product cr)) 0)
    as [Hseq | Hseq].
  - (* an extent of zero: no work at all *)
    unfold decide_parallel_depth, size_hint, bind. rewrite Hcr.
    unfold ret at 1. rewrite Hseq.
    destruct ranges as [|e rest] eqn:Hr.
    + cbn [parallel_depth_loop]. unfold ret at 1.
      apply (Hfin 0%nat). cbn. lia.
    + cbn [parallel_depth_loop].
      destruct ((1 >=? 2 * T) || (1 =? T));
        [unfold ret at 1; apply (Hfin 0%nat); cbn; lia|].
      cbn [py_floordiv].
      destruct (Z.eqb_spec T 0) as [? | _]; [lia|].
      unfold bind at 1, ret at 1. cbv beta iota. cbn [py_lt].
      rewrite Z.div_0_l by lia.
      destruct (Z.ltb_spec 0 (min_chunk_size (config_cpp ctx))) as [_ | ?];
        [|lia].
      unfold ret at 1. apply (Hfin 0%nat). cbn. lia.
  - (* no extent is zero *)
    assert (Hall : Forall (fun e =>
                      sizevars_size_hint (graph ctx) e <> 0
                      /\ Z.abs (sizevars_size_hint (graph ctx) e) < 2 ^ 1023)
                     ranges).
    { apply Forall_forall. intros e He.
      assert (Hin : In e cr).
      { unfold ranges in He. rewrite <- (firstn_skipn m cr).
        apply in_or_app. left. exact He. }
      destruct (extent_below_total (var_hint (graph ctx)) cr e Hin Hseq)
        as [Hne Hle].
      split; [exact Hne|]. unfold sizevars_size_hint in *. lia. }
    destruct (parallel_depth_loop_spec ctx T ranges ltac:(lia) ltac:(lia) Hall
                (Int (sizevars_size_hint (graph ctx) (sympy_product cr)))
                1 0 Hwork) as (n & Hrun & Hlen & _).
    unfold decide_parallel_depth, size_hint, bind. rewrite Hcr.
    unfold ret at 1. rewrite Hrun.
    change (0 + Z.of_nat n) with (Z.of_nat n).
    apply Hfin. exact Hlen.
Qed.

(** X3. [decide_parallel_depth] returns, and stays within the ranges.
    For a bound kernel whose total work is below 2^1023 in size, at
    least one and fewer than 2^1023 threads, a minimum chunk size of at
    least 1 and ranges that are leading ranges of the kernel's, it
    returns a depth between 0 and the number of ranges: no float
    operation overflows, and no division is by zero, since an extent of
    zero makes the total work zero, which stops the rule before that
    extent is divided by.  The depth is therefore within the maximal
    depth [mark_parallel] asserts, when the ranges are the kernel's
    first [max_parallel_depth] ones. *)
Theorem decide_parallel_depth_returns (ctx : Context) (k : CppKernel)
    (cr : list expr) (m : nat) (T : Z) :
  call_ranges k = Some cr ->
  1 <= T < 2 ^ 1023 ->
  1 <= min_chunk_size (config_cpp ctx) ->
  Z.abs (sizevars_size_hint (graph ctx) (sympy_product cr)) < 2 ^ 1023 ->
  exists d,
    decide_parallel_depth ctx k (firstn m cr) T = inl d
    /\ 0 <= d <= Z.of_nat (List.length (firstn m cr))
    /\ d <= Z.of_nat m.
Proof.
  intros Hcr HT Hmin Hwork.
  exact (decide_parallel_depth_bounds ctx k cr m T Hcr HT Hmin Hwork).
Qed.

(** The theorem on a kernel one of whose extents is zero. *)
Lemma decide_parallel_depth_returns_witness :
  let ctx := example_context 4 false (fun _ => torch.float32) in
  let k := fst (set_ranges ctx [Integer 64; Integer 0] [] (CppKernel_init 4)) in
  exists d,
    decide_parallel_depth ctx k (firstn 2 [Integer 64; Integer 0]) 4 = inl d
    /\ 0 <= d <= Z.of_nat (List.length (firstn 2 [Integer 64; Integer 0]))
    /\ d <= Z.of_nat 2.
Proof.
  intros ctx k.
  apply (decide_parallel_depth_returns ctx k [Integer 64; Integer 0] 2 4).
  - reflexivity.
  - lia.
  - cbn. lia.
  - cbn. lia.
Defined.

(** X4. A kernel generated for one thread gets no parallel loop: with
    a thread count of 1 the depth is 0, whatever the ranges and the
    work, unless the dynamic-threads flag is set, which makes it 1 when
    there is a range. *)
Theorem decide_parallel_depth_single_thread (ctx : Context) (k : CppKernel)
    (cr ranges : list expr) :
  call_ranges k = Some cr ->
  decide_parallel_depth ctx k ranges 1
  = inl (if dynamic_threads (config_cpp ctx)
            && negb (Nat.eqb (List.length ranges) 0)
         then 1 else 0).
Proof.
  intros Hcr.
  unfold decide_parallel_depth, size_hint, bind. rewrite Hcr.
  unfold ret at 1.
  destruct ranges as [|e rest]; cbn [parallel_depth_loop].
  - unfold ret at 1. destruct (dynamic_threads (config_cpp ctx)); reflexivity.
  - change ((1 >=? 2 * 1) || (1 =? 1)) with true. cbv iota.
    unfold ret at 1. cbn [List.length Nat.eqb negb].
    change (0 =? 0) with true.
    destruct (dynamic_threads (config_cpp ctx)); cbn [andb].
    + destruct (Z.ltb_spec 0 (Z.of_nat (S (List.length rest)))); [reflexivity | lia].
    + reflexivity.
Qed.

(** The theorem on a kernel over a million elements. *)
Lemma decide_parallel_depth_single_thread_witness :
  let ctx := example_context 1 false (fun _ => torch.float32) in
  let k := fst (set_ranges ctx [Integer 1000; Integer 1000] [] (CppKernel_init 1)) in
  decide_parallel_depth ctx k [Integer 1000; Integer 1000] 1 = inl 0.
Proof.
  intros ctx k.
  apply (decide_parallel_depth_single_thread ctx k [Integer 1000; Integer 1000]).
  reflexivity.
Defined.

(** ** More on the work-sharing coordinator *)

(** X5. Asking again for a parallel region with the thread count just
    asked for changes nothing: no second directive is written and no
    second block is opened.  Closing twice is closing once.  No call
    takes back what was written: the code after a call is the code
    before it with something added at the end. *)
Theorem worksharing_repeated_calls (cfg : Config) (ws : WorkSharing.t)
    (t : Z) :
  WorkSharing.parallel cfg t (WorkSharing.parallel cfg t ws)
  = WorkSharing.parallel cfg t ws
  /\ WorkSharing.close (WorkSharing.close ws) = WorkSharing.close ws
  /\ (forall c : WorkSharing.call,
         exists more,
           WorkSharing.code (WorkSharing.step cfg ws c)
           = WorkSharing.code ws ++ more).
Proof.
  destruct ws as [code inp nt st].
  split; [|split].
  - unfold WorkSharing.parallel, WorkSharing.close.
    cbn [WorkSharing.stack WorkSharing.in_parallel WorkSharing.code
         WorkSharing.num_threads].
    destruct inp; cbn [andb negb].
    + destruct (WorkSharing.differs t nt) eqn:Hd;
        cbn [WorkSharing.stack WorkSharing.in_parallel WorkSharing.code
             WorkSharing.num_threads andb negb WorkSharing.differs].
      * rewrite Z.eqb_refl. reflexivity.
      * rewrite Hd. reflexivity.
    + cbn [WorkSharing.stack WorkSharing.in_parallel WorkSharing.code
           WorkSharing.num_threads andb negb WorkSharing.differs].
      rewrite Z.eqb_refl. reflexivity.
  - unfold WorkSharing.close.
    cbn [WorkSharing.stack WorkSharing.in_parallel WorkSharing.code
         WorkSharing.num_threads repeat].
    rewrite app_nil_r. reflexivity.
  - intros [t'| |]; cbn [WorkSharing.step].
    + unfold WorkSharing.parallel, WorkSharing.close.
      cbn [WorkSharing.stack WorkSharing.in_parallel WorkSharing.code
           WorkSharing.num_threads].
      destruct inp; cbn [andb negb].
      * destruct (WorkSharing.differs t' nt);
          cbn [WorkSharing.stack WorkSharing.in_parallel WorkSharing.code
               WorkSharing.num_threads andb negb].
        -- rewrite <- app_assoc. eexists. reflexivity.
        -- exists []. rewrite app_nil_r. reflexivity.
      * cbn [WorkSharing.stack WorkSharing.in_parallel WorkSharing.code
             WorkSharing.num_threads andb negb].
        eexists. reflexivity.
    + unfold WorkSharing.single.
      cbn [fst WorkSharing.in_parallel WorkSharing.code].
      destruct inp; cbn [WorkSharing.code].
      * eexists. reflexivity.
      * exists []. rewrite app_nil_r. reflexivity.
    + unfold WorkSharing.close. cbn [WorkSharing.code WorkSharing.stack].
      eexists. reflexivity.
Qed.

(** ** The verdict of a dry run *)

Lemma dtype_in_float_alias (d : torch.dtype) :
  dtype_in d [torch.float; torch.float32] = dtype_in d [torch.float32].
Proof. destruct d; reflexivity. Qed.

Lemma dtype_in_load_list (d : torch.dtype) :
  dtype_in d [torch.float; torch.float32; torch.bool; torch.uint8]
  = dtype_in d [torch.float32; torch.bool; torch.uint8].
Proof. destruct d; reflexivity. Qed.

Lemma could_vec_bound (ctx : Context) (name : string) (index : expr)
    (c : CppVecKernelChecker) (iv : list string) :
  itervars (kernel c) = Some iv ->
  could_vec ctx name index c
  = (c, inl (match rev iv with
             | [] => false
             | v :: _ => is_legal_data_access ctx v index
             end)).
Proof.
  intros Hiv. unfold could_vec. run_monad. rewrite Hiv.
  unfold last_item. destruct iv as [|i iv]; [reflexivity|].
  cbn [List.length Nat.eqb].
  destruct (rev (i :: iv)) as [|v r] eqn:Hr; [|reflexivity].
  apply (f_equal (@List.length _)) in Hr. rewrite length_rev in Hr.
  discriminate.
Qed.

(** One request: it returns, adds its own admissibility to the verdict,
    and leaves the binding and the allow-list alone. *)
Lemma proxy_step (ctx : Context) (o : op) (c : CppVecKernelChecker)
    (iv : list string) :
  itervars (kernel c) = Some iv ->
  well_named ctx o = true ->
  exists c' r,
    proxy ctx o c = (c', inl r)
    /\ simd_vec c' = simd_vec c && admissible ctx iv (fast_vec_list c) o
    /\ itervars (kernel c') = Some iv
    /\ fast_vec_list c' = fast_vec_list c.
Proof.
  intros Hiv Hwn.
  destruct o; cbn [admissible well_named] in *.
  - (* load *)
    unfold proxy, checker_load, and_could_vec. rewrite dtype_in_load_list.
    destruct (dtype_in _ _); cbn [negb andb]; run_monad.
    + destruct (simd_vec c) eqn:Hs; cbv beta iota.
      * rewrite (could_vec_bound ctx name _ c iv Hiv).
        eexists. eexists. split; [reflexivity|].
        cbn. unfold innermost_legal. split; [reflexivity|]. auto.
      * eexists. eexists. split; [reflexivity|]. cbn. auto.
    + eexists. eexists. split; [reflexivity|]. cbn.
      rewrite andb_false_r. auto.
  - (* store *)
    unfold proxy, checker_store, and_could_vec.
    rewrite dtype_in_float_alias in *.
    destruct (dtype_in _ _); cbn [negb andb orb] in *; run_monad.
    + rewrite Hwn. destruct (mode_truth mode); cbn [negb andb]; cbv beta iota.
      * eexists. eexists. split; [reflexivity|]. cbn.
        rewrite andb_false_r. auto.
      * destruct (simd_vec c) eqn:Hs; cbv beta iota.
        -- rewrite (could_vec_bound ctx name _ c iv Hiv).
           eexists. eexists. split; [reflexivity|].
           cbn. unfold innermost_legal. split; [reflexivity|]. auto.
        -- eexists. eexists. split; [reflexivity|]. cbn. auto.
    + eexists. eexists. split; [reflexivity|]. cbn.
      rewrite andb_false_r. auto.
  - (* reduction *)
    unfold proxy, checker_reduction. run_monad.
    change torch.float with torch.float32.
    replace (str_in reduction_type ["max"; "min"; "sum"])
      with (str_in reduction_type ["sum"; "min"; "max"])
      by (cbn; destruct (String.eqb reduction_type "sum"),
            (String.eqb reduction_type "min"),
            (String.eqb reduction_type "max"); reflexivity).
    destruct (_ && _ && _); cbv beta iota;
      (eexists; eexists; split; [reflexivity|]); cbn;
      rewrite ?andb_true_r, ?andb_false_r; auto.
  - (* constant *)
    unfold proxy. run_monad.
    destruct (dtype_in _ _); cbn [negb]; cbv beta iota;
      (eexists; eexists; split; [reflexivity|]); cbn;
      rewrite ?andb_true_r, ?andb_false_r; auto.
  - (* index_expr *)
    unfold proxy, checker_newvar, on_kernel. run_monad.
    eexists. eexists. split; [reflexivity|]. cbn.
    rewrite andb_false_r. auto.
  - (* indirect_indexing *)
    unfold proxy. run_monad.
    eexists. eexists. split; [reflexivity|]. cbn.
    rewrite andb_false_r. auto.
  - (* masked *)
    unfold proxy, checker_newvar, on_kernel. run_monad.
    eexists. eexists. split; [reflexivity|]. cbn.
    rewrite andb_true_r. auto.
  - (* to_dtype *)
    unfold proxy. run_monad.
    destruct (torch.dtype_eqb _ _); cbn [negb]; cbv beta iota;
      (eexists; eexists; split; [reflexivity|]); cbn;
      rewrite ?andb_true_r, ?andb_false_r; auto.
  - (* any other name *)
    unfold proxy. run_monad.
    destruct (str_in _ _); cbn [negb]; cbv beta iota;
      (eexists; eexists; split; [reflexivity|]); cbn;
      rewrite ?andb_true_r, ?andb_false_r; auto.
Qed.

(** X6. The verdict of a dry run is the conjunction of what each request
    is by itself.  On a checker bound to its ranges, a run of requests
    whose stores name buffers returns, and the verdict after it is the
    verdict before it and the admissibility of every request: the
    checker says "vectorizable" exactly when it started so and no
    request broke a rule. *)
Theorem dry_run_verdict (ctx : Context) (os : list op) :
  forall (c : CppVecKernelChecker) (iv : list string),
    itervars (kernel c) = Some iv ->
    forallb (well_named ctx) os = true ->
    exists c',
      run_requests ctx os c = (c', inl tt)
      /\ simd_vec c'
         = simd_vec c && forallb (admissible ctx iv (fast_vec_list c)) os
      /\ itervars (kernel c') = Some iv
      /\ fast_vec_list c' = fast_vec_list c.
Proof.
  induction os as [|o os IH]; intros c iv Hiv Hwn.
  - exists c. cbn. rewrite andb_true_r. auto.
  - cbn [forallb] in Hwn. apply andb_true_iff in Hwn.
    destruct Hwn as [Ho Hos].
    destruct (proxy_step ctx o c iv Hiv Ho) as (c1 & r & Hstep & Hv & Hiv1 & Hal).
    destruct (IH c1 iv Hiv1 Hos) as (c' & Hrun & Hv' & Hiv' & Hal').
    exists c'. cbn [run_requests forallb]. unfold bindM. rewrite Hstep, Hrun.
    split; [reflexivity|]. rewrite Hv', Hv, Hal, andb_assoc.
    split; [reflexivity|]. split; [exact Hiv' | congruence].
Qed.

(** The theorem on a run with an admissible load, an allowed operation
    and a store to an [int64] buffer. *)
Lemma dry_run_verdict_witness :
  let ctx := example_context 8 false
               (fun n => if String.eqb n "buf1" then torch.int64
                         else torch.float32) in
  let c := fst (checker_set_ranges ctx [Integer 64] []
                  (CppVecKernelChecker_init 8 8)) in
  exists c',
    run_requests ctx [ OpLoad "arg0" (Symbol "i0");
                       OpOther "exp" ["tmp0"];
                       OpStore "buf1" (Symbol "i0") "tmp1" None ] c
    = (c', inl tt)
    /\ simd_vec c' = false.
Proof.
  intros ctx c.
  destruct (dry_run_verdict ctx
              [ OpLoad "arg0" (Symbol "i0"); OpOther "exp" ["tmp0"];
                OpStore "buf1" (Symbol "i0") "tmp1" None ] c ["i0"]
              eq_refl eq_refl) as (c' & Hrun & Hv & _).
  exists c'. split; [exact Hrun|]. rewrite Hv. reflexivity.
Defined.

Lemma can_vec_nodes_verdict (ctx : Context) (group rg : list expr)
    (vars rvars : list string) (nodes : list SchedulerNode) :
  forall (c : CppVecKernelChecker) (iv : list string),
    itervars (kernel c) = Some iv ->
    forallb (fits_group group rg) nodes = true ->
    forallb (fun node =>
               forallb (well_named ctx)
                 (node_requests group rg vars rvars node)) nodes = true ->
    exists c',
      can_vec_nodes ctx group rg vars rvars nodes c = (c', inl tt)
      /\ simd_vec c'
         = simd_vec c
           && forallb (fun node =>
                         forallb (admissible ctx iv (fast_vec_list c))
                           (node_requests group rg vars rvars node)) nodes.
Proof.
  induction nodes as [|node nodes IH]; intros c iv Hiv Hfit Hwn.
  - exists c. cbn. rewrite andb_true_r. auto.
  - cbn [forallb] in Hfit, Hwn.
    apply andb_true_iff in Hfit. destruct Hfit as [Hf Hfs].
    apply andb_true_iff in Hwn. destruct Hwn as [Hw Hws].
    assert (Hnode : exists c1,
               (if group_eqb (node_group node) (group, rg)
                   || group_eqb (node_group node) (group ++ rg, [])
                then run_requests ctx (node_run node vars rvars)
                else
                  assertM (group_eqb (node_group node) (group, [])) ;;;
                  run_requests ctx (node_run node vars [])) c
               = (c1, inl tt)
               /\ simd_vec c1
                  = simd_vec c
                    && forallb (admissible ctx iv (fast_vec_list c))
                         (node_requests group rg vars rvars node)
               /\ itervars (kernel c1) = Some iv
               /\ fast_vec_list c1 = fast_vec_list c).
    { unfold node_requests, fits_group in *.
      destruct (group_eqb (node_group node) (group, rg)
                || group_eqb (node_group node) (group ++ rg, [])).
      - apply dry_run_verdict; assumption.
      - cbn [orb] in Hf. run_monad. rewrite Hf.
        apply dry_run_verdict; assumption. }
    destruct Hnode as (c1 & Hrun1 & Hv1 & Hiv1 & Hal1).
    destruct (IH c1 iv Hiv1 Hfs Hws) as (c' & Hrun & Hv).
    exists c'. cbn [can_vec_nodes forallb]. unfold bindM at 1.
    rewrite Hrun1, Hrun. split; [reflexivity|].
    rewrite Hv, Hv1, Hal1, andb_assoc. reflexivity.
Qed.

(** X7. [can_vec] answers with the conjunction over all requests.
    Without a vector instruction set it answers no.  With one, for
    nodes whose groups fit the group of the kernel and whose stores name
    buffers, it returns, and says yes exactly when every request of
    every node is admissible for the iteration variables of that
    group. *)
Theorem can_vec_verdict (ctx : Context) (nelements num_threads : Z)
    (nodes : list SchedulerNode) (n : SchedulerNode) :
  max_by_reduction nodes = Some n ->
  let group := fst (node_group n) in
  let rg := snd (node_group n) in
  let iv := map itervar_name (List.seq 0 (List.length (group ++ rg))) in
  let vars := firstn (List.length group) iv in
  let rvars := skipn (List.length group) iv in
  forallb (fits_group group rg) nodes = true ->
  forallb (fun node =>
             forallb (well_named ctx)
               (node_requests group rg vars rvars node)) nodes = true ->
  can_vec ctx None num_threads nodes = Returned false
  /\ can_vec ctx (Some nelements) num_threads nodes
     = Returned
         (forallb (fun node =>
                     forallb (admissible ctx iv CppVecOverrides_names)
                       (node_requests group rg vars rvars node)) nodes).
Proof.
  intros Hmax group rg iv vars rvars Hfit Hwn.
  split; [reflexivity|].
  unfold can_vec. rewrite Hmax.
  destruct (node_group n) as [g r] eqn:Hg. cbn [fst snd] in *.
  destruct (set_ranges_splits_itervars ctx (CppKernel_init num_threads) g r
              eq_refl)
    as (k' & vs & rvs & Hset & Hlv & _ & Happ & _ & Hiv & _).
  unfold checker_set_ranges, on_kernel.
  change (kernel (CppVecKernelChecker_init num_threads nelements))
    with (CppKernel_init num_threads).
  rewrite Hset.
  assert (Hvs : vs = vars /\ rvs = rvars).
  { unfold vars, rvars, iv, group, rg. rewrite <- Happ, <- Hlv.
    rewrite firstn_app, Nat.sub_diag, firstn_all. cbn [firstn].
    rewrite app_nil_r, skipn_app, Nat.sub_diag, skipn_all. cbn [skipn app].
    auto. }
  destruct Hvs as [-> ->].
  destruct (can_vec_nodes_verdict ctx g r vars rvars nodes
              (set_kernel k' (CppVecKernelChecker_init num_threads nelements))
              iv) as (c' & Hrun & Hv).
  - cbn [kernel set_kernel]. rewrite Hiv, Happ. reflexivity.
  - exact Hfit.
  - exact Hwn.
  - rewrite Hrun, Hv. reflexivity.
Qed.

(** The theorem on a pointwise node over a zero-dimensional group that
    loads one value: there is no loop, and the answer is no. *)
Lemma can_vec_verdict_witness :
  let ctx := example_context 8 false (fun _ => torch.float32) in
  let node := {| node_group := ([], []); node_is_reduction := false;
                 node_run := fun _ _ => [OpLoad "arg0" (Integer 0)] |} in
  can_vec ctx (Some 8) 8 [node] = Returned false.
Proof.
  intros ctx node.
  apply (proj2 (can_vec_verdict ctx 8 8 [node] node eq_refl eq_refl eq_refl)).
Defined.

(** ** The checker and the vector kernel *)

Ltac run_vec :=
  unfold CppVecKernel.on_base, generate_in_loads;
  run_monad.

(** X8. The checker admits a reduction exactly when the vector kernel
    can write it: on a checker whose verdict is still true, a reduction
    request leaves the verdict true if and only if
    [CppVecKernel.reduction], given the same arguments, passes its
    assertions and returns. *)
Theorem checker_agrees_with_vector_reduction (ctx : Context)
    (c : CppVecKernelChecker) (v : CppVecKernel.t) (name : string)
    (dtype src_dtype : torch.dtype) (reduction_type : string) (index : expr)
    (value : string) :
  simd_vec c = true ->
  simd_vec (fst (checker_reduction name dtype src_dtype reduction_type
                   index value c)) = true
  <-> exists v',
        CppVecKernel.reduction ctx name dtype src_dtype reduction_type index
          value v = (v', inl tt).
Proof.
  intros Hc.
  unfold checker_reduction, CppVecKernel.reduction. run_monad.
  change torch.float with torch.float32.
  destruct (str_in reduction_type ["max"; "min"; "sum"]) eqn:Hrt.
  2:{ rewrite andb_false_r. cbn. split; [discriminate|].
      intros (v' & H). discriminate. }
  destruct (torch.dtype_eqb dtype torch.float32) eqn:Hd.
  2:{ cbn. split; [discriminate|]. intros (v' & H). discriminate. }
  destruct (torch.dtype_eqb src_dtype torch.float32) eqn:Hs.
  2:{ cbn. split; [discriminate|]. intros (v' & H). discriminate. }
  cbn [andb fst]. split; [intros _ | intros _; exact Hc].
  assert (Hkind : reduction_type = "max" \/ reduction_type = "min"
                  \/ reduction_type = "sum").
  { cbn in Hrt. rewrite !orb_true_iff, !String.eqb_eq in Hrt.
    destruct Hrt as [? | [? | [? | ?]]]; auto. discriminate. }
  destruct dtype; try discriminate.
  destruct Hkind as [-> | [-> | ->]];
    cbv beta iota; run_vec;
    destruct (CppVecKernel.in_dict _ (CppVecKernel.reduction_omp_dec v));
    cbn [negb]; cbv beta iota; run_vec; cbn -[fstr];
    destruct (cse_generate _ _ _) as [[v0 c0] ls]; eexists; reflexivity.
Qed.

(** The theorem on a fresh checker and a fresh vector kernel: a [sum]
    over [float32] passes both. *)
Lemma checker_agrees_with_vector_reduction_witness :
  let ctx := example_context 8 false (fun _ => torch.float32) in
  let v := {| CppVecKernel.base := CppKernel_init 8;
              CppVecKernel.simd_nelements := 8;
              CppVecKernel.reduction_omp_dec := [];
              CppVecKernel.var_vec_buf_map := [] |} in
  simd_vec (fst (checker_reduction "buf0" torch.float32 torch.float32 "sum"
                   (Integer 0) "tmp0" (CppVecKernelChecker_init 8 8))) = true
  <-> exists v',
        CppVecKernel.reduction ctx "buf0" torch.float32 torch.float32 "sum"
          (Integer 0) "tmp0" v = (v', inl tt).
Proof.
  intros ctx v.
  apply (checker_agrees_with_vector_reduction ctx
           (CppVecKernelChecker_init 8 8) v).
  reflexivity.
Defined.

Lemma lookup_dict_set_same (k v : string) (m : list (string * string)) :
  lookup k (dict_set k v m) = Some v.
Proof.
  induction m as [|[k' v'] m IH]; cbn.
  - rewrite String.eqb_refl. reflexivity.
  - destruct (String.eqb k k') eqn:He; cbn.
    + rewrite String.eqb_refl. reflexivity.
    + rewrite He. exact IH.
Qed.

Lemma lookup_dict_set_other (k k0 v : string) (m : list (string * string)) :
  k0 <> k -> lookup k0 (dict_set k v m) = lookup k0 m.
Proof.
  intros Hne. induction m as [|[k' v'] m IH]; cbn.
  - destruct (String.eqb_spec k0 k); [contradiction | reflexivity].
  - destruct (String.eqb_spec k k') as [-> | Hk]; cbn.
    + destruct (String.eqb_spec k0 k'); [contradiction | reflexivity].
    + destruct (String.eqb k0 k'); [reflexivity | exact IH].
Qed.

(** X9. The vector kernel keeps one scratch buffer per [bool] or
    [uint8] input.  A load of such a buffer whose address moves with the
    innermost variable writes the call of [flag_to_float] every time,
    and the declaration of the scratch buffer only when the input has
    none yet; afterwards the input has its scratch buffer, the one it
    had before if any, and no other input's buffer has changed. *)
Theorem vector_load_scratch_buffer (ctx : Context) (v : CppVecKernel.t)
    (name : string) (index new_index : expr) :
  let var := args_input (common ctx) name in
  let idx := rename_indexing (common ctx) index in
  let nelements := str_int (CppVecKernel.simd_nelements v) in
  dtype_in (get_dtype (graph ctx) name) [torch.bool; torch.uint8] = true ->
  transform_index ctx (CppVecKernel.base v) (CppVecKernel.simd_nelements v) idx
  = inl new_index ->
  expr_eqb (expand (sympy ctx) idx) new_index = false ->
  exists v' tmp buf,
    CppVecKernel.load ctx name index v = (v', inl tmp)
    /\ buf = match lookup var (CppVecKernel.var_vec_buf_map v) with
             | Some b => b
             | None => fstr ["g_tmp_buffer_"; var]
             end
    /\ lookup var (CppVecKernel.var_vec_buf_map v') = Some buf
    /\ (forall other, other <> var ->
          lookup other (CppVecKernel.var_vec_buf_map v')
          = lookup other (CppVecKernel.var_vec_buf_map v))
    /\ loads (CppVecKernel.base v')
       = loads (CppVecKernel.base v)
         ++ (if CppVecKernel.in_dict var (CppVecKernel.var_vec_buf_map v)
             then []
             else [fstr ["float "; buf; "["; nelements; "] = {0};"]])
         ++ [fstr ["flag_to_float("; var; " + "; cexpr (common ctx) new_index;
                   ", "; buf; ", "; nelements; ");"]]
         ++ snd (cse_generate (cse (CppVecKernel.base v))
                   (fstr ["at::vec::Vectorized<float>::loadu("; buf; ")"])
                   true).
Proof.
  intros var idx nelements Hd Ht He.
  unfold CppVecKernel.load, CppVecKernel.transform. run_vec.
  fold idx. rewrite Ht. cbv beta iota. rewrite He, Hd. cbv beta iota.
  fold var. unfold CppVecKernel.in_dict.
  destruct (lookup var (CppVecKernel.var_vec_buf_map v)) as [b|] eqn:Hl;
    cbn [negb]; cbv beta iota; run_vec.
  - rewrite Hl. cbv beta iota. run_vec.
    cbn [CppVecKernel.base CppVecKernel.set_base write_loads cse loads
         CppVecKernel.var_vec_buf_map].
    destruct (cse_generate (cse (CppVecKernel.base v)) _ true)
      as [[t0 c0] ls] eqn:Hg.
    eexists. exists t0, b. split; [reflexivity|].
    split; [reflexivity|]. cbn -[fstr].
    split; [exact Hl|]. split; [reflexivity|].
    rewrite Hg. cbn [snd]. rewrite <- ?app_assoc. reflexivity.
  - cbn [CppVecKernel.var_vec_buf_map CppVecKernel.set_vec_buf
         CppVecKernel.set_base CppVecKernel.base].
    rewrite lookup_dict_set_same. cbv beta iota. run_vec.
    cbn [CppVecKernel.base CppVecKernel.set_base write_loads cse loads
         CppVecKernel.var_vec_buf_map CppVecKernel.set_vec_buf].
    destruct (cse_generate (cse (CppVecKernel.base v)) _ true)
      as [[t0 c0] ls] eqn:Hg.
    eexists. exists t0, (fstr ["g_tmp_buffer_"; var]). split; [reflexivity|].
    split; [reflexivity|]. cbn -[fstr].
    split; [apply lookup_dict_set_same|].
    split; [intros other Ho; apply lookup_dict_set_other; exact Ho|].
    rewrite Hg. cbn [snd]. rewrite <- ?app_assoc. reflexivity.
Qed.

(** The theorem on a kernel with one loop and a [bool] input read along
    it: the first load declares the scratch buffer of the input. *)
Lemma vector_load_scratch_buffer_witness :
  let ctx := example_context 8 false (fun _ => torch.bool) in
  let v := {| CppVecKernel.base :=
                bind_ranges (CppKernel_init 8) [Integer 64] [Integer 64]
                  ["i0"] 1;
              CppVecKernel.simd_nelements := 8;
              CppVecKernel.reduction_omp_dec := [];
              CppVecKernel.var_vec_buf_map := [] |} in
  exists v' tmp,
    CppVecKernel.load ctx "arg0" (Symbol "i0") v = (v', inl tmp)
    /\ lookup "in_ptr_arg0" (CppVecKernel.var_vec_buf_map v')
       = Some "g_tmp_buffer_in_ptr_arg0".
Proof.
  intros ctx v.
  destruct (vector_load_scratch_buffer ctx v "arg0" (Symbol "i0")
              (Mul (Symbol "i0") (Integer 8)) eq_refl eq_refl eq_refl)
    as (v' & tmp & buf & Hrun & Hbuf & Hl & _).
  exists v', tmp. split; [exact Hrun|].
  rewrite Hbuf in Hl. exact Hl.
Defined.

Lemma sympy_subs_absent (e : expr) (x : string) (by_ : expr) :
  mentions e x = false -> sympy_subs e x by_ = e.
Proof.
  induction e as [n | y | a IHa b IHb | a IHa b IHb | a IHa b IHb];
    cbn; intros H;
    try (apply orb_false_iff in H; destruct H as [Ha Hb];
         rewrite (IHa Ha), (IHb Hb)); try reflexivity.
  rewrite H. reflexivity.
Qed.

Lemma expr_eqb_refl (e : expr) : expr_eqb e e = true.
Proof. apply expr_eqb_eq. reflexivity. Qed.

(** X10. The checker and the vector kernel disagree on a store whose
    address does not move with the innermost loop variable.  For a
    [float] buffer named as a buffer, written without a mode at an index
    in which the innermost variable does not occur, the checker keeps
    its verdict true; [CppVecKernel.store] on a kernel with the same
    loop variables fails its assertion [new_index != expanded_index] and
    writes nothing. *)
Theorem checker_admits_store_vector_kernel_rejects (ctx : Context)
    (c : CppVecKernelChecker) (v : CppVecKernel.t) (name : string)
    (index : expr) (value : string) (iv : list string) (x : string) :
  let idx := expand (sympy ctx) (rename_indexing (common ctx) index) in
  simd_vec c = true ->
  dtype_in (get_dtype (graph ctx) name) [torch.float; torch.float32] = true ->
  contains "buf" name = true ->
  itervars (kernel c) = Some (iv ++ [x]) ->
  itervars (CppVecKernel.base v) = Some (iv ++ [x]) ->
  has (sympy ctx) idx x = false ->
  mentions idx x = false ->
  checker_store ctx name index value None c = (c, inl true)
  /\ CppVecKernel.store ctx name index value None v = (v, inr AssertionError).
Proof.
  intros idx Hc Hd Hb Hic Hiv Hhas Hm. split.
  - unfold checker_store, and_could_vec, could_vec. rewrite Hd, Hb.
    run_monad. cbn [negb mode_truth]. cbv beta iota. rewrite Hc, Hic.
    cbv beta iota. rewrite length_app, Nat.add_comm. cbn [List.length Nat.add Nat.eqb].
    unfold last_item. rewrite rev_app_distr. cbn [rev app].
    run_monad.
    unfold is_legal_data_access, is_var_irrevelant. fold idx. rewrite Hhas.
    cbn [negb orb].
    destruct c as [k n s f]. cbn in Hc. subst s. reflexivity.
  - unfold CppVecKernel.store, CppVecKernel.transform, transform_index.
    rewrite Hb. run_vec. rewrite Hiv. unfold last_item.
    rewrite rev_app_distr. cbn [rev app]. run_monad.
    destruct (negb (CppVecKernel.simd_nelements v =? 0)); [|reflexivity].
    destruct (1 <=? CppVecKernel.simd_nelements v); [|reflexivity].
    cbv beta iota. fold idx. unfold bind. cbv beta iota.
    rewrite (sympy_subs_absent _ _ _ Hm).
    rewrite expr_eqb_refl. reflexivity.
Qed.

(** The theorem on a checker and a vector kernel with the loops [i0] and
    [i1], for a store at the index [i0]. *)
Lemma checker_admits_store_vector_kernel_rejects_witness :
  let ctx := example_context 8 false (fun _ => torch.float32) in
  let k := bind_ranges (CppKernel_init 8) [Integer 4; Integer 64]
             [Integer 4; Integer 64] ["i0"; "i1"] 2 in
  let c := set_kernel k (CppVecKernelChecker_init 8 8) in
  let v := {| CppVecKernel.base := k;
              CppVecKernel.simd_nelements := 8;
              CppVecKernel.reduction_omp_dec := [];
              CppVecKernel.var_vec_buf_map := [] |} in
  checker_store ctx "buf0" (Symbol "i0") "tmp0" None c = (c, inl true)
  /\ CppVecKernel.store ctx "buf0" (Symbol "i0") "tmp0" None v
     = (v, inr AssertionError).
Proof.
  intros ctx k c v.
  apply (checker_admits_store_vector_kernel_rejects ctx c v "buf0"
           (Symbol "i0") "tmp0" ["i0"] "i1");
    reflexivity.
Defined.

(** ** The loop nest *)

Lemma chain_depth_eq (r : bool) (l : LoopLevel.t) :
  LoopNestWithSplit.chain_depth r l
  = if Bool.eqb (LoopLevel.is_reduction l) r
    then S (LoopNestWithSplit.rounds r (LoopLevel.inner l))
    else 0%nat.
Proof. destruct l. reflexivity. Qed.

Lemma get_kernels_eq (l : LoopLevel.t) :
  get_kernels l
  = match LoopLevel.kernel l with
    | Some k => [k]
    | None => flat_map get_kernels (LoopLevel.inner l)
    end.
Proof. destruct l. reflexivity. Qed.

(** The levels from depth [j] of a chain are the chain of the loop
    variables from [j] on. *)
Lemma build_levels_at (k : CppKernel) (rd : nat) (vs : list (string * expr))
    (j depth : nat) :
  flat_map (LoopLevel.get_loops_at j)
    (LoopNestWithSplit.build_levels k rd depth vs)
  = LoopNestWithSplit.build_levels k rd (depth + j) (skipn j vs).
Proof.
  revert depth vs. induction j as [|j IH]; intros depth vs.
  - rewrite Nat.add_0_r. cbn [skipn LoopLevel.get_loops_at].
    induction (LoopNestWithSplit.build_levels k rd depth vs) as [|l ls IHl];
      [reflexivity|]. cbn [flat_map app]. f_equal. exact IHl.
  - destruct vs as [|[var size] rest]; [reflexivity|].
    cbn [LoopNestWithSplit.build_levels flat_map LoopLevel.get_loops_at
         LoopLevel.inner skipn].
    rewrite app_nil_r, IH. f_equal. lia.
Qed.

Lemma build_levels_kernels (k : CppKernel) (rd depth : nat)
    (vs : list (string * expr)) :
  vs <> [] ->
  flat_map get_kernels (LoopNestWithSplit.build_levels k rd depth vs) = [k].
Proof.
  revert depth. induction vs as [|[var size] rest IH]; intros depth Hne;
    [contradiction|].
  cbn [LoopNestWithSplit.build_levels flat_map]. rewrite app_nil_r.
  rewrite get_kernels_eq. cbn [LoopLevel.kernel LoopLevel.inner].
  destruct rest as [|p rest']; [reflexivity|].
  apply IH. discriminate.
Qed.


Lemma nth_error_skipn_cons {A} (l : list A) (j : nat) (x : A) :
  nth_error l j = Some x -> exists rest, skipn j l = x :: rest.
Proof.
  revert l. induction j as [|j IH]; intros [|y l] H; try discriminate.
  - injection H as ->. exists l. reflexivity.
  - apply IH. exact H.
Qed.

Lemma nth_error_skipn_nil {A} (l : list A) (j : nat) :
  nth_error l j = None -> skipn j l = [].
Proof.
  intros H. apply skipn_all2. apply nth_error_None. exact H.
Qed.

(** X11. [build] makes one level per loop variable, each the only
    level at its depth: the level at depth [j] has the [j]-th variable
    and range, starts at 0 with step 1, is neither parallel nor
    collapsed, is a reduction level exactly when [j] has reached the
    reduction depth and the kernel has written a reduction, and has the
    kernel as the one kernel below it.  Beyond the last variable there
    is no level. *)
Theorem build_is_a_chain (k : CppKernel) (iv : list string) (rs : list expr)
    (rd : nat) :
  itervars k = Some iv -> ranges k = Some rs -> reduction_depth k = Some rd ->
  exists n,
    LoopNestWithSplit.build k = inl n
    /\ LoopNestWithSplit.max_parallel_depth_cache n = None
    /\ forall j,
         match nth_error (combine iv rs) j with
         | None => LoopNestWithSplit.get_loops_at j n = []
         | Some (var, size) =>
             exists l,
               LoopNestWithSplit.get_loops_at j n = [l]
               /\ LoopLevel.var l = var /\ LoopLevel.size l = size
               /\ LoopLevel.offset l = Integer 0
               /\ LoopLevel.steps l = Integer 1
               /\ LoopLevel.parallel l = 0
               /\ LoopLevel.collapsed l = false
               /\ LoopLevel.is_reduction l
                  = (rd <=? j)%nat && has_reduction_vars k
               /\ get_kernels l = [k]
         end.
Proof.
  intros Hiv Hrs Hrd. unfold LoopNestWithSplit.build.
  rewrite Hiv, Hrs, Hrd.
  destruct (combine iv rs) as [|p vs'] eqn:Hvs.
  - eexists. split; [reflexivity|]. split; [reflexivity|].
    intros j. destruct j; reflexivity.
  - eexists. split; [reflexivity|]. split; [reflexivity|].
    intros j. unfold LoopNestWithSplit.get_loops_at.
    cbn [LoopNestWithSplit.root]. rewrite build_levels_at.
    destruct (nth_error (p :: vs') j) as [[var size]|] eqn:Hj.
    + destruct (nth_error_skipn_cons _ _ _ Hj) as (rest & Hskip).
      rewrite Hskip. cbn [LoopNestWithSplit.build_levels Nat.add].
      eexists. split; [reflexivity|].
      cbn [LoopLevel.var LoopLevel.size LoopLevel.offset LoopLevel.steps
           LoopLevel.parallel LoopLevel.collapsed].
      repeat (split; [reflexivity|]). split.
      * unfold LoopLevel.is_reduction, has_reduction_vars.
        cbn [LoopLevel.reduction_var_map].
        destruct (rd <=? j)%nat; [|reflexivity].
        destruct (reduction_var_map k); reflexivity.
      * pose proof (build_levels_kernels k rd j ((var, size) :: rest)
                      ltac:(discriminate)) as Hk.
        cbn [LoopNestWithSplit.build_levels flat_map] in Hk.
        rewrite app_nil_r in Hk. exact Hk.
    + rewrite (nth_error_skipn_nil _ _ Hj). reflexivity.
Qed.

(** The theorem on a kernel bound to two pointwise ranges and one
    reduction range. *)
Lemma build_is_a_chain_witness :
  let ctx := example_context 1 false (fun _ => torch.float32) in
  let k := fst (set_ranges ctx [Integer 8; Integer 16] [Integer 32]
                  (CppKernel_init 1)) in
  exists n,
    LoopNestWithSplit.build k = inl n
    /\ LoopNestWithSplit.max_parallel_depth_cache n = None
    /\ forall j,
         match nth_error
                 (combine ["i0"; "i1"; "i2"]
                    [Integer 8; Integer 16; Integer 32]) j with
         | None => LoopNestWithSplit.get_loops_at j n = []
         | Some (var, size) =>
             exists l,
               LoopNestWithSplit.get_loops_at j n = [l]
               /\ LoopLevel.var l = var /\ LoopLevel.size l = size
               /\ LoopLevel.offset l = Integer 0
               /\ LoopLevel.steps l = Integer 1
               /\ LoopLevel.parallel l = 0
               /\ LoopLevel.collapsed l = false
               /\ LoopLevel.is_reduction l
                  = (2 <=? j)%nat && has_reduction_vars k
               /\ get_kernels l = [k]
         end.
Proof.
  intros ctx k.
  apply (build_is_a_chain k ["i0"; "i1"; "i2"]
           [Integer 8; Integer 16; Integer 32] 2);
    reflexivity.
Defined.

Lemma is_reduction_with_inner (l : LoopLevel.t) (inner' : list LoopLevel.t) :
  LoopLevel.is_reduction (LoopLevel.with_inner l inner')
  = LoopLevel.is_reduction l.
Proof. reflexivity. Qed.

(** A chain all of whose levels are of one kind counts every level. *)
Lemma rounds_build_uniform (k : CppKernel) (rd : nat) (r : bool)
    (vs : list (string * expr)) (depth : nat) :
  (forall j, (depth <= j)%nat ->
             (rd <=? j)%nat && has_reduction_vars k = r) ->
  LoopNestWithSplit.rounds r (LoopNestWithSplit.build_levels k rd depth vs)
  = List.length vs.
Proof.
  revert depth. induction vs as [|[var size] rest IH]; intros depth Hr;
    [reflexivity|].
  cbn [LoopNestWithSplit.build_levels LoopNestWithSplit.rounds List.length].
  rewrite chain_depth_eq. cbn [LoopLevel.inner].
  assert (Hred : LoopLevel.is_reduction
                   {| LoopLevel.var := var; LoopLevel.size := size;
                      LoopLevel.offset := Integer 0;
                      LoopLevel.steps := Integer 1;
                      LoopLevel.parallel := 0; LoopLevel.simd_omp := false;
                      LoopLevel.simd_vec := false;
                      LoopLevel.collapsed := false;
                      LoopLevel.reduction_var_map :=
                        if (rd <=? depth)%nat
                        then Some (reduction_var_map k) else None;
                      LoopLevel.inner :=
                        LoopNestWithSplit.build_levels k rd (S depth) rest;
                      LoopLevel.kernel :=
                        match rest with [] => Some k | _ => None end |}
                 = r).
  { rewrite <- (Hr depth (le_n _)).
    unfold LoopLevel.is_reduction, has_reduction_vars.
    cbn [LoopLevel.reduction_var_map].
    destruct (rd <=? depth)%nat; [|reflexivity].
    destruct (reduction_var_map k); reflexivity. }
  rewrite Hred, eqb_reflx. f_equal. apply IH.
  intros j Hj. apply Hr. lia.
Qed.

(** Before the reduction depth the levels are no reduction levels, and
    the first reduction level ends the count. *)
Lemma rounds_build_mixed (k : CppKernel) (rd : nat)
    (vs : list (string * expr)) (depth : nat) :
  has_reduction_vars k = true ->
  (depth <= rd)%nat ->
  LoopNestWithSplit.rounds false
    (LoopNestWithSplit.build_levels k rd depth vs)
  = Nat.min (rd - depth) (List.length vs).
Proof.
  intros Hk. revert depth. induction vs as [|[var size] rest IH];
    intros depth Hd.
  - cbn. lia.
  - cbn [LoopNestWithSplit.build_levels LoopNestWithSplit.rounds List.length].
    rewrite chain_depth_eq. cbn [LoopLevel.inner].
    unfold LoopLevel.is_reduction. cbn [LoopLevel.reduction_var_map].
    unfold has_reduction_vars in Hk.
    destruct (Nat.leb_spec rd depth) as [Hle | Hlt].
    + destruct (reduction_var_map k); [discriminate|].
      cbn [Bool.eqb]. replace (rd - depth)%nat with 0%nat by lia. reflexivity.
    + cbn [Bool.eqb]. rewrite IH by lia.
      replace (rd - depth)%nat with (S (rd - S depth)) by lia. reflexivity.
Qed.

(** X12. The maximal parallel depth of a nest as [build] makes it: all
    its levels when the kernel has written no reduction or is a
    reduction from the outermost level on, and otherwise the levels
    before the reduction depth.  The nest is reduction-only exactly when
    it has a level, the reduction depth is 0 and the kernel has written
    a reduction.  Asking for the depth changes no level, and asking
    again gives the same depth. *)
Theorem build_max_parallel_depth (k : CppKernel) (iv : list string)
    (rs : list expr) (rd : nat) :
  itervars k = Some iv -> ranges k = Some rs -> reduction_depth k = Some rd ->
  let len := List.length (combine iv rs) in
  let d := if has_reduction_vars k && negb (Nat.eqb rd 0)
           then Nat.min rd len else len in
  exists n n',
    LoopNestWithSplit.build k = inl n
    /\ LoopNestWithSplit.max_parallel_depth n = (n', inl d)
    /\ LoopNestWithSplit.root n' = LoopNestWithSplit.root n
    /\ LoopNestWithSplit.max_parallel_depth n' = (n', inl d)
    /\ LoopNestWithSplit.is_reduction_only n
       = has_reduction_vars k && Nat.eqb rd 0 && negb (Nat.eqb len 0).
Proof.
  intros Hiv Hrs Hrd len d. unfold LoopNestWithSplit.build.
  rewrite Hiv, Hrs, Hrd. subst d len.
  destruct (combine iv rs) as [|[var size] vs'] eqn:Hvs.
  - do 2 eexists. split; [reflexivity|].
    unfold LoopNestWithSplit.max_parallel_depth. run_monad.
    cbn. rewrite Nat.min_0_r, !andb_false_r.
    destruct (has_reduction_vars k && negb (Nat.eqb rd 0)); auto.
  - do 2 eexists. split; [reflexivity|].
    unfold LoopNestWithSplit.max_parallel_depth. run_monad.
    cbn [LoopNestWithSplit.max_parallel_depth_cache LoopNestWithSplit.root
         LoopNestWithSplit.set_cache].
    assert (Hd : LoopNestWithSplit.parallel_depth_of
                   (LoopNestWithSplit.build_levels k rd 0 ((var, size) :: vs'))
                 = if has_reduction_vars k && negb (Nat.eqb rd 0)
                   then Nat.min rd (List.length ((var, size) :: vs'))
                   else List.length ((var, size) :: vs')).
    { unfold LoopNestWithSplit.parallel_depth_of.
      set (r := match LoopNestWithSplit.build_levels k rd 0 ((var, size) :: vs')
                with l :: _ => LoopLevel.is_reduction l | [] => false end).
      assert (Hr : r = (rd <=? 0)%nat && has_reduction_vars k).
      { subst r. cbn [LoopNestWithSplit.build_levels].
        unfold LoopLevel.is_reduction, has_reduction_vars.
        cbn [LoopLevel.reduction_var_map].
        destruct (rd <=? 0)%nat; [|reflexivity].
        destruct (reduction_var_map k); reflexivity. }
      clearbody r.
      destruct (has_reduction_vars k) eqn:Hk.
      - destruct rd as [|rd'].
        + cbn [Nat.eqb negb andb]. apply rounds_build_uniform.
          intros j _. rewrite Hk, Hr. reflexivity.
        + cbn [Nat.eqb negb andb] in *. cbn [Nat.leb] in Hr. subst r.
          rewrite (rounds_build_mixed k (S rd') _ 0 Hk) by lia.
          rewrite Nat.sub_0_r. reflexivity.
      - cbn [andb]. rewrite andb_false_r in Hr. subst r.
        apply rounds_build_uniform. intros j _. rewrite Hk.
        apply andb_false_r. }
    rewrite Hd. split; [reflexivity|]. split; [reflexivity|].
    split; [reflexivity|].
    unfold LoopNestWithSplit.is_reduction_only.
    cbn [LoopNestWithSplit.root LoopNestWithSplit.build_levels].
    unfold LoopLevel.is_reduction, has_reduction_vars.
    cbn [LoopLevel.reduction_var_map List.length Nat.eqb negb].
    rewrite andb_true_r.
    destruct rd; cbn [Nat.leb Nat.eqb]; destruct (reduction_var_map k);
      reflexivity.
Qed.

(** The theorem on a kernel bound to two pointwise ranges and one
    reduction range that has written a [sum]. *)
Lemma build_max_parallel_depth_witness :
  let ctx := example_context 1 false (fun _ => torch.float32) in
  let k := set_reduction_var "tmp0" "sum"
             (fst (set_ranges ctx [Integer 8; Integer 16] [Integer 32]
                     (CppKernel_init 1))) in
  exists n n',
    LoopNestWithSplit.build k = inl n
    /\ LoopNestWithSplit.max_parallel_depth n = (n', inl 2%nat)
    /\ LoopNestWithSplit.root n' = LoopNestWithSplit.root n
    /\ LoopNestWithSplit.max_parallel_depth n' = (n', inl 2%nat)
    /\ LoopNestWithSplit.is_reduction_only n = false.
Proof.
  intros ctx k.
  apply (build_max_parallel_depth k ["i0"; "i1"; "i2"]
           [Integer 8; Integer 16; Integer 32] 2);
    reflexivity.
Defined.

Lemma flat_map_singleton {A} (l : list A) : flat_map (fun x => [x]) l = l.
Proof. induction l as [|x l IH]; cbn; [reflexivity | f_equal; exact IH]. Qed.

Lemma flat_map_flat_map {A B C} (f : A -> list B) (g : B -> list C)
    (l : list A) :
  flat_map g (flat_map f l) = flat_map (fun x => flat_map g (f x)) l.
Proof.
  induction l as [|x l IH]; cbn; [reflexivity|].
  rewrite flat_map_app, IH. reflexivity.
Qed.

Lemma flat_map_of_map {A B C} (f : A -> B) (g : B -> list C) (l : list A) :
  flat_map g (map f l) = flat_map (fun x => g (f x)) l.
Proof.
  induction l as [|x l IH]; cbn; [reflexivity | rewrite IH; reflexivity].
Qed.

Lemma map_of_flat_map {A B C} (f : A -> list B) (g : B -> C) (l : list A) :
  map g (flat_map f l) = flat_map (fun x => map g (f x)) l.
Proof.
  induction l as [|x l IH]; cbn; [reflexivity|].
  rewrite map_app, IH. reflexivity.
Qed.

(** The levels at the depth of a split are the main and tail loops of
    the levels that were there. *)
Lemma get_loops_at_split_in (depth : nat) (factor : Z)
    (loops : list LoopLevel.t) :
  flat_map (LoopLevel.get_loops_at depth)
    (LoopNestWithSplit.split_in depth factor loops)
  = flat_map (fun l => let (main_loop, tail_loop) :=
                         LoopLevel.do_split_with_tiling l factor in
                       [main_loop; tail_loop])
      (flat_map (LoopLevel.get_loops_at depth) loops).
Proof.
  revert loops. induction depth as [|d IH]; intros loops.
  - cbn [LoopNestWithSplit.split_in LoopLevel.get_loops_at].
    rewrite !flat_map_singleton. reflexivity.
  - cbn [LoopNestWithSplit.split_in LoopLevel.get_loops_at].
    rewrite flat_map_of_map, flat_map_flat_map.
    apply flat_map_ext. intros l. cbn [LoopLevel.inner LoopLevel.with_inner].
    apply IH.
Qed.

(** Above the depth of a split every level is as before, with new
    inner levels. *)
Lemma get_loops_above_split_in (j depth : nat) (factor : Z)
    (loops : list LoopLevel.t) :
  (j < depth)%nat ->
  flat_map (LoopLevel.get_loops_at j)
    (LoopNestWithSplit.split_in depth factor loops)
  = map (fun l => LoopLevel.with_inner l
                    (LoopNestWithSplit.split_in (depth - S j) factor
                       (LoopLevel.inner l)))
      (flat_map (LoopLevel.get_loops_at j) loops).
Proof.
  revert depth loops. induction j as [|j IH]; intros depth loops Hj;
    (destruct depth as [|d]; [lia|]).
  - cbn [LoopNestWithSplit.split_in LoopLevel.get_loops_at].
    rewrite !flat_map_singleton.
    replace (S d - 1)%nat with d by lia. reflexivity.
  - cbn [LoopNestWithSplit.split_in LoopLevel.get_loops_at].
    rewrite flat_map_of_map, map_of_flat_map.
    apply flat_map_ext. intros l. cbn [LoopLevel.inner LoopLevel.with_inner].
    rewrite IH by lia. replace (S d - S (S j))%nat with (d - S j)%nat by lia.
    reflexivity.
Qed.

Lemma rounds_split_in (r : bool) (depth : nat) (factor : Z)
    (loops : list LoopLevel.t) :
  LoopNestWithSplit.rounds r (LoopNestWithSplit.split_in depth factor loops)
  = Nat.min (LoopNestWithSplit.rounds r loops) depth.
Proof.
  revert loops. induction depth as [|d IH]; intros loops.
  - rewrite Nat.min_0_r.
    destruct loops as [|l [|l2 rest]]; reflexivity.
  - destruct loops as [|l [|l2 rest]]; [reflexivity | | reflexivity].
    cbn [LoopNestWithSplit.split_in map LoopNestWithSplit.rounds].
    rewrite !chain_depth_eq, is_reduction_with_inner.
    cbn [LoopLevel.inner LoopLevel.with_inner].
    destruct (Bool.eqb (LoopLevel.is_reduction l) r); [|reflexivity].
    rewrite IH. reflexivity.
Qed.

Lemma parallel_depth_split_in (depth : nat) (factor : Z)
    (loops : list LoopLevel.t) :
  LoopNestWithSplit.parallel_depth_of
    (LoopNestWithSplit.split_in depth factor loops)
  = Nat.min (LoopNestWithSplit.parallel_depth_of loops) depth.
Proof.
  unfold LoopNestWithSplit.parallel_depth_of.
  destruct depth as [|d].
  - rewrite Nat.min_0_r. destruct loops as [|l [|l2 rest]]; reflexivity.
  - destruct loops as [|l rest].
    + reflexivity.
    + rewrite rounds_split_in. reflexivity.
Qed.

(** X13. A split keeps the split level and everything below it out of
    the parallel depth.  On a nest with one level at [depth] whose
    maximal parallel depth has not been asked for yet,
    [split_with_tiling] returns the main and the tail loop of that
    level; afterwards these two are the levels at [depth], every level
    above is as before but for its inner levels, and the maximal
    parallel depth is the smaller of what it was and [depth]. *)
Theorem split_limits_parallel_depth (n : LoopNestWithSplit.t) (depth : nat)
    (factor : Z) (l : LoopLevel.t) :
  LoopNestWithSplit.max_parallel_depth_cache n = None ->
  LoopNestWithSplit.get_loops_at depth n = [l] ->
  exists n' n'',
    LoopNestWithSplit.split_with_tiling depth factor n
    = (n', inl (LoopLevel.do_split_with_tiling l factor))
    /\ LoopNestWithSplit.get_loops_at depth n'
       = [fst (LoopLevel.do_split_with_tiling l factor);
          snd (LoopLevel.do_split_with_tiling l factor)]
    /\ (forall j, (j < depth)%nat ->
          LoopNestWithSplit.get_loops_at j n'
          = map (fun a => LoopLevel.with_inner a
                            (LoopNestWithSplit.split_in (depth - S j) factor
                               (LoopLevel.inner a)))
              (LoopNestWithSplit.get_loops_at j n))
    /\ LoopNestWithSplit.max_parallel_depth n'
       = (n'', inl (Nat.min (LoopNestWithSplit.parallel_depth_of
                               (LoopNestWithSplit.root n)) depth)).
Proof.
  intros Hcache Hl.
  unfold LoopNestWithSplit.split_with_tiling. run_monad. rewrite Hl.
  cbn [List.length Nat.eqb].
  do 2 eexists. split; [reflexivity|].
  unfold LoopNestWithSplit.get_loops_at in *.
  cbn [LoopNestWithSplit.root LoopNestWithSplit.set_root].
  split; [|split].
  - rewrite get_loops_at_split_in, Hl. cbn [flat_map].
    destruct (LoopLevel.do_split_with_tiling l factor). reflexivity.
  - intros j Hj. apply get_loops_above_split_in. exact Hj.
  - unfold LoopNestWithSplit.max_parallel_depth. run_monad.
    cbn [LoopNestWithSplit.max_parallel_depth_cache LoopNestWithSplit.set_root
         LoopNestWithSplit.root].
    rewrite Hcache, parallel_depth_split_in. reflexivity.
Qed.

(** The theorem on the nest of two pointwise loops, split at the inner
    one by a vector width of 8: only the outer loop is left to be made
    parallel. *)
Lemma split_limits_parallel_depth_witness :
  let k := bind_ranges (CppKernel_init 8) [Integer 4; Integer 64]
             [Integer 4; Integer 64] ["i0"; "i1"] 2 in
  let l := {| LoopLevel.var := "i1"; LoopLevel.size := Integer 64;
              LoopLevel.offset := Integer 0; LoopLevel.steps := Integer 1;
              LoopLevel.parallel := 0; LoopLevel.simd_omp := false;
              LoopLevel.simd_vec := false; LoopLevel.collapsed := false;
              LoopLevel.reduction_var_map := None;
              LoopLevel.inner := []; LoopLevel.kernel := Some k |} in
  let n := {| LoopNestWithSplit.root := LoopNestWithSplit.build_levels k 2 0
                [("i0", Integer 4); ("i1", Integer 64)];
              LoopNestWithSplit.kernel := LoopNestWithSplit.Count 2;
              LoopNestWithSplit.max_parallel_depth_cache := None |} in
  LoopNestWithSplit.build k = inl n
  /\ exists n' n'',
       LoopNestWithSplit.split_with_tiling 1 8 n
       = (n', inl (LoopLevel.do_split_with_tiling l 8))
       /\ LoopNestWithSplit.max_parallel_depth n' = (n'', inl 1%nat).
Proof.
  intros k l n. split; [reflexivity|].
  destruct (split_limits_parallel_depth n 1 8 l eq_refl eq_refl)
    as (n' & n'' & Hsplit & _ & _ & Hmax).
  exists n', n''. split; [exact Hsplit | exact Hmax].
Defined.

(** *** Marking the parallel levels *)

(** While the loop of [max_parallel_depth] runs, there is one level at
    each depth. *)
Lemma chain_singleton (r : bool) (i : nat) (loops : list LoopLevel.t) :
  (i < LoopNestWithSplit.rounds r loops)%nat ->
  exists x, flat_map (LoopLevel.get_loops_at i) loops = [x].
Proof.
  revert loops. induction i as [|i IH]; intros loops Hi;
    destruct loops as [|l [|l2 rest]]; cbn [LoopNestWithSplit.rounds] in Hi;
    try lia.
  - exists l. reflexivity.
  - rewrite chain_depth_eq in Hi.
    destruct (Bool.eqb (LoopLevel.is_reduction l) r); [|lia].
    destruct (IH (LoopLevel.inner l) ltac:(lia)) as (x & Hx).
    exists x. cbn [flat_map LoopLevel.get_loops_at].
    rewrite app_nil_r. exact Hx.
Qed.

Lemma update_first_ok (r : bool) (f : LoopLevel.t -> LoopLevel.t) (i : nat)
    (loops : list LoopLevel.t) :
  (i < LoopNestWithSplit.rounds r loops)%nat ->
  exists loops', LoopNestWithSplit.update_first i f loops = Some loops'.
Proof.
  revert loops. induction i as [|i IH]; intros loops Hi;
    destruct loops as [|l [|l2 rest]]; cbn [LoopNestWithSplit.rounds] in Hi;
    try lia.
  - eexists. reflexivity.
  - rewrite chain_depth_eq in Hi.
    destruct (Bool.eqb (LoopLevel.is_reduction l) r); [|lia].
    destruct (IH (LoopLevel.inner l) ltac:(lia)) as (inner' & Hin).
    cbn [LoopNestWithSplit.update_first]. rewrite Hin.
    eexists. reflexivity.
Qed.

Lemma update_first_rounds (r : bool) (f : LoopLevel.t -> LoopLevel.t)
    (i : nat) (loops loops' : list LoopLevel.t) :
  (forall l, LoopLevel.inner (f l) = LoopLevel.inner l) ->
  (forall l, LoopLevel.is_reduction (f l) = LoopLevel.is_reduction l) ->
  LoopNestWithSplit.update_first i f loops = Some loops' ->
  LoopNestWithSplit.rounds r loops' = LoopNestWithSplit.rounds r loops.
Proof.
  intros Hin Hred. revert loops loops'.
  induction i as [|i IH]; intros [|l rest] loops' H; try discriminate.
  - injection H as <-. destruct rest; [|reflexivity].
    cbn [LoopNestWithSplit.rounds]. rewrite !chain_depth_eq, Hred, Hin.
    reflexivity.
  - cbn [LoopNestWithSplit.update_first] in H.
    destruct (LoopNestWithSplit.update_first i f (LoopLevel.inner l))
      as [inner'|] eqn:Hu; [|discriminate].
    injection H as <-. destruct rest; [|reflexivity].
    cbn [LoopNestWithSplit.rounds].
    rewrite !chain_depth_eq, is_reduction_with_inner.
    cbn [LoopLevel.inner LoopLevel.with_inner].
    rewrite (IH _ _ Hu). reflexivity.
Qed.

(** What an assignment to a field of the level [i] steps down changes,
    seen through any [p] that does not look at the inner levels. *)
Lemma update_first_levels {B} (p : LoopLevel.t -> B)
    (f : LoopLevel.t -> LoopLevel.t) (i : nat)
    (loops loops' : list LoopLevel.t) :
  (forall l inner', p (LoopLevel.with_inner l inner') = p l) ->
  (forall l, LoopLevel.inner (f l) = LoopLevel.inner l) ->
  LoopNestWithSplit.update_first i f loops = Some loops' ->
  exists x rest,
    flat_map (LoopLevel.get_loops_at i) loops = x :: rest
    /\ forall j,
         map p (flat_map (LoopLevel.get_loops_at j) loops')
         = if Nat.eqb j i then p (f x) :: map p rest
           else map p (flat_map (LoopLevel.get_loops_at j) loops).
Proof.
  intros Hp Hin. revert loops loops'.
  induction i as [|i IH]; intros [|l rest] loops' H; try discriminate.
  - injection H as <-. exists l, rest. split.
    + cbn [flat_map LoopLevel.get_loops_at app]. f_equal.
      apply flat_map_singleton.
    + intros [|j]; cbn [Nat.eqb flat_map LoopLevel.get_loops_at app map].
      * rewrite flat_map_singleton. reflexivity.
      * rewrite Hin. reflexivity.
  - cbn [LoopNestWithSplit.update_first] in H.
    destruct (LoopNestWithSplit.update_first i f (LoopLevel.inner l))
      as [inner'|] eqn:Hu; [|discriminate].
    injection H as <-.
    destruct (IH _ _ Hu) as (x & rest0 & Hx & Hj).
    exists x, (rest0 ++ flat_map (LoopLevel.get_loops_at (S i)) rest). split.
    + cbn [flat_map LoopLevel.get_loops_at]. rewrite Hx. reflexivity.
    + intros [|j]; cbn [Nat.eqb flat_map LoopLevel.get_loops_at app map].
      * rewrite Hp. reflexivity.
      * cbn [LoopLevel.inner LoopLevel.with_inner].
        rewrite !map_app, Hj.
        destruct (Nat.eqb_spec j i) as [-> | _]; reflexivity.
Qed.

Lemma assign_first_run (r : bool) (f : LoopLevel.t -> LoopLevel.t) (i : nat)
    (n : LoopNestWithSplit.t) :
  (i < LoopNestWithSplit.rounds r (LoopNestWithSplit.root n))%nat ->
  exists loops',
    LoopNestWithSplit.update_first i f (LoopNestWithSplit.root n) = Some loops'
    /\ LoopNestWithSplit.assign_first i f n
       = (LoopNestWithSplit.set_root loops' n, inl tt).
Proof.
  intros Hi. destruct (update_first_ok r f i _ Hi) as (loops' & Hu).
  exists loops'. split; [exact Hu|].
  unfold LoopNestWithSplit.assign_first. run_monad. rewrite Hu. reflexivity.
Qed.

Lemma collapse_levels_run (r : bool) (cnt : nat) :
  forall (s : nat) (n : LoopNestWithSplit.t),
    (s + cnt <= LoopNestWithSplit.rounds r (LoopNestWithSplit.root n))%nat ->
    exists loops',
      LoopNestWithSplit.collapse_levels (List.seq s cnt) n
      = (LoopNestWithSplit.set_root loops' n, inl tt)
      /\ forall B (p : LoopLevel.t -> B),
           (forall l inner', p (LoopLevel.with_inner l inner') = p l) ->
           forall j,
             map p (flat_map (LoopLevel.get_loops_at j) loops')
             = map (fun l => if (s <=? j)%nat && (j <? s + cnt)%nat
                             then p (LoopNestWithSplit.set_collapsed l)
                             else p l)
                 (flat_map (LoopLevel.get_loops_at j)
                    (LoopNestWithSplit.root n)).
Proof.
  induction cnt as [|cnt IH]; intros s n Hs.
  - exists (LoopNestWithSplit.root n). split.
    + destruct n. reflexivity.
    + intros B p Hp j. apply map_ext. intros l.
      destruct (Nat.leb_spec s j); cbn [andb]; [|reflexivity].
      destruct (Nat.ltb_spec j (s + 0)); [lia | reflexivity].
  - cbn [List.seq LoopNestWithSplit.collapse_levels].
    destruct (assign_first_run r LoopNestWithSplit.set_collapsed s n
                ltac:(lia)) as (loops1 & Hu & Hrun).
    pose proof (update_first_rounds r LoopNestWithSplit.set_collapsed s _ _
                  (fun l => eq_refl) (fun l => eq_refl) Hu) as Hr1.
    destruct (IH (S s) (LoopNestWithSplit.set_root loops1 n)) as (loops' & Hc & Hl).
    { cbn [LoopNestWithSplit.root LoopNestWithSplit.set_root].
      rewrite Hr1. lia. }
    exists loops'. split.
    + unfold bindM at 1. rewrite Hrun. cbv beta iota. rewrite Hc.
      reflexivity.
    + intros B p Hp j. rewrite (Hl B p Hp j).
      cbn [LoopNestWithSplit.root LoopNestWithSplit.set_root].
      destruct (chain_singleton r s (LoopNestWithSplit.root n) ltac:(lia))
        as (x & Hx).
      destruct (update_first_levels
                  (fun l => if (S s <=? j)%nat && (j <? S s + cnt)%nat
                            then p (LoopNestWithSplit.set_collapsed l)
                            else p l)
                  LoopNestWithSplit.set_collapsed s _ _
                  ltac:(intros l inner';
                        destruct ((S s <=? j)%nat && (j <? S s + cnt)%nat);
                        [exact (Hp (LoopNestWithSplit.set_collapsed l) inner')
                        | apply Hp])
                  (fun l => eq_refl) Hu) as (x' & rest & Hx' & Hj).
      rewrite Hx in Hx'. injection Hx' as <- <-.
      rewrite (Hj j). destruct (Nat.eqb_spec j s) as [-> | Hne].
      * rewrite Hx. cbn [map].
        destruct (Nat.leb_spec (S s) s); [lia|]. cbn [andb].
        rewrite Nat.leb_refl.
        destruct (Nat.ltb_spec s (s + S cnt)); [|lia]. reflexivity.
      * apply map_ext. intros l.
        replace ((S s <=? j)%nat && (j <? S s + cnt)%nat)
          with ((s <=? j)%nat && (j <? s + S cnt)%nat); [reflexivity|].
        destruct (Nat.leb_spec s j), (Nat.leb_spec (S s) j),
          (Nat.ltb_spec j (s + S cnt)), (Nat.ltb_spec j (S s + cnt));
          cbn [andb]; try reflexivity; lia.
Qed.

Lemma bindM_run {S A B} (m : M S A) (k : A -> M S B) (s s' : S) (a : A) :
  m s = (s', inl a) -> bindM m k s = k a s'.
Proof. intros H. unfold bindM. rewrite H. reflexivity. Qed.

Lemma max_parallel_depth_fresh (n : LoopNestWithSplit.t) :
  match LoopNestWithSplit.max_parallel_depth_cache n with
  | None => True
  | Some c =>
      c = LoopNestWithSplit.parallel_depth_of (LoopNestWithSplit.root n)
  end ->
  LoopNestWithSplit.max_parallel_depth n
  = (LoopNestWithSplit.set_cache
       (LoopNestWithSplit.parallel_depth_of (LoopNestWithSplit.root n)) n,
     inl (LoopNestWithSplit.parallel_depth_of (LoopNestWithSplit.root n))).
Proof.
  intros H. unfold LoopNestWithSplit.max_parallel_depth. run_monad.
  destruct n as [r k [c|]]; cbn in *; [subst c|]; reflexivity.
Qed.

Lemma mark_parallel_run (n : LoopNestWithSplit.t) (d : Z) :
  match LoopNestWithSplit.max_parallel_depth_cache n with
  | None => True
  | Some c =>
      c = LoopNestWithSplit.parallel_depth_of (LoopNestWithSplit.root n)
  end ->
  1 <= d
  <= Z.of_nat (LoopNestWithSplit.parallel_depth_of (LoopNestWithSplit.root n)) ->
  exists n',
    LoopNestWithSplit.mark_parallel d n = (n', inl tt)
    /\ forall B (p : LoopLevel.t -> B),
         (forall l inner', p (LoopLevel.with_inner l inner') = p l) ->
         forall j,
           map p (LoopNestWithSplit.get_loops_at j n')
           = map (fun l => if Nat.eqb j 0
                           then p (LoopNestWithSplit.set_parallel d l)
                           else if (j <? Z.to_nat d)%nat
                                then p (LoopNestWithSplit.set_collapsed l)
                                else p l)
               (LoopNestWithSplit.get_loops_at j n).
Proof.
  intros Hcache Hd.
  set (m := LoopNestWithSplit.parallel_depth_of (LoopNestWithSplit.root n)) in *.
  set (r := match LoopNestWithSplit.root n with
            | l :: _ => LoopLevel.is_reduction l
            | [] => false
            end).
  assert (Hm : LoopNestWithSplit.rounds r (LoopNestWithSplit.root n) = m)
    by reflexivity.
  set (n0 := LoopNestWithSplit.set_cache m n).
  assert (Hroot0 : LoopNestWithSplit.root n0 = LoopNestWithSplit.root n)
    by reflexivity.
  destruct (assign_first_run r (LoopNestWithSplit.set_parallel d) 0 n0)
    as (loops1 & Hu & Hrun1).
  { rewrite Hroot0, Hm. lia. }
  rewrite Hroot0 in Hu.
  pose proof (update_first_rounds r (LoopNestWithSplit.set_parallel d) 0 _ _
                (fun l => eq_refl) (fun l => eq_refl) Hu) as Hr1.
  destruct (collapse_levels_run r (Z.to_nat d - 1) 1
              (LoopNestWithSplit.set_root loops1 n0)) as (loops' & Hc & Hl).
  { cbn [LoopNestWithSplit.root LoopNestWithSplit.set_root].
    rewrite Hr1, Hm. lia. }
  exists (LoopNestWithSplit.set_root loops' n0). split.
  - unfold LoopNestWithSplit.mark_parallel.
    rewrite (bindM_run _ _ _ _ _ (max_parallel_depth_fresh n Hcache)).
    fold m. fold n0.
    assert (Ha : @assertM LoopNestWithSplit.t (d <=? Z.of_nat m) n0
                 = (n0, inl tt)).
    { unfold assertM, liftM, assert.
      destruct (Z.leb_spec d (Z.of_nat m)) as [_ | ?]; [reflexivity | lia]. }
    rewrite (bindM_run _ _ _ _ _ Ha).
    rewrite (bindM_run _ _ _ _ _ Hrun1).
    exact Hc.
  - intros B p Hp j. unfold LoopNestWithSplit.get_loops_at.
    cbn [LoopNestWithSplit.root LoopNestWithSplit.set_root].
    rewrite (Hl B p Hp j).
    cbn [LoopNestWithSplit.root LoopNestWithSplit.set_root].
    destruct (chain_singleton r 0 (LoopNestWithSplit.root n) ltac:(lia))
      as (x & Hx).
    destruct (update_first_levels
                (fun l => if (1 <=? j)%nat && (j <? 1 + (Z.to_nat d - 1))%nat
                          then p (LoopNestWithSplit.set_collapsed l)
                          else p l)
                (LoopNestWithSplit.set_parallel d) 0 _ _
                ltac:(intros l inner';
                      destruct ((1 <=? j)%nat && (j <? 1 + (Z.to_nat d - 1))%nat);
                      [exact (Hp (LoopNestWithSplit.set_collapsed l) inner')
                      | apply Hp])
                (fun l => eq_refl) Hu) as (x' & rest & Hx' & Hj).
    rewrite Hx in Hx'. injection Hx' as <- <-.
    rewrite (Hj j). destruct (Nat.eqb_spec j 0) as [-> | Hne].
    + rewrite Hx. reflexivity.
    + apply map_ext. intros l.
      replace (1 + (Z.to_nat d - 1))%nat with (Z.to_nat d) by lia.
      destruct (Nat.leb_spec 1 j); [|lia]. reflexivity.
Qed.

(** The start of [codegen_loops_impl], step by step. *)
Lemma codegen_loops_impl_parallel_run (ctx : Context) (k : CppKernel)
    (torch_num_threads : Z) (n : LoopNestWithSplit.t) (ws : WorkSharing.t)
    (cr : list expr) :
  call_ranges k = Some cr ->
  1 <= parallel_num_threads (config_cpp ctx) torch_num_threads < 2 ^ 1023 ->
  1 <= min_chunk_size (config_cpp ctx) ->
  Z.abs (sizevars_size_hint (graph ctx) (sympy_product cr)) < 2 ^ 1023 ->
  LoopNestWithSplit.max_parallel_depth_cache n = None ->
  let T := parallel_num_threads (config_cpp ctx) torch_num_threads in
  let m := LoopNestWithSplit.parallel_depth_of (LoopNestWithSplit.root n) in
  let n0 := LoopNestWithSplit.set_cache m n in
  exists d n',
    0 <= d <= Z.of_nat m
    /\ (if d =? 0 then n' = n0
        else LoopNestWithSplit.mark_parallel d n0 = (n', inl tt))
    /\ codegen_loops_impl_parallel ctx k torch_num_threads (n, ws)
       = ((n',
           if negb (d =? 0) then
             if LoopNestWithSplit.is_reduction_only n
             then WorkSharing.close ws
             else WorkSharing.parallel (config_cpp ctx) T ws
           else if (1 <? T) && WorkSharing.in_parallel ws
                then code_indent (fst (WorkSharing.single ws))
                else ws),
          inl (d, if (d =? 0) && (1 <? T) && WorkSharing.in_parallel ws
                  then 1%nat else 0%nat)).
Proof.
  intros Hcr HT Hmin Hwork Hcache T m n0. fold T in HT.
  destruct (decide_parallel_depth_bounds ctx k cr m T Hcr HT Hmin Hwork)
    as (d & Hdec & Hd & Hdm).
  assert (Hmax : on_nest LoopNestWithSplit.max_parallel_depth (n, ws)
                 = ((n0, ws), inl m)).
  { unfold on_nest. cbn [fst snd].
    rewrite (max_parallel_depth_fresh n); [reflexivity|].
    rewrite Hcache. exact I. }
  unfold codegen_loops_impl_parallel. fold T.
  rewrite (bindM_run _ _ _ _ _ Hmax). rewrite Hcr.
  rewrite (bindM_run (liftM (ret cr)) _ (n0, ws) (n0, ws) cr eq_refl).
  rewrite (bindM_run (liftM (decide_parallel_depth ctx k (firstn m cr) T)) _
             (n0, ws) (n0, ws) d
             ltac:(unfold liftM; rewrite Hdec; reflexivity)).
  destruct (Z.eqb_spec d 0) as [-> | Hne].
  - exists 0, n0. change (0 =? 0) with true. cbn [negb andb].
    split; [lia|]. split; [reflexivity|].
    destruct (1 <? T); cbn [andb]; [|reflexivity].
    run_monad. unfold WorkSharing.single. cbn [fst snd].
    destruct (WorkSharing.in_parallel ws); reflexivity.
  - destruct (mark_parallel_run n0 d eq_refl) as (n' & Hmark & _).
    { change (1 <= d <= Z.of_nat m). lia. }
    assert (He : (d =? 0) = false) by (apply Z.eqb_neq; exact Hne).
    exists d, n'. rewrite He. cbn [negb andb].
    split; [lia|]. split; [exact Hmark|].
    assert (Hro : LoopNestWithSplit.is_reduction_only n0
                  = LoopNestWithSplit.is_reduction_only n) by reflexivity.
    destruct (LoopNestWithSplit.is_reduction_only n).
    + erewrite bindM_run; [reflexivity|].
      rewrite (bindM_run getM _ (n0, ws) (n0, ws) (n0, ws) eq_refl).
      cbn [fst]. rewrite Hro.
      rewrite (bindM_run (on_worksharing WorkSharing.close) _ (n0, ws)
                 (n0, WorkSharing.close ws) tt eq_refl).
      unfold bindM, on_nest. cbn [fst snd]. rewrite Hmark. reflexivity.
    + erewrite bindM_run; [reflexivity|].
      rewrite (bindM_run getM _ (n0, ws) (n0, ws) (n0, ws) eq_refl).
      cbn [fst]. rewrite Hro.
      rewrite (bindM_run
                 (on_worksharing (WorkSharing.parallel (config_cpp ctx) T))
                 _ (n0, ws)
                 (n0, WorkSharing.parallel (config_cpp ctx) T ws) tt
                 eq_refl).
      unfold bindM, on_nest. cbn [fst snd]. rewrite Hmark. reflexivity.
Qed.

(** X14. The depth [codegen_loops_impl] decides fits the nest it marks.
    For a bound kernel whose total work is below 2^1023 in size, at
    least one and fewer than 2^1023 threads, a minimum chunk size of at
    least 1 and a nest whose maximal parallel depth has not been asked
    for yet, the start of [codegen_loops_impl] returns a depth between
    0 and the maximal parallel depth: no float of
    [decide_parallel_depth] overflows, the assertion of [mark_parallel]
    holds and no level is missing.  No loop changes its variable or its
    range.  With depth 0 the nest is left as it is; otherwise the levels
    at depth 0 carry the depth as their [parallel] mark, the levels
    below down to the depth are collapsed, and no other mark
    changes. *)
Theorem parallel_marking_succeeds (ctx : Context) (k : CppKernel)
    (torch_num_threads : Z) (n : LoopNestWithSplit.t) (ws : WorkSharing.t)
    (cr : list expr) :
  call_ranges k = Some cr ->
  1 <= parallel_num_threads (config_cpp ctx) torch_num_threads < 2 ^ 1023 ->
  1 <= min_chunk_size (config_cpp ctx) ->
  Z.abs (sizevars_size_hint (graph ctx) (sympy_product cr)) < 2 ^ 1023 ->
  LoopNestWithSplit.max_parallel_depth_cache n = None ->
  exists d stack n' ws',
    codegen_loops_impl_parallel ctx k torch_num_threads (n, ws)
    = ((n', ws'), inl (d, stack))
    /\ 0 <= d
       <= Z.of_nat (LoopNestWithSplit.parallel_depth_of
                      (LoopNestWithSplit.root n))
    /\ (d = 0 -> LoopNestWithSplit.root n' = LoopNestWithSplit.root n)
    /\ forall j,
         map LoopLevel.var (LoopNestWithSplit.get_loops_at j n')
         = map LoopLevel.var (LoopNestWithSplit.get_loops_at j n)
         /\ map LoopLevel.size (LoopNestWithSplit.get_loops_at j n')
            = map LoopLevel.size (LoopNestWithSplit.get_loops_at j n)
         /\ (0 < d ->
             map LoopLevel.parallel (LoopNestWithSplit.get_loops_at j n')
             = map (fun l => if Nat.eqb j 0 then d else LoopLevel.parallel l)
                 (LoopNestWithSplit.get_loops_at j n)
             /\ map LoopLevel.collapsed (LoopNestWithSplit.get_loops_at j n')
                = map (fun l => if (1 <=? j)%nat && (Z.of_nat j <? d)
                                then true else LoopLevel.collapsed l)
                    (LoopNestWithSplit.get_loops_at j n)).
Proof.
  intros Hcr HT Hmin Hwork Hcache.
  destruct (codegen_loops_impl_parallel_run ctx k torch_num_threads n ws cr
              Hcr HT Hmin Hwork Hcache) as (d & n' & Hd & Hn' & Hrun).
  set (m := LoopNestWithSplit.parallel_depth_of (LoopNestWithSplit.root n))
    in *.
  set (n0 := LoopNestWithSplit.set_cache m n) in *.
  do 4 eexists. split; [exact Hrun|]. split; [exact Hd|].
  destruct (Z.eqb_spec d 0) as [-> | Hne].
  - subst n'. split; [reflexivity|].
    intros j. split; [reflexivity|]. split; [reflexivity|]. lia.
  - split; [intros ?; lia|].
    destruct (mark_parallel_run n0 d eq_refl) as (n1 & Hmark & Hl).
    { change (1 <= d <= Z.of_nat m). lia. }
    rewrite Hn' in Hmark. injection Hmark as <-.
    intros j.
    split; [|split].
    + rewrite (Hl _ LoopLevel.var (fun l inner' => eq_refl) j).
      apply map_ext. intros l.
      destruct (Nat.eqb j 0); [reflexivity|].
      destruct (j <? Z.to_nat d)%nat; reflexivity.
    + rewrite (Hl _ LoopLevel.size (fun l inner' => eq_refl) j).
      apply map_ext. intros l.
      destruct (Nat.eqb j 0); [reflexivity|].
      destruct (j <? Z.to_nat d)%nat; reflexivity.
    + intros _. split.
      * rewrite (Hl _ LoopLevel.parallel (fun l inner' => eq_refl) j).
        apply map_ext. intros l.
        destruct (Nat.eqb j 0); [reflexivity|].
        destruct (j <? Z.to_nat d)%nat; reflexivity.
      * rewrite (Hl _ LoopLevel.collapsed (fun l inner' => eq_refl) j).
        apply map_ext. intros l.
        destruct (Nat.eqb_spec j 0) as [-> | Hj0]; [reflexivity|].
        destruct (Nat.leb_spec 1 j); [|lia]. cbn [andb].
        destruct (Nat.ltb_spec j (Z.to_nat d)), (Z.ltb_spec (Z.of_nat j) d);
          try reflexivity; lia.
Qed.

(** The theorem on the nest of a kernel over 64 by 64 elements, for
    four threads and a coordinator that has written nothing yet. *)
Lemma parallel_marking_succeeds_witness :
  let ctx := example_context 4 false (fun _ => torch.float32) in
  let k := fst (set_ranges ctx [Integer 64; Integer 64] []
                  (CppKernel_init 4)) in
  let n := {| LoopNestWithSplit.root :=
                LoopNestWithSplit.build_levels k 2 0
                  [("i0", Integer 64); ("i1", Integer 64)];
              LoopNestWithSplit.kernel := LoopNestWithSplit.Count 2;
              LoopNestWithSplit.max_parallel_depth_cache := None |} in
  LoopNestWithSplit.build k = inl n
  /\ exists d stack n' ws',
       codegen_loops_impl_parallel ctx k 1 (n, WorkSharing.init [])
       = ((n', ws'), inl (d, stack))
       /\ 0 <= d <= 2.
Proof.
  intros ctx k n. split; [reflexivity|].
  destruct (parallel_marking_succeeds ctx k 1 n (WorkSharing.init [])
              [Integer 64; Integer 64] eq_refl)
    as (d & stack & n' & ws' & Hrun & Hd & _).
  - cbn. lia.
  - cbn. lia.
  - cbn. lia.
  - reflexivity.
  - exists d, stack, n', ws'. split; [exact Hrun | exact Hd].
Defined.

(** *** The lines of the marked levels *)

Lemma lines_collapsed (cexpr : expr -> string) (W : Z) (is_gcc : bool)
    (l : LoopLevel.t) :
  lines cexpr W is_gcc (LoopNestWithSplit.set_collapsed l)
  = match lines cexpr W is_gcc l with
    | inl _ => inl [LoopLevel.for_header cexpr l]
    | inr e => inr e
    end.
Proof.
  unfold lines.
  change (reduction_text (LoopNestWithSplit.set_collapsed l))
    with (reduction_text l).
  destruct (reduction_text l) as [red | e]; [|reflexivity].
  unfold bind. cbn [LoopLevel.collapsed LoopNestWithSplit.set_collapsed orb].
  match goal with
  | |- _ = match (if ?c then _ else _) with _ => _ end => destruct c
  end; reflexivity.
Qed.

Lemma first_char_nonempty (c : ascii) (s : string) :
  String.eqb (String c s) "" = false.
Proof. reflexivity. Qed.

Lemma lines_parallel (cexpr : expr -> string) (W : Z) (is_gcc : bool)
    (l : LoopLevel.t) (d : Z) (red : string) :
  1 <= d ->
  LoopLevel.simd_omp l = false ->
  LoopLevel.collapsed l = false ->
  reduction_text l = inl red ->
  lines cexpr W is_gcc (LoopNestWithSplit.set_parallel d l)
  = inl [ (fstr ["#pragma omp for"; red; " "]
           ++ (if (1 <? d)%Z then fstr [" collapse("; str_int d; ")"] else ""))%string;
          LoopLevel.for_header cexpr l ].
Proof.
  intros Hd Homp Hcol Hred. unfold lines.
  change (reduction_text (LoopNestWithSplit.set_parallel d l))
    with (reduction_text l).
  rewrite Hred. unfold bind.
  cbn [LoopLevel.parallel LoopLevel.simd_omp LoopLevel.collapsed
       LoopLevel.simd_vec LoopNestWithSplit.set_parallel].
  rewrite Homp, Hcol.
  destruct (Z.eqb_spec d 0) as [? | _]; [lia|].
  cbn [negb andb orb].
  change (LoopLevel.for_header cexpr (LoopNestWithSplit.set_parallel d l))
    with (LoopLevel.for_header cexpr l).
  destruct (1 <? d).
  - unfold fstr at 1. cbn [String.concat String.append].
    rewrite first_char_nonempty. unfold ret. 
    unfold fstr at 2. cbn [String.concat String.append]. reflexivity.
  - unfold fstr at 1. cbn [String.concat String.append].
    rewrite first_char_nonempty. unfold ret.
    rewrite append_empty_r.
    unfold fstr. cbn [String.concat String.append]. reflexivity.
Qed.

Lemma map_singleton_inv {A B} (p : A -> B) (xs : list A) (y : B) :
  map p xs = [y] -> exists x, xs = [x] /\ p x = y.
Proof.
  destruct xs as [|x [|x2 xs]]; cbn; intros H; try discriminate.
  injection H as H. exists x. split; [reflexivity | exact H].
Qed.

(** X15. The directive of a marked nest matches its loops.  After
    [mark_parallel] with a depth [d] of at least 1 within the maximal
    parallel depth, each depth below [d] has one level.  The level at
    depth 0 writes what it wrote before with [parallel] set to [d]:
    for a level that is neither collapsed nor marked for [simd], the
    line [#pragma omp for], with [collapse(d)] when [d] is above 1, and
    its loop header.  Each of the [d - 1] levels below writes its loop
    header and no directive.  Deeper levels write what they wrote
    before. *)
Theorem collapse_matches_headers (cexpr : expr -> string) (W : Z)
    (is_gcc : bool) (n : LoopNestWithSplit.t) (d : Z) :
  LoopNestWithSplit.max_parallel_depth_cache n = None ->
  1 <= d
  <= Z.of_nat (LoopNestWithSplit.parallel_depth_of (LoopNestWithSplit.root n)) ->
  exists n',
    LoopNestWithSplit.mark_parallel d n = (n', inl tt)
    /\ (exists l l',
          LoopNestWithSplit.get_loops_at 0 n = [l]
          /\ LoopNestWithSplit.get_loops_at 0 n' = [l']
          /\ lines cexpr W is_gcc l'
             = lines cexpr W is_gcc (LoopNestWithSplit.set_parallel d l)
          /\ forall red,
               LoopLevel.simd_omp l = false ->
               LoopLevel.collapsed l = false ->
               reduction_text l = inl red ->
               lines cexpr W is_gcc l'
               = inl [ (fstr ["#pragma omp for"; red; " "]
                        ++ (if (1 <? d)%Z
                            then fstr [" collapse("; str_int d; ")"]
                            else ""))%string;
                       LoopLevel.for_header cexpr l ])
    /\ (forall j, (1 <= j < Z.to_nat d)%nat ->
          exists l l',
            LoopNestWithSplit.get_loops_at j n = [l]
            /\ LoopNestWithSplit.get_loops_at j n' = [l']
            /\ lines cexpr W is_gcc l'
               = match lines cexpr W is_gcc l with
                 | inl _ => inl [LoopLevel.for_header cexpr l]
                 | inr e => inr e
                 end)
    /\ (forall j, (Z.to_nat d <= j)%nat ->
          map (lines cexpr W is_gcc) (LoopNestWithSplit.get_loops_at j n')
          = map (lines cexpr W is_gcc) (LoopNestWithSplit.get_loops_at j n)).
Proof.
  intros Hcache Hd.
  destruct (mark_parallel_run n d) as (n' & Hmark & Hl).
  { rewrite Hcache. exact I. }
  { exact Hd. }
  exists n'. split; [exact Hmark|].
  pose proof (Hl _ (lines cexpr W is_gcc) (fun l inner' => eq_refl)) as Hlines.
  set (r := match LoopNestWithSplit.root n with
            | l :: _ => LoopLevel.is_reduction l
            | [] => false
            end).
  assert (Hm : LoopNestWithSplit.rounds r (LoopNestWithSplit.root n)
               = LoopNestWithSplit.parallel_depth_of (LoopNestWithSplit.root n))
    by reflexivity.
  assert (Hone : forall j, (j < Z.to_nat d)%nat ->
            exists l, LoopNestWithSplit.get_loops_at j n = [l]).
  { intros j Hj. apply (chain_singleton r). rewrite Hm. lia. }
  split; [|split].
  - destruct (Hone 0%nat ltac:(lia)) as (l & Hl0).
    pose proof (Hlines 0%nat) as H0. rewrite Hl0 in H0.
    cbn [Nat.eqb map] in H0.
    destruct (map_singleton_inv _ _ _ H0) as (l' & Hl' & Hp).
    exists l, l'. split; [exact Hl0|]. split; [exact Hl'|].
    split; [exact Hp|].
    intros red Homp Hcol Hred. rewrite Hp.
    apply lines_parallel; [lia | assumption..].
  - intros j Hj.
    destruct (Hone j ltac:(lia)) as (l & Hlj).
    pose proof (Hlines j) as H0. rewrite Hlj in H0.
    destruct (Nat.eqb_spec j 0) as [? | _]; [lia|].
    destruct (Nat.ltb_spec j (Z.to_nat d)) as [_ | ?]; [|lia].
    cbn [map] in H0.
    destruct (map_singleton_inv _ _ _ H0) as (l' & Hl' & Hp).
    exists l, l'. split; [exact Hlj|]. split; [exact Hl'|].
    rewrite Hp. apply lines_collapsed.
  - intros j Hj. rewrite (Hlines j). apply map_ext. intros l.
    destruct (Nat.eqb_spec j 0) as [? | _]; [lia|].
    destruct (Nat.ltb_spec j (Z.to_nat d)) as [? | _]; [lia|].
    reflexivity.
Qed.

(** The theorem on the nest of two pointwise loops, both made parallel:
    the outer level writes [collapse(2)], the inner one only its
    header. *)
Lemma collapse_matches_headers_witness :
  let ctx := example_context 4 false (fun _ => torch.float32) in
  let k := bind_ranges (CppKernel_init 4) [Integer 64; Integer 64]
             [Integer 64; Integer 64] ["i0"; "i1"] 2 in
  let n := {| LoopNestWithSplit.root :=
                LoopNestWithSplit.build_levels k 2 0
                  [("i0", Integer 64); ("i1", Integer 64)];
              LoopNestWithSplit.kernel := LoopNestWithSplit.Count 2;
              LoopNestWithSplit.max_parallel_depth_cache := None |} in
  exists n' l0 l1,
    LoopNestWithSplit.mark_parallel 2 n = (n', inl tt)
    /\ LoopNestWithSplit.get_loops_at 0 n' = [l0]
    /\ LoopNestWithSplit.get_loops_at 1 n' = [l1]
    /\ lines (cexpr (common ctx)) 8 true l0
       = inl ["#pragma omp for  collapse(2)";
              "for(long i0=0; i0<64; i0+=1)"]
    /\ lines (cexpr (common ctx)) 8 true l1
       = inl ["for(long i1=0; i1<64; i1+=1)"].
Proof.
  intros ctx k n.
  destruct (collapse_matches_headers (cexpr (common ctx)) 8 true n 2 eq_refl)
    as (n' & Hmark & (l & l0 & Hl & Hl0 & _ & Hp0) & H1 & _).
  { cbn. lia. }
  destruct (H1 1%nat ltac:(cbn; lia)) as (la & l1 & Hla & Hl1 & Hp1).
  exists n', l0, l1. split; [exact Hmark|].
  split; [exact Hl0|]. split; [exact Hl1|].
  injection Hl as <-. injection Hla as <-. split.
  - exact (Hp0 "" eq_refl eq_refl eq_refl).
  - exact Hp1.
Defined.

(** ** The matmul template *)

Lemma group_facts (gm gn G pid : Z) :
  1 <= G -> 0 <= gm -> 0 <= pid < gm * gn ->
  let w := G * gn in
  let g := pid / w in
  let s := Z.min (gm - g * G) G in
  let r := pid mod w in
  1 <= gn /\ 0 <= g /\ pid = w * g + r /\ 0 <= r < w /\ 1 <= s <= G
  /\ g * G + s <= gm /\ r < s * gn.
Proof.
  intros HG Hgm Hpid w g s r.
  assert (Hgn : 1 <= gn) by nia.
  assert (Hw : 0 < w) by (unfold w; nia).
  assert (Hdm : pid = w * g + r) by (apply Z.div_mod; lia).
  assert (Hr : 0 <= r < w) by (apply Z.mod_pos_bound; lia).
  assert (Hg : 0 <= g) by (apply Z.div_pos; lia).
  assert (HgG : g * G < gm).
  { unfold w in *. nia. }
  assert (Hs : 1 <= s <= G) by (unfold s; lia).
  assert (Hsgm : g * G + s <= gm) by (unfold s; lia).
  assert (Hrs : r < s * gn).
  { unfold s. destruct (Z.min_spec (gm - g * G) G) as [[Hlt ->] | [Hge ->]];
      unfold w in *; nia. }
  repeat split; lia.
Qed.

Lemma reorder_in_range (gm gn G pid : Z) :
  1 <= G -> 0 <= gm -> 0 <= pid < gm * gn ->
  0 <= fst (mm.reorder gm gn G pid) < gm
  /\ 0 <= snd (mm.reorder gm gn G pid) < gn.
Proof.
  intros HG Hgm Hpid.
  destruct (group_facts gm gn G pid HG Hgm Hpid)
    as (Hgn & Hg & Hdm & Hr & Hs & Hsgm & Hrs).
  unfold mm.reorder. cbn [fst snd].
  set (w := G * gn) in *. set (g := pid / w) in *.
  set (s := Z.min (gm - g * G) G) in *. set (r := pid mod w) in *.
  pose proof (Z.mod_pos_bound pid s ltac:(lia)) as Hu.
  split; [nia|]. split.
  - apply Z.div_pos; lia.
  - apply Z.div_lt_upper_bound; lia.
Qed.

Lemma mod_shift_inj (a u u' s : Z) :
  0 <= u < s -> 0 <= u' < s -> (a + u) mod s = (a + u') mod s -> u = u'.
Proof.
  intros Hu Hu' H.
  pose proof (Z.div_mod (a + u) s ltac:(lia)) as H1.
  pose proof (Z.div_mod (a + u') s ltac:(lia)) as H2.
  rewrite H in H1.
  set (k := (a + u) / s - (a + u') / s).
  assert (Hk : u - u' = s * k) by (unfold k; lia).
  assert (k = 0) by nia.
  subst k. nia.
Qed.

Lemma reorder_inj (gm gn G pid pid' : Z) :
  1 <= G -> 0 <= gm -> 0 <= pid < gm * gn -> 0 <= pid' < gm * gn ->
  mm.reorder gm gn G pid = mm.reorder gm gn G pid' -> pid = pid'.
Proof.
  intros HG Hgm Hpid Hpid' Heq.
  destruct (group_facts gm gn G pid HG Hgm Hpid)
    as (Hgn & Hg & Hdm & Hr & Hs & Hsgm & Hrs).
  destruct (group_facts gm gn G pid' HG Hgm Hpid')
    as (_ & Hg' & Hdm' & Hr' & Hs' & Hsgm' & Hrs').
  unfold mm.reorder in Heq.
  set (w := G * gn) in *. set (g := pid / w) in *. set (g' := pid' / w) in *.
  set (s := Z.min (gm - g * G) G) in *. set (s' := Z.min (gm - g' * G) G) in *.
  set (r := pid mod w) in *. set (r' := pid' mod w) in *.
  injection Heq as Hm Hn.
  pose proof (Z.mod_pos_bound pid s ltac:(lia)) as Hu.
  pose proof (Z.mod_pos_bound pid' s' ltac:(lia)) as Hu'.
  assert (Hgg : g = g').
  { transitivity ((g * G + pid mod s) / G).
    - apply (Z.div_unique _ G g (pid mod s)); lia.
    - rewrite Hm. symmetry.
      apply (Z.div_unique _ G g' (pid' mod s')); lia. }
  assert (Hss : s = s') by (unfold s, s'; rewrite Hgg; reflexivity).
  rewrite <- Hss in *.
  assert (Hmod : pid mod s = pid' mod s) by lia.
  pose proof (Z.div_mod r s ltac:(lia)) as Hrj.
  pose proof (Z.div_mod r' s ltac:(lia)) as Hrj'.
  pose proof (Z.mod_pos_bound r s ltac:(lia)) as Hv.
  pose proof (Z.mod_pos_bound r' s ltac:(lia)) as Hv'.
  rewrite <- Hn in Hrj'.
  assert (Hvv : r mod s = r' mod s).
  { apply (mod_shift_inj (w * g + s * (r / s)) _ _ s); try lia.
    replace (w * g + s * (r / s) + r mod s) with pid by lia.
    replace (w * g + s * (r / s) + r' mod s) with pid' by lia.
    exact Hmod. }
  lia.
Qed.

Lemma reorder_program_of (gm gn G i j : Z) :
  1 <= G -> 0 <= i < gm -> 0 <= j < gn ->
  0 <= mm.program_of gm gn G i j < gm * gn
  /\ mm.reorder gm gn G (mm.program_of gm gn G i j) = (i, j).
Proof.
  intros HG Hi Hj. unfold mm.program_of.
  set (w := G * gn). set (g := i / G). set (s := Z.min (gm - g * G) G).
  assert (Hw : 0 < w) by (unfold w; nia).
  pose proof (Z.div_mod i G ltac:(lia)) as Hi1.
  pose proof (Z.mod_pos_bound i G ltac:(lia)) as Hi2.
  fold g in Hi1.
  assert (Hg : 0 <= g) by (apply Z.div_pos; lia).
  assert (Hs : 1 <= s <= G) by (unfold s; lia).
  assert (Hsgm : g * G + s <= gm) by (unfold s; lia).
  assert (Ht : 0 <= i - g * G < s) by (unfold s; lia).
  set (u := (i - g * G - w * g) mod s).
  pose proof (Z.mod_pos_bound (i - g * G - w * g) s ltac:(lia)) as Hu.
  fold u in Hu.
  assert (Hrw : 0 <= s * j + u < w) by (unfold w; nia).
  assert (Hrange : 0 <= w * g + s * j + u < gm * gn) by (unfold w in *; nia).
  split; [exact Hrange|].
  unfold mm.reorder. fold w.
  assert (Hdiv : (w * g + s * j + u) / w = g).
  { symmetry. apply (Z.div_unique _ w g (s * j + u)); lia. }
  assert (Hmodw : (w * g + s * j + u) mod w = s * j + u).
  { symmetry. apply (Z.mod_unique _ w g (s * j + u)); lia. }
  rewrite Hdiv, Hmodw. fold s.
  assert (Hmods : (w * g + s * j + u) mod s = i - g * G).
  { replace (w * g + s * j + u) with (w * g + u + j * s) by lia.
    rewrite Z.mod_add by lia.
    unfold u. rewrite Zplus_mod_idemp_r.
    replace (w * g + (i - g * G - w * g)) with (i - g * G) by lia.
    apply Z.mod_small. lia. }
  rewrite Hmods.
  assert (Hj' : (s * j + u) / s = j).
  { symmetry. apply (Z.div_unique _ s j u); lia. }
  rewrite Hj'. f_equal. lia.
Qed.

Lemma cdiv_nonneg (x y : Z) : 0 <= x -> 1 <= y -> 0 <= (x + y - 1) / y.
Proof. intros Hx Hy. apply Z.div_pos; lia. Qed.

(** X16. The programs of the grid and the tiles of the output
    correspond one to one.  For sizes [M], [N] of at least 0 and block
    and group sizes of at least 1, a program id below the grid size
    [cdiv(M, BLOCK_M) * cdiv(N, BLOCK_N)] is re-ordered to a tile inside
    the [cdiv(M, BLOCK_M)] by [cdiv(N, BLOCK_N)] tiles, and every such
    tile is the tile of exactly one program id below the grid size. *)
Theorem programs_and_tiles (M N : Z) (mt : mm.meta) :
  0 <= M -> 0 <= N ->
  1 <= mm.BLOCK_M mt -> 1 <= mm.BLOCK_N mt -> 1 <= mm.GROUP_M mt ->
  let grid := fst (fst (mm.mm_grid M N (mm.BLOCK_M mt) (mm.BLOCK_N mt))) in
  let tiles_m := mm.cdiv M (mm.BLOCK_M mt) in
  let tiles_n := mm.cdiv N (mm.BLOCK_N mt) in
  (forall pid, 0 <= pid < grid ->
     0 <= fst (mm.program_tile M N mt pid) < tiles_m
     /\ 0 <= snd (mm.program_tile M N mt pid) < tiles_n)
  /\ (forall i j, 0 <= i < tiles_m -> 0 <= j < tiles_n ->
        exists pid,
          0 <= pid < grid
          /\ mm.program_tile M N mt pid = (i, j)
          /\ forall pid', 0 <= pid' < grid ->
               mm.program_tile M N mt pid' = (i, j) -> pid' = pid).
Proof.
  intros HM HN HBM HBN HG grid tiles_m tiles_n.
  unfold mm.mm_grid in grid. cbn [fst] in grid.
  subst grid tiles_m tiles_n. unfold mm.program_tile, mm.cdiv.
  pose proof (cdiv_nonneg M (mm.BLOCK_M mt) HM HBM) as Hgm.
  split.
  - intros pid Hpid. apply reorder_in_range; assumption.
  - intros i j Hi Hj.
    destruct (reorder_program_of _ _ (mm.GROUP_M mt) i j HG Hi Hj)
      as (Hrange & Htile).
    eexists. split; [exact Hrange|]. split; [exact Htile|].
    intros pid' Hpid' Htile'.
    apply (reorder_inj ((M + mm.BLOCK_M mt - 1) / mm.BLOCK_M mt)
             ((N + mm.BLOCK_N mt - 1) / mm.BLOCK_N mt) (mm.GROUP_M mt));
      try assumption.
    rewrite Htile, Htile'. reflexivity.
Qed.

(** The theorem on a 100 by 70 output in tiles of 32 by 32, in groups
    of 8. *)
Lemma programs_and_tiles_witness :
  let mt := mm.mm_options 32 32 16 64 in
  (forall pid, 0 <= pid < 12 ->
     0 <= fst (mm.program_tile 100 70 mt pid) < 4
     /\ 0 <= snd (mm.program_tile 100 70 mt pid) < 3)
  /\ (forall i j, 0 <= i < 4 -> 0 <= j < 3 ->
        exists pid,
          0 <= pid < 12
          /\ mm.program_tile 100 70 mt pid = (i, j)
          /\ forall pid', 0 <= pid' < 12 ->
               mm.program_tile 100 70 mt pid' = (i, j) -> pid' = pid).
Proof.
  intros mt.
  apply (programs_and_tiles 100 70 mt); cbn; lia.
Defined.

Lemma block_zrange (a n : Z) :
  map (fun i => a + i) (index_range n) = zrange a (Z.to_nat n).
Proof. unfold index_range, zrange. rewrite map_map. reflexivity. Qed.

Lemma stored_In (M N : Z) (mt : mm.meta) (pid r c : Z) :
  0 <= mm.BLOCK_M mt -> 0 <= mm.BLOCK_N mt ->
  In (r, c) (mm.stored M N mt pid)
  <-> fst (mm.program_tile M N mt pid) * mm.BLOCK_M mt <= r
        < fst (mm.program_tile M N mt pid) * mm.BLOCK_M mt + mm.BLOCK_M mt
      /\ snd (mm.program_tile M N mt pid) * mm.BLOCK_N mt <= c
           < snd (mm.program_tile M N mt pid) * mm.BLOCK_N mt + mm.BLOCK_N mt
      /\ r < M /\ c < N.
Proof.
  intros HBM HBN. unfold mm.stored.
  destruct (mm.program_tile M N mt pid) as [pm pn]. cbn [fst snd].
  rewrite filter_In, in_prod_iff, !block_zrange, !zrange_In.
  cbn [fst snd]. rewrite andb_true_iff, !Z.ltb_lt. lia.
Qed.

Lemma NoDup_list_prod {A B} (l : list A) (l' : list B) :
  NoDup l -> NoDup l' -> NoDup (list_prod l l').
Proof.
  intros Hl Hl'. induction Hl as [|x l Hx Hl IH]; [constructor|].
  cbn [list_prod]. apply NoDup_app.
  - clear -Hl'. induction Hl' as [|y l' Hy Hl' IH]; [constructor|].
    cbn [map]. constructor; [|exact IH].
    rewrite in_map_iff. intros (y' & Heq & Hin).
    injection Heq as <-. contradiction.
  - exact IH.
  - intros [a b]. rewrite in_map_iff, in_prod_iff.
    intros (y & Heq & _) (Ha & _). injection Heq as <- _. contradiction.
Qed.

Lemma div_below_cdiv (r M B : Z) :
  0 <= r < M -> 1 <= B -> 0 <= r / B < (M + B - 1) / B.
Proof.
  intros Hr HB. split; [apply Z.div_pos; lia|].
  apply Z.div_lt_upper_bound; [lia|].
  pose proof (Z.div_mod (M + B - 1) B ltac:(lia)) as H.
  pose proof (Z.mod_pos_bound (M + B - 1) B ltac:(lia)) as H'.
  lia.
Qed.

Lemma block_of (a B r : Z) :
  1 <= B -> a * B <= r < a * B + B -> a = r / B.
Proof.
  intros HB Hr. apply (Z.div_unique r B a (r - a * B)); lia.
Qed.

(** X17. Every element of the output is stored by exactly one program.
    For sizes [M], [N] of at least 0 and block and group sizes of at
    least 1: each element [(r, c)] of the [M] by [N] output is among
    the elements stored by one program id below the grid size and by no
    other; and a program below the grid size stores no element twice
    and none outside the output. *)
Theorem output_stored_once (M N : Z) (mt : mm.meta) :
  0 <= M -> 0 <= N ->
  1 <= mm.BLOCK_M mt -> 1 <= mm.BLOCK_N mt -> 1 <= mm.GROUP_M mt ->
  let grid := fst (fst (mm.mm_grid M N (mm.BLOCK_M mt) (mm.BLOCK_N mt))) in
  (forall r c, 0 <= r < M -> 0 <= c < N ->
     exists pid,
       0 <= pid < grid
       /\ In (r, c) (mm.stored M N mt pid)
       /\ forall pid', 0 <= pid' < grid ->
            In (r, c) (mm.stored M N mt pid') -> pid' = pid)
  /\ (forall pid, 0 <= pid < grid ->
        NoDup (mm.stored M N mt pid)
        /\ forall r c, In (r, c) (mm.stored M N mt pid) ->
             0 <= r < M /\ 0 <= c < N).
Proof.
  intros HM HN HBM HBN HG grid.
  unfold mm.mm_grid in grid. cbn [fst] in grid. subst grid.
  unfold mm.cdiv.
  set (gm := (M + mm.BLOCK_M mt - 1) / mm.BLOCK_M mt).
  set (gn := (N + mm.BLOCK_N mt - 1) / mm.BLOCK_N mt).
  assert (Hgm : 0 <= gm) by (apply cdiv_nonneg; assumption).
  assert (Htile : forall pid, mm.program_tile M N mt pid
                              = mm.reorder gm gn (mm.GROUP_M mt) pid)
    by reflexivity.
  split.
  - intros r c Hr Hc.
    pose proof (div_below_cdiv r M (mm.BLOCK_M mt) Hr HBM) as Hi.
    pose proof (div_below_cdiv c N (mm.BLOCK_N mt) Hc HBN) as Hj.
    fold gm in Hi. fold gn in Hj.
    destruct (reorder_program_of gm gn (mm.GROUP_M mt) _ _ HG Hi Hj)
      as (Hrange & Hpid).
    exists (mm.program_of gm gn (mm.GROUP_M mt)
              (r / mm.BLOCK_M mt) (c / mm.BLOCK_N mt)).
    split; [exact Hrange|]. split.
    + apply stored_In; [lia | lia |]. rewrite Htile, Hpid. cbn [fst snd].
      pose proof (Z.div_mod r (mm.BLOCK_M mt) ltac:(lia)).
      pose proof (Z.mod_pos_bound r (mm.BLOCK_M mt) ltac:(lia)).
      pose proof (Z.div_mod c (mm.BLOCK_N mt) ltac:(lia)).
      pose proof (Z.mod_pos_bound c (mm.BLOCK_N mt) ltac:(lia)).
      lia.
    + intros pid' Hpid' Hin.
      apply stored_In in Hin; [|lia|lia].
      destruct Hin as (Hrm & Hcn & _ & _).
      apply (reorder_inj gm gn (mm.GROUP_M mt)); try assumption.
      rewrite Hpid, <- Htile.
      rewrite (surjective_pairing (mm.program_tile M N mt pid')).
      f_equal; apply block_of; assumption.
  - intros pid Hpid. split.
    + unfold mm.stored.
      destruct (mm.program_tile M N mt pid) as [pm pn].
      apply NoDup_filter. rewrite !block_zrange.
      apply NoDup_list_prod; apply zrange_NoDup.
    + intros r c Hin. apply stored_In in Hin; [|lia|lia].
      destruct Hin as (Hrm & Hcn & HrM & HcN).
      destruct (reorder_in_range gm gn (mm.GROUP_M mt) pid HG Hgm Hpid)
        as (Hpm & Hpn).
      rewrite <- Htile in Hpm, Hpn. nia.
Qed.

(** The theorem on a 100 by 70 output in tiles of 32 by 32, in groups
    of 8. *)
Lemma output_stored_once_witness :
  let mt := mm.mm_options 32 32 16 64 in
  (forall r c, 0 <= r < 100 -> 0 <= c < 70 ->
     exists pid,
       0 <= pid < 12
       /\ In (r, c) (mm.stored 100 70 mt pid)
       /\ forall pid', 0 <= pid' < 12 ->
            In (r, c) (mm.stored 100 70 mt pid') -> pid' = pid)
  /\ (forall pid, 0 <= pid < 12 ->
        NoDup (mm.stored 100 70 mt pid)
        /\ forall r c, In (r, c) (mm.stored 100 70 mt pid) ->
             0 <= r < 100 /\ 0 <= c < 70).
Proof.
  intros mt.
  apply (output_stored_once 100 70 mt); cbn; lia.
Defined.

(** *** The loop over [K] *)

Lemma zrange_nil (lo : Z) : zrange lo 0 = [].
Proof. reflexivity. Qed.

Lemma filter_lt_zrange (m : Z) (n : nat) :
  forall lo,
    filter (fun x => x <? m) (zrange lo n)
    = zrange lo (Z.to_nat (Z.min (Z.of_nat n) (m - lo))).
Proof.
  induction n as [|n IH]; intros lo.
  - replace (Z.to_nat (Z.min (Z.of_nat 0) (m - lo))) with 0%nat by lia.
    reflexivity.
  - rewrite zrange_cons. cbn [filter]. rewrite IH.
    destruct (Z.ltb_spec lo m) as [Hlt | Hge].
    + replace (Z.to_nat (Z.min (Z.of_nat (S n)) (m - lo)))
        with (S (Z.to_nat (Z.min (Z.of_nat n) (m - (lo + 1))))) by lia.
      rewrite zrange_cons. reflexivity.
    + replace (Z.to_nat (Z.min (Z.of_nat n) (m - (lo + 1)))) with 0%nat by lia.
      replace (Z.to_nat (Z.min (Z.of_nat (S n)) (m - lo))) with 0%nat by lia.
      reflexivity.
Qed.

(** The columns one round loads under the mask, [t] rounds in. *)
Lemma masked_round (K BK : Z) (t : nat) :
  0 <= BK ->
  map (fun x => Z.of_nat t * BK + x)
      (filter (fun x => x <? K - Z.of_nat t * BK) (index_range BK))
  = zrange (Z.of_nat t * BK)
      (Z.to_nat (Z.min BK (K - Z.of_nat t * BK))).
Proof.
  intros HBK. rewrite index_range_zrange, filter_lt_zrange.
  unfold zrange. rewrite map_map.
  replace (Z.min (Z.of_nat (Z.to_nat BK)) (K - Z.of_nat t * BK - 0))
    with (Z.min BK (K - Z.of_nat t * BK)) by lia.
  apply map_ext. intros k. lia.
Qed.

Lemma masked_rounds (K BK : Z) (n : nat) :
  1 <= BK ->
  forall a : nat,
    flat_map (fun t => zrange (Z.of_nat t * BK)
                         (Z.to_nat (Z.min BK (K - Z.of_nat t * BK))))
      (List.seq a n)
    = zrange (Z.of_nat a * BK)
        (Z.to_nat (Z.min (Z.of_nat n * BK) (K - Z.of_nat a * BK))).
Proof.
  intros HBK. induction n as [|n IH]; intros a.
  - cbn [List.seq flat_map].
    replace (Z.to_nat (Z.min (Z.of_nat 0 * BK) (K - Z.of_nat a * BK)))
      with 0%nat by lia.
    reflexivity.
  - cbn [List.seq flat_map]. rewrite IH.
    destruct (Z.le_gt_cases BK (K - Z.of_nat a * BK)) as [Hfull | Hpart].
    + replace (Z.to_nat (Z.min BK (K - Z.of_nat a * BK)))
        with (Z.to_nat BK) by lia.
      replace (Z.to_nat (Z.min (Z.of_nat (S n) * BK) (K - Z.of_nat a * BK)))
        with (Z.to_nat BK
              + Z.to_nat (Z.min (Z.of_nat n * BK)
                            (K - Z.of_nat (S a) * BK)))%nat by nia.
      rewrite zrange_app. do 2 f_equal. nia.
    + replace (Z.to_nat (Z.min (Z.of_nat n * BK) (K - Z.of_nat (S a) * BK)))
        with 0%nat by nia.
      rewrite zrange_nil, app_nil_r. f_equal. nia.
Qed.

(** The loop, round by round: after the rounds for [t = a, ..., a+n-1]
    the pointer stands [a + n] blocks in. *)
Lemma k_fold (K : Z) (mt : mm.meta) (n : nat) :
  forall (a : nat) (loaded : list Z),
    fold_left (mm.k_step mt)
      (map (fun t => K - Z.of_nat t * mm.BLOCK_K mt) (List.seq a n))
      (Z.of_nat a * mm.BLOCK_K mt, loaded)
    = (Z.of_nat (a + n) * mm.BLOCK_K mt,
       loaded
       ++ flat_map
            (fun t =>
               map (fun x => Z.of_nat t * mm.BLOCK_K mt + x)
                 (if mm.EVEN_K mt then index_range (mm.BLOCK_K mt)
                  else filter (fun x => x <? K - Z.of_nat t * mm.BLOCK_K mt)
                         (index_range (mm.BLOCK_K mt))))
            (List.seq a n)).
Proof.
  induction n as [|n IH]; intros a loaded.
  - cbn [List.seq map fold_left flat_map]. rewrite app_nil_r, Nat.add_0_r.
    reflexivity.
  - cbn [List.seq map fold_left flat_map]. unfold mm.k_step at 2.
    replace (Z.of_nat a * mm.BLOCK_K mt + mm.BLOCK_K mt)
      with (Z.of_nat (S a) * mm.BLOCK_K mt) by lia.
    rewrite IH, <- app_assoc. do 2 f_equal. lia.
Qed.

Lemma rounds_cover (K BK : Z) :
  0 <= K -> 1 <= BK ->
  Z.to_nat (Z.min (Z.of_nat (Z.to_nat ((K + BK - 1) / BK)) * BK) K)
  = Z.to_nat K.
Proof.
  intros HK HBK.
  pose proof (Z.div_mod (K + BK - 1) BK ltac:(lia)) as H.
  pose proof (Z.mod_pos_bound (K + BK - 1) BK ltac:(lia)) as H'.
  assert (0 <= (K + BK - 1) / BK) by (apply Z.div_pos; lia).
  rewrite Z2Nat.id by lia. f_equal. apply Z.min_r. lia.
Qed.

(** X18. The loop over [K] loads every column once and none beyond
    [K].  For [K] of at least 0 and a block size of at least 1, the
    columns of [A] (the rows of [B]) loaded under the mask [rk < k] are
    [0, 1, ..., K-1] in this order.  With [EVEN_K] as [mm_options] sets
    it, the loads without a mask are the same: the flag is set only
    when the block size divides [K]. *)
Theorem k_loop_loads_each_column_once (K : Z) (mt : mm.meta) :
  0 <= K -> 1 <= mm.BLOCK_K mt ->
  mm.EVEN_K mt = false
  \/ mm.EVEN_K mt = (Z.gcd K (mm.BLOCK_K mt) =? mm.BLOCK_K mt) ->
  mm.k_columns K mt = index_range K.
Proof.
  intros HK HBK Heven. unfold mm.k_columns, mm.range_down.
  set (BK := mm.BLOCK_K mt) in *.
  set (n := Z.to_nat ((K + BK - 1) / BK)).
  pose proof (k_fold K mt n 0 []) as Hfold. fold BK in Hfold.
  change (Z.of_nat 0 * BK) with 0 in Hfold. rewrite Hfold.
  cbn [snd app].
  assert (Hmasked :
            flat_map
              (fun t => map (fun x => Z.of_nat t * BK + x)
                          (filter (fun x => x <? K - Z.of_nat t * BK)
                             (index_range BK)))
              (List.seq 0 n)
            = index_range K).
  { rewrite (flat_map_ext _ _ (fun t => masked_round K BK t ltac:(lia))).
    rewrite masked_rounds by lia.
    change (Z.of_nat 0 * BK) with 0. rewrite Z.sub_0_r.
    unfold n. rewrite rounds_cover by lia.
    rewrite index_range_zrange. reflexivity. }
  destruct (mm.EVEN_K mt) eqn:He; [|exact Hmasked].
  destruct Heven as [? | Hgcd]; [discriminate|].
  symmetry in Hgcd. apply Z.eqb_eq in Hgcd.
  assert (Hdiv : (BK | K)) by (rewrite <- Hgcd; apply Z.gcd_divide_l).
  destruct Hdiv as (q & Hq).
  rewrite <- Hmasked.
  rewrite !flat_map_concat_map. f_equal.
  apply map_ext_in. intros t Ht. apply in_seq in Ht. f_equal.
  symmetry. rewrite index_range_zrange, filter_lt_zrange. f_equal.
  assert (Hn : Z.of_nat n = q).
  { unfold n. rewrite Z2Nat.id by (apply Z.div_pos; lia).
    subst K. replace (q * BK + BK - 1) with (BK - 1 + q * BK) by lia.
    rewrite Z.div_add by lia. rewrite Z.div_small by lia. lia. }
  nia.
Qed.

(** The theorem on [K = 70] in blocks of 32, where the loads are
    masked, and on [K = 64], where they are not. *)
Lemma k_loop_loads_each_column_once_witness :
  mm.k_columns 70 (mm.mm_options 32 32 32 70) = index_range 70
  /\ mm.EVEN_K (mm.mm_options 32 32 32 70) = false
  /\ mm.k_columns 64 (mm.mm_options 32 32 32 64) = index_range 64
  /\ mm.EVEN_K (mm.mm_options 32 32 32 64) = true.
Proof.
  split; [|split; [reflexivity | split; [|reflexivity]]].
  - apply (k_loop_loads_each_column_once 70 (mm.mm_options 32 32 32 70)).
    + lia.
    + cbn. lia.
    + right. reflexivity.
  - apply (k_loop_loads_each_column_once 64 (mm.mm_options 32 32 32 64)).
    + lia.
    + cbn. lia.
    + right. reflexivity.
Defined.

(** ** Integer division *)

(** C++ division truncates; the quotient rounded down is one less when
    the signs differ and there is a remainder. *)
Lemma floor_of_quot (x y : Z) :
  y <> 0 ->
  x / y = if negb (Bool.eqb (x <? 0) (y <? 0)) && negb (Z.rem x y =? 0)
          then Z.quot x y - 1 else Z.quot x y.
Proof.
  intros Hy.
  pose proof (Z.quot_rem' x y) as Hqr.
  pose proof (Z.rem_bound_abs x y Hy) as Habs.
  pose proof (Z.rem_sign_mul x y Hy) as Hsign.
  destruct (Z.eqb_spec (Z.rem x y) 0) as [H0 | Hn0].
  - rewrite andb_false_r. symmetry.
    apply (Z.div_unique x y (Z.quot x y) 0); lia.
  - cbn [negb]. rewrite andb_true_r.
    destruct (Z.ltb_spec x 0), (Z.ltb_spec y 0); cbn [Bool.eqb negb];
      symmetry.
    + assert (Z.rem x y <= 0) by nia.
      apply (Z.div_unique x y (Z.quot x y) (Z.rem x y)); lia.
    + assert (Z.rem x y <= 0) by nia.
      apply (Z.div_unique x y (Z.quot x y - 1) (Z.rem x y + y)); lia.
    + assert (0 <= Z.rem x y).
      { destruct (Z.eq_dec x 0) as [-> | ?]; [rewrite Z.rem_0_l in *; lia|].
        nia. }
      apply (Z.div_unique x y (Z.quot x y - 1) (Z.rem x y + y)); lia.
    + assert (0 <= Z.rem x y).
      { destruct (Z.eq_dec x 0) as [-> | ?]; [rewrite Z.rem_0_l in *; lia|].
        nia. }
      apply (Z.div_unique x y (Z.quot x y) (Z.rem x y)); lia.
Qed.

Lemma quot_in_range (W x y : Z) :
  - W <= x < W -> - W <= y < W -> y <> 0 -> x <> - W \/ y <> -1 ->
  - W <= Z.quot x y < W.
Proof.
  intros Hx Hy Hy0 Hov.
  pose proof (Z.quot_rem' x y) as Hqr.
  pose proof (Z.rem_bound_abs x y Hy0) as Habs.
  pose proof (Z.rem_sign_mul x y Hy0) as Hsign.
  nia.
Qed.

Lemma quot_minus_one_in_range (W x y : Z) :
  2 <= W -> - W <= x < W -> - W <= y < W -> y <> 0 ->
  (x <? 0) <> (y <? 0) -> Z.rem x y <> 0 ->
  - W <= Z.quot x y - 1 < W.
Proof.
  intros HW Hx Hy Hy0 Hs Hr.
  pose proof (Z.quot_rem' x y) as Hqr.
  pose proof (Z.rem_bound_abs x y Hy0) as Habs.
  pose proof (Z.rem_sign_mul x y Hy0) as Hsign.
  destruct (Z.ltb_spec x 0), (Z.ltb_spec y 0); try congruence; nia.
Qed.

Lemma int_value_in (bits x : Z) :
  int_in_range bits x = true -> int_value bits x = Some x.
Proof. intros H. unfold int_value. rewrite H. reflexivity. Qed.

Lemma int_in_range_iff (bits x : Z) :
  int_in_range bits x = true <-> - 2 ^ (bits - 1) <= x < 2 ^ (bits - 1).
Proof.
  unfold int_in_range. rewrite andb_true_iff, Z.leb_le, Z.ltb_lt.
  reflexivity.
Qed.

(** X19. [floordiv] writes floor division.  For two variables of a
    signed integer type of at least 2 bits, a divisor that is not 0 and
    operands that are not the least value and -1, the text of
    [floordiv] is an expression C++ reads as written, and its value is
    the quotient rounded down; the text of [truncdiv] has the quotient
    rounded towards zero. *)
Theorem floordiv_is_floor (bits : Z) (env : string -> Z) (a b : string) :
  2 <= bits ->
  int_in_range bits (env a) = true ->
  int_in_range bits (env b) = true ->
  env b <> 0 ->
  env a <> - 2 ^ (bits - 1) \/ env b <> -1 ->
  iexp_str (floordiv_exp (IVar a) (IVar b)) = floordiv a b
  /\ reads_as_written (floordiv_exp (IVar a) (IVar b)) = true
  /\ eval_iexp bits env (floordiv_exp (IVar a) (IVar b))
     = Some (env a / env b)
  /\ iexp_str (IBin "/" (IVar a) (IVar b)) = truncdiv a b
  /\ eval_iexp bits env (IBin "/" (IVar a) (IVar b))
     = Some (Z.quot (env a) (env b)).
Proof.
  intros Hbits Hx Hy Hy0 Hov.
  set (x := env a) in *. set (y := env b) in *.
  assert (HW : 2 <= 2 ^ (bits - 1)).
  { change 2 with (2 ^ 1) at 1. apply Z.pow_le_mono_r; lia. }
  pose proof (proj1 (int_in_range_iff bits x) Hx) as Hxr.
  pose proof (proj1 (int_in_range_iff bits y) Hy) as Hyr.
  pose proof (quot_in_range _ x y Hxr Hyr Hy0 Hov) as Hq.
  assert (Hqv : int_value bits (Z.quot x y) = Some (Z.quot x y))
    by (apply int_value_in, int_in_range_iff; exact Hq).
  assert (H0v : int_value bits 0 = Some 0)
    by (apply int_value_in, int_in_range_iff; lia).
  assert (H1v : int_value bits 1 = Some 1)
    by (apply int_value_in, int_in_range_iff; lia).
  assert (Hdiv : eval_ibin bits "/" x y = Some (Z.quot x y)).
  { unfold eval_ibin. cbn [String.eqb Ascii.eqb Bool.eqb].
    destruct (Z.eqb_spec y 0); [contradiction | exact Hqv]. }
  assert (Hrem : eval_ibin bits "%" x y = Some (Z.rem x y)).
  { unfold eval_ibin. cbn [String.eqb Ascii.eqb Bool.eqb].
    destruct (Z.eqb_spec y 0); [contradiction|].
    rewrite (proj2 (int_in_range_iff bits (Z.quot x y)) Hq). reflexivity. }
  assert (Hlt : forall v, eval_ibin bits "<" v 0
                          = Some (if v <? 0 then 1 else 0))
    by reflexivity.
  assert (Hne : forall v w, eval_ibin bits "!=" v w
                            = Some (if v =? w then 0 else 1))
    by reflexivity.
  assert (Hsub : forall v w, eval_ibin bits "-" v w = int_value bits (v - w))
    by reflexivity.
  split; [|split; [reflexivity | split; [|split]]].
  - unfold floordiv_exp, floordiv. cbn [iexp_str]. same_text.
  - unfold floordiv_exp. cbn [eval_iexp]. fold x y.
    rewrite (int_value_in _ _ Hx), (int_value_in _ _ Hy), H0v, H1v.
    rewrite Hdiv, Hrem, !Hlt, !Hne, Hsub.
    rewrite (floor_of_quot x y Hy0).
    destruct (Z.eqb_spec (Z.rem x y) 0) as [Hr | Hr].
    + rewrite andb_false_r.
      destruct (x <? 0), (y <? 0); reflexivity.
    + rewrite andb_true_r.
      destruct (Z.ltb_spec x 0) as [Hx0 | Hx0],
               (Z.ltb_spec y 0) as [Hy1 | Hy1];
        cbn [Bool.eqb negb]; try reflexivity;
        change (1 =? 0) with false; change (0 =? 1) with false;
        cbv iota; change (1 =? 0) with false; cbv iota;
        apply int_value_in, int_in_range_iff;
        apply (quot_minus_one_in_range _ x y HW Hxr Hyr Hy0); try exact Hr;
        destruct (Z.ltb_spec x 0), (Z.ltb_spec y 0); try lia; discriminate.
  - unfold truncdiv. cbn [iexp_str]. reflexivity.
  - cbn [eval_iexp]. fold x y.
    rewrite (int_value_in _ _ Hx), (int_value_in _ _ Hy). exact Hdiv.
Qed.

(** The theorem on [-7] and [2] as [long]: C++ gives [-3] for
    [tmp0 / tmp1], the text of [floordiv] gives [-4]. *)
Lemma floordiv_is_floor_witness :
  let env := fun x => if String.eqb x "tmp0" then -7 else 2 in
  eval_iexp 64 env (floordiv_exp (IVar "tmp0") (IVar "tmp1")) = Some (-4)
  /\ eval_iexp 64 env (IBin "/" (IVar "tmp0") (IVar "tmp1")) = Some (-3)
  /\ floordiv "tmp0" "tmp1"
     = "((tmp0 < 0) != (tmp1 < 0) ? (tmp0 % tmp1 != 0 ? tmp0 / tmp1 - 1 : tmp0 / tmp1) : tmp0 / tmp1)".
Proof.
  intros env.
  destruct (floordiv_is_floor 64 env "tmp0" "tmp1") as (_ & _ & Hf & _ & Ht).
  - lia.
  - reflexivity.
  - reflexivity.
  - cbn. lia.
  - right. cbn. lia.
  - split; [exact Hf|]. split; [exact Ht | reflexivity].
Defined.

(** ** Fusion and the group of the kernel *)

Lemma tuple_eqb_refl (xs : list expr) : tuple_eqb xs xs = true.
Proof. apply tuple_eqb_eq. reflexivity. Qed.

Lemma can_fuse_horizontal_cases (node1 node2 : SchedulerNode) :
  can_fuse_horizontal node1 node2 = true
  <-> node_group node1 = node_group node2
      \/ node_group node1
         = (fst (node_group node2) ++ snd (node_group node2), []).
Proof.
  unfold can_fuse_horizontal.
  destruct (node_group node1) as [vars1 reduce1].
  destruct (node_group node2) as [vars2 reduce2]. cbn [fst snd].
  destruct (tuple_eqb vars1 vars2 && tuple_eqb reduce1 reduce2) eqn:Hsame.
  - apply andb_true_iff in Hsame. destruct Hsame as [Hv Hr].
    apply tuple_eqb_eq in Hv, Hr. subst. tauto.
  - destruct (tuple_eqb reduce1 [] && tuple_eqb vars1 (vars2 ++ reduce2))
      eqn:Hpoint.
    + apply andb_true_iff in Hpoint. destruct Hpoint as [Hr Hv].
      apply tuple_eqb_eq in Hv, Hr. subst. tauto.
    + split; [discriminate|]. intros [Heq | Heq]; injection Heq as -> ->.
      * rewrite !tuple_eqb_refl in Hsame. discriminate.
      * rewrite !tuple_eqb_refl in Hpoint. discriminate.
Qed.

(** X20. What the scheduler may fuse, the kernel takes.  Two nodes
    that [can_fuse_horizontal] accepts range over the same iteration
    space, pointwise and reduction ranges taken together; every node is
    accepted with itself; and [can_fuse_vertical] accepts no more than
    [can_fuse_horizontal] and never a reduction as its first node.
    When every node of a list is accepted together with a node [n],
    each of them passes the test of the group that [can_vec] and
    [_codegen_nodes_impl] make for a kernel of the group of [n]: the
    assertion on an unexpected group does not fail. *)
Theorem fused_nodes_fit_the_kernel (nodes : list SchedulerNode)
    (n : SchedulerNode) :
  Forall (fun node => can_fuse_horizontal node n = true) nodes ->
  forallb (fits_group (fst (node_group n)) (snd (node_group n))) nodes = true
  /\ Forall (fun node =>
               fst (node_group node) ++ snd (node_group node)
               = fst (node_group n) ++ snd (node_group n)) nodes
  /\ can_fuse_horizontal n n = true
  /\ forall node, can_fuse_vertical node n = true ->
       can_fuse_horizontal node n = true /\ node_is_reduction node = false.
Proof.
  intros Hall. split; [|split; [|split]].
  - apply forallb_forall. intros node Hin.
    rewrite Forall_forall in Hall.
    pose proof (proj1 (can_fuse_horizontal_cases _ _) (Hall node Hin)) as Hc.
    unfold fits_group, group_eqb.
    destruct Hc as [-> | ->]; cbn [fst snd]; rewrite !tuple_eqb_refl.
    + reflexivity.
    + cbn [andb orb]. rewrite orb_true_r. reflexivity.
  - apply Forall_forall. intros node Hin.
    rewrite Forall_forall in Hall.
    pose proof (proj1 (can_fuse_horizontal_cases _ _) (Hall node Hin)) as Hc.
    destruct Hc as [-> | ->]; [reflexivity|].
    cbn [fst snd]. apply app_nil_r.
  - apply can_fuse_horizontal_cases. left. reflexivity.
  - intros node H. unfold can_fuse_vertical in H.
    apply andb_true_iff in H. destruct H as [Hh Hr].
    split; [exact Hh|]. destruct (node_is_reduction node);
      [discriminate | reflexivity].
Qed.

(** The theorem on a reduction over [8 x 32] and a pointwise node over
    the same 256 elements in two dimensions. *)
Lemma fused_nodes_fit_the_kernel_witness :
  let red := {| node_group := ([Integer 8], [Integer 32]);
                node_is_reduction := true;
                node_run := fun _ _ => [] |} in
  let pw := {| node_group := ([Integer 8; Integer 32], []);
               node_is_reduction := false;
               node_run := fun _ _ => [] |} in
  forallb (fits_group [Integer 8] [Integer 32]) [pw; red] = true
  /\ can_fuse_horizontal pw red = true
  /\ can_fuse_horizontal red pw = false.
Proof.
  intros red pw.
  destruct (fused_nodes_fit_the_kernel [pw; red] red) as (Hfit & _).
  - repeat constructor.
  - split; [exact Hfit|]. split; reflexivity.
Defined.

(** ** Writing the loops *)

(** Induction on a level with the levels inside it. *)
Lemma LoopLevel_induction (P : LoopLevel.t -> Prop) :
  (forall l, Forall P (LoopLevel.inner l) -> P l) ->
  forall l, P l.
Proof.
  intros H. fix IH 1. intros l. apply H.
  destruct l as [v s o st p so sv c r inner k]. cbn [LoopLevel.inner].
  induction inner as [|x rest IHrest]; constructor.
  - apply IH.
  - exact IHrest.
Qed.

Lemma open_blocks_from (evs : list code_event) (d : Z) :
  WorkSharing.open_blocks evs d = d + WorkSharing.open_blocks evs 0.
Proof.
  revert d. induction evs as [|[s| |] evs IH]; intros d;
    cbn [WorkSharing.open_blocks].
  - lia.
  - apply IH.
  - rewrite (IH (d + 1)), (IH (0 + 1)). lia.
  - rewrite (IH (d - 1)), (IH (0 - 1)). lia.
Qed.

Lemma open_blocks_lines (ls : list string) (d : Z) :
  WorkSharing.open_blocks (map Line ls) d = d.
Proof. induction ls as [|l ls IH]; cbn; auto. Qed.

Lemma blocks_beyond_write (evs : list code_event) (ws : WorkSharing.t) :
  blocks_beyond (code_write evs ws)
  = blocks_beyond ws + WorkSharing.open_blocks evs 0.
Proof.
  unfold blocks_beyond, code_write.
  cbn [WorkSharing.code WorkSharing.stack].
  rewrite open_blocks_app, open_blocks_from. lia.
Qed.

Lemma blocks_beyond_indent (ws : WorkSharing.t) :
  blocks_beyond (code_indent ws) = blocks_beyond ws + 1.
Proof. exact (blocks_beyond_write [EnterIndent] ws). Qed.

Lemma blocks_beyond_close (ws : WorkSharing.t) :
  blocks_beyond (WorkSharing.close ws) = blocks_beyond ws.
Proof.
  unfold blocks_beyond, WorkSharing.close.
  cbn [WorkSharing.code WorkSharing.stack].
  rewrite open_blocks_app, open_blocks_exits. lia.
Qed.

Lemma blocks_beyond_parallel (cfg : Config) (t : Z) (ws : WorkSharing.t) :
  blocks_beyond (WorkSharing.parallel cfg t ws) = blocks_beyond ws.
Proof.
  unfold WorkSharing.parallel.
  set (ws1 := if WorkSharing.in_parallel ws
                 && WorkSharing.differs t (WorkSharing.num_threads ws)
              then WorkSharing.close ws else ws).
  assert (H1 : blocks_beyond ws1 = blocks_beyond ws).
  { subst ws1. destruct (_ && _); [apply blocks_beyond_close | reflexivity]. }
  destruct (negb (WorkSharing.in_parallel ws1)); [|exact H1].
  rewrite <- H1. unfold blocks_beyond.
  cbn [WorkSharing.code WorkSharing.stack].
  rewrite open_blocks_app, open_blocks_from.
  cbn [WorkSharing.open_blocks]. lia.
Qed.

Lemma blocks_beyond_single (ws : WorkSharing.t) :
  blocks_beyond (fst (WorkSharing.single ws)) = blocks_beyond ws.
Proof.
  unfold WorkSharing.single. cbn [fst].
  destruct (WorkSharing.in_parallel ws); [|reflexivity].
  unfold blocks_beyond. cbn [WorkSharing.code WorkSharing.stack].
  rewrite open_blocks_app. reflexivity.
Qed.

Lemma keeps_ret {A} (a : A) : keeps_blocks (retM a).
Proof. intros ws. reflexivity. Qed.

Lemma keeps_raise {A} (e : exn) : keeps_blocks (@raiseM _ A e).
Proof. intros ws. reflexivity. Qed.

Lemma keeps_lift {A} (r : result A) : keeps_blocks (liftM r).
Proof. intros ws. reflexivity. Qed.

Lemma keeps_bind {A B} (m : M WorkSharing.t A) (k : A -> M WorkSharing.t B) :
  keeps_blocks m -> (forall a, keeps_blocks (k a)) -> keeps_blocks (bindM m k).
Proof.
  intros Hm Hk ws. unfold bindM. specialize (Hm ws).
  destruct (m ws) as [ws' [a | e]]; cbn [fst] in *.
  - rewrite (Hk a ws'). exact Hm.
  - exact Hm.
Qed.

Lemma keeps_splice (ls : list string) : keeps_blocks (splice ls).
Proof.
  intros ws. unfold splice, modifyM. cbn [fst].
  rewrite blocks_beyond_write, open_blocks_lines. lia.
Qed.

Lemma keeps_with_indent {A} (m : M WorkSharing.t A) :
  keeps_blocks m -> keeps_blocks (with_indent m).
Proof.
  intros Hm ws. unfold with_indent. specialize (Hm (code_indent ws)).
  destruct (m (code_indent ws)) as [ws' r]. cbn [fst] in *.
  rewrite blocks_beyond_write, Hm, blocks_beyond_indent.
  cbn [WorkSharing.open_blocks]. lia.
Qed.

Lemma keeps_for_each {A} (f : A -> M WorkSharing.t unit) (xs : list A) :
  Forall (fun x => keeps_blocks (f x)) xs -> keeps_blocks (for_each f xs).
Proof.
  induction 1 as [|x xs Hx _ IH]; cbn [for_each].
  - apply keeps_ret.
  - apply keeps_bind; [exact Hx | intros _; exact IH].
Qed.

Lemma keeps_gen_kernel (k : CppKernel) : keeps_blocks (gen_kernel k).
Proof.
  unfold gen_kernel.
  repeat (apply keeps_bind; [apply keeps_splice | intros _]).
  apply keeps_splice.
Qed.

Lemma keeps_gen_loops_with (ctx : Context) (threads : Z)
    (loop_nest : LoopNestWithSplit.t)
    (gen : LoopLevel.t -> bool -> M WorkSharing.t unit)
    (loops : list LoopLevel.t) (in_reduction : bool) :
  Forall (fun l => forall b, keeps_blocks (gen l b)) loops ->
  keeps_blocks (gen_loops_with ctx threads loop_nest gen loops in_reduction).
Proof.
  intros Hgen. unfold gen_loops_with.
  destruct loops as [|loop rest]; [apply keeps_ret|].
  set (loops := loop :: rest) in *.
  assert (Hrest :
    keeps_blocks
      ((if LoopNestWithSplit.is_reduction_only loop_nest
           && negb (LoopLevel.parallel loop =? 0)
        then modifyM (WorkSharing.parallel (config_cpp ctx) threads)
        else retM tt) ;;;
       for_each (fun loop => gen loop in_reduction) loops ;;;
       (if LoopNestWithSplit.is_reduction_only loop_nest
           && negb (LoopLevel.parallel (last loops loop) =? 0)
        then modifyM WorkSharing.close
        else retM tt) ;;;
       for_each
         (fun loop =>
            if LoopLevel.is_reduction loop && negb in_reduction then
              for_each (fun kernel =>
                          splice (map snd (reduction_suffix kernel)))
                (get_kernels loop)
            else retM tt)
         loops)).
  { apply keeps_bind; [|intros _].
    { destruct (_ && _); [|apply keeps_ret].
      intros ws. apply blocks_beyond_parallel. }
    apply keeps_bind; [|intros _].
    { apply keeps_for_each. apply Forall_forall. intros l Hl.
      rewrite Forall_forall in Hgen. apply Hgen. exact Hl. }
    apply keeps_bind; [|intros _].
    { destruct (_ && _); [|apply keeps_ret].
      intros ws. apply blocks_beyond_close. }
    apply keeps_for_each. apply Forall_forall. intros l _.
    destruct (_ && _); [|apply keeps_ret].
    apply keeps_for_each. apply Forall_forall. intros k _.
    apply keeps_splice. }
  destruct (LoopLevel.is_reduction loop && negb in_reduction);
    [|exact Hrest].
  destruct (get_kernels loop) as [|kernel0 ks]; [apply keeps_raise|].
  destruct (reduction_prefix kernel0) as [|p ps].
  - apply keeps_bind; [apply keeps_splice | intros _; exact Hrest].
  - apply keeps_with_indent.
    apply keeps_bind; [apply keeps_splice | intros _; exact Hrest].
Qed.

Lemma gen_loop_eq (ctx : Context) (W : Z) (is_gcc : bool) (threads : Z)
    (loop_nest : LoopNestWithSplit.t) (loop : LoopLevel.t) (b : bool) :
  gen_loop ctx W is_gcc threads loop_nest loop b
  = (ls <~ liftM (lines (cexpr (common ctx)) W is_gcc loop) ;;
     modifyM (code_write (map Line ls)) ;;;
     with_indent
       (match LoopLevel.inner loop with
        | _ :: _ =>
            gen_loops_with ctx threads loop_nest
              (gen_loop ctx W is_gcc threads loop_nest)
              (LoopLevel.inner loop) (LoopLevel.is_reduction loop)
        | [] =>
            match get_kernels loop with
            | [kernel] => gen_kernel kernel
            | _ => raiseM AssertionError
            end
        end)).
Proof. destruct loop. reflexivity. Qed.

Lemma keeps_gen_loop (ctx : Context) (W : Z) (is_gcc : bool) (threads : Z)
    (loop_nest : LoopNestWithSplit.t) (loop : LoopLevel.t) :
  forall b, keeps_blocks (gen_loop ctx W is_gcc threads loop_nest loop b).
Proof.
  induction loop as [loop IH] using LoopLevel_induction. intros b.
  rewrite gen_loop_eq.
  apply keeps_bind; [apply keeps_lift | intros ls].
  apply keeps_bind; [|intros _].
  { intros ws. unfold modifyM. cbn [fst].
    rewrite blocks_beyond_write, open_blocks_lines. lia. }
  apply keeps_with_indent.
  destruct (LoopLevel.inner loop) as [|l1 rest] eqn:Hinner.
  - destruct (get_kernels loop) as [|k [|k2 ks]];
      [apply keeps_raise | apply keeps_gen_kernel | apply keeps_raise].
  - apply keeps_gen_loops_with. exact IH.
Qed.

Lemma on_nest_worksharing {A} (m : M LoopNestWithSplit.t A) (s : loops_state) :
  snd (fst (on_nest m s)) = snd s.
Proof. unfold on_nest. destruct (m (fst s)). reflexivity. Qed.

Lemma opens_bind {A B} (m : M loops_state A) (k : A -> M loops_state B)
    (more : B -> Z) :
  opens_blocks m (fun _ => 0) -> (forall a, opens_blocks (k a) more) ->
  opens_blocks (bindM m k) more.
Proof.
  intros Hm Hk s. unfold bindM. specialize (Hm s).
  destruct (m s) as [s1 [a | e]].
  - specialize (Hk a s1). destruct (k a s1) as [s2 [b | e]]; lia.
  - exact Hm.
Qed.

Lemma opens_ret {A} (a : A) (more : A -> Z) :
  more a = 0 -> opens_blocks (retM a) more.
Proof. intros H s. cbn. lia. Qed.

Lemma opens_lift {A} (r : result A) : opens_blocks (liftM r) (fun _ => 0).
Proof. intros s. unfold liftM. destruct r; lia. Qed.

Lemma opens_get : opens_blocks (@getM loops_state) (fun _ => 0).
Proof. intros s. cbn. lia. Qed.

Lemma opens_on_nest {A} (m : M LoopNestWithSplit.t A) :
  opens_blocks (on_nest m) (fun _ => 0).
Proof.
  intros s. pose proof (on_nest_worksharing m s) as H.
  destruct (on_nest m s) as [s1 [a | e]]; cbn [fst] in H; rewrite H; lia.
Qed.

Lemma opens_on_worksharing (f : WorkSharing.t -> WorkSharing.t) (d : Z) :
  (forall ws, blocks_beyond (f ws) = blocks_beyond ws + d) ->
  opens_blocks (on_worksharing f) (fun _ => d).
Proof. intros H s. cbn. apply H. Qed.

Lemma opens_bind_ret {A B} (m : M loops_state A) (f : A -> B)
    (ma : A -> Z) (more : B -> Z) :
  opens_blocks m ma -> (forall a, more (f a) = ma a) ->
  opens_blocks (bindM m (fun a => retM (f a))) more.
Proof.
  intros Hm Hf s. unfold bindM. specialize (Hm s).
  destruct (m s) as [s1 [a | e]]; cbn; [rewrite Hf|]; exact Hm.
Qed.

(** The start of [codegen_loops_impl] leaves open the blocks its
    [ExitStack] has entered and no other. *)
Lemma codegen_loops_impl_parallel_blocks (ctx : Context) (k : CppKernel)
    (torch_num_threads : Z) :
  opens_blocks (codegen_loops_impl_parallel ctx k torch_num_threads)
    (fun r => Z.of_nat (snd r)).
Proof.
  unfold codegen_loops_impl_parallel.
  set (T := parallel_num_threads (config_cpp ctx) torch_num_threads).
  apply opens_bind; [apply opens_on_nest | intros m].
  apply opens_bind; [apply opens_lift | intros cr].
  apply opens_bind; [apply opens_lift | intros d].
  apply (opens_bind_ret _ _ (fun stack => Z.of_nat stack));
    [|reflexivity].
  destruct (negb (d =? 0)).
  - apply opens_bind; [apply opens_get | intros s0].
    apply opens_bind; [|intros _].
    { destruct (LoopNestWithSplit.is_reduction_only (fst s0));
        apply opens_on_worksharing; intros ws.
      - rewrite blocks_beyond_close. lia.
      - rewrite blocks_beyond_parallel. lia. }
    apply opens_bind; [apply opens_on_nest | intros _].
    apply opens_ret. reflexivity.
  - destruct (1 <? T); [|apply opens_ret; reflexivity].
    intros s. unfold bindM at 1, getM at 1. cbv beta iota.
    unfold WorkSharing.single.
    destruct (WorkSharing.in_parallel (snd s)) eqn:Hin.
    + unfold bindM, modifyM, on_worksharing, retM, ret. cbv beta iota.
      unfold modifyM. cbv beta iota. cbn [fst snd].
      rewrite !Hin. unfold ret. cbv beta iota. cbn [fst snd].
      rewrite blocks_beyond_indent. unfold blocks_beyond.
      cbn [WorkSharing.code WorkSharing.stack].
      rewrite open_blocks_app. cbn [WorkSharing.open_blocks]. lia.
    + unfold bindM, modifyM, retM, ret. cbv beta iota. cbn [fst snd].
      rewrite !Hin. cbv beta iota. cbn [fst snd]. lia.
Qed.

(** X21. [codegen_loops_impl] leaves open no block of its own.
    Whatever the kernel, the nest and the state of the work-sharing
    coordinator, and whether it returns or raises: the indented blocks
    that are open in the code afterwards, beyond those the coordinator
    has entered and will leave when it is closed, are as many as
    before. *)
Theorem codegen_loops_impl_closes_its_blocks (ctx : Context) (W : Z)
    (is_gcc : bool) (k : CppKernel) (torch_num_threads : Z)
    (s : loops_state) :
  blocks_beyond
    (snd (fst (codegen_loops_impl ctx W is_gcc k torch_num_threads s)))
  = blocks_beyond (snd s).
Proof.
  unfold codegen_loops_impl.
  pose proof (codegen_loops_impl_parallel_blocks ctx k torch_num_threads s)
    as Hhead.
  destruct (codegen_loops_impl_parallel ctx k torch_num_threads s)
    as [[loop_nest ws1] [[par_depth stack] | e]]; cbn [fst snd] in *;
    [|exact Hhead].
  set (T := parallel_num_threads (config_cpp ctx) torch_num_threads).
  assert (Hbody : forall ws3 outcome,
            (ws3, outcome)
            = match LoopNestWithSplit.root loop_nest with
              | _ :: _ =>
                  match gen_loops ctx W is_gcc T loop_nest
                          (LoopNestWithSplit.root loop_nest) false
                          (code_indent ws1) with
                  | (ws3, inl _) => (ws3, Done)
                  | (ws3, inr e) => (ws3, Raises e)
                  end
              | [] =>
                  match LoopNestWithSplit.kernel loop_nest with
                  | LoopNestWithSplit.Kernel kernel =>
                      (fst (gen_kernel kernel (code_indent ws1)), Done)
                  | LoopNestWithSplit.Count O =>
                      (code_indent ws1, Raises AssertionError)
                  | LoopNestWithSplit.Count (S _) =>
                      (code_indent ws1, AttributeError)
                  end
              end ->
            blocks_beyond ws3 = blocks_beyond ws1 + 1).
  { intros ws3 outcome Heq. rewrite <- blocks_beyond_indent.
    destruct (LoopNestWithSplit.root loop_nest) as [|l rest] eqn:Hroot.
    - destruct (LoopNestWithSplit.kernel loop_nest) as [[|c] | kernel];
        injection Heq as -> _; try reflexivity.
      apply keeps_gen_kernel.
    - assert (Hk : keeps_blocks
                     (gen_loops ctx W is_gcc T loop_nest (l :: rest) false)).
      { unfold gen_loops. apply keeps_gen_loops_with.
        apply Forall_forall. intros x _. apply keeps_gen_loop. }
      specialize (Hk (code_indent ws1)).
      destruct (gen_loops ctx W is_gcc T loop_nest (l :: rest) false
                  (code_indent ws1)) as [ws' [[] | e]];
        injection Heq as -> _; exact Hk. }
  match goal with
  | |- context [let (ws3, outcome) := ?body in _] =>
      destruct body as [ws3 outcome] eqn:Hb
  end.
  cbn [fst snd]. rewrite blocks_beyond_write.
  rewrite (Hbody ws3 outcome eq_refl), Hhead.
  change (repeat ExitIndent (S stack)) with (ExitIndent :: repeat ExitIndent stack).
  cbn [WorkSharing.open_blocks]. rewrite open_blocks_exits. lia.
Qed.

(** *** What is written *)

Lemma writes_weaken {A} (m : M WorkSharing.t A) (ls ls' : list string) :
  writes m ls -> incl ls' ls -> writes m ls'.
Proof.
  intros Hm Hincl ws. destruct (Hm ws) as (ws' & a & evs & Hrun & Hcode & Hin).
  exists ws', a, evs. split; [exact Hrun|]. split; [exact Hcode|].
  intros x Hx. apply Hin, Hincl, Hx.
Qed.

Lemma writes_ret {A} (a : A) : writes (retM a) [].
Proof.
  intros ws. exists ws, a, []. split; [reflexivity|].
  split; [symmetry; apply app_nil_r|]. intros x [].
Qed.

Lemma writes_bind {A B} (m : M WorkSharing.t A) (k : A -> M WorkSharing.t B)
    (l1 l2 : list string) :
  writes m l1 -> (forall a, writes (k a) l2) -> writes (bindM m k) (l1 ++ l2).
Proof.
  intros Hm Hk ws.
  destruct (Hm ws) as (ws1 & a & evs1 & Hrun1 & Hcode1 & Hin1).
  destruct (Hk a ws1) as (ws2 & b & evs2 & Hrun2 & Hcode2 & Hin2).
  exists ws2, b, (evs1 ++ evs2). split.
  - unfold bindM. rewrite Hrun1. exact Hrun2.
  - split; [rewrite Hcode2, Hcode1, app_assoc; reflexivity|].
    intros x Hx. apply in_or_app. apply in_app_or in Hx.
    destruct Hx; [left; apply Hin1 | right; apply Hin2]; assumption.
Qed.

Lemma writes_then {A B} (m : M WorkSharing.t A) (k : A -> M WorkSharing.t B)
    (ls : list string) :
  writes m [] -> (forall a, writes (k a) ls) -> writes (bindM m k) ls.
Proof. intros Hm Hk. exact (writes_bind m k [] ls Hm Hk). Qed.

Lemma writes_first {A B} (m : M WorkSharing.t A) (k : A -> M WorkSharing.t B)
    (ls : list string) :
  writes m ls -> (forall a, writes (k a) []) -> writes (bindM m k) ls.
Proof.
  intros Hm Hk. apply (writes_weaken _ (ls ++ []) ls).
  - apply writes_bind; assumption.
  - rewrite app_nil_r. apply incl_refl.
Qed.

Lemma writes_nothing {A} (m : M WorkSharing.t A) (ls : list string) :
  writes m ls -> writes m [].
Proof. intros H. apply (writes_weaken m ls []); [exact H | intros x []]. Qed.

Lemma writes_modify (f : WorkSharing.t -> WorkSharing.t) :
  (forall ws, exists evs, WorkSharing.code (f ws) = WorkSharing.code ws ++ evs) ->
  writes (modifyM f) [].
Proof.
  intros Hf ws. destruct (Hf ws) as (evs & Hcode).
  exists (f ws), tt, evs. split; [reflexivity|].
  split; [exact Hcode|]. intros x [].
Qed.

Lemma close_appends (ws : WorkSharing.t) :
  exists evs,
    WorkSharing.code (WorkSharing.close ws) = WorkSharing.code ws ++ evs.
Proof. eexists. reflexivity. Qed.

Lemma parallel_appends (cfg : Config) (t : Z) (ws : WorkSharing.t) :
  exists evs,
    WorkSharing.code (WorkSharing.parallel cfg t ws)
    = WorkSharing.code ws ++ evs.
Proof.
  unfold WorkSharing.parallel.
  destruct (WorkSharing.in_parallel ws
            && WorkSharing.differs t (WorkSharing.num_threads ws)).
  - cbn [WorkSharing.close WorkSharing.in_parallel negb WorkSharing.code].
    rewrite <- app_assoc. eexists. reflexivity.
  - destruct (negb (WorkSharing.in_parallel ws));
      cbn [WorkSharing.code]; [eexists; reflexivity|].
    exists []. symmetry. apply app_nil_r.
Qed.

Lemma writes_splice (ls : list string) : writes (splice ls) ls.
Proof.
  intros ws. exists (code_write (map Line ls) ws), tt, (map Line ls).
  split; [reflexivity|]. split; [reflexivity|].
  intros x Hx. apply in_map. exact Hx.
Qed.

Lemma writes_with_indent {A} (m : M WorkSharing.t A) (ls : list string) :
  writes m ls -> writes (with_indent m) ls.
Proof.
  intros Hm ws.
  destruct (Hm (code_indent ws)) as (ws' & a & evs & Hrun & Hcode & Hin).
  exists (code_write [ExitIndent] ws'), a, (EnterIndent :: evs ++ [ExitIndent]).
  split; [unfold with_indent; rewrite Hrun; reflexivity|]. split.
  - cbn [code_write WorkSharing.code]. rewrite Hcode.
    cbn [code_indent WorkSharing.code].
    rewrite <- !app_assoc. reflexivity.
  - intros x Hx. right. apply in_or_app. left. apply Hin, Hx.
Qed.

Lemma writes_for_each {A} (f : A -> M WorkSharing.t unit)
    (L : A -> list string) (xs : list A) :
  Forall (fun x => writes (f x) (L x)) xs ->
  writes (for_each f xs) (flat_map L xs).
Proof.
  induction 1 as [|x xs Hx _ IH]; cbn [for_each flat_map].
  - apply writes_ret.
  - apply writes_bind; [exact Hx | intros _; exact IH].
Qed.

Lemma writes_gen_kernel (k : CppKernel) :
  writes (gen_kernel k) (kernel_lines k).
Proof.
  unfold gen_kernel, kernel_lines.
  apply writes_bind; [apply writes_splice | intros _].
  apply writes_bind; [apply writes_splice | intros _].
  apply writes_splice.
Qed.

Lemma writable_eq (l : LoopLevel.t) :
  writable l
  = match reduction_text l with inl _ => true | inr _ => false end
    && match LoopLevel.inner l, LoopLevel.kernel l with
       | [], Some _ => true
       | [], None => false
       | _ :: _, Some _ => false
       | _ :: _, None => forallb writable (LoopLevel.inner l)
       end.
Proof. destruct l as [v s o st p so sv c r [|x inner] [k|]]; reflexivity. Qed.

Lemma writable_kernels (l : LoopLevel.t) :
  writable l = true -> get_kernels l <> [].
Proof.
  induction l as [l IH] using LoopLevel_induction.
  rewrite writable_eq, get_kernels_eq. intros H.
  apply andb_true_iff in H. destruct H as [_ H].
  destruct (LoopLevel.inner l) as [|x inner], (LoopLevel.kernel l) as [k|];
    try discriminate.
  cbn [forallb] in H. apply andb_true_iff in H. destruct H as [Hx _].
  inversion IH as [|? ? IHx _]. subst.
  cbn [flat_map]. intros Hnil. apply app_eq_nil in Hnil.
  destruct Hnil as [Hnil _]. exact (IHx Hx Hnil).
Qed.

Lemma lines_of_writable (cexpr : expr -> string) (W : Z) (is_gcc : bool)
    (l : LoopLevel.t) :
  writable l = true -> exists ls, lines cexpr W is_gcc l = inl ls.
Proof.
  rewrite writable_eq. intros H. apply andb_true_iff in H.
  destruct H as [H _]. unfold lines.
  destruct (reduction_text l) as [red | e]; [|discriminate].
  unfold bind.
  match goal with
  | |- exists ls, (if ?c then _ else _) = _ => destruct c
  end; eexists; reflexivity.
Qed.

Lemma writes_gen_loops_with (ctx : Context) (threads : Z)
    (loop_nest : LoopNestWithSplit.t)
    (gen : LoopLevel.t -> bool -> M WorkSharing.t unit)
    (loops : list LoopLevel.t) (in_reduction : bool) :
  forallb writable loops = true ->
  Forall (fun l => forall b,
            writes (gen l b) (flat_map kernel_lines (get_kernels l))) loops ->
  writes (gen_loops_with ctx threads loop_nest gen loops in_reduction)
    (flat_map kernel_lines (flat_map get_kernels loops)).
Proof.
  intros Hw Hgen. unfold gen_loops_with.
  destruct loops as [|loop rest]; [apply writes_ret|].
  set (loops := loop :: rest) in *.
  assert (Hrest :
    writes
      ((if LoopNestWithSplit.is_reduction_only loop_nest
           && negb (LoopLevel.parallel loop =? 0)
        then modifyM (WorkSharing.parallel (config_cpp ctx) threads)
        else retM tt) ;;;
       for_each (fun loop => gen loop in_reduction) loops ;;;
       (if LoopNestWithSplit.is_reduction_only loop_nest
           && negb (LoopLevel.parallel (last loops loop) =? 0)
        then modifyM WorkSharing.close
        else retM tt) ;;;
       for_each
         (fun loop =>
            if LoopLevel.is_reduction loop && negb in_reduction then
              for_each (fun kernel =>
                          splice (map snd (reduction_suffix kernel)))
                (get_kernels loop)
            else retM tt)
         loops)
      (flat_map kernel_lines (flat_map get_kernels loops))).
  { apply writes_then; [|intros _].
    { destruct (_ && _); [|apply writes_ret].
      apply writes_modify. apply parallel_appends. }
    apply writes_first; [|intros _].
    { rewrite flat_map_flat_map.
      apply writes_for_each. apply Forall_forall. intros l Hl.
      rewrite Forall_forall in Hgen. apply Hgen. exact Hl. }
    apply writes_then; [|intros _].
    { destruct (_ && _); [|apply writes_ret].
      apply writes_modify. apply close_appends. }
    apply (writes_nothing _ (flat_map
             (fun l => if LoopLevel.is_reduction l && negb in_reduction
                       then flat_map (fun k => map snd (reduction_suffix k))
                              (get_kernels l)
                       else []) loops)).
    apply writes_for_each. apply Forall_forall. intros l _.
    destruct (_ && _); [|apply writes_ret].
    apply writes_for_each. apply Forall_forall. intros k _.
    apply writes_splice. }
  destruct (LoopLevel.is_reduction loop && negb in_reduction);
    [|exact Hrest].
  cbn [forallb] in Hw. apply andb_true_iff in Hw. destruct Hw as [Hloop _].
  pose proof (writable_kernels loop Hloop) as Hk.
  destruct (get_kernels loop) as [|kernel0 ks]; [contradiction|].
  assert (Hpre : writes (splice (reduction_prefix kernel0) ;;;
                         (if LoopNestWithSplit.is_reduction_only loop_nest
                             && negb (LoopLevel.parallel loop =? 0)
                          then modifyM (WorkSharing.parallel (config_cpp ctx)
                                          threads)
                          else retM tt) ;;;
                         for_each (fun loop => gen loop in_reduction) loops ;;;
                         (if LoopNestWithSplit.is_reduction_only loop_nest
                             && negb (LoopLevel.parallel (last loops loop) =? 0)
                          then modifyM WorkSharing.close
                          else retM tt) ;;;
                         for_each
                           (fun loop =>
                              if LoopLevel.is_reduction loop
                                 && negb in_reduction then
                                for_each
                                  (fun kernel =>
                                     splice (map snd (reduction_suffix kernel)))
                                  (get_kernels loop)
                              else retM tt)
                           loops)
                  (flat_map kernel_lines (flat_map get_kernels loops))).
  { apply writes_then; [|intros _; exact Hrest].
    apply (writes_nothing _ (reduction_prefix kernel0)), writes_splice. }
  destruct (reduction_prefix kernel0) as [|p ps]; [exact Hpre|].
  apply writes_with_indent. exact Hpre.
Qed.

Lemma writes_gen_loop (ctx : Context) (W : Z) (is_gcc : bool) (threads : Z)
    (loop_nest : LoopNestWithSplit.t) (loop : LoopLevel.t) :
  writable loop = true ->
  forall b,
    writes (gen_loop ctx W is_gcc threads loop_nest loop b)
      (flat_map kernel_lines (get_kernels loop)).
Proof.
  induction loop as [loop IH] using LoopLevel_induction. intros Hw b.
  rewrite gen_loop_eq.
  destruct (lines_of_writable (cexpr (common ctx)) W is_gcc loop Hw)
    as (ls & Hls).
  rewrite Hls. rewrite writable_eq in Hw.
  apply andb_true_iff in Hw. destruct Hw as [_ Hw].
  apply writes_then; [|intros ls'].
  { intros ws. exists ws, ls, []. split; [reflexivity|].
    split; [symmetry; apply app_nil_r|]. intros x []. }
  apply writes_then; [|intros _].
  { apply writes_modify. intros ws. eexists. reflexivity. }
  apply writes_with_indent.
  rewrite !get_kernels_eq.
  destruct (LoopLevel.inner loop) as [|l1 rest] eqn:Hinner,
           (LoopLevel.kernel loop) as [k|] eqn:Hkernel; try discriminate.
  - cbn [flat_map]. rewrite app_nil_r. apply writes_gen_kernel.
  - apply writes_gen_loops_with; [exact Hw|].
    apply Forall_forall. intros x Hx b'.
    rewrite Forall_forall in IH. apply (IH x Hx).
    rewrite forallb_forall in Hw. apply Hw. exact Hx.
Qed.

Lemma bindM_inv {S A B} (m : M S A) (k : A -> M S B) (s s' : S) (b : B) :
  bindM m k s = (s', inl b) ->
  exists s1 a, m s = (s1, inl a) /\ k a s1 = (s', inl b).
Proof.
  unfold bindM. destruct (m s) as [s1 [a | e]]; intros H.
  - exists s1, a. split; [reflexivity | exact H].
  - discriminate.
Qed.

Lemma build_levels_writable (k : CppKernel) (rd : nat) (cs : list string)
    (vs : list (string * expr)) :
  reduction_clauses (reduction_var_map k) = inl cs ->
  forall depth,
    forallb writable (LoopNestWithSplit.build_levels k rd depth vs) = true.
Proof.
  intros Hcs. induction vs as [|[var size] rest IH]; intros depth;
    [reflexivity|].
  cbn [LoopNestWithSplit.build_levels forallb]. rewrite andb_true_r.
  rewrite writable_eq.
  cbn [LoopLevel.inner LoopLevel.kernel].
  apply andb_true_iff. split.
  - unfold reduction_text, LoopLevel.is_reduction.
    cbn [LoopLevel.reduction_var_map].
    destruct (rd <=? depth)%nat; [|reflexivity].
    destruct (reduction_var_map k); [reflexivity|].
    rewrite Hcs. reflexivity.
  - destruct rest as [|p rest']; [reflexivity|].
    specialize (IH (S depth)).
    destruct (LoopNestWithSplit.build_levels k rd (S depth) (p :: rest'))
      as [|x xs] eqn:Hb; [|exact IH].
    destruct p. discriminate.
Qed.

Lemma update_first_cons (f : LoopLevel.t -> LoopLevel.t) (i : nat)
    (loops loops' : list LoopLevel.t) :
  LoopNestWithSplit.update_first i f loops = Some loops' ->
  loops <> [] /\ loops' <> [].
Proof.
  destruct loops as [|l rest]; [destruct i; discriminate|].
  destruct i as [|i]; cbn [LoopNestWithSplit.update_first].
  - intros [= <-]. split; discriminate.
  - destruct (LoopNestWithSplit.update_first i f (LoopLevel.inner l));
      [|discriminate].
    intros [= <-]. split; discriminate.
Qed.

Lemma update_first_writable (f : LoopLevel.t -> LoopLevel.t) :
  (forall l, writable (f l) = writable l) ->
  (forall l, get_kernels (f l) = get_kernels l) ->
  forall (i : nat) (loops loops' : list LoopLevel.t),
    LoopNestWithSplit.update_first i f loops = Some loops' ->
    (forallb writable loops = true -> forallb writable loops' = true)
    /\ flat_map get_kernels loops' = flat_map get_kernels loops.
Proof.
  intros Hw Hk. induction i as [|i IH]; intros [|l rest] loops' H;
    try discriminate; cbn [LoopNestWithSplit.update_first] in H.
  - injection H as <-. cbn [forallb flat_map]. rewrite Hw, Hk. auto.
  - destruct (LoopNestWithSplit.update_first i f (LoopLevel.inner l))
      as [inner'|] eqn:Hu; [|discriminate].
    injection H as <-.
    destruct (IH _ _ Hu) as (IHw & IHk).
    destruct (update_first_cons _ _ _ _ Hu) as (Hne & Hne').
    cbn [forallb flat_map]. split.
    + intros Hall. apply andb_true_iff in Hall. destruct Hall as [Hl Hrest].
      apply andb_true_iff. split; [|exact Hrest].
      rewrite writable_eq in Hl |- *.
      cbn [LoopLevel.inner LoopLevel.kernel LoopLevel.with_inner].
      apply andb_true_iff in Hl. destruct Hl as [Hrt Hin].
      apply andb_true_iff. split; [exact Hrt|].
      destruct (LoopLevel.inner l) as [|x xs]; [contradiction|].
      destruct (LoopLevel.kernel l); [discriminate|].
      destruct inner' as [|y ys]; [contradiction|].
      apply IHw. exact Hin.
    + f_equal. rewrite !get_kernels_eq.
      cbn [LoopLevel.inner LoopLevel.kernel LoopLevel.with_inner].
      destruct (LoopLevel.kernel l); [reflexivity | exact IHk].
Qed.

Lemma set_parallel_writable (d : Z) (l : LoopLevel.t) :
  writable (LoopNestWithSplit.set_parallel d l) = writable l.
Proof. rewrite !writable_eq. reflexivity. Qed.

Lemma set_collapsed_writable (l : LoopLevel.t) :
  writable (LoopNestWithSplit.set_collapsed l) = writable l.
Proof. rewrite !writable_eq. reflexivity. Qed.

Lemma set_parallel_kernels (d : Z) (l : LoopLevel.t) :
  get_kernels (LoopNestWithSplit.set_parallel d l) = get_kernels l.
Proof. rewrite !get_kernels_eq. reflexivity. Qed.

Lemma set_collapsed_kernels (l : LoopLevel.t) :
  get_kernels (LoopNestWithSplit.set_collapsed l) = get_kernels l.
Proof. rewrite !get_kernels_eq. reflexivity. Qed.

Lemma assign_first_writable (f : LoopLevel.t -> LoopLevel.t) (i : nat)
    (n n' : LoopNestWithSplit.t) :
  (forall l, writable (f l) = writable l) ->
  (forall l, get_kernels (f l) = get_kernels l) ->
  LoopNestWithSplit.assign_first i f n = (n', inl tt) ->
  (forallb writable (LoopNestWithSplit.root n) = true ->
   forallb writable (LoopNestWithSplit.root n') = true)
  /\ flat_map get_kernels (LoopNestWithSplit.root n')
     = flat_map get_kernels (LoopNestWithSplit.root n).
Proof.
  intros Hw Hk H. unfold LoopNestWithSplit.assign_first in H.
  apply bindM_inv in H. destruct H as (n1 & a & Hget & H).
  injection Hget as <- <-.
  destruct (LoopNestWithSplit.update_first i f (LoopNestWithSplit.root n))
    as [r|] eqn:Hu; [|discriminate].
  injection H as <-. cbn [LoopNestWithSplit.root LoopNestWithSplit.set_root].
  exact (update_first_writable f Hw Hk i _ _ Hu).
Qed.

Lemma collapse_levels_writable (depths : list nat) :
  forall n n',
    LoopNestWithSplit.collapse_levels depths n = (n', inl tt) ->
    (forallb writable (LoopNestWithSplit.root n) = true ->
     forallb writable (LoopNestWithSplit.root n') = true)
    /\ flat_map get_kernels (LoopNestWithSplit.root n')
       = flat_map get_kernels (LoopNestWithSplit.root n).
Proof.
  induction depths as [|i rest IH]; intros n n' H;
    cbn [LoopNestWithSplit.collapse_levels] in H.
  - injection H as <-. auto.
  - apply bindM_inv in H. destruct H as (n1 & [] & H1 & H2).
    destruct (assign_first_writable _ _ _ _ set_collapsed_writable
                set_collapsed_kernels H1) as (Hw1 & Hk1).
    destruct (IH _ _ H2) as (Hw2 & Hk2).
    split; [auto | congruence].
Qed.

Lemma mark_parallel_writable (d : Z) (n n' : LoopNestWithSplit.t) :
  LoopNestWithSplit.mark_parallel d n = (n', inl tt) ->
  (forallb writable (LoopNestWithSplit.root n) = true ->
   forallb writable (LoopNestWithSplit.root n') = true)
  /\ flat_map get_kernels (LoopNestWithSplit.root n')
     = flat_map get_kernels (LoopNestWithSplit.root n).
Proof.
  intros H. unfold LoopNestWithSplit.mark_parallel in H.
  apply bindM_inv in H. destruct H as (n1 & m & Hmax & H).
  assert (Hroot : LoopNestWithSplit.root n1 = LoopNestWithSplit.root n).
  { unfold LoopNestWithSplit.max_parallel_depth in Hmax.
    apply bindM_inv in Hmax. destruct Hmax as (n0 & a & Hget & Hmax).
    injection Hget as <- <-.
    destruct (LoopNestWithSplit.max_parallel_depth_cache n).
    - injection Hmax as <- _. reflexivity.
    - apply bindM_inv in Hmax. destruct Hmax as (n2 & [] & Hmod & Hret).
      injection Hmod as <-. injection Hret as <- _. reflexivity. }
  apply bindM_inv in H. destruct H as (n2 & [] & Hassert & H).
  assert (n2 = n1).
  { unfold assertM, liftM in Hassert. injection Hassert as <- _. reflexivity. }
  subst n2.
  apply bindM_inv in H. destruct H as (n3 & [] & Hassign & Hcollapse).
  destruct (assign_first_writable _ _ _ _ (set_parallel_writable d)
              (set_parallel_kernels d) Hassign) as (Hw1 & Hk1).
  destruct (collapse_levels_writable _ _ _ Hcollapse) as (Hw2 & Hk2).
  rewrite Hroot in *. split; [auto | congruence].
Qed.

Lemma head_appends (cfg : Config) (T : Z) (b c : bool) (ws : WorkSharing.t) :
  exists evs,
    WorkSharing.code
      (if b then
         if c then WorkSharing.close ws else WorkSharing.parallel cfg T ws
       else if (1 <? T) && WorkSharing.in_parallel ws
            then code_indent (fst (WorkSharing.single ws))
            else ws)
    = WorkSharing.code ws ++ evs.
Proof.
  destruct b.
  - destruct c; [apply close_appends | apply parallel_appends].
  - destruct ((1 <? T) && WorkSharing.in_parallel ws).
    + unfold WorkSharing.single, code_indent. cbn [fst WorkSharing.code].
      destruct (WorkSharing.in_parallel ws); cbn [WorkSharing.code].
      * rewrite <- app_assoc. eexists. reflexivity.
      * eexists. reflexivity.
    + exists []. rewrite app_nil_r. reflexivity.
Qed.

(** [codegen_loops_impl] on a nest that can be written. *)
Lemma codegen_loops_impl_writes (ctx : Context) (W : Z) (is_gcc : bool)
    (k : CppKernel) (torch_num_threads : Z) (n : LoopNestWithSplit.t)
    (ws : WorkSharing.t) (cr : list expr) (ks : list CppKernel) :
  call_ranges k = Some cr ->
  1 <= parallel_num_threads (config_cpp ctx) torch_num_threads < 2 ^ 1023 ->
  1 <= min_chunk_size (config_cpp ctx) ->
  Z.abs (sizevars_size_hint (graph ctx) (sympy_product cr)) < 2 ^ 1023 ->
  LoopNestWithSplit.max_parallel_depth_cache n = None ->
  match LoopNestWithSplit.root n with
  | [] => exists k0, LoopNestWithSplit.kernel n = LoopNestWithSplit.Kernel k0
                     /\ ks = [k0]
  | _ :: _ =>
      forallb writable (LoopNestWithSplit.root n) = true
      /\ flat_map get_kernels (LoopNestWithSplit.root n) = ks
  end ->
  exists n' ws' evs,
    codegen_loops_impl ctx W is_gcc k torch_num_threads (n, ws)
    = ((n', ws'), Done)
    /\ WorkSharing.code ws' = WorkSharing.code ws ++ evs
    /\ forall x, In x (flat_map kernel_lines ks) -> In (Line x) evs.
Proof.
  intros Hcr HT Hmin Hwork Hcache Hnest.
  destruct (codegen_loops_impl_parallel_run ctx k torch_num_threads n ws cr
              Hcr HT Hmin Hwork Hcache) as (d & n' & Hd & Hmark & Hhead).
  unfold codegen_loops_impl. rewrite Hhead. clear Hhead.
  destruct (head_appends (config_cpp ctx)
              (parallel_num_threads (config_cpp ctx) torch_num_threads)
              (negb (d =? 0)) (LoopNestWithSplit.is_reduction_only n) ws)
    as (evs1 & Hevs1).
  set (ws1 := if negb (d =? 0) then _ else _) in *.
  set (stack := if (d =? 0) && _ && _ then _ else _).
  assert (Hn' :
    match LoopNestWithSplit.root n' with
    | [] => exists k0, LoopNestWithSplit.kernel n' = LoopNestWithSplit.Kernel k0
                       /\ ks = [k0]
    | _ :: _ =>
        forallb writable (LoopNestWithSplit.root n') = true
        /\ flat_map get_kernels (LoopNestWithSplit.root n') = ks
    end).
  { destruct (d =? 0) eqn:Hd0.
    - subst n'. exact Hnest.
    - destruct (mark_parallel_writable _ _ _ Hmark) as (Hw & Hk).
      cbn [LoopNestWithSplit.root LoopNestWithSplit.set_cache] in Hw, Hk.
      destruct (LoopNestWithSplit.root n) as [|l rest] eqn:Hroot.
      + apply Z.eqb_neq in Hd0. cbn in Hd. lia.
      + destruct Hnest as (Hall & Hks). specialize (Hw Hall).
        destruct (LoopNestWithSplit.root n') as [|l' rest'].
        * exfalso. cbn [forallb] in Hall. apply andb_true_iff in Hall.
          apply (writable_kernels l (proj1 Hall)).
          cbn [flat_map] in Hk. symmetry in Hk.
          apply app_eq_nil in Hk. exact (proj1 Hk).
        * split; [exact Hw | congruence]. }
  destruct (LoopNestWithSplit.root n') as [|l' rest'] eqn:Hroot'.
  - destruct Hn' as (k0 & Hk0 & ->). rewrite Hk0.
    destruct (writes_gen_kernel k0 (code_indent ws1))
      as (ws3 & [] & evs3 & Hrun & Hcode & Hin).
    rewrite Hrun. cbn [fst].
    exists n', (code_write (repeat ExitIndent (S stack)) ws3),
      (evs1 ++ [EnterIndent] ++ evs3 ++ repeat ExitIndent (S stack)).
    split; [reflexivity|]. split.
    + unfold code_write. cbn [WorkSharing.code]. rewrite Hcode.
      unfold code_indent. cbn [WorkSharing.code]. rewrite Hevs1.
      rewrite <- !app_assoc. reflexivity.
    + intros x Hx. cbn [flat_map] in Hx. rewrite app_nil_r in Hx.
      apply in_or_app. right. apply in_or_app. right.
      apply in_or_app. left. exact (Hin x Hx).
  - destruct Hn' as (Hall & Hks).
    assert (Hgen :
      writes (gen_loops ctx W is_gcc
                (parallel_num_threads (config_cpp ctx) torch_num_threads)
                n' (l' :: rest') false)
        (flat_map kernel_lines (flat_map get_kernels (l' :: rest')))).
    { apply writes_gen_loops_with; [exact Hall|].
      apply Forall_forall. intros l Hl b.
      apply writes_gen_loop.
      exact (proj1 (forallb_forall _ _) Hall l Hl). }
    destruct (Hgen (code_indent ws1)) as (ws3 & [] & evs3 & Hrun & Hcode & Hin).
    rewrite Hrun.
    exists n', (code_write (repeat ExitIndent (S stack)) ws3),
      (evs1 ++ [EnterIndent] ++ evs3 ++ repeat ExitIndent (S stack)).
    split; [reflexivity|]. split.
    + unfold code_write. cbn [WorkSharing.code]. rewrite Hcode.
      unfold code_indent. cbn [WorkSharing.code]. rewrite Hevs1.
      rewrite <- !app_assoc. reflexivity.
    + intros x Hx. rewrite <- Hks in Hx.
      apply in_or_app. right. apply in_or_app. right.
      apply in_or_app. left. exact (Hin x Hx).
Qed.

(** X22. [codegen_loops] returns and writes the body of the kernel.
    For a kernel whose ranges are set, whose total work is below
    2^1023 in size and whose reduction variables all have a known kind,
    with at least one and fewer than 2^1023 threads and a minimum chunk
    size of at least 1, [CppKernel.codegen_loops] raises nothing: the
    nest is built, the parallel depth is decided without a float
    overflowing and marked, every assertion on the way holds.  The code of the coordinator is only appended to, and
    every line of the loads, the compute buffer and the stores of the
    kernel is among what is appended. *)
Theorem codegen_loops_writes_the_kernel (ctx : Context) (W : Z)
    (is_gcc : bool) (k : CppKernel) (torch_num_threads : Z)
    (ws : WorkSharing.t) (iv : list string) (rs cr : list expr) (rd : nat)
    (cs : list string) :
  itervars k = Some iv ->
  ranges k = Some rs ->
  reduction_depth k = Some rd ->
  call_ranges k = Some cr ->
  reduction_clauses (reduction_var_map k) = inl cs ->
  1 <= parallel_num_threads (config_cpp ctx) torch_num_threads < 2 ^ 1023 ->
  1 <= min_chunk_size (config_cpp ctx) ->
  Z.abs (sizevars_size_hint (graph ctx) (sympy_product cr)) < 2 ^ 1023 ->
  exists ws' evs,
    codegen_loops ctx W is_gcc k torch_num_threads ws = (ws', Done)
    /\ WorkSharing.code ws' = WorkSharing.code ws ++ evs
    /\ forall x, In x (kernel_lines k) -> In (Line x) evs.
Proof.
  intros Hiv Hrs Hrd Hcr Hcs HT Hmin Hwork.
  unfold codegen_loops, LoopNestWithSplit.build. rewrite Hiv, Hrs, Hrd.
  assert (Hfinish : forall n,
    LoopNestWithSplit.max_parallel_depth_cache n = None ->
    match LoopNestWithSplit.root n with
    | [] => exists k0, LoopNestWithSplit.kernel n = LoopNestWithSplit.Kernel k0
                       /\ [k] = [k0]
    | _ :: _ =>
        forallb writable (LoopNestWithSplit.root n) = true
        /\ flat_map get_kernels (LoopNestWithSplit.root n) = [k]
    end ->
    exists ws' evs,
      (let (s, outcome) :=
         codegen_loops_impl ctx W is_gcc k torch_num_threads (n, ws) in
       (snd s, outcome)) = (ws', Done)
      /\ WorkSharing.code ws' = WorkSharing.code ws ++ evs
      /\ forall x, In x (kernel_lines k) -> In (Line x) evs).
  { intros n Hcache Hnest.
    destruct (codegen_loops_impl_writes ctx W is_gcc k torch_num_threads n ws
                cr [k] Hcr HT Hmin Hwork Hcache Hnest)
      as (n' & ws' & evs & Hrun & Hcode & Hin).
    exists ws', evs. rewrite Hrun. split; [reflexivity|].
    split; [exact Hcode|]. intros x Hx. apply Hin.
    cbn [flat_map]. rewrite app_nil_r. exact Hx. }
  destruct (combine iv rs) as [|p vs] eqn:Hvs; unfold ret.
  - apply Hfinish; [reflexivity|]. cbn [LoopNestWithSplit.root].
    exists k. split; reflexivity.
  - apply Hfinish; [reflexivity|]. cbn [LoopNestWithSplit.root].
    assert (Hw := build_levels_writable k rd cs (p :: vs) Hcs 0%nat).
    assert (Hk := build_levels_kernels k rd 0%nat (p :: vs)
                    ltac:(discriminate)).
    destruct (LoopNestWithSplit.build_levels k rd 0 (p :: vs)) as [|l rest].
    + discriminate.
    + split; [exact Hw | exact Hk].
Qed.

(** The theorem on a kernel over 64 by 64 elements with one load, for
    four threads and a coordinator that has written nothing yet. *)
Lemma codegen_loops_writes_the_kernel_witness :
  let ctx := example_context 4 false (fun _ => torch.float32) in
  let k := write_loads ["auto tmp0 = in_ptr0[i1 + (64*i0)];"]
             (fst (set_ranges ctx [Integer 64; Integer 64] []
                     (CppKernel_init 4))) in
  exists ws' evs,
    codegen_loops ctx 16 true k 1 (WorkSharing.init []) = (ws', Done)
    /\ WorkSharing.code ws' = evs
    /\ In (Line "auto tmp0 = in_ptr0[i1 + (64*i0)];") evs.
Proof.
  intros ctx k.
  edestruct (codegen_loops_writes_the_kernel ctx 16 true k 1
               (WorkSharing.init []))
    as (ws' & evs & Hrun & Hcode & Hin).
  - reflexivity.
  - reflexivity.
  - reflexivity.
  - reflexivity.
  - reflexivity.
  - cbn. lia.
  - cbn. lia.
  - cbn. lia.
  - exists ws', evs. split; [exact Hrun|]. split; [exact Hcode|].
    apply Hin. left. reflexivity.
Defined.
